(** * HVM4 graph-algorithm bridge: a shallow embedding and its properties

    The repository turns graph problems into program text for the HVM4
    term-rewriting engine, drives the engine's arenas and harvests numeric
    results.  This development embeds

    - the radix-4 trie that every generated program carries
      ([gen_trie4_ops] in [lib/libhvm4_graph.c], and the template of
      [bench/hybrid_bf.c]),
    - the native graph store ([hvm4_graph_add_edge], [hvm4_graph_add_biedge]),
    - the runtime bridge ([hvm4_lib_reset], [extract_nums], [hvm4_run]),
    - the generated programs themselves (Bellman-Ford with and without early
      termination, frontier search, DAG dynamic programming), and
    - the native reference computation and the graph generator of
      [bench/dag_dp.c].

    A generated definition [@f = λa. λb. body] is read as the Rocq function
    [f a b := body].  The engine is external; three facts about it are used
    throughout and are the reading of the program text adopted here:
    numbers are 32-bit unsigned words with wrap-around arithmetic, a
    comparison yields [1] or [0], and the default arm [λn. e] of a numeric
    switch receives the scrutinee itself. *)

From Stdlib Require Import NArith ZArith Lia List Bool String Ascii.
From stdpp Require Import base list.
From Equations Require Import Equations.
Import ListNotations.

Ltac Zify.zify_post_hook ::= Z.to_euclidean_division_equations.

Open Scope N_scope.

(** ** 32-bit engine words *)

Module U32.

Definition modulus : N := 2 ^ 32.

(** [a + b] on [uint32_t] and on engine numbers. *)
Definition add (a b : N) : N := (a + b) mod modulus.

(** [a - b] on [uint32_t]: the borrow wraps. *)
Definition sub (a b : N) : N := (a + modulus - b mod modulus) mod modulus.

(** [a * b] on [uint32_t]. *)
Definition mul (a b : N) : N := (a * b) mod modulus.

(** The engine's comparison operators produce a number. *)
Definition lt (a b : N) : N := if a <? b then 1 else 0.
Definition gt (a b : N) : N := if b <? a then 1 else 0.
Definition eq (a b : N) : N := if a =? b then 1 else 0.

Definition in_range (a : N) : Prop := a < modulus.

End U32.

(** ** The persistent radix-4 trie *)

Module Trie4.

(** [#QE{}], [#QL{val}] and [#Q{c0,c1,c2,c3}]. *)
Inductive Trie : Type :=
| QE
| QL (val : N)
| Q (c0 c1 c2 c3 : Trie).

(** [@INF = 999999] in every generated preamble. *)
Definition INF : N := 999999.

(** [@q4_get]: the depth is threaded through and never inspected. *)
Fixpoint q4_get (key depth : N) (t : Trie) : N :=
  match t with
  | QE => INF
  | QL val => val
  | Q c0 c1 c2 c3 =>
      let slot := key mod 4 in
      let next := key / 4 in
      let nd := U32.sub depth 1 in
      match slot with
      | 0 => q4_get next nd c0
      | 1 => q4_get next nd c1
      | 2 => q4_get next nd c2
      | _ => q4_get next nd c3
      end
  end.

(** [@q4_set_slot]: a fresh branch with one child set. *)
Definition q4_set_slot (slot : N) (child : Trie) : Trie :=
  match slot with
  | 0 => Q child QE QE QE
  | 1 => Q QE child QE QE
  | 2 => Q QE QE child QE
  | _ => Q QE QE QE child
  end.

Fixpoint trie_size (t : Trie) : nat :=
  match t with
  | Q c0 c1 c2 c3 => S (trie_size c0 + trie_size c1 + trie_size c2 + trie_size c3)
  | _ => 0%nat
  end.

(** [@q4_set].  On a branch the recursion follows the child; on [#QE{}] it
    restarts on [#QE{}] with the depth decremented, so the measure is the
    pair (size of the trie, depth).  [bench/hybrid_bf.c] emits the same
    function with the arms of the slot switch lifted to [@q4_set_QE] and
    [@q4_set_Q]. *)
Equations? q4_set (key val depth : N) (t : Trie) : Trie
  by wf (trie_size t, N.to_nat depth) (Subterm.lexprod _ _ lt lt) :=
  q4_set key val depth (QL old) := QL val;
  q4_set key val depth QE with N.eq_dec depth 0 => {
    | left _ := QL val
    | right _ :=
        q4_set_slot (key mod 4) (q4_set (key / 4) val (U32.sub depth 1) QE) };
  q4_set key val depth (Q c0 c1 c2 c3) with key mod 4 => {
    | 0 := Q (q4_set (key / 4) val (U32.sub depth 1) c0) c1 c2 c3
    | 1 := Q c0 (q4_set (key / 4) val (U32.sub depth 1) c1) c2 c3
    | 2 := Q c0 c1 (q4_set (key / 4) val (U32.sub depth 1) c2) c3
    | _ := Q c0 c1 c2 (q4_set (key / 4) val (U32.sub depth 1) c3) }.
Proof.
  all: try (left; simpl; lia).
  right. unfold U32.sub, U32.modulus. lia.
Defined.

(** [@q4_get_lin] with the arms of [@q4_get_lin_Q] in place: the value and
    the trie rebuilt along the path. *)
Fixpoint q4_get_lin (key depth : N) (t : Trie) : N * Trie :=
  match t with
  | QE => (INF, QE)
  | QL val => (val, QL val)
  | Q c0 c1 c2 c3 =>
      let slot := key mod 4 in
      let next := key / 4 in
      let nd := U32.sub depth 1 in
      match slot with
      | 0 => let '(val, new_c0) := q4_get_lin next nd c0 in (val, Q new_c0 c1 c2 c3)
      | 1 => let '(val, new_c1) := q4_get_lin next nd c1 in (val, Q c0 new_c1 c2 c3)
      | 2 => let '(val, new_c2) := q4_get_lin next nd c2 in (val, Q c0 c1 new_c2 c3)
      | _ => let '(val, new_c3) := q4_get_lin next nd c3 in (val, Q c0 c1 c2 new_c3)
      end
  end.

(** The pair [#P{child, c}] rewrapped by an arm of [@q4_muf_QE] or
    [@q4_muf_Q]. *)
Definition rewrap (f : Trie -> Trie) (r : Trie * N) : Trie * N :=
  let '(child, c) := r in (f child, c).

(** [@q4_min_update_f] with [@q4_muf_QE] and [@q4_muf_Q] in place. *)
Equations? q4_min_update_f (key val depth : N) (t : Trie) : Trie * N
  by wf (trie_size t, N.to_nat depth) (Subterm.lexprod _ _ lt lt) :=
  q4_min_update_f key val depth (QL old) with U32.lt val old => {
    | 0 := (QL old, 0)
    | _ := (QL val, 1) };
  q4_min_update_f key val depth QE with N.eq_dec depth 0 => {
    | left _ := (QL val, 1)
    | right _ :=
        rewrap (q4_set_slot (key mod 4))
               (q4_min_update_f (key / 4) val (U32.sub depth 1) QE) };
  q4_min_update_f key val depth (Q c0 c1 c2 c3) with key mod 4 => {
    | 0 := rewrap (fun new_c0 => Q new_c0 c1 c2 c3)
                  (q4_min_update_f (key / 4) val (U32.sub depth 1) c0)
    | 1 := rewrap (fun new_c1 => Q c0 new_c1 c2 c3)
                  (q4_min_update_f (key / 4) val (U32.sub depth 1) c1)
    | 2 := rewrap (fun new_c2 => Q c0 c1 new_c2 c3)
                  (q4_min_update_f (key / 4) val (U32.sub depth 1) c2)
    | _ := rewrap (fun new_c3 => Q c0 c1 c2 new_c3)
                  (q4_min_update_f (key / 4) val (U32.sub depth 1) c3) }.
Proof.
  all: try (left; simpl; lia).
  right. unfold U32.sub, U32.modulus. lia.
Defined.

(** Where the path of [key] ends: [None] on [#QE{}], [Some old] on
    [#QL{old}].  This is the specification's "previous value of the key". *)
Fixpoint q4_find (key : N) (t : Trie) : option N :=
  match t with
  | QE => None
  | QL val => Some val
  | Q c0 c1 c2 c3 =>
      match key mod 4 with
      | 0 => q4_find (key / 4) c0
      | 1 => q4_find (key / 4) c1
      | 2 => q4_find (key / 4) c2
      | _ => q4_find (key / 4) c3
      end
  end.

(** What [@q4_min_update_f] stores and reports, by where the path ends. *)
Definition muf_stored (v : N) (prev : option N) : N :=
  match prev with
  | None => v
  | Some old => if v <? old then v else old
  end.

Definition muf_flag (v : N) (prev : option N) : N :=
  match prev with
  | None => 1
  | Some old => if v <? old then 1 else 0
  end.

(** A trie of the fixed depth: leaves sit exactly [depth] branches down. *)
Fixpoint wf_trie (depth : nat) (t : Trie) {struct t} : Prop :=
  match t with
  | QE => True
  | QL _ => depth = 0%nat
  | Q c0 c1 c2 c3 =>
      match depth with
      | O => False
      | S d => wf_trie d c0 /\ wf_trie d c1 /\ wf_trie d c2 /\ wf_trie d c3
      end
  end.

End Trie4.

(** ** The native graph store ([lib/libhvm4_graph.c]) *)

Module GraphStore.

(** [hvm4_result_t] and its numeric codes. *)
Inductive hvm4_result_t : Type :=
| HVM4_OK
| HVM4_ERR_INVALID_PARAM
| HVM4_ERR_ALLOC
| HVM4_ERR_HVM4_RUNTIME
| HVM4_ERR_NO_PATH.

Definition result_code (r : hvm4_result_t) : Z :=
  match r with
  | HVM4_OK => 0
  | HVM4_ERR_INVALID_PARAM => -1
  | HVM4_ERR_ALLOC => -2
  | HVM4_ERR_HVM4_RUNTIME => -3
  | HVM4_ERR_NO_PATH => -4
  end%Z.

Record hvm4_edge_t : Type := Edge { src : N; dst : N; weight : N }.

(** [struct hvm4_graph].  [edges] is the heap buffer slot by slot; only the
    first [n_edges] slots have been written. *)
Record hvm4_graph : Type := Graph {
  n_nodes : N;
  n_edges : N;
  capacity : N;
  edges : list hvm4_edge_t
}.

(** [size_t] on the 64-bit targets the library builds for. *)
Definition size_modulus : N := 2 ^ 64.

(** The content of slots that [malloc]/[realloc] hand out is unspecified;
    no generator reads a slot at or beyond [n_edges]. *)
Definition fresh_slot : hvm4_edge_t := Edge 0 0 0.

(** A buffer of [n] slots with the old content kept. *)
Definition realloc_edges (buf : list hvm4_edge_t) (n : N) : list hvm4_edge_t :=
  take (N.to_nat n) buf ++ replicate (N.to_nat n - length buf) fresh_slot.

(** The edges of the graph: the written slots, in insertion order. *)
Definition graph_edges (g : hvm4_graph) : list hvm4_edge_t :=
  take (N.to_nat (n_edges g)) (edges g).

(** [hvm4_graph_new]: [NULL] for [n = 0] or when an allocation fails. *)
Definition hvm4_graph_new (malloc_ok : bool) (n : N) : option hvm4_graph :=
  if n =? 0 then None
  else if negb malloc_ok then None
  else Some (Graph n 0 16 (replicate 16 fresh_slot)).

(** [hvm4_graph_add_edge].  The graph is updated in place, so the state
    after the call is returned next to the result code; [realloc_ok] is the
    outcome of [realloc] should the call reach it.  On a failed [realloc]
    the doubled [capacity] has already been stored. *)
Definition hvm4_graph_add_edge (realloc_ok : bool) (g : option hvm4_graph)
    (s d w : N) : hvm4_result_t * option hvm4_graph :=
  match g with
  | None => (HVM4_ERR_INVALID_PARAM, None)
  | Some g0 =>
      if (n_nodes g0 <=? s) || (n_nodes g0 <=? d)
      then (HVM4_ERR_INVALID_PARAM, Some g0)
      else
        let grown :=
          if capacity g0 <=? n_edges g0 then
            let cap2 := (capacity g0 * 2) mod size_modulus in
            if realloc_ok
            then inr (Graph (n_nodes g0) (n_edges g0) cap2
                            (realloc_edges (edges g0) cap2))
            else inl (Graph (n_nodes g0) (n_edges g0) cap2 (edges g0))
          else inr g0 in
        match grown with
        | inl g1 => (HVM4_ERR_ALLOC, Some g1)
        | inr g1 =>
            (HVM4_OK,
             Some (Graph (n_nodes g1) (U32.add (n_edges g1) 1) (capacity g1)
                         (<[N.to_nat (n_edges g1) := Edge s d w]> (edges g1))))
        end
  end.

(** [hvm4_graph_add_biedge]: two calls of [hvm4_graph_add_edge], the second
    only when the first returned [HVM4_OK]. *)
Definition hvm4_graph_add_biedge (realloc_ok1 realloc_ok2 : bool)
    (g : option hvm4_graph) (a b w : N) : hvm4_result_t * option hvm4_graph :=
  let '(r1, g1) := hvm4_graph_add_edge realloc_ok1 g a b w in
  match r1 with
  | HVM4_OK =>
      let '(r2, g2) := hvm4_graph_add_edge realloc_ok2 g1 b a w in
      match r2 with
      | HVM4_OK => (HVM4_OK, g2)
      | _ => (r2, g2)
      end
  | _ => (r1, g1)
  end.

(** The representation invariant [hvm4_graph_new] establishes and a
    successful [hvm4_graph_add_edge] keeps. *)
Definition graph_ok (g : hvm4_graph) : Prop :=
  n_edges g <= capacity g /\
  length (edges g) = N.to_nat (capacity g) /\
  0 < capacity g.

(** A store with fifteen edges in sixteen slots: the first insertion fits,
    the second needs [realloc], which fails. *)
Definition full_but_one : hvm4_graph :=
  Graph 3 15 16 (replicate 16 (Edge 0 1 1)).

End GraphStore.

(** ** Result terms and their extraction ([extract_nums]) *)

Module Engine.

(** A term is a tag and a 32-bit value; for a constructor the value is the
    heap location of its fields. *)
Record Term : Type := mkTerm { term_tag : N; term_val : N }.

(** Tag numbers, as the comment above [extract_nums] in
    [c3lib/csrc/hvm4_bridge.c] gives them: [C00 = 13], [C02 = 15],
    [NUM = 30], the constructor tags [C00..C16] being consecutive. *)
Definition C00 : N := 13.
Definition C01 : N := 14.
Definition C02 : N := 15.
Definition C16 : N := 29.
Definition NUM : N := 30.

Definition num (v : N) : Term := mkTerm NUM v.

(** The loop [for (i = 0; i < ari; i++) pos = rec(HEAP[loc + i], ...)]. *)
Definition for_fields (rec : Term -> list N -> Z -> option (list N * Z))
    (HEAP : N -> Term) (loc : N) (ari : nat) (out : list N) (pos : Z)
    : option (list N * Z) :=
  fold_left
    (fun acc i =>
       match acc with
       | Some (o, p) => rec (HEAP (U32.add loc (N.of_nat i))) o p
       | None => None
       end)
    (seq 0 ari) (Some (out, pos)).

(** [extract_nums], the same text in [hvm4_bridge.c] and in
    [libhvm4_graph.c].  The output buffer is threaded through; the result is
    the buffer after the walk and the next write position.  The walk follows
    heap locations, so it is bounded by [fuel]: [None] is a walk that did
    not finish. *)
Fixpoint extract_nums (fuel : nat) (HEAP : N -> Term) (term : Term)
    (out : list N) (pos max_out : Z) : option (list N * Z) :=
  match fuel with
  | O => None
  | S fuel' =>
      let tag := term_tag term in
      if tag =? NUM then
        Some (if (pos <? max_out)%Z
              then <[Z.to_nat pos := term_val term]> out
              else out,
              (pos + 1)%Z)
      else if tag =? C00 then Some (out, pos)
      else if tag =? C02 then
        let loc := term_val term in
        let head := HEAP loc in
        let tail := HEAP (U32.add loc 1) in
        match extract_nums fuel' HEAP head out pos max_out with
        | Some (out1, pos1) => extract_nums fuel' HEAP tail out1 pos1 max_out
        | None => None
        end
      else if (C01 <=? tag) && (tag <=? C16) then
        let ari := tag - C00 in
        let loc := term_val term in
        for_fields (fun t o p => extract_nums fuel' HEAP t o p max_out)
                   HEAP loc (N.to_nat ari) out pos
      else Some (out, pos)
  end.

(** The numeric leaves of a term in walk order: what an unrestricted
    extraction produces. *)
Fixpoint term_nums (fuel : nat) (HEAP : N -> Term) (term : Term)
    : option (list N) :=
  match fuel with
  | O => None
  | S fuel' =>
      let tag := term_tag term in
      if tag =? NUM then Some [term_val term]
      else if tag =? C00 then Some []
      else if tag =? C02 then
        match term_nums fuel' HEAP (HEAP (term_val term)),
              term_nums fuel' HEAP (HEAP (U32.add (term_val term) 1)) with
        | Some vs, Some ws => Some (vs ++ ws)
        | _, _ => None
        end
      else if (C01 <=? tag) && (tag <=? C16) then
        fold_left
          (fun acc i =>
             match acc, term_nums fuel' HEAP
                          (HEAP (U32.add (term_val term) (N.of_nat i))) with
             | Some vs, Some ws => Some (vs ++ ws)
             | _, _ => None
             end)
          (seq 0 (N.to_nat (tag - C00))) (Some [])
      else Some []
  end.

(** Writing [vals] from position [pos] on, dropping what falls at or beyond
    [max_out]. *)
Fixpoint write_from (vals out : list N) (pos max_out : Z) : list N :=
  match vals with
  | [] => out
  | v :: vals' =>
      write_from vals'
        (if (pos <? max_out)%Z then <[Z.to_nat pos := v]> out else out)
        (pos + 1)%Z max_out
  end.

(** The numeric values a finite result term holds, in the order the walk of
    [extract_nums] meets them: a number holds itself, a cons cell the values
    of its head then of its tail, any other constructor those of its fields
    from the first to the last, and everything else nothing.  A term whose
    fields lead back to itself holds no list of values. *)
Inductive term_values (HEAP : N -> Term) : Term -> list N -> Prop :=
| values_num t : term_tag t = NUM -> term_values HEAP t [term_val t]
| values_nil t : term_tag t = C00 -> term_values HEAP t []
| values_cons t vs ws :
    term_tag t = C02 ->
    term_values HEAP (HEAP (term_val t)) vs ->
    term_values HEAP (HEAP (U32.add (term_val t) 1)) ws ->
    term_values HEAP t (vs ++ ws)
| values_fields t vs :
    C01 <= term_tag t <= C16 -> term_tag t <> C02 ->
    field_values HEAP (term_val t) (seq 0 (N.to_nat (term_tag t - C00))) vs ->
    term_values HEAP t vs
| values_other t :
    term_tag t < C00 \/ NUM < term_tag t -> term_values HEAP t []
with field_values (HEAP : N -> Term) : N -> list nat -> list N -> Prop :=
| fields_done loc : field_values HEAP loc [] []
| fields_next loc i rest vs ws :
    term_values HEAP (HEAP (U32.add loc (N.of_nat i))) vs ->
    field_values HEAP loc rest ws ->
    field_values HEAP loc (i :: rest) (vs ++ ws).

Scheme term_values_mut := Minimality for term_values Sort Prop
  with field_values_mut := Minimality for field_values Sort Prop.

Combined Scheme values_mutind from term_values_mut, field_values_mut.

End Engine.

(** ** The runtime bridge ([c3lib/csrc/hvm4_bridge.c]) *)

Module Bridge.

Import Engine.

(** *** The arenas and [hvm4_lib_reset] *)

(** One evaluator bank: [WNF_ITRS_BANKS[t].itrs], whether
    [WNF_BANKS[t].stack] is allocated, and [WNF_BANKS[t].s_pos]. *)
Record wnf_bank : Type := Bank { itrs : N; has_stack : bool; s_pos : N }.

(** The process-wide state the bridge touches by name.  [TABLE] holds the
    [TABLE_LEN] interned names, [BOOK] maps a symbol id to its definition
    ([0] for none).  What the engine keeps to itself (the term heap, its
    slices and free lists, the thread id, [PRIM_DEFS]) is [internals]. *)
Record arenas (X : Type) : Type := Arenas {
  TABLE : list string;
  BOOK : N -> N;
  PARSE_BINDS_LEN : N;
  PARSE_FRESH_LAB : N;
  PARSE_SEEN_FILES : list string;
  PARSE_FORK_SIDE : Z;
  FRESH : N;
  WNF : list wnf_bank;
  internals : X
}.

Arguments Arenas {X}.
Arguments TABLE {X}.
Arguments BOOK {X}.
Arguments PARSE_BINDS_LEN {X}.
Arguments PARSE_FRESH_LAB {X}.
Arguments PARSE_SEEN_FILES {X}.
Arguments PARSE_FORK_SIDE {X}.
Arguments FRESH {X}.
Arguments WNF {X}.
Arguments internals {X}.

(** The engine routines and constants the reset calls; their code is the
    engine's, not the bridge's.  [madvise_dontneed] is the system call
    [madvise(HEAP, HEAP_CAP * sizeof(Term), MADV_DONTNEED)].  The last two
    fields read the engine's private state: the word a heap location holds
    and the heap's high-water mark. *)
Record engine_ops (X : Type) : Type := EngineOps {
  BOOK_CAP : N;
  madvise_dontneed : X -> X;
  heap_free_reset : X -> X;
  heap_init_slices : X -> X;
  wnf_set_tid : N -> X -> X;
  clear_prim_defs : X -> X;
  prim_init : arenas X -> arenas X;
  table_find : string -> arenas X -> N * arenas X;
  heap_word : X -> N -> N;
  heap_mark : X -> N
}.

Arguments BOOK_CAP {X}.
Arguments madvise_dontneed {X}.
Arguments heap_free_reset {X}.
Arguments heap_init_slices {X}.
Arguments wnf_set_tid {X}.
Arguments clear_prim_defs {X}.
Arguments prim_init {X}.
Arguments table_find {X}.
Arguments heap_word {X}.
Arguments heap_mark {X}.

(** What is assumed of the engine: registering primitives and interning a
    name leave [BOOK] alone, and a symbol id indexes [BOOK]. *)
Record engine_laws {X} (ops : engine_ops X) : Prop := EngineLaws {
  prim_init_BOOK : forall a id, BOOK (prim_init ops a) id = BOOK a id;
  table_find_BOOK :
    forall name a id, BOOK (snd (table_find ops name a)) id = BOOK a id;
  table_find_in_BOOK : forall name a, fst (table_find ops name a) < BOOK_CAP ops
}.

(** Two engine states with the same heap: the same word at every location
    and the same high-water mark. *)
Definition same_heap {X} (ops : engine_ops X) (x y : X) : Prop :=
  (forall loc, heap_word ops x loc = heap_word ops y loc) /\
  heap_mark ops x = heap_mark ops y.

(** Modelled from the spec: the reset releases the term heap's physical
    backing without unmapping it, so that a released location reads as zero
    (what [MADV_DONTNEED] does to a private anonymous mapping when the call
    succeeds; the code does not look at its result), and the heap's
    high-water mark is reset, to a value that does not depend on what ran
    before.  The other routines work on the free lists, the thread id and
    the primitive table: they write no heap word, and the ones that run
    after [heap_init_slices] leave the mark alone. *)
Record heap_laws {X} (ops : engine_ops X) : Prop := HeapLaws {
  madvise_releases :
    forall x loc, heap_word ops (madvise_dontneed ops x) loc = 0;
  heap_free_reset_words :
    forall x loc, heap_word ops (heap_free_reset ops x) loc = heap_word ops x loc;
  heap_init_slices_words :
    forall x loc, heap_word ops (heap_init_slices ops x) loc = heap_word ops x loc;
  heap_init_slices_mark :
    forall x y, heap_mark ops (heap_init_slices ops x) =
                heap_mark ops (heap_init_slices ops y);
  wnf_set_tid_heap : forall t x, same_heap ops (wnf_set_tid ops t x) x;
  clear_prim_defs_heap : forall x, same_heap ops (clear_prim_defs ops x) x;
  prim_init_heap : forall a, same_heap ops (internals (prim_init ops a)) (internals a)
}.

Definition with_internals {X} (f : X -> X) (a : arenas X) : arenas X :=
  Arenas (TABLE a) (BOOK a) (PARSE_BINDS_LEN a) (PARSE_FRESH_LAB a)
         (PARSE_SEEN_FILES a) (PARSE_FORK_SIDE a) (FRESH a) (WNF a)
         (f (internals a)).

(** [memset(BOOK, 0, BOOK_CAP * sizeof(u32))]. *)
Definition memset_BOOK {X} (ops : engine_ops X) (book : N -> N) : N -> N :=
  fun id => if id <? BOOK_CAP ops then 0 else book id.

(** The loop over the evaluator banks. *)
Definition reset_bank (b : wnf_bank) : wnf_bank :=
  Bank 0 (has_stack b) (if has_stack b then 1 else s_pos b).

(** [hvm4_lib_reset]; [free_lists] tells the library's [reset_hvm4], which
    also calls [heap_free_reset], from the bridge's. *)
Definition reset_with {X} (free_lists : bool) (ops : engine_ops X)
    (a : arenas X) : arenas X :=
  (* free TABLE[i]; TABLE_LEN = 0; memset BOOK; madvise the heap *)
  let heap1 := madvise_dontneed ops (internals a) in
  let heap2 := if free_lists then heap_free_reset ops heap1 else heap1 in
  let heap3 := heap_init_slices ops heap2 in
  (* free PARSE_SEEN_FILES[i]; parser globals; evaluator banks *)
  let heap4 := wnf_set_tid ops 0 heap3 in
  let heap5 := clear_prim_defs ops heap4 in
  prim_init ops
    (Arenas [] (memset_BOOK ops (BOOK a)) 0 8388608 [] (-1)%Z 1
            (map reset_bank (WNF a)) heap5).

Definition hvm4_lib_reset {X} := @reset_with X false.

(** Looking a symbol up the way [hvm4_run] looks up ["main"]:
    [BOOK[table_find(name)] != 0]. *)
Definition resolves {X} (ops : engine_ops X) (name : string) (a : arenas X) : bool :=
  let '(id, a') := table_find ops name a in negb (BOOK a' id =? 0).

(** A small engine: a heap of words with its mark, eight symbols, one
    primitive. *)
Record toy_heap : Type := ToyHeap { words : N -> N; next : N }.

Fixpoint index_of (name : string) (table : list string) (i : N) : option N :=
  match table with
  | [] => None
  | x :: rest => if String.eqb x name then Some i else index_of name rest (i + 1)
  end.

Definition toy_find (name : string) (a : arenas toy_heap) : N * arenas toy_heap :=
  match index_of name (TABLE a) 0 with
  | Some id => (N.min id 7, a)
  | None =>
      (N.min (N.of_nat (length (TABLE a))) 7,
       Arenas (TABLE a ++ [name]) (BOOK a) (PARSE_BINDS_LEN a)
              (PARSE_FRESH_LAB a) (PARSE_SEEN_FILES a) (PARSE_FORK_SIDE a)
              (FRESH a) (WNF a) (internals a))
  end.

Definition toy_ops : engine_ops toy_heap :=
  EngineOps toy_heap 8
            (fun h => ToyHeap (fun _ => 0) (next h)) id
            (fun h => ToyHeap (words h) 1) (fun _ => id) id
            (fun a => snd (toy_find "compact" a)) toy_find
            words next.

(** Arenas after a program that defined [main] as symbol 1 and filled the
    first forty heap locations. *)
Definition toy_after_run : arenas toy_heap :=
  Arenas ["compact"; "main"]%string (fun id => if id =? 1 then 40 else 0)
         3 8388609 [] 0%Z 5 [Bank 12 true 9]
         (ToyHeap (fun loc => if loc <? 40 then loc + 7 else 0) 41).

(** Arenas straight after initialisation, in which nothing ran. *)
Definition toy_fresh : arenas toy_heap :=
  Arenas ["compact"]%string (fun _ => 0) 0 8388608 [] (-1)%Z 1
         [Bank 0 false 0] (ToyHeap (fun _ => 0) 1).

(** *** Capturing the collapse output *)

Definition newline : ascii := ascii_of_nat 10.
Definition tab : ascii := ascii_of_nat 9.

Definition is_blank (c : ascii) : bool :=
  Ascii.eqb c " " || Ascii.eqb c tab.

(** [isspace] in the C locale. *)
Definition is_space (c : ascii) : bool :=
  let n := nat_of_ascii c in
  Nat.eqb n 32 || (Nat.leb 9 n && Nat.leb n 13).

Definition digit_of (c : ascii) : option N :=
  let n := nat_of_ascii c in
  if Nat.leb 48 n && Nat.leb n 57 then Some (N.of_nat (n - 48)) else None.

Fixpoint skip_while (p : ascii -> bool) (l : list ascii) : list ascii :=
  match l with
  | c :: rest => if p c then skip_while p rest else l
  | [] => []
  end.

(** The digits at the head of [l], folded into a number. *)
Fixpoint read_digits (l : list ascii) (acc : N) (seen : bool) : option N :=
  match l with
  | c :: rest =>
      match digit_of c with
      | Some d => read_digits rest (acc * 10 + d) true
      | None => if seen then Some acc else None
      end
  | [] => if seen then Some acc else None
  end.

Definition ULONG_MAX : N := 2 ^ 64 - 1.

(** Modelled from the C standard: [strtoul(line, &end, 10)] skips white
    space, accepts a sign and reads decimal digits; [None] is the case
    [end == line] (no conversion).  An out-of-range value is [ULONG_MAX], a
    minus sign negates modulo [2^64]. *)
Definition strtoul10 (line : list ascii) : option N :=
  let l1 := skip_while is_space line in
  let '(neg, l2) :=
    match l1 with
    | c :: rest =>
        if Ascii.eqb c "-" then (true, rest)
        else if Ascii.eqb c "+" then (false, rest)
        else (false, l1)
    | [] => (false, l1)
    end in
  match read_digits l2 0 false with
  | Some v =>
      Some (if ULONG_MAX <? v then ULONG_MAX
            else if neg then (2 ^ 64 - v) mod 2 ^ 64 else v)
  | None => None
  end.

(** [strchr(line, '\n')] followed by [if (line) line++]. *)
Fixpoint after_newline (l : list ascii) : option (list ascii) :=
  match l with
  | c :: rest => if Ascii.eqb c newline then Some rest else after_newline rest
  | [] => None
  end.

(** The loop of [hvm4_run] over the captured text, a C string modelled as
    the characters before its terminator.  Every iteration that continues
    consumes a character, so [fuel = S (length line)] always suffices. *)
Fixpoint parse_lines (fuel : nat) (line : list ascii) (out : list N)
    (count max_out : Z) : list N * Z :=
  match fuel with
  | O => (out, count)
  | S fuel' =>
      match line with
      | [] => (out, count)
      | _ :: _ =>
          if (count <? max_out)%Z then
            match skip_while is_blank line with
            | [] => (out, count)
            | c :: rest =>
                if Ascii.eqb c newline
                then parse_lines fuel' rest out count max_out
                else
                  let '(out1, count1) :=
                    match strtoul10 (c :: rest) with
                    | Some val =>
                        (<[Z.to_nat count := val mod U32.modulus]> out,
                         (count + 1)%Z)
                    | None => (out, count)
                    end in
                  match after_newline (c :: rest) with
                  | Some next => parse_lines fuel' next out1 count1 max_out
                  | None => (out1, count1)
                  end
            end
          else (out, count)
      end
  end.

(** *** [hvm4_run] *)

(** What the calls that [hvm4_run] makes into libc and into the engine
    produce: whether [malloc] returned a buffer for the copy, the entry
    [BOOK[main_id]] after [parse_def], the normal form of [@main] and the
    heap it lives in, whether [open_memstream] returned a stream, and the
    text [eval_collapse] printed. *)
Record outcome : Type := Outcome {
  src_copy_ok : bool;
  main_entry : N;
  normal_form : Term;
  heap_after : N -> Term;
  memstream_ok : bool;
  captured : list ascii
}.

(** [hvm4_run(source, collapse_limit, out, max_out)]: the returned [int] and
    the buffer after the call. *)
Definition hvm4_run (fuel : nat) (env : outcome) (collapse_limit : Z)
    (out : list N) (max_out : Z) : option (Z * list N) :=
  if negb (src_copy_ok env) then Some ((-1)%Z, out)
  else if main_entry env =? 0 then Some ((-1)%Z, out)
  else if (0 <? collapse_limit)%Z then
    if negb (memstream_ok env) then Some ((-1)%Z, out)
    else
      let '(out', count) :=
        parse_lines (S (length (captured env))) (captured env) out 0 max_out in
      Some (count, out')
  else
    match extract_nums fuel (heap_after env) (normal_form env) out 0 max_out with
    | Some (out', pos) => Some (pos, out')
    | None => None
    end.

(** The text of three printed results, and an outcome that carries it. *)
Definition three_lines : list ascii :=
  ["1"; newline; "2"; newline; "3"; newline]%char.

Definition printed_three : outcome :=
  Outcome true 1 (num 0) (fun _ => num 0) true three_lines.

(** An outcome in which only [open_memstream] fails. *)
Definition no_memstream : outcome :=
  Outcome true 1 (num 0) (fun _ => num 0) false [].

(** A cons list [1 <> 2 <> 3 <> []] laid out at heap locations 0, 2, 4. *)
Definition list_heap (loc : N) : Term :=
  match loc with
  | 0 => num 1 | 1 => mkTerm C02 2
  | 2 => num 2 | 3 => mkTerm C02 4
  | 4 => num 3 | _ => mkTerm C00 0
  end.

Definition normal_three : outcome :=
  Outcome true 1 (mkTerm C02 0) list_heap true [].

End Bridge.

(** ** The library's generators and entry points ([lib/libhvm4_graph.c]) *)

Module Lib.

Import Trie4 GraphStore Engine.

(** [ceil_log4_u32].  The loop multiplies a 32-bit [cap] by four; for
    [n > 2^30] the product wraps to zero and the loop never ends, which the
    bound of 32 iterations reports as [None]. *)
Fixpoint ceil_log4_loop (fuel : nat) (n depth cap : N) : option N :=
  match fuel with
  | O => None
  | S fuel' =>
      if cap <? n
      then ceil_log4_loop fuel' n (U32.add depth 1) (U32.mul cap 4)
      else Some depth
  end.

Definition ceil_log4_u32 (n : N) : option N :=
  if n <=? 4 then Some 1 else ceil_log4_loop 32 n 1 4.

(** [rounds = g->n_nodes > 1 ? g->n_nodes - 1 : 1]. *)
Definition bf_rounds (n : N) : N := if 1 <? n then U32.sub n 1 else 1.

(** [run_hvm4]: [hvm4_run] without the collapse branch.  [normal_form] is
    what [eval_normalize] returns, [None] when it does not return. *)
Definition run_hvm4 (fuel : nat) (src_copy_ok : bool) (main_entry : N)
    (normal_form : option Term) (HEAP : N -> Term)
    (out : list N) (max_out : Z) : option (Z * list N) :=
  if negb src_copy_ok then Some ((-1)%Z, out)
  else if main_entry =? 0 then Some ((-1)%Z, out)
  else
    match normal_form with
    | Some result =>
        match extract_nums fuel HEAP result out 0 max_out with
        | Some (out', pos) => Some (pos, out')
        | None => None
        end
    | None => None
    end.

(** [reset_hvm4]: the bridge's reset with [heap_free_reset] added. *)
Definition reset_hvm4 {X} := @Bridge.reset_with X true.

(** *** The shortest-path program of [hvm4_shortest_path] *)

(** [@relax_edge]. *)
Definition relax_edge (DEPTH : N) (dist : Trie) (e : hvm4_edge_t) : Trie :=
  let du := q4_get (src e) DEPTH dist in
  let new_d := U32.add du (weight e) in
  let dv := q4_get (dst e) DEPTH dist in
  match U32.lt new_d dv with
  | 0 => dist
  | _ => q4_set (dst e) new_d DEPTH dist
  end.

(** [@foldl]. *)
Fixpoint foldl {A B} (f : A -> B -> A) (acc : A) (l : list B) : A :=
  match l with
  | [] => acc
  | h :: t => foldl f (f acc h) t
  end.

(** [@relax_round], over the list [@edges] of [gen_edge_list]. *)
Definition relax_round (DEPTH : N) (edges : list hvm4_edge_t) (dist : Trie) : Trie :=
  foldl (relax_edge DEPTH) dist edges.

(** [@repeat = λ&f. λ&x. λ{0: x; λn. @repeat(f, f(x), n - 1)}]. *)
Equations? (noind) repeat {A} (f : A -> A) (x : A) (n : N) : A by wf (N.to_nat n) lt :=
  repeat f x n with N.eq_dec n 0 => {
    | left _ := x
    | right _ := repeat f (f x) (U32.sub n 1) }.
Proof. unfold U32.sub, U32.modulus. lia. Defined.

(** [@init_dist] and [@bf] for a graph, a source and a trie depth. *)
Definition init_dist (DEPTH source : N) : Trie := q4_set source 0 DEPTH QE.

Definition bf (g : hvm4_graph) (DEPTH source : N) : Trie :=
  repeat (relax_round DEPTH (graph_edges g)) (init_dist DEPTH source)
         (bf_rounds (n_nodes g)).

(** [@main = [@q4_get(0, @DEPTH, @bf), ..., @q4_get(n-1, @DEPTH, @bf)]]. *)
Definition shortest_path_main (g : hvm4_graph) (DEPTH source : N) : list N :=
  map (fun i => q4_get (N.of_nat i) DEPTH (bf g DEPTH source))
      (seq 0 (N.to_nat (n_nodes g))).

(** *** The frontier search of [hvm4_reachable] *)

(** [@adj] as [gen_adjacency_list] emits it without weights: one arm per
    node holding the targets of its edges in insertion order, and the
    default arm [λn. []]. *)
Definition adj (g : hvm4_graph) (u : N) : list N :=
  if u <? n_nodes g
  then map dst (filter (fun e => src e = u) (graph_edges g))
  else [].

(** [@member], [@any_in], [@append], [@concat_map], [@expand]. *)
Fixpoint member (x : N) (l : list N) : N :=
  match l with
  | [] => 0
  | h :: t => match U32.eq h x with 0 => member x t | _ => 1 end
  end.

Fixpoint any_in (ys l : list N) : N :=
  match l with
  | [] => 0
  | h :: t => match member h ys with 0 => any_in ys t | _ => 1 end
  end.

Fixpoint append (l ys : list N) : list N :=
  match l with
  | [] => ys
  | h :: t => h :: append t ys
  end.

Fixpoint concat_map (f : N -> list N) (l : list N) : list N :=
  match l with
  | [] => []
  | h :: t => append (f h) (concat_map f t)
  end.

Definition expand (adj : N -> list N) (frontier : list N) : list N :=
  concat_map adj frontier.

(** [@bfs].  Nothing in the text bounds the recursion when [max] is the
    largest word, so the unfoldings are counted by [fuel]; [None] is a
    search that did not come back. *)
Fixpoint bfs (fuel : nat) (adj : N -> list N) (fwd bwd : list N)
    (dist max : N) : option N :=
  match fuel with
  | O => None
  | S fuel' =>
      match U32.gt dist max with
      | 0 =>
          match any_in bwd fwd with
          | 0 =>
              let new_fwd := expand adj fwd in
              bfs fuel' adj bwd new_fwd (U32.add dist 1) max
          | _ => Some dist
          end
      | _ => Some 999
      end
  end.

(** [@main = @bfs([source], [target], 0, max_depth)]; [max_depth + 2]
    unfoldings are all the search can make unless the counter wraps. *)
Definition reachable_main (g : hvm4_graph) (source target max_depth : N) : option N :=
  bfs (S (S (N.to_nat max_depth))) (adj g) [source] [target] 0 max_depth.

(** The round at which the two frontiers first intersect, [Some None] when
    the round count exceeds the limit first: the specification's reading of
    the search, with no sentinel.  The outer [None] is a search that did not
    come back. *)
Fixpoint meet_round (fuel : nat) (adj : N -> list N) (fwd bwd : list N)
    (dist max : N) : option (option N) :=
  match fuel with
  | O => None
  | S fuel' =>
      if max <? dist then Some None
      else if any_in bwd fwd =? 0
           then meet_round fuel' adj bwd (expand adj fwd) (U32.add dist 1) max
           else Some (Some dist)
  end.

(** The engine calls an entry point makes, in order. *)
Inductive engine_call : Type :=
| CallReset     (* reset_hvm4() *)
| CallRun.      (* run_hvm4(ds.data, ...) *)

(** [hvm4_reachable(g, source, target, max_depth, dist)].  [g] and [dist]
    are pointers: [None] is [NULL], [Some d] a cell holding [d].  The result
    is the code, the cell after the call and the engine calls made; the
    whole is [None] when the generated program does not return. *)
Definition hvm4_reachable (src_copy_ok : bool) (g : option hvm4_graph)
    (source target max_depth : N) (dist : option N)
    : option (hvm4_result_t * option N * list engine_call) :=
  match g, dist with
  | Some g0, Some d0 =>
      if (n_nodes g0 <=? source) || (n_nodes g0 <=? target)
      then Some (HVM4_ERR_INVALID_PARAM, dist, [])
      else if source =? target
      then Some (HVM4_OK, Some 0, [])
      else
        let calls := [CallReset; CallRun] in
        let normal_form :=
          if src_copy_ok
          then option_map (fun r => Some (num r))
                          (reachable_main g0 source target max_depth)
          else Some None in
        match normal_form with
        | None => None
        | Some nf =>
            match run_hvm4 1 src_copy_ok 1 nf (fun _ => num 0) [0] 1 with
            | Some (count, out_buf) =>
                if (count <? 0)%Z
                then Some (HVM4_ERR_HVM4_RUNTIME, dist, calls)
                else if 999 <=? nth 0 out_buf 0
                then Some (HVM4_ERR_NO_PATH, dist, calls)
                else Some (HVM4_OK, Some (nth 0 out_buf 0), calls)
            | None => None
            end
        end
  | _, _ => Some (HVM4_ERR_INVALID_PARAM, dist, [])
  end.

(** Two chains that meet, [0 -> 1 -> ... -> 500] and
    [999 -> 998 -> ... -> 500], and the path [0 -> 1000 -> 999]: 1001 nodes
    and 1001 edges in a buffer of 1024 slots. *)
Definition two_chains : hvm4_graph :=
  let up := map (fun i => Edge (N.of_nat i) (N.of_nat (S i)) 1) (seq 0 500) in
  let down := map (fun i => Edge (N.of_nat (S i)) (N.of_nat i) 1) (seq 500 499) in
  Graph 1001 1001 1024
        (up ++ down ++ [Edge 0 1000 1; Edge 1000 999 1] ++ replicate 23 fresh_slot).

End Lib.

(** ** The hybrid Bellman-Ford program ([bench/hybrid_bf.c]) *)

Module Hybrid.

Import Trie4.

(** The graph in native memory, in compressed sparse row form: the edges of
    node [u] are the entries [row_ptr[u] .. row_ptr[u+1]) of [col_idx] and
    [edge_wt]. *)
Record csr : Type := CSR {
  V : N;
  row_ptr : list N;
  col_idx : list N;
  edge_wt : list N
}.

(** [a[i]] on a [uint32_t] array. *)
Definition word_at (a : list N) (i : N) : N := nth (N.to_nat i) a 0.

(** Modelled from the spec: the primitives [%graph_deg], [%graph_target]
    and [%graph_weight] that [hvm4_graph_setup] registers are not in the
    sources at hand; the specification describes them as "degree / target /
    weight-at-offset" over the row pointers, that is [row_ptr[u+1] -
    row_ptr[u]], [col_idx[row_ptr[u] + i]] and [weight[row_ptr[u] + i]]. *)
Definition graph_deg (g : csr) (u : N) : N :=
  U32.sub (word_at (row_ptr g) (u + 1)) (word_at (row_ptr g) u).

Definition graph_target (g : csr) (u i : N) : N :=
  word_at (col_idx g) (word_at (row_ptr g) u + i).

Definition graph_weight (g : csr) (u i : N) : N :=
  word_at (edge_wt g) (word_at (row_ptr g) u + i).

(** [ceil_log4], the same loop as [ceil_log4_u32] of the library. *)
Definition ceil_log4 (n : N) : option N := Lib.ceil_log4_u32 n.

(** [rounds = n > 1 ? n - 1 : 1]. *)
Definition bf_rounds (n : N) : N := if 1 <? n then U32.sub n 1 else 1.

(** [#S{dist, changed}]. *)
Definition state : Type := Trie * N.

(** [@relax_edges]: the loop [i < deg] over the edges of [u].  The
    recursion is counted by [fuel]; [@relax_node_go] starts it with
    [deg + 1], which no run on words exhausts. *)
Fixpoint relax_edges (fuel : nat) (g : csr) (DEPTH u i deg du : N)
    (st : state) : state :=
  match fuel with
  | O => st
  | S fuel' =>
      let '(dist, changed) := st in
      match U32.lt i deg with
      | 0 => (dist, changed)
      | _ =>
          let v := graph_target g u i in
          let new_d := U32.add du (graph_weight g u i) in
          let '(new_dist, c) := q4_min_update_f v new_d DEPTH dist in
          relax_edges fuel' g DEPTH u (U32.add i 1) deg du
                      (new_dist, U32.add changed c)
      end
  end.

(** [@relax_node_go], switched on [du < @INF]. *)
Definition relax_node_go (g : csr) (DEPTH reached u du : N)
    (dist : Trie) (changed : N) : state :=
  match reached with
  | 0 => (dist, changed)
  | _ =>
      relax_edges (S (N.to_nat (graph_deg g u))) g DEPTH u 0 (graph_deg g u) du
                  (dist, changed)
  end.

(** [@relax_node_et]. *)
Definition relax_node_et (g : csr) (DEPTH u : N) (st : state) : state :=
  let '(dist, changed) := st in
  let '(du, dist2) := q4_get_lin u DEPTH dist in
  relax_node_go g DEPTH (U32.lt du INF) u du dist2 changed.

(** [@node_loop]: the loop [i < @V], started by [@relax_round_et] with
    [V + 1] unfoldings. *)
Fixpoint node_loop (fuel : nat) (g : csr) (DEPTH i : N) (st : state) : state :=
  match fuel with
  | O => st
  | S fuel' =>
      match U32.lt i (V g) with
      | 0 => st
      | _ => node_loop fuel' g DEPTH (U32.add i 1) (relax_node_et g DEPTH i st)
      end
  end.

(** [@relax_round_et]: one round, the flag starting from zero. *)
Definition relax_round_et (g : csr) (DEPTH : N) (st : state) : state :=
  let '(dist, old_changed) := st in
  node_loop (S (N.to_nat (V g))) g DEPTH 0 (dist, 0).

(** [@bf_loop] with [@bf_check] and [@bf_check_go] in place; [%compact] is
    a barrier that forces its argument and returns it. *)
Equations? bf_loop (g : csr) (DEPTH n : N) (st : state) : state
  by wf (N.to_nat n) lt :=
  bf_loop g DEPTH n st with N.eq_dec n 0 => {
    | left _ := st
    | right _ with relax_round_et g DEPTH st => {
        | (dist, changed) with changed => {
            | 0 := (dist, 0)
            | _ := bf_loop g DEPTH (U32.sub n 1) (dist, 1) } } }.
Proof. unfold U32.sub, U32.modulus. lia. Defined.

(** The states the executed rounds of [@bf_loop] return, in order: the
    same recursion, keeping what each round produced. *)
Equations? bf_trace (g : csr) (DEPTH n : N) (st : state) : list state
  by wf (N.to_nat n) lt :=
  bf_trace g DEPTH n st with N.eq_dec n 0 => {
    | left _ := []
    | right _ with relax_round_et g DEPTH st => {
        | (dist, changed) with changed => {
            | 0 := [(dist, changed)]
            | _ := (dist, changed) :: bf_trace g DEPTH (U32.sub n 1) (dist, 1) } } }.
Proof. unfold U32.sub, U32.modulus. lia. Defined.

(** [@init_dist] and [@bf]. *)
Definition init_dist (DEPTH source : N) : Trie := q4_set source 0 DEPTH QE.

Definition bf (g : csr) (DEPTH source : N) : state :=
  bf_loop g DEPTH (bf_rounds (V g)) (init_dist DEPTH source, 1).

(** [@extract_go], started by [@main] with [V] unfoldings. *)
Fixpoint extract_go (fuel : nat) (g : csr) (DEPTH i : N) (r : N * Trie) : list N :=
  match fuel with
  | O => []
  | S fuel' =>
      let '(val, dist) := r in
      match U32.lt (U32.add i 1) (V g) with
      | 0 => [val]
      | _ =>
          val :: extract_go fuel' g DEPTH (U32.add i 1)
                            (q4_get_lin (U32.add i 1) DEPTH dist)
      end
  end.

(** [@main] of the program [gen_hvm4_source(n, source)] run against the
    graph [g] with [V g = n]; [None] when [ceil_log4] does not return. *)
Definition main (g : csr) (source : N) : option (list N) :=
  match ceil_log4 (V g) with
  | None => None
  | Some DEPTH =>
      let '(dist, c) := bf g DEPTH source in
      Some match V g with
           | 0 => []
           | _ => extract_go (N.to_nat (V g)) g DEPTH 0 (q4_get_lin 0 DEPTH dist)
           end
  end.

(** The distance component of one round. *)
Definition round_dist (g : csr) (DEPTH : N) (dist : Trie) : Trie :=
  fst (relax_round_et g DEPTH (dist, 0)).

(** Row pointers of a graph in memory: at least one word per node and one
    more, nondecreasing over the nodes. *)
Definition rows_ok (g : csr) : Prop :=
  (S (N.to_nat (V g)) <= length (row_ptr g))%nat /\
  V g < U32.modulus /\
  (forall u, u < V g -> word_at (row_ptr g) u <= word_at (row_ptr g) (u + 1)) /\
  word_at (row_ptr g) (V g) < U32.modulus.

(** The same, as a check that computes. *)
Definition rows_okb (g : csr) : bool :=
  Nat.leb (S (N.to_nat (V g))) (length (row_ptr g)) &&
  (V g <? U32.modulus) &&
  forallb (fun u => word_at (row_ptr g) (N.of_nat u)
                    <=? word_at (row_ptr g) (N.of_nat u + 1))
          (seq 0 (N.to_nat (V g))) &&
  (word_at (row_ptr g) (V g) <? U32.modulus).

(** A graph of the benchmark's kind: well-formed rows, every edge leading
    from a node to a later node, and no weight above [W]. *)
Definition dag_ok (g : csr) (W : N) : Prop :=
  rows_ok g /\
  forall u e, u < V g ->
    word_at (row_ptr g) u <= e < word_at (row_ptr g) (u + 1) ->
    u < word_at (col_idx g) e < V g /\ word_at (edge_wt g) e <= W.

Definition dag_okb (g : csr) (W : N) : bool :=
  rows_okb g &&
  forallb
    (fun u =>
       forallb
         (fun e =>
            (N.of_nat u <? word_at (col_idx g) (N.of_nat e)) &&
            (word_at (col_idx g) (N.of_nat e) <? V g) &&
            (word_at (edge_wt g) (N.of_nat e) <=? W))
         (seq (N.to_nat (word_at (row_ptr g) (N.of_nat u)))
              (N.to_nat (word_at (row_ptr g) (N.of_nat u + 1))
               - N.to_nat (word_at (row_ptr g) (N.of_nat u)))))
    (seq 0 (N.to_nat (V g))).

(** The graph with one node and no edge. *)
Definition single_node : csr := CSR 1 [0; 0] [] [].

(** The chain [0 -> 1 -> 2] with weights 3 and 4. *)
Definition chain3 : csr := CSR 3 [0; 1; 2; 2] [1; 2] [3; 4].

(** A forward graph of ten nodes whose sink has no incoming edge: the
    chain [0 -> 1 -> ... -> 8] with unit weights. *)
Definition dead_end : csr :=
  CSR 10 [0; 1; 2; 3; 4; 5; 6; 7; 8; 8; 8]
         [1; 2; 3; 4; 5; 6; 7; 8] [1; 1; 1; 1; 1; 1; 1; 1].

(** *** Distance tries against a potential *)

(** What a trie holds at a key, the sentinel standing for "nothing". *)
Definition reading (t : Trie) (v : N) : N :=
  match q4_find v t with Some x => x | None => INF end.

(** The distance trie is sound against the potential [D] (the array of the
    reference): no entry undercuts [D 0 - D v], and an entry is the sentinel
    or at most [v * W]. *)
Definition relaxed (g : csr) (W : N) (dn : nat) (D : list N) (t : Trie) : Prop :=
  wf_trie dn t /\
  (forall v, v < V g -> word_at D 0 <= reading t v + word_at D v) /\
  (forall v, v < V g -> reading t v = INF \/ reading t v <= v * W).

(** Some node at or after [i] carries a tight entry. *)
Definition tight_from (g : csr) (D : list N) (i : N) (t : Trie) : Prop :=
  word_at D 0 < INF ->
  exists v, i <= v < V g /\ reading t v + word_at D v = word_at D 0.

End Hybrid.

(** ** The DAG dynamic-programming benchmark ([bench/dag_dp.c]) *)

Module DagDp.

Import Hybrid.

(** The alphabet [B64] of the engine's identifiers. *)
Definition B64 : list ascii :=
  list_ascii_of_string
    "_abcdefghijklmnopqrstuvwxyzABCDEFGHIJKLMNOPQRSTUVWXYZ0123456789$".

Definition b64_digit (d : N) : ascii := nth (N.to_nat d) B64 "_"%char.

(** [node_name]: the prefix ['e'] and three base-64 digits. *)
Definition node_name (n : N) : string :=
  String "e"
    (String (b64_digit (N.land (N.shiftr n 12) 63))
       (String (b64_digit (N.land (N.shiftr n 6) 63))
          (String (b64_digit (N.land n 63)) EmptyString))).

(** The right-hand sides the generator prints: [0], [@INF], [w + name] and
    [@min(a, b)]. *)
Inductive expr : Type :=
| Zero
| Inf
| Plus (w : N) (name : string)
| Min (a b : expr).

(** The program text as the parser reads it: the chain of bindings
    [! &name = expr;] under [@main =], and the final expression. *)
Record program : Type := Program {
  binds : list (string * expr);
  body : expr
}.

(** The loops that print [@min(w + t, ] for the edges [first .. first + k)
    and then the last summand and the closing parentheses. *)
Fixpoint min_chain (g : csr) (first : N) (k : nat) : expr :=
  match k with
  | O => Plus (word_at (edge_wt g) first) (node_name (word_at (col_idx g) first))
  | S k' =>
      Min (Plus (word_at (edge_wt g) first)
                (node_name (word_at (col_idx g) first)))
          (min_chain g (U32.add first 1) k')
  end.

(** The right-hand side of node [u], by its out-degree. *)
Definition node_expr (g : csr) (u : N) : expr :=
  let deg := U32.sub (word_at (row_ptr g) (u + 1)) (word_at (row_ptr g) u) in
  if deg =? 0 then Inf
  else min_chain g (word_at (row_ptr g) u) (N.to_nat (deg - 1)).

(** [gen_hvm4_source(n, rp, ci, wt, src, dest)]: the binding of [dest], then
    the nodes [n-2, ..., 0] other than [src] and [dest], then the expression
    of [src]. *)
Definition gen_hvm4_source (g : csr) (src dest : N) : program :=
  Program
    ((node_name dest, Zero) ::
     map (fun u => (node_name u, node_expr g u))
         (filter (fun u => u <> src /\ u <> dest)
                 (map N.of_nat (rev (seq 0 (N.to_nat (V g) - 1))))))
    (node_expr g src).

(** Evaluation of the program text: a binding is visible in what follows
    it, and a later binding of a name hides an earlier one. *)
Fixpoint lookup (env : list (string * N)) (x : string) : option N :=
  match env with
  | [] => None
  | (y, v) :: rest => if String.eqb y x then Some v else lookup rest x
  end.

(** [@min = λ&a. λ&b. λ{0: b; λn. a}(a < b)]. *)
Definition min_fn (a b : N) : N :=
  match U32.lt a b with
  | 0 => b
  | _ => a
  end.

Fixpoint eval (env : list (string * N)) (e : expr) : option N :=
  match e with
  | Zero => Some 0
  | Inf => Some Trie4.INF
  | Plus w x =>
      match lookup env x with
      | Some v => Some (U32.add w v)
      | None => None
      end
  | Min a b =>
      match eval env a, eval env b with
      | Some va, Some vb => Some (min_fn va vb)
      | _, _ => None
      end
  end.

Fixpoint run_binds (env : list (string * N)) (bs : list (string * expr))
    : option (list (string * N)) :=
  match bs with
  | [] => Some env
  | (x, e) :: rest =>
      match eval env e with
      | Some v => run_binds ((x, v) :: env) rest
      | None => None
      end
  end.

(** The number [@main] reduces to; [None] when a name is unbound. *)
Definition run (p : program) : option N :=
  match run_binds [] (binds p) with
  | Some env => eval env (body p)
  | None => None
  end.

(** *** The native reference [dag_dp_reference] *)

(** The loop [for (e = rp[u]; e < rp[u + 1]; e++)] over the array [dist],
    started with one unfolding more than there are edges. *)
Fixpoint relax_out (fuel : nat) (g : csr) (u e stop : N) (dist : list N) : list N :=
  match fuel with
  | O => dist
  | S fuel' =>
      if e <? stop then
        let nd := U32.add (word_at (edge_wt g) e)
                          (word_at dist (word_at (col_idx g) e)) in
        relax_out fuel' g u (U32.add e 1) stop
                  (if nd <? word_at dist u
                   then <[N.to_nat u := nd]> dist
                   else dist)
      else dist
  end.

(** The loop [for (u = n - 1; u >= 0; u--)]: [k] nodes are left, the next
    one being [k - 1]. *)
Fixpoint reference_nodes (k : nat) (g : csr) (dest : N) (dist : list N) : list N :=
  match k with
  | O => dist
  | S u =>
      reference_nodes u g dest
        (if N.of_nat u =? dest then dist
         else
           let first := word_at (row_ptr g) (N.of_nat u) in
           let stop := word_at (row_ptr g) (N.of_nat u + 1) in
           relax_out (S (N.to_nat (stop - first))) g (N.of_nat u) first stop dist)
  end.

(** The array [dist] when the loops are done. *)
Definition reference_dist (g : csr) (dest : N) : list N :=
  reference_nodes (N.to_nat (V g)) g dest
    (<[N.to_nat dest := 0]> (replicate (N.to_nat (V g)) Trie4.INF)).

Definition dag_dp_reference (g : csr) (src dest : N) : N :=
  word_at (reference_dist g dest) src.

(** *** The graph generator [gen_dag] *)

(** [lcg_next]. *)
Definition lcg_next (s : N) : N :=
  N.land (U32.add (U32.mul s 1103515245) 12345) 2147483647.

(** The chain [i -> i + 1] for [i + 1 < n]; the generator state is threaded
    through. *)
Fixpoint gen_chain (k : nat) (i s : N) (acc : list (N * N * N))
    : list (N * N * N) * N :=
  match k with
  | O => (acc, s)
  | S k' =>
      let s1 := lcg_next s in
      gen_chain k' (i + 1) s1 (acc ++ [(i, i + 1, s1 mod 10 + 1)])
  end.

(** The loop [for (a = 0; a < attempts && ne < target_e; a++)]. *)
Fixpoint gen_extra (attempts : nat) (n target_e s : N) (acc : list (N * N * N))
    : list (N * N * N) :=
  match attempts with
  | O => acc
  | S a' =>
      if N.of_nat (length acc) <? target_e then
        let s1 := lcg_next s in
        let u := s1 mod n in
        let s2 := lcg_next s1 in
        let v := s2 mod n in
        if v <=? u then gen_extra a' n target_e s2 acc
        else
          let s3 := lcg_next s2 in
          gen_extra a' n target_e s3 (acc ++ [(u, v, s3 mod 20 + 1)])
      else acc
  end.

(** The counting sort into CSR, loop by loop.  [rp[edges[i].u + 1]++] over
    the raw edges: *)
Definition count_sources (raw : list (N * N * N)) (rp : list N) : list N :=
  fold_left
    (fun rp e =>
       let i := fst (fst e) + 1 in
       <[N.to_nat i := U32.add (word_at rp i) 1]> rp)
    raw rp.

(** [for (i = 1; i <= n; i++) rp[i] += rp[i - 1]]. *)
Definition prefix_sums (n : nat) (rp : list N) : list N :=
  fold_left
    (fun rp i =>
       <[i := U32.add (word_at rp (N.of_nat i)) (word_at rp (N.of_nat i - 1))]> rp)
    (seq 1 n) rp.

(** [p = pos[u]++; ci[p] = v; wt[p] = w] over the raw edges. *)
Definition place_edges (raw : list (N * N * N)) (st : list N * list N * list N)
    : list N * list N * list N :=
  fold_left
    (fun st e =>
       let '(pos, ci, wt) := st in
       let '(u, v, w) := e in
       let p := word_at pos u in
       (<[N.to_nat u := U32.add p 1]> pos,
        <[N.to_nat p := v]> ci,
        <[N.to_nat p := w]> wt))
    raw st.

(** The raw edge list: the chain, then the accepted random edges. *)
Definition gen_raw (n epn seed : N) : list (N * N * N) :=
  let '(chain, s) := gen_chain (N.to_nat n - 1) 0 seed [] in
  let attempts := U32.mul (U32.mul n (U32.sub epn 1)) 3 in
  gen_extra (N.to_nat attempts) n (U32.mul n epn) s chain.

(** [gen_dag(n, epn, seed, ...)].  The [calloc]ed row pointers start from
    zero; the cells of [ci] and [wt] are all written by the last loop, so
    what [malloc] left in them does not show and is taken as zero. *)
Definition gen_dag (n epn seed : N) : csr :=
  let raw := gen_raw n epn seed in
  let rp := prefix_sums (N.to_nat n)
              (count_sources raw (replicate (N.to_nat n + 2) 0)) in
  let '(pos, ci, wt) :=
    place_edges raw (take (N.to_nat n + 1) rp,
                     replicate (length raw) 0, replicate (length raw) 0) in
  CSR n rp ci wt.

(** How many edges of a list leave [u], and how many leave a node before
    [u]. *)
Definition out_count (l : list (N * N * N)) (u : N) : nat :=
  length (filter (fun e => fst (fst e) = u) l).

Definition below_count (l : list (N * N * N)) (u : N) : nat :=
  length (filter (fun e => fst (fst e) < u) l).

(** The state of the placing loop after the edges [done] of [raw]: each
    cursor stands behind the edges of its node placed so far, and the cells
    between a row's start and its cursor hold exactly those edges. *)
Definition placed (raw done : list (N * N * N)) (n : N)
    (st : list N * list N * list N) : Prop :=
  let '(pos, ci, wt) := st in
  length pos = (N.to_nat n + 1)%nat /\
  length ci = length raw /\ length wt = length raw /\
  (forall u, u < n ->
     word_at pos u = N.of_nat (below_count raw u + out_count done u)) /\
  (forall u (e : nat), u < n ->
     (below_count raw u <= e < below_count raw u + out_count done u)%nat ->
     exists v w, In (u, v, w) done /\
                 word_at ci (N.of_nat e) = v /\ word_at wt (N.of_nat e) = w) /\
  (forall u v w, In (u, v, w) done ->
     exists e : nat,
       (below_count raw u <= e < below_count raw u + out_count done u)%nat /\
       word_at ci (N.of_nat e) = v /\ word_at wt (N.of_nat e) = w).

(** The bindings made so far cover the nodes after [u]: each one is bound
    to a number within range whose cut at the sentinel is the reference's
    entry. *)
Definition bound_env (g : csr) (W : N) (env : list (string * N)) (u : N) : Prop :=
  forall v, u < v < V g ->
    exists p, lookup env (node_name v) = Some p /\
              p <= Trie4.INF + (V g - 1 - v) * W /\
              word_at (reference_dist g (V g - 1)) v = N.min Trie4.INF p.

End DagDp.

(** ** Size helpers of the library ([ceil_log2_u32], [ceil_log16_u32]) *)

Module Sizes.

(** [ceil_log2_u32]: the loop [while (nn > 1) { rounds++; nn = (nn + 1) / 2; }]
    on 32-bit words; 33 unfoldings are more than any word needs. *)
Fixpoint ceil_log2_loop (fuel : nat) (rounds nn : N) : option N :=
  match fuel with
  | O => None
  | S fuel' =>
      if 1 <? nn
      then ceil_log2_loop fuel' (U32.add rounds 1) (U32.add nn 1 / 2)
      else Some rounds
  end.

Definition ceil_log2_u32 (n : N) : option N :=
  if n <=? 1 then Some 1
  else
    match ceil_log2_loop 33 0 n with
    | Some rounds => Some (if 0 <? rounds then rounds else 1)
    | None => None
    end.

(** [ceil_log16_u32]: the loop of [ceil_log4_u32] with sixteen for four. *)
Fixpoint ceil_log16_loop (fuel : nat) (n depth cap : N) : option N :=
  match fuel with
  | O => None
  | S fuel' =>
      if cap <? n
      then ceil_log16_loop fuel' n (U32.add depth 1) (U32.mul cap 16)
      else Some depth
  end.

Definition ceil_log16_u32 (n : N) : option N :=
  if n <=? 16 then Some 1 else ceil_log16_loop 32 n 1 16.

(** The loop the two capacity searches share, for a base [b]. *)
Fixpoint cap_loop (b : N) (fuel : nat) (n depth cap : N) : option N :=
  match fuel with
  | O => None
  | S fuel' =>
      if cap <? n
      then cap_loop b fuel' n (U32.add depth 1) (U32.mul cap b)
      else Some depth
  end.

End Sizes.

(** ** The string builder of the library ([dstring_t]) *)

Module DStr.

(** [dstring_t]: the heap buffer byte by byte, the length of the text in it
    and the size of the buffer. *)
Record dstring : Type := DString {
  data : list ascii;
  len : N;
  capacity : N
}.

Definition NUL : ascii := "000"%char.

(** [size_t] arithmetic. *)
Definition size_add (a b : N) : N := (a + b) mod GraphStore.size_modulus.
Definition size_mul (a b : N) : N := (a * b) mod GraphStore.size_modulus.

(** What [malloc] and [realloc] leave in fresh bytes is unspecified; no
    routine below reads a byte it has not written. *)
Definition fresh_byte : ascii := "?"%char.

(** [dstr_init], the allocation succeeding. *)
Definition dstr_init : dstring :=
  DString (<[0%nat := NUL]> (replicate 4096 fresh_byte)) 0 4096.

(** [dstr_free]. *)
Definition dstr_free (ds : dstring) : dstring := DString [] 0 0.

(** [while (ds->capacity < ds->len + needed + 1) ds->capacity *= 2;] -
    [None] when the loop is still running after [fuel] rounds. *)
Fixpoint grow (fuel : nat) (cap target : N) : option N :=
  match fuel with
  | O => None
  | S fuel' =>
      if cap <? target then grow fuel' (size_mul cap 2) target else Some cap
  end.

(** [realloc] to [n] bytes, succeeding: the old bytes are kept. *)
Definition realloc_bytes (buf : list ascii) (n : N) : list ascii :=
  take (N.to_nat n) buf ++ replicate (N.to_nat n - length buf) fresh_byte.

(** [dstr_ensure]; 65 rounds of doubling exhaust every [size_t]. *)
Definition dstr_ensure (ds : dstring) (needed : N) : option dstring :=
  let target := size_add (size_add (len ds) needed) 1 in
  if capacity ds <? target then
    match grow 65 (capacity ds) target with
    | Some cap => Some (DString (realloc_bytes (data ds) cap) (len ds) cap)
    | None => None
    end
  else Some ds.

(** [memcpy(buf + off, src, |src|)]. *)
Fixpoint memcpy_at (buf : list ascii) (off : nat) (src : list ascii) : list ascii :=
  match src with
  | [] => buf
  | c :: rest => memcpy_at (<[off := c]> buf) (S off) rest
  end.

(** [dstr_append]: the text [str] and its terminator are copied to the end
    of the text held. *)
Definition dstr_append (ds : dstring) (str : list ascii) : option dstring :=
  let slen := N.of_nat (length str) in
  match dstr_ensure ds slen with
  | Some ds1 =>
      Some (DString (memcpy_at (data ds1) (N.to_nat (len ds1)) (str ++ [NUL]))
                    (size_add (len ds1) slen) (capacity ds1))
  | None => None
  end.

(** [dstr_appendf]: [formatted] is what [vsnprintf] makes of the format and
    its arguments, [None] when it reports an error ([needed < 0]). *)
Definition dstr_appendf (ds : dstring) (formatted : option (list ascii))
    : option dstring :=
  match formatted with
  | None => Some ds
  | Some text =>
      let needed := N.of_nat (length text) in
      match dstr_ensure ds needed with
      | Some ds1 =>
          Some (DString (memcpy_at (data ds1) (N.to_nat (len ds1)) (text ++ [NUL]))
                        (size_add (len ds1) needed) (capacity ds1))
      | None => None
      end
  end.

(** A sequence of appends, as the generators make them. *)
Fixpoint dstr_append_all (ds : dstring) (pieces : list (list ascii))
    : option dstring :=
  match pieces with
  | [] => Some ds
  | s :: rest =>
      match dstr_append ds s with
      | Some ds1 => dstr_append_all ds1 rest
      | None => None
      end
  end.

(** The builder holds [text]: the text sits at the start of the buffer,
    terminated, and the buffer is as large as [capacity] says. *)
Definition holds (ds : dstring) (text : list ascii) : Prop :=
  len ds = N.of_nat (length text) /\
  length (data ds) = N.to_nat (capacity ds) /\
  len ds < capacity ds /\
  take (length text) (data ds) = text /\
  data ds !! length text = Some NUL /\
  exists k : nat, capacity ds = 4096 * 2 ^ N.of_nat k.

End DStr.

(** ** Building a graph: a caller's sequence of insertions *)

Module GraphBuild.

Import GraphStore.

(** The calls [hvm4_graph_add_edge(g, e.src, e.dst, e.weight)] for the edges
    of a list in order, every [realloc] succeeding: the return codes and
    the store at the end. *)
Fixpoint add_edges (g : option hvm4_graph) (es : list hvm4_edge_t)
    : list hvm4_result_t * option hvm4_graph :=
  match es with
  | [] => ([], g)
  | e :: rest =>
      let '(r, g1) := hvm4_graph_add_edge true g (src e) (dst e) (weight e) in
      let '(rs, g2) := add_edges g1 rest in
      (r :: rs, g2)
  end.

(** The check [src >= g->n_nodes || dst >= g->n_nodes], negated. *)
Definition in_range (n : N) (e : hvm4_edge_t) : Prop := src e < n /\ dst e < n.

#[global] Instance in_range_dec n e : Decision (in_range n e).
Proof. unfold in_range. apply _. Defined.

End GraphBuild.

(** ** The closure program and entry point ([hvm4_closure]) *)

Module Closure.

Import GraphStore Engine.

(** The switch of [@any_reaches] over a list, for a test [reach] on its
    elements: [λ{[]: 0; <>: λ&next. λrest. λ{0: rec(rest); λk. 1}(reach(next))}]. *)
Fixpoint any_of (reach : N -> N) (l : list N) : N :=
  match l with
  | [] => 0
  | next :: rest =>
      match reach next with
      | 0 => any_of reach rest
      | _ => 1
      end
  end.

(** [@can_reach], by the number of edges still allowed.  The text calls
    [@any_reaches(dst, depth - 1, @adj(src))] when [depth] is not zero, and
    [@any_reaches] calls [@can_reach] back at that depth for each
    neighbour. *)
Fixpoint can_reach_at (adj : N -> list N) (d : nat) (src dst : N) : N :=
  match d with
  | O =>
      match U32.eq src dst with
      | 0 => 0
      | _ => 1
      end
  | S d' =>
      match U32.eq src dst with
      | 0 => any_of (fun next => can_reach_at adj d' next dst) (adj src)
      | _ => 1
      end
  end.

Definition can_reach (adj : N -> list N) (src dst depth : N) : N :=
  can_reach_at adj (N.to_nat depth) src dst.

Definition any_reaches (adj : N -> list N) (dst depth : N) (l : list N) : N :=
  any_of (fun next => can_reach adj next dst depth) l.

(** [@main = [@can_reach(0, 0, d), @can_reach(0, 1, d), ...]], row by row. *)
Definition closure_main (g : hvm4_graph) (depth_limit : N) : list N :=
  flat_map
    (fun i => map (fun j => can_reach (Lib.adj g) (N.of_nat i) (N.of_nat j) depth_limit)
                  (seq 0 (N.to_nat (n_nodes g))))
    (seq 0 (N.to_nat (n_nodes g))).

(** The cast [(int)total] of a [size_t]. *)
Definition to_int (x : N) : Z :=
  let r := Z.of_N (x mod U32.modulus) in
  if (r <? 2147483648)%Z then r else (r - 4294967296)%Z.

(** The loop [matrix[i] = out_buf[i] ? 1 : 0] for [i < total]. *)
Definition to_flags (total : nat) (out_buf matrix : list N) : list N :=
  fold_left
    (fun m i => <[i := if nth i out_buf 0 =? 0 then 0 else 1]> m)
    (seq 0 total) matrix.

(** [hvm4_closure(g, depth_limit, matrix)].  [g] and [matrix] are pointers,
    [None] for [NULL].  [malloc_ok] and [src_copy_ok] are the outcomes of
    the two allocations, [nf] and [HEAP] the normal form the engine leaves
    for [@main], [None] when it does not return.  The result is the code,
    the matrix after the call and the engine calls made. *)
Definition hvm4_closure (malloc_ok src_copy_ok : bool)
    (nf : option Term) (HEAP : N -> Term) (fuel : nat)
    (g : option hvm4_graph) (depth_limit : N) (matrix : option (list N))
    : option (hvm4_result_t * option (list N) * list Lib.engine_call) :=
  match g, matrix with
  | Some g0, Some m0 =>
      let total := (n_nodes g0 * n_nodes g0) mod size_modulus in
      if negb malloc_ok
      then Some (HVM4_ERR_ALLOC, matrix, [Lib.CallReset])
      else
        let calls := [Lib.CallReset; Lib.CallRun] in
        match Lib.run_hvm4 fuel src_copy_ok 1 nf HEAP
                (replicate (N.to_nat total) 0) (to_int total) with
        | Some (count, out_buf) =>
            if (count <? 0)%Z
            then Some (HVM4_ERR_HVM4_RUNTIME, matrix, calls)
            else Some (HVM4_OK, Some (to_flags (N.to_nat total) out_buf m0), calls)
        | None => None
        end
  | _, _ => Some (HVM4_ERR_INVALID_PARAM, matrix, [])
  end.

(** A list of numbers as the engine lays it out: [[]] is a nullary
    constructor, [h <> t] a cell of two fields at consecutive locations. *)
Inductive is_list (HEAP : N -> Term) : Term -> list N -> Prop :=
| is_list_nil t : term_tag t = C00 -> is_list HEAP t []
| is_list_cons t v l :
    term_tag t = C02 ->
    HEAP (term_val t) = num v ->
    is_list HEAP (HEAP (U32.add (term_val t) 1)) l ->
    is_list HEAP t (v :: l).

(** A heap holding the list [l] from location 0 on: cell [i] has the number
    at [2 i] and the rest of the list at [2 i + 1]. *)
Definition layout_cell (l : list N) (i : nat) : Term :=
  if (i <? length l)%nat then mkTerm C02 (2 * N.of_nat i) else mkTerm C00 0.

Definition layout (l : list N) (loc : N) : Term :=
  if loc mod 2 =? 0 then num (nth (N.to_nat (loc / 2)) l 0)
  else layout_cell l (S (N.to_nat (loc / 2))).

(** The graph [0 -> 1] on two nodes. *)
Definition one_edge : hvm4_graph :=
  Graph 2 1 16 (Edge 0 1 1 :: replicate 15 fresh_slot).

(** [dst] can be reached from [src] along at most [d] edges. *)
Inductive reaches (adj : N -> list N) : nat -> N -> N -> Prop :=
| reaches_here d u : reaches adj d u u
| reaches_step d u v w :
    In v (adj u) -> reaches adj d v w -> reaches adj (S d) u w.

End Closure.

(** ** What the frontier search of [hvm4_reachable] finds *)

Module Frontier.

(** [x] lies exactly [k] edges of the adjacency away from [u]. *)
Inductive steps (adj : N -> list N) : nat -> N -> N -> Prop :=
| steps_O u : steps adj 0 u u
| steps_S k u v x : In v (adj u) -> steps adj k v x -> steps adj (S k) u x.

(** Round [d] of the search compares the nodes [ceil(d/2)] edges from the
    source with the nodes [floor(d/2)] edges from the target, both along
    out-edges. *)
Definition meets (adj : N -> list N) (source target : N) (d : nat) : Prop :=
  exists x, steps adj (Nat.div2 (S d)) source x /\ steps adj (Nat.div2 d) target x.

(** The graph of [lib/example.c]: node 5 is reached from node 0 along
    [0 -> 1 -> 2 -> 5] and has no out-edge. *)
Definition example_graph : GraphStore.hvm4_graph :=
  GraphStore.Graph 6 7 16
    ([GraphStore.Edge 0 1 2; GraphStore.Edge 0 3 3; GraphStore.Edge 1 2 1;
      GraphStore.Edge 1 4 2; GraphStore.Edge 2 5 1; GraphStore.Edge 3 4 1;
      GraphStore.Edge 4 5 3] ++ replicate 9 GraphStore.fresh_slot).

End Frontier.

(** ** Paths and distances *)

Module Paths.

Import Trie4 GraphStore Hybrid.

(** Walks from [s] in a graph given by its edges, [E u v c] being an edge
    from [u] to [v] of weight [c]: the node the walk ends in, the sum of
    its weights and the nodes it visits, the last one first. *)
Inductive walk (E : N -> N -> N -> Prop) (s : N) : N -> N -> list N -> Prop :=
| walk_here : walk E s s 0 [s]
| walk_step v x c w L :
    walk E s v w L -> E v x c -> walk E s x (w + c) (x :: L).

(** [d] is the distance from [s] to [v] as the programs report it: the
    least weight of a walk where that is below the sentinel, and the
    sentinel where no walk is lighter than it. *)
Definition distance (E : N -> N -> N -> Prop) (s v d : N) : Prop :=
  (d < INF /\ (exists L, walk E s v d L) /\
   forall w L, walk E s v w L -> d <= w) \/
  (d = INF /\ forall w L, walk E s v w L -> INF <= w).

(** The edges of a library graph and of a graph in CSR form. *)
Definition list_edge (g : hvm4_graph) (u v c : N) : Prop :=
  In (Edge u v c) (graph_edges g).

Definition csr_edge (g : csr) (u v c : N) : Prop :=
  u < V g /\
  exists e, word_at (row_ptr g) u <= e < word_at (row_ptr g) (u + 1) /\
            word_at (col_idx g) e = v /\ word_at (edge_wt g) e = c.

(** A graph in memory: well-formed rows, every edge leading to a node of
    the graph, and no weight above [W]. *)
Definition csr_ok (g : csr) (W : N) : Prop :=
  rows_ok g /\
  forall u e, u < V g ->
    word_at (row_ptr g) u <= e < word_at (row_ptr g) (u + 1) ->
    word_at (col_idx g) e < V g /\ word_at (edge_wt g) e <= W.

(** The same, as a check that computes. *)
Definition csr_okb (g : csr) (W : N) : bool :=
  rows_okb g &&
  forallb
    (fun u =>
       forallb
         (fun e =>
            (word_at (col_idx g) (N.of_nat e) <? V g) &&
            (word_at (edge_wt g) (N.of_nat e) <=? W))
         (seq (N.to_nat (word_at (row_ptr g) (N.of_nat u)))
              (N.to_nat (word_at (row_ptr g) (N.of_nat u + 1))
               - N.to_nat (word_at (row_ptr g) (N.of_nat u)))))
    (seq 0 (N.to_nat (V g))).

(** A table of tentative distances is complete for the walks of up to [k]
    edges: no such walk lighter than the sentinel undercuts its entry. *)
Definition complete (E : N -> N -> N -> Prop) (s : N) (a : N -> N) (k : nat) : Prop :=
  forall v w L, walk E s v w L -> (length L <= S k)%nat -> w < INF -> a v <= w.

(** The tentative distances of the library's program: a trie of the right
    depth whose entries stay below the sentinel and are weights of walks
    from the source. *)
Definition tentative (g : hvm4_graph) (dn : nat) (source : N) (t : Trie) : Prop :=
  wf_trie dn t /\
  (forall v, v < n_nodes g -> reading t v <= INF) /\
  (forall v, v < n_nodes g -> reading t v < INF ->
     exists L, walk (list_edge g) source v (reading t v) L).

(** The array of tentative distances of the native reference: one word per
    node, below the sentinel, each finite entry the weight of a walk from
    the source. *)
Definition tentative_array (g : csr) (src : N) (dist : list N) : Prop :=
  length dist = N.to_nat (V g) /\
  (forall v, v < V g -> word_at dist v <= INF) /\
  (forall v, v < V g -> word_at dist v < INF ->
     exists L, walk (csr_edge g) src v (word_at dist v) L).

(** The distance trie of the hybrid program: of the right depth, every
    entry the weight of a walk from the source to its key. *)
Definition sound_trie (g : csr) (W : N) (dn : nat) (source : N) (t : Trie) : Prop :=
  wf_trie dn t /\
  forall v x, v < V g -> q4_find v t = Some x ->
    x <= INF + W /\ exists L, walk (csr_edge g) source v x L.

(** An entry as the relaxation sees it: cut at the sentinel. *)
Definition capped (t : Trie) (v : N) : N := N.min INF (reading t v).

End Paths.
(** ** The entry point [hvm4_shortest_path] *)

Module ShortestPath.

Import Trie4 GraphStore Engine.

(** [hvm4_shortest_path(g, source, dist)].  [g] and [dist] are pointers,
    [None] for [NULL]; the program text is taken to fit in memory.
    [src_copy_ok] is the outcome of the allocation in [run_hvm4], [nf] and
    [HEAP] the normal form the engine leaves for [@main], [None] when it
    does not return.  The engine writes into the caller's array; the result
    is the code, the array after the call and the engine calls made, and the
    whole is [None] when [ceil_log4_u32] or the engine does not return. *)
Definition hvm4_shortest_path (src_copy_ok : bool)
    (nf : option Term) (HEAP : N -> Term) (fuel : nat)
    (g : option hvm4_graph) (source : N) (dist : option (list N))
    : option (hvm4_result_t * option (list N) * list Lib.engine_call) :=
  match g, dist with
  | Some g0, Some d0 =>
      if n_nodes g0 <=? source
      then Some (HVM4_ERR_INVALID_PARAM, dist, [])
      else
        match Lib.ceil_log4_u32 (n_nodes g0) with
        | None => None
        | Some depth =>
            let calls := [Lib.CallReset; Lib.CallRun] in
            match Lib.run_hvm4 fuel src_copy_ok 1 nf HEAP d0
                    (Closure.to_int (n_nodes g0)) with
            | Some (count, out) =>
                if (count <? 0)%Z
                then Some (HVM4_ERR_HVM4_RUNTIME, Some out, calls)
                else Some (HVM4_OK, Some out, calls)
            | None => None
            end
        end
  | _, _ => Some (HVM4_ERR_INVALID_PARAM, dist, [])
  end.

(** The graph of [example.c]'s second test. *)
Definition six_nodes : hvm4_graph :=
  Graph 6 7 16
        ([Edge 0 1 2; Edge 0 3 3; Edge 1 2 1; Edge 1 4 2; Edge 2 5 1;
          Edge 3 4 1; Edge 4 5 3] ++ replicate 9 fresh_slot).

End ShortestPath.
(** ** The benchmark driver of the hybrid program ([hybrid_bf.c]) *)

Module HybridBench.

Import Trie4 Hybrid.

(** *** The native reference [bf_reference] *)

(** The loop [for (e = rp[u]; e < rp[u + 1]; e++)] over the array [dist]
    and the flag [changed], started with one unfolding more than there are
    edges. *)
Fixpoint relax_row (fuel : nat) (g : csr) (u e : N) (st : list N * bool)
    : list N * bool :=
  match fuel with
  | O => st
  | S fuel' =>
      if e <? word_at (row_ptr g) (u + 1) then
        let '(dist, changed) := st in
        let nd := U32.add (word_at dist u) (word_at (edge_wt g) e) in
        let v := word_at (col_idx g) e in
        relax_row fuel' g u (U32.add e 1)
                  (if nd <? word_at dist v
                   then (<[N.to_nat v := nd]> dist, true)
                   else (dist, changed))
      else st
  end.

(** The loop [for (u = 0; u < n; u++)]: [k] nodes are left, the next one
    being [u]. *)
Fixpoint relax_nodes (k : nat) (g : csr) (u : N) (st : list N * bool)
    : list N * bool :=
  match k with
  | O => st
  | S k' =>
      relax_nodes k' g (u + 1)
        (if word_at (fst st) u =? 999999 then st
         else
           let first := word_at (row_ptr g) u in
           let stop := word_at (row_ptr g) (u + 1) in
           relax_row (S (N.to_nat (stop - first))) g u first st)
  end.

(** The loop [for (round = 0; round + 1 < n; round++)] with its [break]. *)
Fixpoint reference_rounds (k : nat) (g : csr) (dist : list N) : list N :=
  match k with
  | O => dist
  | S k' =>
      let '(dist', changed) := relax_nodes (N.to_nat (V g)) g 0 (dist, false) in
      if changed then reference_rounds k' g dist' else dist'
  end.

(** [bf_reference(n, rp, ci, wt, src, dist)]: the array [dist] when the
    loops are done. *)
Definition bf_reference (g : csr) (src : N) : list N :=
  reference_rounds (N.to_nat (V g) - 1) g
    (<[N.to_nat src := 0]> (replicate (N.to_nat (V g)) 999999)).

(** *** The graph generator [gen_graph] *)

(** The loop [for (a = 0; a < attempts && ne < target_e; a++)], which
    skips the pairs with [u == v]. *)
Fixpoint gen_extra (attempts : nat) (n target_e s : N) (acc : list (N * N * N))
    : list (N * N * N) :=
  match attempts with
  | O => acc
  | S a' =>
      if N.of_nat (length acc) <? target_e then
        let s1 := DagDp.lcg_next s in
        let u := s1 mod n in
        let s2 := DagDp.lcg_next s1 in
        let v := s2 mod n in
        if u =? v then gen_extra a' n target_e s2 acc
        else
          let s3 := DagDp.lcg_next s2 in
          gen_extra a' n target_e s3 (acc ++ [(u, v, s3 mod 20 + 1)])
      else acc
  end.

(** The raw edge list: the chain, written by the same loop as in
    [dag_dp.c], then the accepted random edges. *)
Definition gen_raw (n epn seed : N) : list (N * N * N) :=
  let '(chain, s) := DagDp.gen_chain (N.to_nat n - 1) 0 seed [] in
  let attempts := U32.mul (U32.mul n (U32.sub epn 1)) 2 in
  gen_extra (N.to_nat attempts) n (U32.mul n epn) s chain.

(** [gen_graph(n, epn, seed, ...)], with the counting sort of [dag_dp.c]. *)
Definition gen_graph (n epn seed : N) : csr :=
  let raw := gen_raw n epn seed in
  let rp := DagDp.prefix_sums (N.to_nat n)
              (DagDp.count_sources raw (replicate (N.to_nat n + 2) 0)) in
  let '(pos, ci, wt) :=
    DagDp.place_edges raw (take (N.to_nat n + 1) rp,
                           replicate (length raw) 0, replicate (length raw) 0) in
  CSR n rp ci wt.

(** *** The validation in [main] *)

(** The loop [for (i = 0; i < V; i++) if (out[i] != ref[i]) ok = 0], after
    the test of the count. *)
Definition validate (n : N) (count : Z) (out ref : list N) : bool :=
  if (Z.of_N n =? count)%Z
  then forallb (fun i => word_at out (N.of_nat i) =? word_at ref (N.of_nat i))
               (seq 0 (N.to_nat n))
  else false.

(** [main] for the arguments [V] and [epn]: whether the run is reported as
    passed; [None] when the program does not return. *)
Definition main (n epn : N) : option bool :=
  let g := gen_graph n epn (U32.add 42 n) in
  let ref := bf_reference g 0 in
  match Hybrid.main g 0 with
  | None => None
  | Some l =>
      let out := take (N.to_nat n) l ++ replicate (N.to_nat n - length l) 0 in
      Some (validate n (Z.of_nat (length l)) out ref)
  end.

(** Two nodes joined in a cycle, and a third that no edge enters. *)
Definition cycle_and_stray : csr :=
  CSR 3 [0; 1; 2; 3] [1; 0; 0] [5; 1; 2].

End HybridBench.

(** ** The benchmark of the library ([benchmark.c]) *)

Module Benchmark.

Import GraphStore.

(** The body of the loop of [create_tree_graph] for the parent [i]: the
    calls it makes, in order. *)
Definition child_calls (n i : N) : list hvm4_edge_t :=
  let left := U32.add (U32.mul 2 i) 1 in
  let right := U32.add (U32.mul 2 i) 2 in
  (if left <? n then [Edge i left 1] else []) ++
  (if right <? n then [Edge i right 1] else []).

(** The loop [for (i = 0; i < n / 2; i++)]. *)
Definition tree_calls (n : N) : list hvm4_edge_t :=
  flat_map (fun i => child_calls n (N.of_nat i)) (seq 0 (N.to_nat (n / 2))).

(** [create_tree_graph(depth)] for a [depth] below 32, every allocation
    succeeding: [None] is the [NULL] it returns for an empty tree. *)
Definition create_tree_graph (depth : N) : option hvm4_graph :=
  let n := U32.sub (N.shiftl 1 depth mod U32.modulus) 1 in
  match hvm4_graph_new true n with
  | None => None
  | Some g => snd (GraphBuild.add_edges (Some g) (tree_calls n))
  end.

End Benchmark.
(** ** The spanning-tree program and entry point ([hvm4_mst_boruvka]) *)

Module Mst.

Import GraphStore Engine.

(** [@INF = 999]. *)
Definition INF : N := 999.

(** [@get = λ&i. λ{[]: 0; <>: λ&h. λt. λ{0: h; λk. @get(i - 1, t)}(i)}]. *)
Fixpoint get (i : N) (l : list N) : N :=
  match l with
  | [] => 0
  | h :: t => match i with 0 => h | _ => get (U32.sub i 1) t end
  end.

(** [@relabel]. *)
Fixpoint relabel (old new : N) (l : list N) : list N :=
  match l with
  | [] => []
  | h :: t => match U32.eq h old with 0 => h | _ => new end :: relabel old new t
  end.

(** [@edge3]: the first three elements of a list, with defaults. *)
Definition edge3 {A} (f : N -> N -> N -> A) (e : list N) : A :=
  match e with
  | [] => f 0 0 INF
  | [u] => f u 0 INF
  | [u; v] => f u v INF
  | u :: v :: w :: rest => f u v w
  end.

(** [@xor_eq = λa. λb. λ{0: 0; λk. λ{0: 1; λk. 0}(k - 1)}(a + b)]. *)
Definition xor_eq (a b : N) : N :=
  match U32.add a b with
  | 0 => 0
  | _ => match U32.sub (U32.add a b) 1 with 0 => 1 | _ => 0 end
  end.

(** [@pick]. *)
Definition pick {A} (cross w bw : N) (edge best : A) : A :=
  match cross with
  | 0 => best
  | _ => match U32.lt w bw with 0 => best | _ => edge end
  end.

(** [@min_cross]. *)
Fixpoint min_cross (comp : list N) (c : N) (edges : list (list N)) : list N :=
  match edges with
  | [] => [0; 0; INF]
  | edge :: rest =>
      let best := min_cross comp c rest in
      edge3 (fun u v w =>
               let cu := get u comp in
               let cv := get v comp in
               let cross := xor_eq (U32.eq cu c) (U32.eq cv c) in
               edge3 (fun bu bv bw => pick cross w bw [u; v; w] [bu; bv; bw]) best)
            edge
  end.

(** [@all_mins], the countdown [n] given by the number of its steps. *)
Fixpoint all_mins (comp : list N) (edges : list (list N)) (n : nat) (c : N)
    : list (list N) :=
  match n with
  | O => []
  | S k => min_cross comp c edges :: all_mins comp edges k (U32.add c 1)
  end.

(** [@merge]; the pair stands for the list [[comp, total]]. *)
Fixpoint merge (comp : list N) (total : N) (mins : list (list N)) : list N * N :=
  match mins with
  | [] => (comp, total)
  | edge :: rest =>
      edge3 (fun u v w =>
               let cu := get u comp in
               let cv := get v comp in
               match U32.eq cu cv with
               | 0 => merge (relabel cv cu comp) (U32.add total w) rest
               | _ => merge comp total rest
               end)
            edge
  end.

(** [@round]. *)
Definition round (comp : list N) (edges : list (list N)) (n : N) (total : N)
    : list N * N :=
  merge comp total (all_mins comp edges (N.to_nat n) 0).

(** [@run], the countdown [iters] given by the number of its steps. *)
Fixpoint run (iters : nat) (comp : list N) (edges : list (list N)) (n total : N) : N :=
  match iters with
  | O => total
  | S k => let '(nc, nt) := round comp edges n total in run k nc edges n nt
  end.

(** [@edges] and [@comp] as the entry point writes them, and [@main]. *)
Definition edge_triples (g : hvm4_graph) : list (list N) :=
  map (fun e => [src e; dst e; weight e]) (graph_edges g).

Definition own_labels (n : N) : list N := map N.of_nat (seq 0 (N.to_nat n)).

Definition mst_main (g : hvm4_graph) (rounds : N) : N :=
  run (N.to_nat rounds) (own_labels (n_nodes g)) (edge_triples g) (n_nodes g) 0.

(** [hvm4_mst_boruvka(g, rounds, mst_weight)].  [g] and [mst_weight] are
    pointers, [None] for [NULL]; the result is the code, the cell after the
    call and the engine calls made. *)
Definition hvm4_mst_boruvka (src_copy_ok : bool) (g : option hvm4_graph)
    (rounds : N) (mst_weight : option N)
    : option (hvm4_result_t * option N * list Lib.engine_call) :=
  match g, mst_weight with
  | Some g0, Some w0 =>
      let calls := [Lib.CallReset; Lib.CallRun] in
      let nf := if src_copy_ok then Some (num (mst_main g0 rounds)) else None in
      match Lib.run_hvm4 1 src_copy_ok 1 nf (fun _ => num 0) [0] 1 with
      | Some (count, out_buf) =>
          if (count <? 0)%Z
          then Some (HVM4_ERR_HVM4_RUNTIME, mst_weight, calls)
          else Some (HVM4_OK, Some (nth 0 out_buf 0), calls)
      | None => None
      end
  | _, _ => Some (HVM4_ERR_INVALID_PARAM, mst_weight, [])
  end.

(** The states of [@run] from round to round: the labels and the total
    after [k] rounds. *)
Definition after_rounds (g : hvm4_graph) (k : nat) : list N * N :=
  Nat.iter k (fun st => round (fst st) (edge_triples g) (n_nodes g) (snd st))
           (own_labels (n_nodes g), 0).

(** An edge the program can select: lighter than [@INF]. *)
Definition light (e : hvm4_edge_t) : Prop := weight e < INF.

#[global] Instance light_dec e : Decision (light e).
Proof. unfold light. apply _. Defined.

(** Two nodes are joined by edges of [F], taken in either direction. *)
Inductive conn (F : list hvm4_edge_t) : N -> N -> Prop :=
| conn_refl x : conn F x x
| conn_fwd e z : In e F -> conn F (dst e) z -> conn F (src e) z
| conn_bwd e z : In e F -> conn F (src e) z -> conn F (dst e) z.

(** A list of edges without a cycle: each one joins what the ones after
    it leave apart. *)
Inductive forest : list hvm4_edge_t -> Prop :=
| forest_nil : forest []
| forest_cons e F : forest F -> ~ conn F (src e) (dst e) -> forest (e :: F).

(** The total weight of a list of edges. *)
Definition weight_sum (F : list hvm4_edge_t) : N :=
  fold_right (fun e acc => weight e + acc) 0 F.

(** An edge as the entry point writes it, and an edge with exactly one
    end labelled [c]. *)
Definition triple (e : hvm4_edge_t) : list N := [src e; dst e; weight e].

Definition crossing (comp : list N) (c : N) (e : hvm4_edge_t) : Prop :=
  xorb (get (src e) comp =? c) (get (dst e) comp =? c) = true.

(** The labels and the total of the program against the edges [F] selected
    so far: a forest of light edges of the graph whose weights add up to
    the total, and whose trees are the sets of nodes with one label. *)
Definition selected (g : hvm4_graph) (F : list hvm4_edge_t) (st : list N * N) : Prop :=
  length (fst st) = N.to_nat (n_nodes g) /\
  forest F /\
  (forall e, In e F -> In e (graph_edges g) /\ light e) /\
  snd st = weight_sum F mod U32.modulus /\
  forall x y, x < n_nodes g -> y < n_nodes g ->
    (get x (fst st) = get y (fst st) <-> conn F x y).

(** What [@all_mins] hands to [@merge]: placeholders and light edges of
    the graph. *)
Definition pickable (g : hvm4_graph) (m : list N) : Prop :=
  m = [0; 0; INF] \/
  exists e, In e (graph_edges g) /\ light e /\ m = triple e.

#[global] Instance crossing_dec comp c e : Decision (crossing comp c e).
Proof. unfold crossing. apply _. Defined.

#[global] Instance edge_eq_dec : EqDecision hvm4_edge_t.
Proof. solve_decision. Defined.

(** The edges [S] join whatever the light edges of the graph join. *)
Definition spans (g : hvm4_graph) (S : list hvm4_edge_t) : Prop :=
  forall e, In e (graph_edges g) -> light e -> conn S (src e) (dst e).

(** A list of light edges of the graph. *)
Definition light_edges (g : hvm4_graph) (S : list hvm4_edge_t) : Prop :=
  forall e, In e S -> In e (graph_edges g) /\ light e.

(** The edges selected so far can be completed to a spanning list that is
    no heavier than any given one. *)
Definition promising (g : hvm4_graph) (F : list hvm4_edge_t) : Prop :=
  forall S, light_edges g S -> spans g S ->
    exists R, light_edges g R /\ spans g (F ++ R) /\
              weight_sum (F ++ R) <= weight_sum S.

(** No light edge that crosses the label [d] of the round's start is
    lighter than [w]. *)
Definition lower_bound (g : hvm4_graph) (comp0 : list N) (d w : N) : Prop :=
  forall e, In e (graph_edges g) -> light e -> crossing comp0 d e -> w <= weight e.

(** The labels within a round, [c] being the next label to be served:
    labels are only merged, and the nodes of one label hold a label [r] of
    the round's start that bounds the others from below, all others having
    been served. *)
Definition rooted (g : hvm4_graph) (comp0 comp : list N) (c : N) : Prop :=
  (forall z z', z < n_nodes g -> z' < n_nodes g ->
     get z comp0 = get z' comp0 -> get z comp = get z' comp) /\
  forall k, exists r, forall z, z < n_nodes g -> get z comp = k ->
    (get z comp0 <> r -> get z comp0 < c) /\
    forall w, lower_bound g comp0 r w -> lower_bound g comp0 (get z comp0) w.

(** Labels are nodes that carry themselves as label. *)
Definition labelling (g : hvm4_graph) (comp : list N) : Prop :=
  length comp = N.to_nat (n_nodes g) /\
  forall z, z < n_nodes g ->
    get z comp < n_nodes g /\ get (get z comp) comp = get z comp.

(** The labels in use that some light edge leaves. *)
Definition activeb (g : hvm4_graph) (comp : list N) (k : N) : bool :=
  (get k comp =? k) &&
  existsb (fun e => (weight e <? INF) &&
                    xorb (get (src e) comp =? k) (get (dst e) comp =? k))
          (graph_edges g).

Definition active_labels (g : hvm4_graph) (comp : list N) : list N :=
  filter (fun k => activeb g comp k = true)
         (map N.of_nat (seq 0 (N.to_nat (n_nodes g)))).

(** The labels within a round, [c] being the next label to be served:
    labels are only merged, and the edges picked for the labels served join
    nodes of one label. *)
Definition joined (g : hvm4_graph) (comp0 comp : list N) (c : N) : Prop :=
  labelling g comp /\
  (forall z z', z < n_nodes g -> z' < n_nodes g ->
     get z comp0 = get z' comp0 -> get z comp = get z' comp) /\
  forall c' e, c' < c -> In e (graph_edges g) ->
    min_cross comp0 c' (edge_triples g) = triple e ->
    get (src e) comp = get (dst e) comp.

(** No light edge is left between two labels. *)
Definition converged (g : hvm4_graph) (comp : list N) : Prop :=
  forall e, In e (graph_edges g) -> light e ->
    get (src e) comp = get (dst e) comp.

(** The graph of [example.c]'s fourth test: five edges, each in both
    directions. *)
Definition four_nodes : hvm4_graph :=
  Graph 4 10 16
        ([Edge 0 1 4; Edge 1 0 4; Edge 0 2 1; Edge 2 0 1; Edge 1 2 2; Edge 2 1 2;
          Edge 1 3 5; Edge 3 1 5; Edge 2 3 3; Edge 3 2 3] ++ replicate 6 fresh_slot).

(** The same graph with one more edge, of weight 1000. *)
Definition four_nodes_heavy : hvm4_graph :=
  Graph 4 11 16
        ([Edge 0 1 4; Edge 1 0 4; Edge 0 2 1; Edge 2 0 1; Edge 1 2 2; Edge 2 1 2;
          Edge 1 3 5; Edge 3 1 5; Edge 0 3 1000; Edge 2 3 3; Edge 3 2 3]
         ++ replicate 5 fresh_slot).

End Mst.

(** ** Numbers in the captured text of collapse mode *)

Module Collapse.

Import Bridge.

(** The character of a decimal digit. *)
Definition digit_char (d : N) : ascii := ascii_of_nat (48 + N.to_nat d).

(** The decimal digits of [n] in front of [acc], written from the last one
    back; [fuel] bounds their number. *)
Fixpoint decimal_digits (fuel : nat) (n : N) (acc : list ascii) : list ascii :=
  match fuel with
  | O => acc
  | S fuel' =>
      let acc' := digit_char (n mod 10) :: acc in
      if n <? 10 then acc' else decimal_digits fuel' (n / 10) acc'
  end.

(** A number below [10^20] as a printer writes it for [%u], and a list of
    numbers printed one per line. *)
Definition decimal (n : N) : list ascii := decimal_digits 20 n [].

Definition printed (vs : list N) : list ascii :=
  flat_map (fun v => decimal v ++ [newline]) vs.

(** The number a list of digit characters denotes, continuing from [a]. *)
Definition value_from (a : N) (ds : list ascii) : N :=
  fold_left (fun x c => x * 10 + (N.of_nat (nat_of_ascii c) - 48)) ds a.

(** A character that is a decimal digit. *)
Definition is_digit (c : ascii) : Prop := exists d, d < 10 /\ c = digit_char d.

End Collapse.

(* ===================================================================== *)
(** * Properties *)
(* ===================================================================== *)

Import Trie4.

(** ** Facts about the trie *)

Section TrieFacts.

(** The defining equations of [q4_set] and [q4_min_update_f], one level deep. *)
Lemma q4_set_QE k v d :
  q4_set k v d QE =
  if d =? 0 then QL v
  else q4_set_slot (k mod 4) (q4_set (k / 4) v (U32.sub d 1) QE).
Proof.
  rewrite q4_set_equation_1.
  destruct (N.eq_dec d 0) as [->|Hd]; simpl; [reflexivity|].
  apply N.eqb_neq in Hd. rewrite Hd. reflexivity.
Qed.

Lemma q4_set_Q k v d c0 c1 c2 c3 :
  q4_set k v d (Q c0 c1 c2 c3) =
  match k mod 4 with
  | 0 => Q (q4_set (k / 4) v (U32.sub d 1) c0) c1 c2 c3
  | 1 => Q c0 (q4_set (k / 4) v (U32.sub d 1) c1) c2 c3
  | 2 => Q c0 c1 (q4_set (k / 4) v (U32.sub d 1) c2) c3
  | _ => Q c0 c1 c2 (q4_set (k / 4) v (U32.sub d 1) c3)
  end.
Proof.
  rewrite q4_set_equation_3. destruct (k mod 4) as [|[[]|[]|]]; reflexivity.
Qed.

Lemma q4_muf_QE k v d :
  q4_min_update_f k v d QE =
  if d =? 0 then (QL v, 1)
  else rewrap (q4_set_slot (k mod 4))
              (q4_min_update_f (k / 4) v (U32.sub d 1) QE).
Proof.
  rewrite q4_min_update_f_equation_1.
  destruct (N.eq_dec d 0) as [->|Hd]; simpl; [reflexivity|].
  apply N.eqb_neq in Hd. rewrite Hd. reflexivity.
Qed.

Lemma q4_muf_QL k v d old :
  q4_min_update_f k v d (QL old) = if v <? old then (QL v, 1) else (QL old, 0).
Proof.
  rewrite q4_min_update_f_equation_2. unfold U32.lt.
  destruct (v <? old); reflexivity.
Qed.

Lemma q4_muf_Q k v d c0 c1 c2 c3 :
  q4_min_update_f k v d (Q c0 c1 c2 c3) =
  match k mod 4 with
  | 0 => rewrap (fun c => Q c c1 c2 c3) (q4_min_update_f (k / 4) v (U32.sub d 1) c0)
  | 1 => rewrap (fun c => Q c0 c c2 c3) (q4_min_update_f (k / 4) v (U32.sub d 1) c1)
  | 2 => rewrap (fun c => Q c0 c1 c c3) (q4_min_update_f (k / 4) v (U32.sub d 1) c2)
  | _ => rewrap (fun c => Q c0 c1 c2 c) (q4_min_update_f (k / 4) v (U32.sub d 1) c3)
  end.
Proof.
  rewrite q4_min_update_f_equation_3.
  destruct (k mod 4) as [|[[]|[]|]]; reflexivity.
Qed.

Lemma fst_rewrap f r : fst (rewrap f r) = f (fst r).
Proof. destruct r; reflexivity. Qed.

Lemma snd_rewrap f r : snd (rewrap f r) = snd r.
Proof. destruct r; reflexivity. Qed.

(** Induction along the decrements of a depth counter. *)
Lemma depth_ind (P : N -> Prop) :
  (forall d, (d <> 0 -> P (U32.sub d 1)) -> P d) -> forall d, P d.
Proof.
  intros H d. induction d as [d IH] using (well_founded_induction N.lt_wf_0).
  apply H. intros Hd. apply IH. unfold U32.sub, U32.modulus. lia.
Qed.

Lemma q4_find_set_slot k c :
  q4_find k (q4_set_slot (k mod 4) c) = q4_find (k / 4) c.
Proof.
  unfold q4_set_slot.
  destruct (k mod 4) as [|[[]|[]|]] eqn:E; simpl; rewrite E; reflexivity.
Qed.

Lemma q4_get_find t : forall k d,
  q4_get k d t = match q4_find k t with Some val => val | None => INF end.
Proof.
  induction t as [|old|c0 IH0 c1 IH1 c2 IH2 c3 IH3]; intros k d; simpl; auto.
  destruct (k mod 4) as [|[[]|[]|]]; auto.
Qed.

Lemma q4_get_lin_get t : forall k d, q4_get_lin k d t = (q4_get k d t, t).
Proof.
  induction t as [|old|c0 IH0 c1 IH1 c2 IH2 c3 IH3]; intros k d; simpl; auto.
  destruct (k mod 4) as [|[[]|[]|]];
    rewrite ?IH0, ?IH1, ?IH2, ?IH3; reflexivity.
Qed.

Lemma q4_find_set_fresh v : forall d k, q4_find k (q4_set k v d QE) = Some v.
Proof.
  intros d. induction d as [d IH] using depth_ind. intros k.
  rewrite q4_set_QE. destruct (N.eqb_spec d 0) as [->|Hd]; [reflexivity|].
  rewrite q4_find_set_slot. auto.
Qed.

Lemma q4_find_set_same t : forall k v d, q4_find k (q4_set k v d t) = Some v.
Proof.
  induction t as [|old|c0 IH0 c1 IH1 c2 IH2 c3 IH3]; intros k v d.
  - apply q4_find_set_fresh.
  - rewrite q4_set_equation_2. reflexivity.
  - rewrite q4_set_Q.
    destruct (k mod 4) as [|[[]|[]|]] eqn:E; simpl; rewrite E; auto.
Qed.

(** On an empty subtrie the conditional update is a plain insertion. *)
Lemma q4_muf_fresh v : forall d k,
  q4_min_update_f k v d QE = (q4_set k v d QE, 1).
Proof.
  intros d. induction d as [d IH] using depth_ind. intros k.
  rewrite q4_muf_QE, q4_set_QE.
  destruct (N.eqb_spec d 0) as [->|Hd]; [reflexivity|].
  rewrite (IH Hd). reflexivity.
Qed.

Lemma q4_muf_find t : forall k v d,
  q4_find k (fst (q4_min_update_f k v d t)) = Some (muf_stored v (q4_find k t)) /\
  snd (q4_min_update_f k v d t) = muf_flag v (q4_find k t).
Proof.
  induction t as [|old|c0 IH0 c1 IH1 c2 IH2 c3 IH3]; intros k v d.
  - rewrite q4_muf_fresh. simpl. split; [apply q4_find_set_fresh|reflexivity].
  - rewrite q4_muf_QL. simpl. destruct (v <? old); simpl; auto.
  - rewrite q4_muf_Q. simpl.
    destruct (k mod 4) as [|[[]|[]|]] eqn:E;
      rewrite fst_rewrap, snd_rewrap; simpl; rewrite E; auto.
Qed.

End TrieFacts.

(** C2.  Trie round-trip: reading a key back after [q4_set] yields the value
    written, whatever the trie held before.  The equation needs neither the
    key range [0..n-1] nor well-formedness of the trie, so it is stated for
    every key, value, depth and trie; both generators emit this [q4_get] and
    [q4_set]. *)
Theorem q4_get_set_roundtrip (k v depth : N) (T : Trie) :
  q4_get k depth (q4_set k v depth T) = v.
Proof.
  rewrite q4_get_find, q4_find_set_same. reflexivity.
Qed.

(** C3, as stated, fails: on an absent key the update stores the value
    itself, which is not [min v INF] once [v] exceeds the sentinel. *)
Lemma q4_min_update_above_sentinel :
  let r := q4_min_update_f 0 1000000 1 QE in
  wf_trie 1 QE /\
  r = (Q (QL 1000000) QE QE QE, 1) /\
  q4_get 0 1 (fst r) = 1000000 /\
  N.min 1000000 (q4_get 0 1 QE) = 999999 /\
  q4_get 0 1 (fst r) <> N.min 1000000 (q4_get 0 1 QE).
Proof.
  vm_compute. repeat split; congruence.
Qed.

(** C3, amended.  For a value not above the sentinel, reading the key after
    [q4_min_update_f] yields the minimum of the value and the previous
    reading (the sentinel when the key was absent); the flag is [1] when the
    path ended in [#QE{}] and [(v < old)] when it ended in [#QL{old}]; and
    for a value strictly below the sentinel the flag is [1] exactly when the
    reading decreased. *)
Theorem q4_min_update_spec (k v depth : N) (T : Trie) :
  v <= INF ->
  let r := q4_min_update_f k v depth T in
  q4_get k depth (fst r) = N.min v (q4_get k depth T) /\
  (q4_find k T = None -> snd r = 1) /\
  (forall old, q4_find k T = Some old -> snd r = U32.lt v old) /\
  (v < INF -> (snd r = 1 <-> q4_get k depth (fst r) < q4_get k depth T)).
Proof.
  intros Hv r. subst r.
  destruct (q4_muf_find T k v depth) as [Hf Hc].
  rewrite !q4_get_find, Hf, Hc.
  destruct (q4_find k T) as [old|]; simpl; unfold U32.lt.
  - split; [destruct (N.ltb_spec v old); lia|].
    split; [discriminate|].
    split; [intros o [= <-]; reflexivity|].
    intros _. destruct (N.ltb_spec v old); split; intros; try lia; discriminate.
  - split; [lia|]. split; [reflexivity|]. split; [discriminate|].
    intros Hlt. split; intros; [lia|reflexivity].
Qed.

Lemma q4_min_update_spec_witness :
  5 <= INF /\
  q4_get 7 2 (fst (q4_min_update_f 7 5 2 (q4_set 7 42 2 QE))) =
  N.min 5 (q4_get 7 2 (q4_set 7 42 2 QE)).
Proof.
  split; [vm_compute; discriminate|].
  exact (proj1 (q4_min_update_spec 7 5 2 (q4_set 7 42 2 QE)
                  ltac:(vm_compute; discriminate))).
Defined.


Example q4_get_set_example : q4_get 7 2 (q4_set 7 42 2 QE) = 42.
Proof. reflexivity. Qed.

Example q4_min_update_example :
  q4_min_update_f 7 5 2 (q4_set 7 42 2 QE) = (q4_set 7 5 2 QE, 1).
Proof. reflexivity. Qed.

(** ** The graph store *)

Import GraphStore.

Section GraphStoreFacts.

Lemma take_insert_snoc {A} (l : list A) (i : nat) (x : A) :
  (i < length l)%nat -> take (S i) (<[i := x]> l) = take i l ++ [x].
Proof.
  revert i. induction l as [|y l IH]; intros [|i] Hi; simpl in *; try lia.
  - rewrite take_0. reflexivity.
  - f_equal. apply IH. lia.
Qed.

Lemma take_realloc_edges buf n k :
  (k <= length buf)%nat -> (k <= N.to_nat n)%nat ->
  take k (realloc_edges buf n) = take k buf.
Proof.
  intros Hk Hn. unfold realloc_edges.
  rewrite take_app_le by (rewrite length_take; lia).
  rewrite take_take. f_equal. lia.
Qed.

Lemma length_realloc_edges buf n : length (realloc_edges buf n) = N.to_nat n.
Proof.
  unfold realloc_edges. rewrite length_app, length_take, length_replicate. lia.
Qed.

(** A single insertion, by outcome. *)
Lemma add_edge_cases ok g s d w :
  graph_ok g -> n_edges g + 1 < U32.modulus ->
  capacity g * 2 < size_modulus ->
  match hvm4_graph_add_edge ok (Some g) s d w with
  | (HVM4_OK, Some g') =>
      s < n_nodes g /\ d < n_nodes g /\
      graph_edges g' = graph_edges g ++ [Edge s d w] /\
      n_edges g' = n_edges g + 1 /\ n_nodes g' = n_nodes g /\
      graph_ok g' /\ capacity g' <= capacity g * 2
  | (r, Some g') =>
      r <> HVM4_OK /\ graph_edges g' = graph_edges g /\
      n_edges g' = n_edges g /\ n_nodes g' = n_nodes g
  | (_, None) => False
  end.
Proof.
  intros (Hle & Hlen & Hpos) Hn Hcap. unfold hvm4_graph_add_edge.
  destruct (N.leb_spec (n_nodes g) s); simpl; [repeat split; congruence|].
  destruct (N.leb_spec (n_nodes g) d); simpl; [repeat split; congruence|].
  assert (Hadd : U32.add (n_edges g) 1 = n_edges g + 1).
  { unfold U32.add. apply N.mod_small. exact Hn. }
  destruct (N.leb_spec (capacity g) (n_edges g)) as [Hfull|Hroom].
  - destruct ok; simpl; [|repeat split; congruence].
    rewrite (N.mod_small (capacity g * 2)) by exact Hcap.
    rewrite Hadd. unfold graph_ok, graph_edges; simpl.
    repeat split; try lia.
    + replace (N.to_nat (n_edges g + 1)) with (S (N.to_nat (n_edges g))) by lia.
      rewrite take_insert_snoc by (rewrite length_realloc_edges; lia).
      rewrite take_realloc_edges by lia. reflexivity.
    + rewrite length_insert, length_realloc_edges. reflexivity.
  - simpl. rewrite Hadd. unfold graph_ok, graph_edges; simpl.
    repeat split; try lia.
    + replace (N.to_nat (n_edges g + 1)) with (S (N.to_nat (n_edges g))) by lia.
      rewrite take_insert_snoc by lia. reflexivity.
    + rewrite length_insert. exact Hlen.
Qed.

End GraphStoreFacts.

(** C9.  [hvm4_graph_add_biedge] adds [(a, b, w)] and then [(b, a, w)].
    When the first insertion fails its code is returned and no edge is
    added; when the second fails its code is returned and the first edge
    stays in the graph; when both succeed both edges are there, in that
    order.  The graph is assumed representable: the invariant of the store
    holds and neither the 32-bit edge counter nor the 64-bit capacity
    overflows during the call. *)
Theorem add_biedge_not_rolled_back (ok1 ok2 : bool) (g : hvm4_graph) (a b w : N) :
  graph_ok g ->
  n_edges g + 2 < U32.modulus ->
  capacity g * 4 < size_modulus ->
  let first := hvm4_graph_add_edge ok1 (Some g) a b w in
  let second := hvm4_graph_add_edge ok2 (snd first) b a w in
  let both := hvm4_graph_add_biedge ok1 ok2 (Some g) a b w in
  exists g', snd both = Some g' /\
    (fst first <> HVM4_OK ->
       both = first /\ graph_edges g' = graph_edges g) /\
    (fst first = HVM4_OK ->
       both = second /\
       (fst second <> HVM4_OK ->
          graph_edges g' = graph_edges g ++ [Edge a b w]) /\
       (fst second = HVM4_OK ->
          graph_edges g' = graph_edges g ++ [Edge a b w; Edge b a w])).
Proof.
  intros Hok Hn Hcap first second both.
  subst first second both. unfold hvm4_graph_add_biedge.
  pose proof (add_edge_cases ok1 g a b w Hok ltac:(lia) ltac:(lia)) as H1.
  destruct (hvm4_graph_add_edge ok1 (Some g) a b w) as [r1 [g1|]];
    [|destruct r1; contradiction].
  destruct r1; cbn [fst snd] in *;
    try (exists g1; destruct H1 as (_ & He & _);
         split; [reflexivity|]; split; [auto|discriminate]).
  destruct H1 as (_ & _ & He1 & Hn1 & _ & Hok1 & Hcap1).
  pose proof (add_edge_cases ok2 g1 b a w Hok1 ltac:(lia) ltac:(lia)) as H2.
  destruct (hvm4_graph_add_edge ok2 (Some g1) b a w) as [r2 [g2|]];
    [|destruct r2; contradiction].
  exists g2. split; [destruct r2; reflexivity|].
  split; [intros Hne; contradiction|]. intros _.
  split; [destruct r2; reflexivity|].
  destruct r2; cbn [fst snd] in *.
  - destruct H2 as (_ & _ & He2 & _). split; [intros Hne; contradiction|].
    intros _. rewrite He2, He1, <- app_assoc. reflexivity.
  - destruct H2 as (_ & He2 & _). split; [congruence|discriminate].
  - destruct H2 as (_ & He2 & _). split; [congruence|discriminate].
  - destruct H2 as (_ & He2 & _). split; [congruence|discriminate].
  - destruct H2 as (_ & He2 & _). split; [congruence|discriminate].
Qed.

Lemma add_biedge_not_rolled_back_witness :
  hvm4_graph_add_biedge true false (Some full_but_one) 1 2 7 =
    hvm4_graph_add_edge false
      (snd (hvm4_graph_add_edge true (Some full_but_one) 1 2 7)) 2 1 7 /\
  fst (hvm4_graph_add_biedge true false (Some full_but_one) 1 2 7) = HVM4_ERR_ALLOC /\
  exists g', snd (hvm4_graph_add_biedge true false (Some full_but_one) 1 2 7) = Some g' /\
             graph_edges g' = graph_edges full_but_one ++ [Edge 1 2 7].
Proof.
  destruct (add_biedge_not_rolled_back true false full_but_one 1 2 7)
    as (g' & Hg' & _ & Hsecond).
  - unfold graph_ok. vm_compute. repeat split; discriminate.
  - vm_compute. reflexivity.
  - vm_compute. reflexivity.
  - destruct (Hsecond eq_refl) as (Hboth & Hfail & _).
    split; [exact Hboth|]. split; [reflexivity|].
    exists g'. split; [exact Hg'|]. apply Hfail. vm_compute. discriminate.
Defined.

(** ** Extraction and the run operation *)

Import Engine Bridge.

Section ExtractionFacts.

Lemma write_from_app vs ws : forall out pos max_out,
  write_from (vs ++ ws) out pos max_out =
  write_from ws (write_from vs out pos max_out) (pos + Z.of_nat (length vs))%Z max_out.
Proof.
  induction vs as [|v vs IH]; intros out pos max_out; simpl.
  - f_equal. lia.
  - rewrite IH. f_equal. lia.
Qed.

Lemma length_write_from vs : forall out pos max_out,
  length (write_from vs out pos max_out) = length out.
Proof.
  induction vs as [|v vs IH]; intros out pos max_out; simpl; [reflexivity|].
  rewrite IH. destruct (pos <? max_out)%Z; [apply length_insert|reflexivity].
Qed.

Lemma write_from_lookup vs : forall out pos max_out i,
  (0 <= pos)%Z ->
  write_from vs out pos max_out !! i =
  if decide ((Z.to_nat pos <= i < Z.to_nat pos + length vs)%nat /\
             (Z.of_nat i < max_out)%Z /\ (i < length out)%nat)
  then vs !! (i - Z.to_nat pos)%nat
  else out !! i.
Proof.
  induction vs as [|v vs IH]; intros out pos max_out i Hpos; simpl.
  - case_decide; [lia|reflexivity].
  - rewrite IH by lia.
    replace (Z.to_nat (pos + 1)) with (S (Z.to_nat pos)) by lia.
    destruct (Z.ltb_spec pos max_out).
    + rewrite length_insert.
      destruct (decide (i = Z.to_nat pos)) as [->|Hne].
      * rewrite list_lookup_insert.
        repeat case_decide; try lia; rewrite ?Nat.sub_diag; reflexivity.
      * rewrite list_lookup_insert_ne by lia.
        repeat case_decide; try lia; try reflexivity.
        replace (i - Z.to_nat pos)%nat with (S (i - S (Z.to_nat pos))) by lia.
        reflexivity.
    + repeat case_decide; try lia; try reflexivity.
Qed.

Lemma fold_none {A B} (f : option A -> B -> option A) (l : list B) :
  (forall b, f None b = None) -> fold_left f l None = None.
Proof. intros H. induction l; simpl; [reflexivity|]. rewrite H. assumption. Qed.

(** Extraction is the walk that collects the numeric leaves, followed by the
    bounded write. *)
Lemma extract_nums_term_nums fuel HEAP max_out : forall term out pos,
  extract_nums fuel HEAP term out pos max_out =
  match term_nums fuel HEAP term with
  | Some vs => Some (write_from vs out pos max_out, (pos + Z.of_nat (length vs))%Z)
  | None => None
  end.
Proof.
  induction fuel as [|fuel IH]; intros term out pos; [reflexivity|].
  simpl.
  destruct (term_tag term =? NUM) eqn:Enum; [reflexivity|].
  destruct (term_tag term =? C00) eqn:E00; [simpl; do 2 f_equal; lia|].
  assert (Hfold : forall idxs vs0,
    fold_left
      (fun acc i =>
         match acc with
         | Some (o, p) =>
             extract_nums fuel HEAP (HEAP (U32.add (term_val term) (N.of_nat i))) o p max_out
         | None => None
         end) idxs
      (Some (write_from vs0 out pos max_out, (pos + Z.of_nat (length vs0))%Z)) =
    match fold_left
      (fun acc i =>
         match acc, term_nums fuel HEAP (HEAP (U32.add (term_val term) (N.of_nat i))) with
         | Some vs, Some ws => Some (vs ++ ws)
         | _, _ => None
         end) idxs (Some vs0) with
    | Some vs => Some (write_from vs out pos max_out, (pos + Z.of_nat (length vs))%Z)
    | None => None
    end).
  { induction idxs as [|i idxs IHis]; intros vs0; simpl; [reflexivity|].
    rewrite IH.
    destruct (term_nums fuel HEAP (HEAP (U32.add (term_val term) (N.of_nat i)))) as [ws|].
    - rewrite <- write_from_app.
      replace (pos + Z.of_nat (length vs0) + Z.of_nat (length ws))%Z
        with (pos + Z.of_nat (length (vs0 ++ ws)))%Z by (rewrite length_app; lia).
      apply IHis.
    - rewrite !fold_none; auto. }
  destruct (term_tag term =? C02) eqn:E02.
  - rewrite !IH.
    destruct (term_nums fuel HEAP (HEAP (term_val term))) as [vs|]; [|reflexivity].
    rewrite IH.
    destruct (term_nums fuel HEAP (HEAP (U32.add (term_val term) 1))) as [ws|];
      [|reflexivity].
    rewrite write_from_app, length_app. do 2 f_equal. lia.
  - destruct ((C01 <=? term_tag term) && (term_tag term <=? C16)) eqn:Ectr.
    + unfold for_fields. specialize (Hfold (seq 0 (N.to_nat (term_tag term - C00))) []).
      simpl in Hfold. replace (pos + Z.of_nat 0)%Z with pos in Hfold by lia.
      exact Hfold.
    + simpl. do 2 f_equal. lia.
Qed.

Lemma take_write_from vs out cap :
  (cap <= length vs)%nat -> (cap <= length out)%nat ->
  take cap (write_from vs out 0 (Z.of_nat (length out))) = take cap vs.
Proof.
  intros Hvs Hout. apply list_eq. intros i.
  destruct (decide (i < cap)%nat) as [Hi|Hi].
  - rewrite !lookup_take_lt by lia.
    rewrite write_from_lookup by lia. case_decide; [|lia].
    f_equal. lia.
  - rewrite !lookup_take_ge by lia. reflexivity.
Qed.

Lemma write_from_exact vs out :
  (length out <= length vs)%nat ->
  write_from vs out 0 (Z.of_nat (length out)) = take (length out) vs.
Proof.
  intros H. rewrite <- (take_write_from vs out (length out)) by lia.
  rewrite take_ge; [reflexivity|]. rewrite length_write_from. lia.
Qed.

Lemma parse_lines_count fuel : forall line out count max_out,
  (count <= max_out)%Z ->
  (count <= snd (parse_lines fuel line out count max_out) <= max_out)%Z.
Proof.
  induction fuel as [|fuel IH]; intros line out count max_out Hc;
    cbn -[skip_while strtoul10 after_newline]; [lia|].
  destruct line as [|c0 line0]; [simpl; lia|].
  destruct (Z.ltb_spec count max_out); [|simpl; lia].
  destruct (skip_while is_blank (c0 :: line0)) as [|c rest]; [simpl; lia|].
  destruct (Ascii.eqb c newline); [apply IH; lia|].
  destruct (strtoul10 (c :: rest)) as [val|];
    destruct (after_newline (c :: rest)) as [next|]; cbn [snd]; try lia.
  - specialize (IH next (<[Z.to_nat count:=val mod U32.modulus]> out)
                  (count + 1)%Z max_out).
    lia.
  - apply IH; lia.
Qed.


Lemma parse_lines_count_ge fuel : forall line out count max_out,
  (count <= snd (parse_lines fuel line out count max_out))%Z.
Proof.
  induction fuel as [|fuel IH]; intros line out count max_out;
    cbn -[skip_while strtoul10 after_newline]; [lia|].
  destruct line as [|c0 line0]; [simpl; lia|].
  destruct (Z.ltb_spec count max_out); [|simpl; lia].
  destruct (skip_while is_blank (c0 :: line0)) as [|c rest]; [simpl; lia|].
  destruct (Ascii.eqb c newline); [apply IH|].
  destruct (strtoul10 (c :: rest)) as [val|];
    destruct (after_newline (c :: rest)) as [next|]; cbn [snd]; try lia.
  - specialize (IH next (<[Z.to_nat count:=val mod U32.modulus]> out)
                  (count + 1)%Z max_out).
    lia.
  - apply IH.
Qed.

End ExtractionFacts.

(** C5, as stated, fails in collapse mode: the loop over the captured text
    stops at [count < max_out], so with three printed values and capacity two
    the run returns two, not three. *)
Lemma collapse_count_stops_at_capacity :
  hvm4_run 0 printed_three 1 [0; 0; 0] 3 = Some (3%Z, [1; 2; 3]) /\
  hvm4_run 0 printed_three 1 [0; 0] 2 = Some (2%Z, [1; 2]).
Proof. vm_compute. split; reflexivity. Qed.

Section ValueFacts.

Variable HEAP : N -> Term.

(** With enough fuel the walk collects exactly the values of a finite term. *)
Lemma values_enough_fuel :
  (forall t vs, term_values HEAP t vs ->
     exists fuel0, forall fuel, (fuel0 <= fuel)%nat ->
       term_nums fuel HEAP t = Some vs) /\
  (forall loc idxs ws, field_values HEAP loc idxs ws ->
     exists fuel0, forall fuel, (fuel0 <= fuel)%nat -> forall acc,
       fold_left
         (fun acc i =>
            match acc, term_nums fuel HEAP (HEAP (U32.add loc (N.of_nat i))) with
            | Some vs, Some ws => Some (vs ++ ws)
            | _, _ => None
            end) idxs (Some acc) = Some (acc ++ ws)).
Proof.
  apply values_mutind.
  - intros t Ht. exists 1%nat. intros [|fuel] Hf; [lia|]. simpl.
    rewrite Ht. reflexivity.
  - intros t Ht. exists 1%nat. intros [|fuel] Hf; [lia|]. simpl.
    rewrite Ht. reflexivity.
  - intros t vs ws Ht _ [f1 H1] _ [f2 H2]. exists (S (Nat.max f1 f2)).
    intros [|fuel] Hf; [lia|]. simpl. rewrite Ht. cbn.
    rewrite H1, H2 by lia. reflexivity.
  - intros t vs [Hlo Hhi] Hne _ [f1 H1]. exists (S f1).
    intros [|fuel] Hf; [lia|]. simpl.
    unfold C00, C01, C02, C16, NUM in *.
    destruct (N.eqb_spec (term_tag t) 30); [lia|].
    destruct (N.eqb_spec (term_tag t) 13); [lia|].
    destruct (N.eqb_spec (term_tag t) 15); [contradiction|].
    destruct (N.leb_spec 14 (term_tag t)); [|lia].
    destruct (N.leb_spec (term_tag t) 29); [|lia]. cbn [andb].
    rewrite H1 by lia. reflexivity.
  - intros t Ht. exists 1%nat. intros [|fuel] Hf; [lia|]. simpl.
    unfold C00, C01, C02, C16, NUM in *.
    destruct (N.eqb_spec (term_tag t) 30); [lia|].
    destruct (N.eqb_spec (term_tag t) 13); [lia|].
    destruct (N.eqb_spec (term_tag t) 15); [lia|].
    destruct (N.leb_spec 14 (term_tag t)), (N.leb_spec (term_tag t) 29);
      cbn [andb]; try reflexivity; lia.
  - intros loc. exists 0%nat. intros fuel _ acc. simpl. rewrite app_nil_r. reflexivity.
  - intros loc i rest vs ws _ [f1 H1] _ [f2 H2]. exists (Nat.max f1 f2).
    intros fuel Hf acc. simpl. rewrite H1 by lia. rewrite H2 by lia.
    rewrite app_assoc. reflexivity.
Qed.

Lemma extract_values t vs :
  term_values HEAP t vs ->
  exists fuel0, forall fuel, (fuel0 <= fuel)%nat -> forall out pos max_out,
    extract_nums fuel HEAP t out pos max_out =
      Some (write_from vs out pos max_out, (pos + Z.of_nat (length vs))%Z).
Proof.
  intros Hv. destruct (proj1 values_enough_fuel t vs Hv) as [fuel0 H].
  exists fuel0. intros fuel Hf out pos max_out.
  rewrite extract_nums_term_nums, H by exact Hf. reflexivity.
Qed.

(** The values of a term are determined by the term and the heap. *)
Lemma term_values_unique t vs ws :
  term_values HEAP t vs -> term_values HEAP t ws -> vs = ws.
Proof.
  intros H1 H2.
  destruct (proj1 values_enough_fuel t vs H1) as [f1 E1].
  destruct (proj1 values_enough_fuel t ws H2) as [f2 E2].
  specialize (E1 (Nat.max f1 f2) ltac:(lia)).
  specialize (E2 (Nat.max f1 f2) ltac:(lia)). congruence.
Qed.

End ValueFacts.

(** Writing into a buffer of at least [max_out] cells: the first cells take
    the values, the cells from [max_out] on keep what they held. *)
Lemma write_from_window (vs out : list N) (max_out : Z) :
  (max_out <= Z.of_nat (length out))%Z ->
  write_from vs out 0 max_out =
  take (Z.to_nat max_out) vs ++ drop (Nat.min (Z.to_nat max_out) (length vs)) out.
Proof.
  intros Hmax. apply list_eq. intros i. rewrite write_from_lookup by lia.
  change (Z.to_nat 0) with 0%nat. rewrite Nat.sub_0_r.
  destruct (decide (i < Nat.min (Z.to_nat max_out) (length vs))%nat) as [Hi|Hi].
  - case_decide; [|lia].
    rewrite lookup_app_l by (rewrite length_take; lia).
    rewrite lookup_take_lt by lia. reflexivity.
  - case_decide; [lia|].
    rewrite lookup_app_r by (rewrite length_take; lia).
    rewrite length_take, lookup_drop. f_equal. lia.
Qed.

(** C5, amended.  In normalize mode, for a result term that holds more
    numeric values than [max_out], a run given a buffer of at least
    [max_out] cells returns the number of values the term holds, puts the
    first [max_out] of them in the first cells and leaves every cell from
    [max_out] on as it was; a run whose capacity reaches that number returns
    the same count and writes all the values, so the two buffers agree on
    the first [max_out] cells.  In collapse mode the count never exceeds the
    capacity. *)
Theorem run_truncation_by_mode (env : outcome) (limit : Z)
    (vs out : list N) (max_out : Z) :
  src_copy_ok env = true -> main_entry env <> 0 -> memstream_ok env = true ->
  ((limit <= 0)%Z ->
   term_values (heap_after env) (normal_form env) vs ->
   (max_out < Z.of_nat (length vs))%Z ->
   (max_out <= Z.of_nat (length out))%Z ->
   exists fuel0, forall fuel, (fuel0 <= fuel)%nat ->
     hvm4_run fuel env limit out max_out =
       Some (Z.of_nat (length vs),
             take (Z.to_nat max_out) vs ++ drop (Z.to_nat max_out) out) /\
     forall big cap,
       (Z.of_nat (length vs) <= cap <= Z.of_nat (length big))%Z ->
       hvm4_run fuel env limit big cap =
         Some (Z.of_nat (length vs), vs ++ drop (length vs) big)) /\
  ((0 < limit)%Z ->
   forall fuel buf cap, (0 <= cap)%Z ->
   exists count buf',
     hvm4_run fuel env limit buf cap = Some (count, buf') /\
     (0 <= count <= cap)%Z).
Proof.
  intros Hcopy Hmain Hms. unfold hvm4_run. rewrite Hcopy, Hms. cbn [negb].
  apply N.eqb_neq in Hmain. rewrite Hmain. split.
  - intros Hlim Hvs Hn Hout. destruct (Z.ltb_spec 0 limit) as [|_]; [lia|].
    destruct (extract_values _ _ _ Hvs) as [fuel0 Hrun].
    exists fuel0. intros fuel Hf. split.
    + rewrite Hrun by exact Hf. rewrite write_from_window by exact Hout.
      replace (Nat.min (Z.to_nat max_out) (length vs)) with (Z.to_nat max_out) by lia.
      reflexivity.
    + intros big cap Hcap. rewrite Hrun by exact Hf.
      rewrite write_from_window by lia.
      rewrite take_ge by lia.
      replace (Nat.min (Z.to_nat cap) (length vs)) with (length vs) by lia.
      reflexivity.
  - intros Hlim fuel buf cap Hcap.
    destruct (Z.ltb_spec 0 limit) as [_|]; [|lia].
    pose proof (parse_lines_count (S (length (captured env))) (captured env)
                  buf 0 cap Hcap) as Hc.
    destruct (parse_lines _ _ _ _ _) as [buf' count]. simpl in Hc.
    exists count, buf'. split; [reflexivity|lia].
Qed.

Lemma normal_three_values :
  term_values list_heap (mkTerm C02 0) [1; 2; 3].
Proof.
  apply (values_cons list_heap (mkTerm C02 0) [1] [2; 3]); [reflexivity| |].
  { apply (values_num list_heap (num 1)). reflexivity. }
  apply (values_cons list_heap (mkTerm C02 2) [2] [3]); [reflexivity| |].
  { apply (values_num list_heap (num 2)). reflexivity. }
  apply (values_cons list_heap (mkTerm C02 4) [3] []); [reflexivity| |].
  { apply (values_num list_heap (num 3)). reflexivity. }
  apply values_nil. reflexivity.
Defined.

Lemma run_truncation_by_mode_witness :
  exists fuel0, forall fuel, (fuel0 <= fuel)%nat ->
    hvm4_run fuel normal_three 0 [7; 7; 7; 7] 2 = Some (3%Z, [1; 2; 7; 7]) /\
    hvm4_run fuel normal_three 0 [7; 7; 7; 7] 3 = Some (3%Z, [1; 2; 3; 7]).
Proof.
  destruct (proj1 (run_truncation_by_mode normal_three 0 [1; 2; 3] [7; 7; 7; 7] 2
                     eq_refl ltac:(vm_compute; discriminate) eq_refl)
                  ltac:(lia) normal_three_values ltac:(simpl; lia) ltac:(simpl; lia))
    as [fuel0 H].
  exists fuel0. intros fuel Hf. destruct (H fuel Hf) as [Hsmall Hbig].
  split; [exact Hsmall|].
  exact (Hbig [7; 7; 7; 7] 3%Z ltac:(simpl; lia)).
Defined.

(** C8, as stated, fails: in collapse mode the run also returns [-1] when
    [open_memstream] fails, although the copy was allocated and [main]
    resolved. *)
Lemma run_fails_without_memstream :
  src_copy_ok no_memstream = true /\
  main_entry no_memstream <> 0 /\
  hvm4_run 0 no_memstream 1 [] 0 = Some ((-1)%Z, []).
Proof. vm_compute. repeat split; discriminate. Qed.

(** C8, amended.  [hvm4_run] returns [-1] exactly when the copy of the
    source cannot be allocated, when [main] does not resolve to a nonzero
    entry, or when, in collapse mode, the capture stream cannot be opened.
    In every other case it returns a count that is not negative: in collapse
    mode always, in normalize mode as soon as the result term is finite, the
    count being the number of values the term holds.  The library's
    [run_hvm4], which has no collapse mode, returns [-1] exactly in the
    first two cases and that count otherwise. *)
Theorem run_minus_one_iff (env : outcome) (limit : Z)
    (out : list N) (max_out : Z) :
  let failed :=
    src_copy_ok env = false \/ main_entry env = 0 \/
    ((0 < limit)%Z /\ memstream_ok env = false) in
  let failed_lib := src_copy_ok env = false \/ main_entry env = 0 in
  let run_lib fuel :=
    Lib.run_hvm4 fuel (src_copy_ok env) (main_entry env)
                 (Some (normal_form env)) (heap_after env) out max_out in
  (failed -> forall fuel, hvm4_run fuel env limit out max_out = Some ((-1)%Z, out)) /\
  (~ failed ->
   (forall fuel count out',
      hvm4_run fuel env limit out max_out = Some (count, out') -> (0 <= count)%Z) /\
   ((0 < limit)%Z -> forall fuel, exists count out',
      hvm4_run fuel env limit out max_out = Some (count, out') /\ (0 <= count)%Z) /\
   ((limit <= 0)%Z -> forall vs,
      term_values (heap_after env) (normal_form env) vs ->
      exists fuel0, forall fuel, (fuel0 <= fuel)%nat -> exists out',
        hvm4_run fuel env limit out max_out = Some (Z.of_nat (length vs), out'))) /\
  (failed_lib -> forall fuel, run_lib fuel = Some ((-1)%Z, out)) /\
  (~ failed_lib ->
   (forall fuel count out', run_lib fuel = Some (count, out') -> (0 <= count)%Z) /\
   (forall vs,
      term_values (heap_after env) (normal_form env) vs ->
      exists fuel0, forall fuel, (fuel0 <= fuel)%nat -> exists out',
        run_lib fuel = Some (Z.of_nat (length vs), out'))).
Proof.
  cbn zeta.
  match goal with
  | |- ?A /\ ?B /\ ?C /\ ?D => cut ((C /\ D) /\ (A /\ B)); [tauto|split]
  end.
  { unfold Lib.run_hvm4.
    destruct (src_copy_ok env); cbn [negb]; [|split; [reflexivity|tauto]].
    destruct (N.eqb_spec (main_entry env) 0) as [Hm|Hm];
      [split; [reflexivity|tauto]|].
    split; [intros [H|H]; congruence|].
    intros _. split.
    - intros fuel count out'. rewrite extract_nums_term_nums.
      destruct (term_nums _ _ _) as [vs|]; [|discriminate].
      intros [= <- <-]. lia.
    - intros vs Hvs. destruct (extract_values _ _ _ Hvs) as [fuel0 Hrun].
      exists fuel0. intros fuel Hf. rewrite Hrun by exact Hf.
      eexists. reflexivity. }
  unfold hvm4_run.
  destruct (src_copy_ok env); cbn [negb]; [|split; [reflexivity|tauto]].
  destruct (N.eqb_spec (main_entry env) 0) as [Hm|Hm]; [split; [reflexivity|tauto]|].
  destruct (Z.ltb_spec 0 limit) as [Hl|Hl].
  - destruct (memstream_ok env); cbn [negb]; [|split; [reflexivity|tauto]].
    split; [intros [H|[H|[_ H]]]; congruence|].
    intros _.
    pose proof (parse_lines_count_ge (S (length (captured env))) (captured env)
                  out 0 max_out) as Hc.
    destruct (parse_lines _ _ _ _ _) as [o c]. cbn [snd] in Hc.
    split; [|split].
    + intros _ count out'. intros [= <- <-]. exact Hc.
    + intros _ _. exists c, o. split; [reflexivity|exact Hc].
    + intros Hle. lia.
  - split; [intros [H|[H|[H _]]]; try congruence; lia|].
    intros _. split; [|split].
    + intros fuel count out'. rewrite extract_nums_term_nums.
      destruct (term_nums _ _ _) as [vs|]; [|discriminate].
      intros [= <- <-]. lia.
    + intros Hlt. lia.
    + intros _ vs Hvs. destruct (extract_values _ _ _ Hvs) as [fuel0 Hrun].
      exists fuel0. intros fuel Hf. rewrite Hrun by exact Hf.
      eexists. reflexivity.
Qed.

Lemma run_minus_one_iff_witness :
  (exists count out',
     hvm4_run 0 printed_three 1 [7; 7] 2 = Some (count, out') /\ (0 <= count)%Z) /\
  exists fuel0, forall fuel, (fuel0 <= fuel)%nat -> exists out',
    hvm4_run fuel normal_three 0 [7; 7] 2 = Some (3%Z, out').
Proof.
  split.
  - refine (proj1 (proj2 (proj1 (proj2 (run_minus_one_iff printed_three 1 [7; 7] 2)) _))
                  ltac:(lia) 0%nat).
    intros [H|[H|[_ H]]]; vm_compute in H; discriminate.
  - refine (proj2 (proj2 (proj1 (proj2 (run_minus_one_iff normal_three 0 [7; 7] 2)) _))
                  ltac:(lia) [1; 2; 3] normal_three_values).
    intros [H|[H|[_ H]]]; vm_compute in H; discriminate.
Defined.

(** ** Point-to-point reachability *)

Import Lib.

Section ReachabilityFacts.

(** The generated search returns the meeting round, or the sentinel. *)
Lemma bfs_meet_round fuel adj : forall fwd bwd dist max,
  bfs fuel adj fwd bwd dist max =
  option_map (fun r => match r with Some d => d | None => 999 end)
             (meet_round fuel adj fwd bwd dist max).
Proof.
  induction fuel as [|fuel IH]; intros fwd bwd dist max; simpl; [reflexivity|].
  unfold U32.gt. destruct (max <? dist); [reflexivity|].
  destruct (any_in bwd fwd) as [|p] eqn:E; simpl; [apply IH|reflexivity].
Qed.

(** With [max + 2] unfoldings the search comes back, unless the round
    counter can wrap. *)
Lemma meet_round_returns fuel adj : forall fwd bwd dist max,
  max + 1 < U32.modulus -> dist <= max + 1 ->
  (N.to_nat (max + 1 - dist) < fuel)%nat ->
  meet_round fuel adj fwd bwd dist max <> None.
Proof.
  induction fuel as [|fuel IH]; intros fwd bwd dist max Hmax Hd Hf; [lia|].
  simpl. destruct (N.ltb_spec max dist); [discriminate|].
  destruct (any_in bwd fwd =? 0); [|discriminate].
  assert (Hadd : U32.add dist 1 = dist + 1)
    by (unfold U32.add; apply N.mod_small; lia).
  rewrite Hadd. apply IH; lia.
Qed.

(** What [hvm4_reachable] returns for distinct in-range nodes when the copy
    of the source text is allocated: the meeting round when it is below 999,
    and the no-path code otherwise. *)
Lemma hvm4_reachable_by_meet_round g source target max_depth d0 :
  source < n_nodes g -> target < n_nodes g -> source <> target ->
  max_depth + 1 < U32.modulus ->
  exists r,
    meet_round (S (S (N.to_nat max_depth))) (adj g) [source] [target] 0 max_depth
      = Some r /\
    hvm4_reachable true (Some g) source target max_depth (Some d0) =
    Some (match r with
          | Some d => if 999 <=? d then (HVM4_ERR_NO_PATH, Some d0)
                      else (HVM4_OK, Some d)
          | None => (HVM4_ERR_NO_PATH, Some d0)
          end, [CallReset; CallRun]).
Proof.
  intros Hs Ht Hne Hmax.
  pose proof (meet_round_returns (S (S (N.to_nat max_depth))) (adj g)
                [source] [target] 0 max_depth Hmax ltac:(lia) ltac:(lia)) as Hret.
  destruct (meet_round _ _ _ _ _ _) as [r|] eqn:Hr; [|congruence].
  exists r. split; [reflexivity|].
  unfold hvm4_reachable, reachable_main.
  destruct (N.leb_spec (n_nodes g) source); [lia|].
  destruct (N.leb_spec (n_nodes g) target); [lia|]. cbn [orb].
  destruct (N.eqb_spec source target); [contradiction|].
  rewrite bfs_meet_round, Hr. cbn.
  destruct r as [d|]; cbn; [|reflexivity].
  change (nth 0 (<[Z.to_nat 0:=d]> [0]) 0) with d.
  destruct (999 <=? d); reflexivity.
Qed.

End ReachabilityFacts.

(** C7.  The claim fails on the code where the frontiers first intersect at
    a round count of 999 or more.  In [two_chains] node 999 can be reached
    from node 0 (by [0 -> 1000 -> 999]), the frontiers of 0 and 999 first
    intersect at round 999, within the limit 1000, and the entry point
    answers [HVM4_ERR_NO_PATH], leaving [*dist] untouched: the round count
    999 is taken for the sentinel. *)
Lemma hvm4_reachable_sentinel_collision :
  member 1000 (adj two_chains 0) = 1 /\
  member 999 (adj two_chains 1000) = 1 /\
  meet_round 1002 (adj two_chains) [0] [999] 0 1000 = Some (Some 999) /\
  hvm4_reachable true (Some two_chains) 0 999 1000 (Some 77) =
    Some (HVM4_ERR_NO_PATH, Some 77, [CallReset; CallRun]).
Proof. vm_compute. repeat split; reflexivity. Qed.

(** C10.  With [source = target] in range and non-null arguments the entry
    point returns [HVM4_OK], stores [0] in [*dist] and makes no engine call,
    whatever the graph holds. *)
Theorem hvm4_reachable_same_node (src_copy_ok : bool) (g : hvm4_graph)
    (s max_depth d0 : N) :
  s < n_nodes g ->
  hvm4_reachable src_copy_ok (Some g) s s max_depth (Some d0) =
    Some (HVM4_OK, Some 0, []).
Proof.
  intros Hs. unfold hvm4_reachable.
  destruct (N.leb_spec (n_nodes g) s); [lia|]. cbn [orb].
  rewrite N.eqb_refl. reflexivity.
Qed.

Lemma hvm4_reachable_same_node_witness :
  graph_edges (Graph 3 0 16 (replicate 16 fresh_slot)) = [] /\
  hvm4_reachable true (Some (Graph 3 0 16 (replicate 16 fresh_slot))) 2 2 5 (Some 77) =
    Some (HVM4_OK, Some 0, []).
Proof.
  split; [reflexivity|].
  apply (hvm4_reachable_same_node true (Graph 3 0 16 (replicate 16 fresh_slot)) 2 5 77).
  vm_compute. reflexivity.
Defined.

(** ** The arena reset *)

Section ResetFacts.

Context {X : Type} (ops : engine_ops X) (laws : engine_laws ops).

Lemma reset_with_BOOK free_lists (a : arenas X) id :
  id < BOOK_CAP ops -> BOOK (reset_with free_lists ops a) id = 0.
Proof.
  intros Hid. unfold reset_with. rewrite (prim_init_BOOK ops laws). simpl.
  unfold memset_BOOK. apply N.ltb_lt in Hid. rewrite Hid. reflexivity.
Qed.

Lemma reset_with_resolves free_lists (a : arenas X) name :
  resolves ops name (reset_with free_lists ops a) = false.
Proof.
  unfold resolves.
  pose proof (table_find_BOOK ops laws name (reset_with free_lists ops a)) as Hb.
  pose proof (table_find_in_BOOK ops laws name (reset_with free_lists ops a)) as Hid.
  destruct (table_find ops name (reset_with free_lists ops a)) as [id a'].
  simpl in *. rewrite Hb, reset_with_BOOK by exact Hid. reflexivity.
Qed.

Context (heap : heap_laws ops).

Lemma reset_with_word free_lists (a : arenas X) loc :
  heap_word ops (internals (reset_with free_lists ops a)) loc = 0.
Proof.
  unfold reset_with.
  rewrite (proj1 (prim_init_heap ops heap _)). cbn [internals].
  rewrite (proj1 (clear_prim_defs_heap ops heap _)).
  rewrite (proj1 (wnf_set_tid_heap ops heap _ _)).
  rewrite (heap_init_slices_words ops heap).
  destruct free_lists.
  - rewrite (heap_free_reset_words ops heap). apply (madvise_releases ops heap).
  - apply (madvise_releases ops heap).
Qed.

Lemma reset_with_mark free_lists (a b : arenas X) :
  heap_mark ops (internals (reset_with free_lists ops a)) =
  heap_mark ops (internals (reset_with free_lists ops b)).
Proof.
  unfold reset_with.
  rewrite !(proj2 (prim_init_heap ops heap _)). cbn [internals].
  rewrite !(proj2 (clear_prim_defs_heap ops heap _)).
  rewrite !(proj2 (wnf_set_tid_heap ops heap _ _)).
  apply (heap_init_slices_mark ops heap).
Qed.

End ResetFacts.


Lemma toy_laws : engine_laws toy_ops.
Proof.
  split; simpl.
  - intros a id. unfold toy_find. destruct (index_of _ _ _); reflexivity.
  - intros name a id. unfold toy_find. destruct (index_of _ _ _); reflexivity.
  - intros name a. unfold toy_find. destruct (index_of _ _ _); simpl; lia.
Defined.

Lemma toy_heap_laws : heap_laws toy_ops.
Proof.
  split; simpl; try reflexivity.
  - intros t x. split; reflexivity.
  - intros x. split; reflexivity.
  - intros a. unfold toy_find. destruct (index_of _ _ _); split; reflexivity.
Defined.


(** ** Bellman-Ford rounds *)

Import Hybrid.

Section RoundFacts.

Lemma q4_muf_flag_01 t k v d :
  snd (q4_min_update_f k v d t) = 0 \/ snd (q4_min_update_f k v d t) = 1.
Proof.
  destruct (q4_muf_find t k v d) as [_ ->]. unfold muf_flag.
  destruct (q4_find k t) as [old|]; [destruct (v <? old)|]; auto.
Qed.

Lemma q4_muf_unchanged t : forall k v d,
  snd (q4_min_update_f k v d t) = 0 -> fst (q4_min_update_f k v d t) = t.
Proof.
  induction t as [|old|c0 IH0 c1 IH1 c2 IH2 c3 IH3]; intros k v d.
  - rewrite q4_muf_fresh. discriminate.
  - rewrite q4_muf_QL. destruct (v <? old); [discriminate|reflexivity].
  - rewrite q4_muf_Q.
    destruct (k mod 4) as [|[[]|[]|]];
      rewrite fst_rewrap, snd_rewrap; intros H; f_equal; auto.
Qed.

Lemma relax_edges_changed fuel g DEPTH u deg du : forall i dist changed,
  deg < U32.modulus -> i <= deg -> changed + (deg - i) < U32.modulus ->
  let st' := relax_edges fuel g DEPTH u i deg du (dist, changed) in
  changed <= snd st' <= changed + (deg - i) /\
  (snd st' = changed -> fst st' = dist).
Proof.
  induction fuel as [|fuel IH]; intros i dist changed Hdeg Hi Hc; cbn zeta; simpl.
  - split; [lia|auto].
  - unfold U32.lt. destruct (N.ltb_spec i deg) as [Hlt|Hge]; simpl.
    2:{ split; [lia|auto]. }
    pose proof (q4_muf_flag_01 dist (graph_target g u i)
                (U32.add du (graph_weight g u i)) DEPTH) as H01.
    pose proof (q4_muf_unchanged dist (graph_target g u i)
                (U32.add du (graph_weight g u i)) DEPTH) as Hun.
    destruct (q4_min_update_f _ _ _ _) as [new_dist c]. simpl in *.
    assert (Hi1 : U32.add i 1 = i + 1) by (unfold U32.add; apply N.mod_small; lia).
    assert (Hc1 : U32.add changed c = changed + c)
      by (unfold U32.add; apply N.mod_small; lia).
    rewrite Hi1, Hc1.
    specialize (IH (i + 1) new_dist (changed + c) Hdeg ltac:(lia) ltac:(lia)).
    destruct IH as [Hb Hsame].
    split; [lia|]. intros Heq.
    assert (c = 0) by lia. subst c.
    rewrite Hsame by lia. apply Hun. reflexivity.
Qed.

Lemma graph_deg_word g u : graph_deg g u < U32.modulus.
Proof. unfold graph_deg, U32.sub, U32.modulus. lia. Qed.

Lemma relax_node_et_changed g DEPTH u dist changed :
  changed + graph_deg g u < U32.modulus ->
  let st' := relax_node_et g DEPTH u (dist, changed) in
  changed <= snd st' <= changed + graph_deg g u /\
  (snd st' = changed -> fst st' = dist).
Proof.
  intros Hc. unfold relax_node_et. rewrite q4_get_lin_get.
  unfold relax_node_go. cbn zeta.
  destruct (U32.lt (q4_get u DEPTH dist) INF); [simpl; split; [lia|auto]|].
  pose proof (relax_edges_changed (S (N.to_nat (graph_deg g u))) g DEPTH u
                (graph_deg g u) (q4_get u DEPTH dist) 0 dist changed
                (graph_deg_word g u) ltac:(lia)) as H.
  rewrite N.sub_0_r in H. apply H. exact Hc.
Qed.

(** Row pointers below the last one. *)
Lemma rows_le g : rows_ok g -> forall k u, (u + N.of_nat k = V g) ->
  word_at (row_ptr g) u <= word_at (row_ptr g) (V g).
Proof.
  intros (_ & _ & Hmono & _) k. induction k as [|k IH]; intros u Hu.
  - replace u with (V g) by lia. lia.
  - specialize (IH (u + 1) ltac:(lia)). specialize (Hmono u ltac:(lia)). lia.
Qed.

Lemma rows_deg g u : rows_ok g -> u < V g ->
  graph_deg g u = word_at (row_ptr g) (u + 1) - word_at (row_ptr g) u /\
  word_at (row_ptr g) u <= word_at (row_ptr g) (u + 1) /\
  word_at (row_ptr g) (u + 1) <= word_at (row_ptr g) (V g).
Proof.
  intros Hok Hu. pose proof Hok as (_ & _ & Hmono & Hlast).
  specialize (Hmono u Hu).
  pose proof (rows_le g Hok (N.to_nat (V g - (u + 1))) (u + 1) ltac:(lia)) as Hle.
  split; [|lia]. unfold graph_deg, U32.sub.
  rewrite (N.mod_small (word_at (row_ptr g) u)) by lia.
  unfold U32.modulus in *. lia.
Qed.

Lemma node_loop_changed fuel g DEPTH : rows_ok g -> forall i dist changed,
  i <= V g ->
  changed + (word_at (row_ptr g) (V g) - word_at (row_ptr g) i) < U32.modulus ->
  let st' := node_loop fuel g DEPTH i (dist, changed) in
  changed <= snd st' /\ (snd st' = changed -> fst st' = dist).
Proof.
  intros Hok. induction fuel as [|fuel IH]; intros i dist changed Hi Hc;
    cbn zeta; cbn [node_loop].
  - split; [simpl; lia|auto].
  - unfold U32.lt. destruct (N.ltb_spec i (V g)) as [Hlt|Hge].
    2:{ split; [simpl; lia|auto]. }
    destruct (rows_deg g i Hok Hlt) as (Hdeg & Hle1 & Hle2).
    pose proof (relax_node_et_changed g DEPTH i dist changed ltac:(lia)) as Hn.
    cbn zeta in Hn.
    destruct (relax_node_et g DEPTH i (dist, changed)) as [dist1 changed1].
    simpl in Hn. destruct Hn as [Hb1 Hs1].
    assert (Hi1 : U32.add i 1 = i + 1).
    { unfold U32.add. apply N.mod_small. destruct Hok as (_ & HV & _). lia. }
    rewrite Hi1.
    specialize (IH (i + 1) dist1 changed1 ltac:(lia) ltac:(lia)).
    cbn zeta in IH. destruct IH as [Hb2 Hs2].
    split; [lia|]. intros Heq.
    rewrite Hs2 by lia. apply Hs1. lia.
Qed.

(** A round that reports no change returns the trie it was given. *)
Lemma relax_round_et_unchanged g DEPTH dist changed :
  rows_ok g ->
  snd (relax_round_et g DEPTH (dist, changed)) = 0 ->
  fst (relax_round_et g DEPTH (dist, changed)) = dist.
Proof.
  intros Hok. unfold relax_round_et.
  pose proof (node_loop_changed (S (N.to_nat (V g))) g DEPTH Hok 0 dist 0
                ltac:(lia)) as H.
  cbn zeta in H. destruct Hok as (_ & _ & _ & Hlast).
  apply H. lia.
Qed.

Lemma bf_loop_unfold g DEPTH n st :
  bf_loop g DEPTH n st =
  if n =? 0 then st
  else let st' := relax_round_et g DEPTH st in
       if snd st' =? 0 then (fst st', 0)
       else bf_loop g DEPTH (U32.sub n 1) (fst st', 1).
Proof.
  rewrite bf_loop_equation_1. destruct (N.eq_dec n 0) as [->|Hn]; [reflexivity|].
  rewrite (proj2 (N.eqb_neq n 0) Hn). cbn zeta. simpl.
  destruct (relax_round_et g DEPTH st) as [dist [|p]]; reflexivity.
Qed.

Lemma bf_trace_unfold g DEPTH n st :
  bf_trace g DEPTH n st =
  if n =? 0 then []
  else let st' := relax_round_et g DEPTH st in
       if snd st' =? 0 then [st']
       else st' :: bf_trace g DEPTH (U32.sub n 1) (fst st', 1).
Proof.
  rewrite bf_trace_equation_1. destruct (N.eq_dec n 0) as [->|Hn]; [reflexivity|].
  rewrite (proj2 (N.eqb_neq n 0) Hn). cbn zeta. simpl.
  destruct (relax_round_et g DEPTH st) as [dist [|p]]; reflexivity.
Qed.

Local Arguments relax_round_et : simpl never.
Local Arguments round_dist : simpl never.

Lemma iter_fixed {A} (f : A -> A) (x : A) (m : nat) : f x = x -> Nat.iter m f x = x.
Proof. intros H. induction m; simpl; congruence. Qed.

(** The executed rounds of [bf_loop], and what stopping early leaves out. *)
Lemma bf_loop_rounds g DEPTH : rows_ok g -> forall n d c,
  n < U32.modulus ->
  let trace := bf_trace g DEPTH n (d, c) in
  (length trace <= N.to_nat n)%nat /\
  (n <> 0 -> (1 <= length trace)%nat) /\
  (forall k st, (S k < length trace)%nat -> trace !! k = Some st -> snd st <> 0) /\
  ((length trace < N.to_nat n)%nat ->
   exists st, last trace = Some st /\ snd st = 0) /\
  (forall k, (k < length trace)%nat ->
   fst <$> trace !! k = Some (Nat.iter (S k) (round_dist g DEPTH) d)) /\
  fst (bf_loop g DEPTH n (d, c)) = Nat.iter (length trace) (round_dist g DEPTH) d /\
  fst (bf_loop g DEPTH n (d, c)) = Nat.iter (N.to_nat n) (round_dist g DEPTH) d.
Proof.
  intros Hok n. induction n as [n IH] using depth_ind. intros d c Hn.
  cbn zeta. rewrite bf_trace_unfold, bf_loop_unfold.
  destruct (N.eqb_spec n 0) as [->|Hn0].
  { simpl. repeat split; try lia; try congruence. }
  cbn zeta.
  assert (Hrd : fst (relax_round_et g DEPTH (d, c)) = round_dist g DEPTH d)
    by reflexivity.
  destruct (N.eqb_spec (snd (relax_round_et g DEPTH (d, c))) 0) as [Hz|Hnz].
  - (* the round reports no change *)
    pose proof (relax_round_et_unchanged g DEPTH d c Hok Hz) as Hsame.
    assert (Hfix : round_dist g DEPTH d = d) by congruence.
    simpl. split; [|split; [|split; [|split; [|split; [|split]]]]].
    + lia.
    + lia.
    + intros k st Hk; lia.
    + intros _. eexists; split; [reflexivity|exact Hz].
    + intros [|k] Hk; [|simpl in Hk; lia]. simpl. congruence.
    + congruence.
    + rewrite iter_fixed by exact Hfix. congruence.
  - (* the round reports a change *)
    assert (Hsub : U32.sub n 1 = n - 1)
      by (unfold U32.sub, U32.modulus in *; lia).
    specialize (IH Hn0 (fst (relax_round_et g DEPTH (d, c))) 1 ltac:(lia)).
    cbn zeta in IH. rewrite Hrd in *.
    destruct IH as (Hlen & Hpos & Hflags & Hlast & Hnth & Hres & Hall).
    rewrite Hsub in *.
    set (rest := bf_trace g DEPTH (n - 1) (round_dist g DEPTH d, 1)) in *.
    simpl length. split; [|split; [|split; [|split; [|split; [|split]]]]].
    + lia.
    + lia.
    + intros [|k] st Hk Hst; simpl in *.
      * injection Hst as <-. exact Hnz.
      * apply (Hflags k st); [lia|exact Hst].
    + intros Hlt. destruct Hlast as (st & Hst & Hz); [lia|].
      exists st. split; [|exact Hz].
      destruct rest as [|r rest']; [discriminate|exact Hst].
    + intros [|k] Hk; simpl.
      * rewrite Hrd. reflexivity.
      * etransitivity; [apply (Hnth k); simpl in Hk; lia|].
        rewrite <- !Nat.iter_succ_r. reflexivity.
    + rewrite Hres. rewrite <- Nat.iter_succ_r. reflexivity.
    + rewrite Hall. rewrite <- Nat.iter_succ_r. f_equal. lia.
Qed.

Lemma repeat_unfold {A} (f : A -> A) (x : A) (n : N) :
  Lib.repeat f x n = if n =? 0 then x else Lib.repeat f (f x) (U32.sub n 1).
Proof.
  rewrite Lib.repeat_equation_1.
  destruct (N.eq_dec n 0) as [->|Hn]; [reflexivity|].
  rewrite (proj2 (N.eqb_neq n 0) Hn). reflexivity.
Qed.

(** [@repeat] applies its function exactly [n] times. *)
Lemma repeat_iter {A} (f : A -> A) : forall n x,
  n < U32.modulus -> Lib.repeat f x n = Nat.iter (N.to_nat n) f x.
Proof.
  intros n. induction n as [n IH] using depth_ind. intros x Hn.
  rewrite repeat_unfold. destruct (N.eqb_spec n 0) as [->|Hn0]; [reflexivity|].
  assert (Hsub : U32.sub n 1 = n - 1)
    by (unfold U32.sub, U32.modulus in *; lia).
  rewrite (IH Hn0) by lia. rewrite Hsub, <- Nat.iter_succ_r. f_equal. lia.
Qed.

Lemma rows_okb_ok g : rows_okb g = true -> rows_ok g.
Proof.
  unfold rows_okb, rows_ok. rewrite !andb_true_iff.
  intros [[[Hlen HV] Hmono] Hlast].
  apply Nat.leb_le in Hlen. apply N.ltb_lt in HV, Hlast.
  repeat split; try assumption.
  intros u Hu. rewrite forallb_forall in Hmono.
  apply N.leb_le.
  pose proof (Hmono (N.to_nat u) ltac:(apply in_seq; lia)) as H.
  rewrite N2Nat.id in H. exact H.
Qed.

End RoundFacts.




(** ** Shortest-path agreement on forward graphs *)

(** *** The trie as an array: updates leave other keys alone *)

Lemma sub_pred (d : N) : d <> 0 -> d < U32.modulus -> U32.sub d 1 = d - 1.
Proof. unfold U32.sub, U32.modulus. lia. Qed.

Lemma wf_trie_set_slot d slot c :
  wf_trie d c -> wf_trie (S d) (q4_set_slot slot c).
Proof.
  intros H. unfold q4_set_slot.
  destruct slot as [|[[]|[]|]]; simpl; tauto.
Qed.

Lemma wf_trie_set_fresh k v : forall d : nat,
  N.of_nat d < U32.modulus -> wf_trie d (q4_set k v (N.of_nat d) QE).
Proof.
  intros d. revert k. induction d as [|d IH]; intros k Hd.
  - rewrite q4_set_QE. reflexivity.
  - rewrite q4_set_QE. destruct (N.eqb_spec (N.of_nat (S d)) 0) as [|_]; [lia|].
    rewrite sub_pred by lia.
    replace (N.of_nat (S d) - 1) with (N.of_nat d) by lia.
    apply wf_trie_set_slot. apply IH. lia.
Qed.

Lemma wf_trie_muf t : forall (d : nat) k v,
  N.of_nat d < U32.modulus -> wf_trie d t ->
  wf_trie d (fst (q4_min_update_f k v (N.of_nat d) t)).
Proof.
  induction t as [|old|c0 IH0 c1 IH1 c2 IH2 c3 IH3]; intros d k v Hd Hwf.
  - rewrite q4_muf_fresh. simpl. apply wf_trie_set_fresh. exact Hd.
  - rewrite q4_muf_QL. destruct (v <? old); exact Hwf.
  - destruct d as [|d]; [contradiction|].
    destruct Hwf as (H0 & H1 & H2 & H3).
    rewrite q4_muf_Q, sub_pred by lia.
    replace (N.of_nat (S d) - 1) with (N.of_nat d) by lia.
    destruct (k mod 4) as [|[[]|[]|]]; rewrite fst_rewrap; simpl;
      repeat split; auto; first [apply IH0|apply IH1|apply IH2|apply IH3];
      auto; lia.
Qed.

(** Keys below [4 ^ d] that differ part ways within [d] digits. *)
Lemma q4_find_set_fresh_other v : forall (d : nat) k k',
  N.of_nat d < U32.modulus ->
  k < 4 ^ N.of_nat d -> k' < 4 ^ N.of_nat d -> k <> k' ->
  q4_find k' (q4_set k v (N.of_nat d) QE) = None.
Proof.
  induction d as [|d IH]; intros k k' Hd Hk Hk' Hne.
  - simpl in Hk, Hk'. lia.
  - rewrite q4_set_QE. destruct (N.eqb_spec (N.of_nat (S d)) 0) as [|_]; [lia|].
    rewrite sub_pred by lia.
    replace (N.of_nat (S d) - 1) with (N.of_nat d) by lia.
    replace (N.of_nat (S d)) with (N.succ (N.of_nat d)) in Hk, Hk' by lia.
    rewrite N.pow_succ_r' in Hk, Hk'.
    assert (Hk4 : k / 4 < 4 ^ N.of_nat d) by lia.
    assert (Hk4' : k' / 4 < 4 ^ N.of_nat d) by lia.
    destruct (N.eq_dec (k mod 4) (k' mod 4)) as [Hslot|Hslot].
    + rewrite Hslot, q4_find_set_slot. apply IH; try assumption; lia.
    + unfold q4_set_slot.
      assert (k mod 4 < 4) by lia. assert (k' mod 4 < 4) by lia.
      destruct (k mod 4) as [|[[]|[]|]] eqn:E; try lia;
      destruct (k' mod 4) as [|[[]|[]|]] eqn:E'; try lia; simpl; rewrite E';
        try reflexivity; congruence.
Qed.

Lemma q4_find_muf_other t : forall (d : nat) k k' v,
  N.of_nat d < U32.modulus -> wf_trie d t ->
  k < 4 ^ N.of_nat d -> k' < 4 ^ N.of_nat d -> k <> k' ->
  q4_find k' (fst (q4_min_update_f k v (N.of_nat d) t)) = q4_find k' t.
Proof.
  induction t as [|old|c0 IH0 c1 IH1 c2 IH2 c3 IH3]; intros d k k' v Hd Hwf Hk Hk' Hne.
  - rewrite q4_muf_fresh. simpl. apply q4_find_set_fresh_other; assumption.
  - simpl in Hwf. subst d. simpl in Hk, Hk'. lia.
  - destruct d as [|d]; [contradiction|].
    destruct Hwf as (H0 & H1 & H2 & H3).
    rewrite q4_muf_Q, sub_pred by lia.
    replace (N.of_nat (S d) - 1) with (N.of_nat d) by lia.
    replace (N.of_nat (S d)) with (N.succ (N.of_nat d)) in Hk, Hk' by lia.
    rewrite N.pow_succ_r' in Hk, Hk'.
    assert (Hk4 : k / 4 < 4 ^ N.of_nat d) by lia.
    assert (Hk4' : k' / 4 < 4 ^ N.of_nat d) by lia.
    assert (Hd' : N.of_nat d < U32.modulus) by lia.
    destruct (N.eq_dec (k mod 4) (k' mod 4)) as [Hslot|Hslot].
    + assert (Hne4 : k / 4 <> k' / 4) by lia.
      destruct (k mod 4) as [|[[]|[]|]] eqn:E; rewrite fst_rewrap; simpl;
        rewrite <- Hslot; auto.
    + assert (k mod 4 < 4) by lia. assert (k' mod 4 < 4) by lia.
      destruct (k mod 4) as [|[[]|[]|]] eqn:E; try lia;
      destruct (k' mod 4) as [|[[]|[]|]] eqn:E'; try lia;
        rewrite fst_rewrap; simpl; rewrite E'; try reflexivity; congruence.
Qed.

(** [ceil_log4] returns a depth whose key space holds [n]. *)
Lemma ceil_log4_loop_zero fuel n : forall depth,
  0 < n -> Lib.ceil_log4_loop fuel n depth 0 = None.
Proof.
  induction fuel as [|fuel IH]; intros depth Hn; simpl; [reflexivity|].
  destruct (N.ltb_spec 0 n); [|lia]. apply IH. exact Hn.
Qed.

Lemma ceil_log4_loop_spec fuel n r : forall d : nat,
  0 < n -> (d <= 15)%nat ->
  Lib.ceil_log4_loop fuel n (N.of_nat d) (4 ^ N.of_nat d) = Some r ->
  exists d' : nat, r = N.of_nat d' /\ (d <= d' <= 15)%nat /\ n <= 4 ^ N.of_nat d'.
Proof.
  induction fuel as [|fuel IH]; intros d Hn Hd; simpl; [discriminate|].
  destruct (N.ltb_spec (4 ^ N.of_nat d) n) as [Hlt|Hge].
  - assert (Hadd : U32.add (N.of_nat d) 1 = N.of_nat (S d)).
    { unfold U32.add, U32.modulus. rewrite N.mod_small; lia. }
    rewrite Hadd.
    destruct (Nat.eq_dec d 15%nat) as [->|Hd15].
    + replace (U32.mul (4 ^ N.of_nat 15) 4) with 0 by (vm_compute; reflexivity).
      rewrite ceil_log4_loop_zero by exact Hn. discriminate.
    + assert (Hpow : 4 ^ N.of_nat d <= 4 ^ 14)
        by (apply N.pow_le_mono_r; lia).
      assert (Hmul : U32.mul (4 ^ N.of_nat d) 4 = 4 ^ N.of_nat (S d)).
      { replace (N.of_nat (S d)) with (N.succ (N.of_nat d)) by lia.
        rewrite N.pow_succ_r'. unfold U32.mul, U32.modulus.
        change (4 ^ 14) with 268435456 in Hpow.
        rewrite N.mod_small; lia. }
      rewrite Hmul. intros Hr.
      destruct (IH (S d) Hn ltac:(lia) Hr) as (d' & -> & Hd' & Hle).
      exists d'. repeat split; try lia.
  - intros [= <-]. exists d. repeat split; try lia.
Qed.

Lemma ceil_log4_spec n r :
  ceil_log4 n = Some r ->
  exists d : nat, r = N.of_nat d /\ (1 <= d <= 15)%nat /\ n <= 4 ^ N.of_nat d.
Proof.
  unfold ceil_log4, Lib.ceil_log4_u32.
  destruct (N.leb_spec n 4) as [Hle|Hgt].
  - intros [= <-]. exists 1%nat. repeat split; try lia.
  - intros Hr. apply (ceil_log4_loop_spec 32 n r 1 ltac:(lia) ltac:(lia)) in Hr.
    destruct Hr as (d & -> & Hd & Hle). exists d. repeat split; try lia.
Qed.

(** Up to [2^30] nodes the loop comes back. *)
Lemma ceil_log4_loop_returns n : forall fuel (d : nat),
  n <= 4 ^ 15 -> (d <= 15)%nat -> (15 - d < fuel)%nat ->
  Lib.ceil_log4_loop fuel n (N.of_nat d) (4 ^ N.of_nat d) <> None.
Proof.
  induction fuel as [|fuel IH]; intros d Hn Hd Hf; [lia|]. simpl.
  destruct (N.ltb_spec (4 ^ N.of_nat d) n) as [Hlt|Hge]; [|discriminate].
  destruct (Nat.eq_dec d 15%nat) as [->|Hd15]; [lia|].
  assert (Hadd : U32.add (N.of_nat d) 1 = N.of_nat (S d)).
  { unfold U32.add, U32.modulus. rewrite N.mod_small; lia. }
  assert (Hpow : 4 ^ N.of_nat d <= 4 ^ 14) by (apply N.pow_le_mono_r; lia).
  assert (Hmul : U32.mul (4 ^ N.of_nat d) 4 = 4 ^ N.of_nat (S d)).
  { replace (N.of_nat (S d)) with (N.succ (N.of_nat d)) by lia.
    rewrite N.pow_succ_r'. unfold U32.mul, U32.modulus.
    change (4 ^ 14) with 268435456 in Hpow.
    rewrite N.mod_small; lia. }
  rewrite Hadd, Hmul. apply IH; lia.
Qed.

Lemma ceil_log4_returns n : n <= 4 ^ 15 -> ceil_log4 n <> None.
Proof.
  intros Hn. unfold ceil_log4, Lib.ceil_log4_u32.
  destruct (n <=? 4); [discriminate|].
  apply (ceil_log4_loop_returns n 32 1); [exact Hn|lia|lia].
Qed.

(** *** Arrays of words *)

Lemma word_at_insert (l : list N) (i j x : N) :
  word_at (<[N.to_nat i := x]> l) j =
  if decide (i = j /\ (N.to_nat i < length l)%nat) then x else word_at l j.
Proof.
  unfold word_at. rewrite !nth_lookup, list_lookup_insert.
  repeat case_decide; try reflexivity; try lia.
Qed.

Lemma word_at_replicate n x i :
  (N.to_nat i < n)%nat -> word_at (replicate n x) i = x.
Proof.
  intros H. unfold word_at. rewrite nth_lookup, lookup_replicate_2; auto.
Qed.

Lemma dag_okb_ok g W : dag_okb g W = true -> dag_ok g W.
Proof.
  unfold dag_okb, dag_ok. rewrite andb_true_iff. intros [Hrows Hedges].
  split; [apply rows_okb_ok; exact Hrows|].
  intros u e Hu He. rewrite forallb_forall in Hedges.
  specialize (Hedges (N.to_nat u) ltac:(apply in_seq; lia)).
  rewrite forallb_forall in Hedges.
  rewrite !N2Nat.id in Hedges.
  specialize (Hedges (N.to_nat e) ltac:(apply in_seq; lia)).
  rewrite !N2Nat.id in Hedges. rewrite !andb_true_iff in Hedges.
  destruct Hedges as [[H1 H2] H3].
  apply N.ltb_lt in H1, H2. apply N.leb_le in H3. lia.
Qed.

(** *** The reference computation *)

Section Reference.

Import DagDp.

Variables (g : csr) (W : N).
Hypothesis Hdag : dag_ok g W.
Hypothesis HW : W <= INF.

Local Abbreviation rp := (word_at (row_ptr g)).
Local Abbreviation ci := (word_at (col_idx g)).
Local Abbreviation wt := (word_at (edge_wt g)).

Lemma dag_rows : rows_ok g.
Proof. exact (proj1 Hdag). Qed.

Lemma dag_edge u e : u < V g -> rp u <= e < rp (u + 1) ->
  u < ci e < V g /\ wt e <= W /\ e < U32.modulus.
Proof.
  intros Hu He. destruct (proj2 Hdag u e Hu He) as [Hc Hw].
  destruct (rows_deg g u dag_rows Hu) as (_ & _ & Hle).
  pose proof dag_rows as (_ & _ & _ & Hlast).
  repeat split; try lia.
Qed.

(** The inner loop of the reference at node [u]: only [dist[u]] changes,
    and it ends as the least of its old value and the sums over the edges
    still to be visited. *)
Lemma relax_out_spec (u : N) (dist0 : list N) :
  u < V g -> length dist0 = N.to_nat (V g) ->
  (forall v, word_at dist0 v <= INF) ->
  forall fuel e dist,
    rp u <= e <= rp (u + 1) ->
    (N.to_nat (rp (u + 1) - e) < fuel)%nat ->
    length dist = length dist0 ->
    (forall v, v <> u -> word_at dist v = word_at dist0 v) ->
    word_at dist u <= INF ->
    let dist' := relax_out fuel g u e (rp (u + 1)) dist in
    length dist' = length dist0 /\
    (forall v, v <> u -> word_at dist' v = word_at dist0 v) /\
    word_at dist' u <= word_at dist u /\
    (forall e', e <= e' < rp (u + 1) ->
       word_at dist' u <= wt e' + word_at dist0 (ci e')) /\
    (word_at dist' u = word_at dist u \/
     exists e', e <= e' < rp (u + 1) /\
                word_at dist' u = wt e' + word_at dist0 (ci e')).
Proof.
  intros Hu Hlen0 Hinf. induction fuel as [|fuel IH];
    intros e dist He Hfuel Hlen Hoff Hdu; [lia|].
  cbn zeta. cbn [relax_out].
  destruct (N.ltb_spec e (rp (u + 1))) as [Hlt|Hge].
  2:{ split; [exact Hlen|]. split; [exact Hoff|]. split; [lia|].
      split; [intros e' He'; lia|left; reflexivity]. }
  destruct (dag_edge u e Hu ltac:(lia)) as (Hc & Hw & Hword).
  assert (Hnd : U32.add (wt e) (word_at dist (ci e)) = wt e + word_at dist0 (ci e)).
  { rewrite Hoff by lia. unfold U32.add, U32.modulus.
    specialize (Hinf (ci e)). unfold INF in *. rewrite N.mod_small; lia. }
  assert (He1 : U32.add e 1 = e + 1).
  { unfold U32.add. apply N.mod_small.
    destruct (rows_deg g u dag_rows Hu) as (_ & _ & Hle).
    pose proof dag_rows as (_ & _ & _ & Hlast). lia. }
  rewrite Hnd, He1.
  set (nd := wt e + word_at dist0 (ci e)).
  set (dist1 := if nd <? word_at dist u then <[N.to_nat u := nd]> dist else dist).
  assert (Hlen1 : length dist1 = length dist0).
  { subst dist1. destruct (nd <? word_at dist u); [rewrite length_insert|]; exact Hlen. }
  assert (Hoff1 : forall v, v <> u -> word_at dist1 v = word_at dist0 v).
  { intros v Hv. subst dist1. destruct (nd <? word_at dist u); [|auto].
    rewrite word_at_insert. case_decide; [lia|auto]. }
  assert (Hu1 : word_at dist1 u <= word_at dist u /\ word_at dist1 u <= nd /\
                (word_at dist1 u = word_at dist u \/ word_at dist1 u = nd)).
  { subst dist1. destruct (N.ltb_spec nd (word_at dist u)).
    - rewrite word_at_insert. case_decide; [lia|].
      exfalso. apply H0. split; [reflexivity|lia].
    - lia. }
  destruct Hu1 as (Hle1 & Hlend & Hor1).
  specialize (IH (e + 1) dist1 ltac:(lia) ltac:(lia) Hlen1 Hoff1 ltac:(lia)).
  cbn zeta in IH. destruct IH as (Hl & Ho & Hd & Hall & Hex).
  split; [exact Hl|]. split; [exact Ho|]. split; [lia|]. split.
  - intros e' He'. destruct (N.eq_dec e' e) as [->|Hne].
    + fold nd. lia.
    + apply Hall. lia.
  - destruct Hex as [Heq|(e' & He' & Heq)].
    + destruct Hor1 as [Hsame|Hnew].
      * left. lia.
      * right. exists e. split; [lia|]. fold nd. lia.
    + right. exists e'. split; [lia|exact Heq].
Qed.


(** The outer loop, [k] nodes left: what is at or above [k] and the entry of
    [dest] stay, and the entry of each node visited ends as the least of its
    old value and the sums over its edges. *)
Lemma reference_nodes_spec (dest : N) : forall (k : nat) (dist : list N),
  (k <= N.to_nat (V g))%nat ->
  length dist = N.to_nat (V g) ->
  (forall v, word_at dist v <= INF) ->
  let D := reference_nodes k g dest dist in
  length D = N.to_nat (V g) /\
  (forall v, word_at D v <= INF) /\
  (forall v, N.of_nat k <= v -> word_at D v = word_at dist v) /\
  word_at D dest = word_at dist dest /\
  (forall u, u < N.of_nat k -> u <> dest ->
     word_at D u <= word_at dist u /\
     (forall e, rp u <= e < rp (u + 1) -> word_at D u <= wt e + word_at D (ci e)) /\
     (word_at D u = word_at dist u \/
      exists e, rp u <= e < rp (u + 1) /\ word_at D u = wt e + word_at D (ci e))).
Proof.
  induction k as [|k IH]; intros dist Hk Hlen Hinf; cbn zeta.
  { simpl. repeat split; auto. all: intros; lia. }
  cbn [reference_nodes].
  destruct (N.eqb_spec (N.of_nat k) dest) as [Hdest|Hdest].
  - specialize (IH dist ltac:(lia) Hlen Hinf). cbn zeta in IH.
    destruct IH as (HL & HI & Hup & Hd & Hnodes).
    split; [exact HL|]. split; [exact HI|].
    split; [intros v Hv; apply Hup; lia|]. split; [exact Hd|].
    intros u Hu Hne. apply Hnodes; [lia|exact Hne].
  - assert (HkV : N.of_nat k < V g) by lia.
    pose proof (relax_out_spec (N.of_nat k) dist HkV Hlen Hinf
                  (S (N.to_nat (rp (N.of_nat k + 1) - rp (N.of_nat k))))
                  (rp (N.of_nat k)) dist) as Hstep.
    destruct (rows_deg g (N.of_nat k) dag_rows HkV) as (_ & Hmono & _).
    specialize (Hstep ltac:(lia) ltac:(lia) eq_refl ltac:(auto) (Hinf _)).
    cbn zeta in Hstep.
    set (dist1 := relax_out _ g (N.of_nat k) (rp (N.of_nat k)) (rp (N.of_nat k + 1)) dist) in *.
    destruct Hstep as (Hlen1 & Hoff1 & Hle1 & Hall1 & Hex1).
    assert (Hinf1 : forall v, word_at dist1 v <= INF).
    { intros v. destruct (N.eq_dec v (N.of_nat k)) as [->|Hv].
      - specialize (Hinf (N.of_nat k)). lia.
      - rewrite Hoff1 by exact Hv. apply Hinf. }
    specialize (IH dist1 ltac:(lia) ltac:(lia) Hinf1). cbn zeta in IH.
    destruct IH as (HL & HI & Hup & Hd & Hnodes).
    split; [exact HL|]. split; [exact HI|].
    split; [intros v Hv; rewrite Hup by lia; apply Hoff1; lia|].
    split; [rewrite Hd; apply Hoff1; congruence|].
    intros u Hu Hne. destruct (N.eq_dec u (N.of_nat k)) as [->|Hu'].
    + assert (Htail : forall e, rp (N.of_nat k) <= e < rp (N.of_nat k + 1) ->
                word_at (reference_nodes k g dest dist1) (ci e) = word_at dist (ci e)).
      { intros e He. destruct (dag_edge (N.of_nat k) e HkV He) as (Hc & _).
        rewrite Hup by lia. apply Hoff1. lia. }
      rewrite Hup by lia. split; [exact Hle1|]. split.
      * intros e He. rewrite Htail by exact He. apply Hall1. exact He.
      * destruct Hex1 as [Hsame|(e & He & Heq)]; [left; exact Hsame|].
        right. exists e. split; [exact He|]. rewrite Htail by exact He. exact Heq.
    + destruct (Hnodes u ltac:(lia) Hne) as (Hle & Hall & Hex).
      rewrite Hoff1 in Hle, Hex by exact Hu'. auto.
Qed.

(** The array the reference ends with. *)
Lemma reference_dist_spec (dest : N) :
  dest < V g ->
  let D := reference_dist g dest in
  word_at D dest = 0 /\
  (forall v, word_at D v <= INF) /\
  (forall u, u < V g -> u <> dest ->
     (forall e, rp u <= e < rp (u + 1) -> word_at D u <= wt e + word_at D (ci e)) /\
     (word_at D u = INF \/
      exists e, rp u <= e < rp (u + 1) /\ word_at D u = wt e + word_at D (ci e))).
Proof.
  intros Hdest. unfold reference_dist.
  set (dist0 := <[N.to_nat dest := 0]> (replicate (N.to_nat (V g)) INF)).
  assert (Hlen0 : length dist0 = N.to_nat (V g))
    by (subst dist0; rewrite length_insert, length_replicate; reflexivity).
  assert (H0 : forall v, word_at dist0 v =
                         if decide (v = dest) then 0
                         else if decide (v < V g) then INF else 0).
  { intros v. subst dist0. rewrite word_at_insert, length_replicate.
    repeat case_decide; try lia; try reflexivity.
    - apply word_at_replicate. lia.
    - unfold word_at. apply nth_overflow. rewrite length_replicate. lia. }
  assert (Hinf0 : forall v, word_at dist0 v <= INF).
  { intros v. rewrite H0. unfold INF. repeat case_decide; lia. }
  pose proof (reference_nodes_spec dest (N.to_nat (V g)) dist0 ltac:(lia) Hlen0 Hinf0)
    as Hspec.
  cbn zeta in Hspec. destruct Hspec as (_ & HI & _ & Hd & Hnodes).
  split; [rewrite Hd, H0; case_decide; [reflexivity|contradiction]|].
  split; [exact HI|].
  intros u Hu Hne. destruct (Hnodes u ltac:(lia) Hne) as (_ & Hall & Hex).
  split; [exact Hall|].
  rewrite H0 in Hex. repeat case_decide; try lia; try contradiction. exact Hex.
Qed.

End Reference.

(** *** The hybrid program on a forward graph *)

Lemma q4_get_reading t k d : q4_get k d t = reading t k.
Proof. apply q4_get_find. Qed.

Section HybridOnDag.

Import DagDp.

Variables (g : csr) (W : N) (dn : nat).
Hypothesis Hdag : dag_ok g W.
Hypothesis Hn : 2 <= V g.
Hypothesis Hbound : (V g - 1) * W < INF.
Hypothesis Hdn : (dn <= 15)%nat.
Hypothesis Hkeys : V g <= 4 ^ N.of_nat dn.

Local Abbreviation rp := (word_at (row_ptr g)).
Local Abbreviation ci := (word_at (col_idx g)).
Local Abbreviation wt := (word_at (edge_wt g)).
Local Abbreviation DEPTH := (N.of_nat dn).
Local Abbreviation sink := (V g - 1).
Local Abbreviation Dl := (reference_dist g (V g - 1)).
Local Abbreviation D := (word_at (reference_dist g (V g - 1))).

Lemma W_le_INF : W <= INF.
Proof. nia. Qed.

Lemma depth_word : DEPTH < U32.modulus.
Proof. unfold U32.modulus. lia. Qed.

Lemma node_W (v : N) : v < V g -> v * W < INF.
Proof. intros Hv. nia. Qed.

(** The conditional update, read as an array update. *)
Lemma muf_reading t k x :
  wf_trie dn t -> k < V g -> x <= INF ->
  let t' := fst (q4_min_update_f k x DEPTH t) in
  wf_trie dn t' /\
  reading t' k = N.min x (reading t k) /\
  (forall k', k' < V g -> k' <> k -> reading t' k' = reading t k').
Proof.
  intros Hwf Hk Hx. cbn zeta.
  split; [apply wf_trie_muf; [exact depth_word|exact Hwf]|].
  split.
  - unfold reading. destruct (q4_muf_find t k x DEPTH) as [-> _].
    unfold muf_stored. destruct (q4_find k t) as [old|]; [|lia].
    destruct (N.ltb_spec x old); lia.
  - intros k' Hk' Hne. unfold reading.
    rewrite q4_find_muf_other; auto; try lia. exact depth_word.
Qed.

(** Facts about the potential. *)
Lemma D_sink : D sink = 0.
Proof. apply (reference_dist_spec g W Hdag W_le_INF sink). lia. Qed.

Lemma D_le_INF v : D v <= INF.
Proof. apply (reference_dist_spec g W Hdag W_le_INF sink). lia. Qed.

Lemma D_edge u e : u < V g -> rp u <= e < rp (u + 1) -> D u <= wt e + D (ci e).
Proof.
  intros Hu He.
  destruct (dag_edge g W Hdag W_le_INF u e Hu He) as (Hc & _).
  destruct (reference_dist_spec g W Hdag W_le_INF sink ltac:(lia)) as (_ & _ & Hnodes).
  apply (Hnodes u Hu ltac:(lia)). exact He.
Qed.

Lemma D_attained u : u < sink -> D u < INF ->
  exists e, rp u <= e < rp (u + 1) /\ D u = wt e + D (ci e).
Proof.
  intros Hu Hfin.
  destruct (reference_dist_spec g W Hdag W_le_INF sink ltac:(lia)) as (_ & _ & Hnodes).
  destruct (Hnodes u ltac:(lia) ltac:(lia)) as (_ & [Hinf|Hex]); [lia|exact Hex].
Qed.


(** The edge at offset [j] of node [u]. *)
Lemma offset_edge u j : u < V g -> j < graph_deg g u ->
  rp u <= rp u + j < rp (u + 1) /\
  u < graph_target g u j < V g /\ graph_weight g u j <= W.
Proof.
  intros Hu Hj. destruct (rows_deg g u (proj1 Hdag) Hu) as (Hdeg & Hmono & _).
  assert (He : rp u <= rp u + j < rp (u + 1)) by lia.
  destruct (dag_edge g W Hdag W_le_INF u _ Hu He) as (Hc & Hw & _).
  unfold graph_target, graph_weight. auto.
Qed.

(** One pass over the edges of a reached node. *)
Lemma relax_edges_sound u du :
  u < V g -> du < INF ->
  forall fuel j t c,
    j <= graph_deg g u ->
    (N.to_nat (graph_deg g u - j) < fuel)%nat ->
    relaxed g W dn Dl t -> reading t u = du ->
    let st' := relax_edges fuel g DEPTH u j (graph_deg g u) du (t, c) in
    relaxed g W dn Dl (fst st') /\
    (forall v, v < V g -> reading (fst st') v <= reading t v) /\
    reading (fst st') u = du /\
    (forall j', j <= j' < graph_deg g u ->
       reading (fst st') (graph_target g u j') <= du + graph_weight g u j').
Proof.
  intros Hu Hdu. induction fuel as [|fuel IH]; intros j t c Hj Hfuel Hrel Hru; [lia|].
  cbn zeta. cbn [relax_edges]. unfold U32.lt.
  destruct (N.ltb_spec j (graph_deg g u)) as [Hlt|Hge].
  2:{ simpl. split; [exact Hrel|]. split; [intros; lia|]. split; [exact Hru|].
      intros j' Hj'. lia. }
  destruct (offset_edge u j Hu Hlt) as (He & Hc & Hw).
  set (v' := graph_target g u j) in *. set (w := graph_weight g u j) in *.
  destruct Hrel as (Hwf & HL & HR).
  assert (Hduw : du <= u * W).
  { destruct (HR u Hu) as [Hinf|Hle]; lia. }
  assert (Hx : du + w <= v' * W) by nia.
  pose proof (node_W v' ltac:(lia)) as Hv'W.
  assert (Hadd : U32.add du w = du + w).
  { unfold U32.add, U32.modulus. unfold INF in *. rewrite N.mod_small; lia. }
  rewrite Hadd.
  destruct (muf_reading t v' (du + w) Hwf ltac:(lia) ltac:(lia)) as (Hwf1 & Hv1 & Ho1).
  destruct (q4_min_update_f v' (du + w) DEPTH t) as [t1 c1]. cbn [fst] in *.
  assert (Hj1 : U32.add j 1 = j + 1).
  { unfold U32.add. apply N.mod_small. pose proof (graph_deg_word g u). lia. }
  rewrite Hj1.
  assert (Hrel1 : relaxed g W dn Dl t1).
  { split; [exact Hwf1|]. split.
    - intros v Hv. destruct (N.eq_dec v v') as [->|Hne].
      + rewrite Hv1. pose proof (HL v' Hv) as HLv. pose proof (HL u Hu) as HLu.
        assert (Hedge : D u <= w + D v') by (apply (D_edge u _ Hu He)).
        lia.
      + rewrite Ho1 by auto. apply HL. exact Hv.
    - intros v Hv. destruct (N.eq_dec v v') as [->|Hne].
      + right. rewrite Hv1. lia.
      + rewrite Ho1 by auto. apply HR. exact Hv. }
  assert (Hdec1 : forall v, v < V g -> reading t1 v <= reading t v).
  { intros v Hv. destruct (N.eq_dec v v') as [->|Hne]; [lia|].
    rewrite Ho1 by auto. lia. }
  specialize (IH (j + 1) t1 (U32.add c c1) ltac:(lia) ltac:(lia) Hrel1
                 ltac:(rewrite Ho1 by lia; exact Hru)).
  cbn zeta in IH. destruct IH as (Hrel' & Hdec' & Hu' & Hall').
  split; [exact Hrel'|]. split.
  - intros v Hv. specialize (Hdec' v Hv). specialize (Hdec1 v Hv). lia.
  - split; [exact Hu'|]. intros j' Hj'.
    destruct (N.eq_dec j' j) as [->|Hne].
    + fold v' w. specialize (Hdec' v' ltac:(lia)). lia.
    + apply Hall'. lia.
Qed.


(** One node of a round. *)
Lemma relax_node_sound i t c :
  i < V g -> relaxed g W dn Dl t ->
  let st' := relax_node_et g DEPTH i (t, c) in
  relaxed g W dn Dl (fst st') /\
  (forall v, v < V g -> reading (fst st') v <= reading t v) /\
  (reading t i < INF ->
   forall j, j < graph_deg g i ->
     reading (fst st') (graph_target g i j) <= reading t i + graph_weight g i j).
Proof.
  intros Hi Hrel. cbn zeta. unfold relax_node_et.
  rewrite q4_get_lin_get, q4_get_reading. unfold relax_node_go, U32.lt.
  destruct (N.ltb_spec (reading t i) INF) as [Hlt|Hge].
  - pose proof (relax_edges_sound i (reading t i) Hi Hlt
                  (S (N.to_nat (graph_deg g i))) 0 t c
                  ltac:(lia) ltac:(lia) Hrel eq_refl) as H.
    cbn zeta in H. destruct H as (Hrel' & Hdec & _ & Hall).
    split; [exact Hrel'|]. split; [exact Hdec|].
    intros _ j Hj. apply Hall. lia.
  - simpl. split; [exact Hrel|]. split; [intros; lia|]. intros; lia.
Qed.

Lemma tight_weaken i j t : i <= j -> tight_from g Dl j t -> tight_from g Dl i t.
Proof.
  intros Hij Ht Hfin. destruct (Ht Hfin) as (v & Hv & Heq).
  exists v. split; [lia|exact Heq].
Qed.

(** A tight entry at or after [i] yields one after [i] once [i] is done. *)
Lemma tight_step i t t' :
  i < V g ->
  relaxed g W dn Dl t -> relaxed g W dn Dl t' ->
  (forall v, v < V g -> reading t' v <= reading t v) ->
  (reading t i < INF ->
   forall j, j < graph_deg g i ->
     reading t' (graph_target g i j) <= reading t i + graph_weight g i j) ->
  tight_from g Dl (N.min i sink) t ->
  tight_from g Dl (N.min (i + 1) sink) t'.
Proof.
  intros Hi Hrel Hrel' Hdec Hedges Ht Hfin.
  destruct (Ht Hfin) as (v & Hv & Heq).
  destruct Hrel' as (_ & HL' & _).
  assert (Hkeep : forall x, x < V g -> reading t x + D x = D 0 ->
                            reading t' x + D x = D 0).
  { intros x Hx Hxeq. specialize (HL' x Hx). specialize (Hdec x Hx). lia. }
  destruct (N.eq_dec v i) as [->|Hvi].
  - destruct (N.lt_ge_cases i sink) as [Hlt|Hge].
    + (* the tight node is the one being relaxed *)
      pose proof (D_le_INF i) as HDi.
      destruct (D_attained i Hlt ltac:(lia)) as (e & He & HDe).
      destruct (rows_deg g i (proj1 Hdag) Hi) as (Hdeg & Hmono & _).
      set (j := e - rp i).
      assert (Hj : j < graph_deg g i) by lia.
      destruct (offset_edge i j Hi Hj) as (_ & Hc & _).
      specialize (Hedges ltac:(lia) j Hj).
      assert (Htj : graph_target g i j = ci e)
        by (unfold graph_target; f_equal; lia).
      assert (Hwj : graph_weight g i j = wt e)
        by (unfold graph_weight; f_equal; lia).
      rewrite Htj, Hwj in *.
      exists (ci e). split; [lia|].
      specialize (HL' (ci e) ltac:(lia)). lia.
    + exists i. split; [lia|]. apply Hkeep; [lia|exact Heq].
  - exists v. split; [lia|]. apply Hkeep; [lia|exact Heq].
Qed.

(** A whole round: the nodes in index order. *)
Lemma node_loop_sound : forall fuel i t c,
  i <= V g -> (N.to_nat (V g - i) < fuel)%nat ->
  relaxed g W dn Dl t -> tight_from g Dl (N.min i sink) t ->
  let st' := node_loop fuel g DEPTH i (t, c) in
  relaxed g W dn Dl (fst st') /\ tight_from g Dl sink (fst st').
Proof.
  induction fuel as [|fuel IH]; intros i t c Hi Hfuel Hrel Ht; [lia|].
  cbn zeta. cbn [node_loop]. unfold U32.lt.
  destruct (N.ltb_spec i (V g)) as [Hlt|Hge].
  - pose proof (relax_node_sound i t c Hlt Hrel) as Hnode. cbn zeta in Hnode.
    destruct (relax_node_et g DEPTH i (t, c)) as [t1 c1]. cbn [fst] in Hnode.
    destruct Hnode as (Hrel1 & Hdec1 & Hedges1).
    assert (Hi1 : U32.add i 1 = i + 1).
    { unfold U32.add. apply N.mod_small.
      destruct (proj1 Hdag) as (_ & HV & _). lia. }
    rewrite Hi1. apply IH; [lia|lia|exact Hrel1|].
    apply (tight_step i t t1); assumption.
  - simpl. split; [exact Hrel|].
    replace (N.min i sink) with sink in Ht by lia. exact Ht.
Qed.

Lemma round_sound t :
  relaxed g W dn Dl t -> tight_from g Dl 0 t ->
  relaxed g W dn Dl (round_dist g DEPTH t) /\
  tight_from g Dl sink (round_dist g DEPTH t).
Proof.
  intros Hrel Ht. unfold round_dist, relax_round_et.
  apply node_loop_sound; [lia|lia|exact Hrel|].
  replace (N.min 0 sink) with 0 by lia. exact Ht.
Qed.

Lemma rounds_sound t : forall k : nat,
  relaxed g W dn Dl t -> tight_from g Dl 0 t ->
  relaxed g W dn Dl (Nat.iter (S k) (round_dist g DEPTH) t) /\
  tight_from g Dl sink (Nat.iter (S k) (round_dist g DEPTH) t).
Proof.
  induction k as [|k IH]; intros Hrel Ht.
  - simpl. apply round_sound; assumption.
  - destruct (IH Hrel Ht) as (Hrel' & Ht').
    change (Nat.iter (S (S k)) (round_dist g DEPTH) t)
      with (round_dist g DEPTH (Nat.iter (S k) (round_dist g DEPTH) t)).
    apply round_sound; [exact Hrel'|].
    apply (tight_weaken 0 sink); [lia|exact Ht'].
Qed.

(** The initial trie: zero at the source, nothing elsewhere. *)
Lemma init_sound :
  relaxed g W dn Dl (Hybrid.init_dist DEPTH 0) /\
  tight_from g Dl 0 (Hybrid.init_dist DEPTH 0).
Proof.
  unfold Hybrid.init_dist.
  assert (H0 : reading (q4_set 0 0 DEPTH QE) 0 = 0)
    by (unfold reading; rewrite q4_find_set_same; reflexivity).
  assert (Hother : forall v, v < V g -> v <> 0 ->
                             reading (q4_set 0 0 DEPTH QE) v = INF).
  { intros v Hv Hne. unfold reading.
    rewrite q4_find_set_fresh_other; auto; try lia. exact depth_word. }
  split; [split; [apply wf_trie_set_fresh; exact depth_word|split]|].
  - intros v Hv. destruct (N.eq_dec v 0) as [->|Hne]; [lia|].
    rewrite Hother by auto. pose proof (D_le_INF 0). lia.
  - intros v Hv. destruct (N.eq_dec v 0) as [->|Hne]; [right; lia|].
    left. apply Hother; auto.
  - intros _. exists 0. split; [lia|]. lia.
Qed.

(** Where the rounds end, the sink reads the reference distance. *)
Lemma tight_sink t :
  relaxed g W dn Dl t -> tight_from g Dl sink t -> reading t sink = D 0.
Proof.
  intros (_ & HL & HR) Ht.
  pose proof D_sink as Hs. pose proof (D_le_INF 0) as H0.
  destruct (N.lt_ge_cases (D 0) INF) as [Hfin|Hinf].
  - destruct (Ht Hfin) as (v & Hv & Heq).
    replace v with sink in Heq by lia. lia.
  - specialize (HL sink ltac:(lia)). specialize (HR sink ltac:(lia)).
    pose proof (node_W sink ltac:(lia)). lia.
Qed.

(** [@extract_go] lists the readings from [i] on. *)
Lemma extract_go_spec t : forall fuel i,
  i < V g -> (N.to_nat (V g - i) <= fuel)%nat ->
  extract_go fuel g DEPTH i (q4_get_lin i DEPTH t) =
  map (fun k => reading t (i + N.of_nat k)) (seq 0 (N.to_nat (V g - i))).
Proof.
  induction fuel as [|fuel IH]; intros i Hi Hfuel; [lia|].
  cbn [extract_go]. rewrite q4_get_lin_get, q4_get_reading. unfold U32.lt.
  assert (Hi1 : U32.add i 1 = i + 1).
  { unfold U32.add. apply N.mod_small.
    destruct (proj1 Hdag) as (_ & HV & _). lia. }
  rewrite Hi1.
  destruct (N.to_nat (V g - i)) as [|m] eqn:Hm; [lia|].
  cbn [seq map]. rewrite N.add_0_r.
  destruct (N.ltb_spec (i + 1) (V g)) as [Hlt|Hge].
  - f_equal. rewrite IH by lia.
    replace (N.to_nat (V g - (i + 1))) with m by lia.
    rewrite <- seq_shift, map_map. apply map_ext. intros k. f_equal. lia.
  - replace m with 0%nat by lia. reflexivity.
Qed.

(** The sink's entry when the rounds are over. *)
Lemma hybrid_sink : reading (fst (bf g DEPTH 0)) sink = D 0.
Proof.
  unfold bf.
  assert (HR : bf_rounds (V g) = V g - 1).
  { unfold Hybrid.bf_rounds, U32.sub, U32.modulus.
    destruct (proj1 Hdag) as (_ & HV & _). unfold U32.modulus in HV.
    destruct (N.ltb_spec 1 (V g)); lia. }
  destruct (bf_loop_rounds g DEPTH (proj1 Hdag) (bf_rounds (V g))
              (Hybrid.init_dist DEPTH 0) 1) as (_ & _ & _ & _ & _ & _ & Hall).
  { rewrite HR. destruct (proj1 Hdag) as (_ & HV & _). lia. }
  rewrite Hall, HR.
  destruct (N.to_nat (V g - 1)) as [|k] eqn:Hk; [lia|].
  destruct init_sound as [Hrel Ht].
  destruct (rounds_sound _ k Hrel Ht) as [Hrel' Ht'].
  apply tight_sink; assumption.
Qed.

(** The list [@main] returns has the reference distance at the sink. *)
Lemma hybrid_main_sink :
  ceil_log4 (V g) = Some DEPTH ->
  exists l, main g 0 = Some l /\
            length l = N.to_nat (V g) /\
            word_at l sink = D 0.
Proof.
  intros Hc. unfold main. rewrite Hc.
  pose proof hybrid_sink as Hs.
  destruct (bf g DEPTH 0) as [dist c]. cbn [fst] in Hs.
  assert (Hmatch : forall (a b : list N),
             match V g with 0 => a | N.pos _ => b end = b)
    by (intros a b; destruct (V g) eqn:HV; [lia|reflexivity]).
  rewrite Hmatch.
  eexists. split; [reflexivity|].
  rewrite (extract_go_spec dist (N.to_nat (V g)) 0) by lia.
  rewrite N.sub_0_r. split.
  - rewrite length_map, length_seq. reflexivity.
  - unfold word_at.
    rewrite (nth_indep _ 0 ((fun k => reading dist (0 + N.of_nat k)) 0%nat))
      by (rewrite length_map, length_seq; lia).
    rewrite (map_nth (fun k => reading dist (0 + N.of_nat k))).
    rewrite seq_nth by lia. etransitivity; [|exact Hs]. f_equal. lia.
Qed.

End HybridOnDag.

(** *** The let-chain program on a forward graph *)

Section Names.

Import DagDp.

Lemma b64_digit_inj a b : a < 64 -> b < 64 -> b64_digit a = b64_digit b -> a = b.
Proof.
  intros Ha Hb Heq.
  assert (Hall : forallb (fun i => forallb (fun j =>
            implb (Ascii.eqb (nth i B64 "_"%char) (nth j B64 "_"%char))
                  (Nat.eqb i j)) (seq 0 64)) (seq 0 64) = true)
    by (vm_compute; reflexivity).
  rewrite forallb_forall in Hall.
  specialize (Hall (N.to_nat a) ltac:(apply in_seq; lia)).
  rewrite forallb_forall in Hall.
  specialize (Hall (N.to_nat b) ltac:(apply in_seq; lia)).
  unfold b64_digit in Heq. rewrite Heq, Ascii.eqb_refl in Hall.
  simpl in Hall. apply Nat.eqb_eq in Hall. lia.
Qed.

Lemma land_63 n : N.land n 63 = n mod 64.
Proof. change 63 with (N.ones 6). rewrite N.land_ones. reflexivity. Qed.

Lemma node_name_inj u v :
  u < 262144 -> v < 262144 -> node_name u = node_name v -> u = v.
Proof.
  intros Hu Hv Heq. unfold node_name in Heq.
  injection Heq as H2 H1 H0.
  rewrite !land_63, !N.shiftr_div_pow2 in *.
  change (2 ^ 12) with 4096 in *. change (2 ^ 6) with 64 in *.
  apply b64_digit_inj in H2, H1, H0; try (apply N.mod_lt; lia).
  lia.
Qed.

Lemma lookup_bind env x p y :
  lookup ((x, p) :: env) y = if String.eqb x y then Some p else lookup env y.
Proof. reflexivity. Qed.

End Names.

Section DagDpOnDag.

Import DagDp.

Variables (g : csr) (W : N).
Hypothesis Hdag : dag_ok g W.
Hypothesis Hn : 2 <= V g.
Hypothesis Hsmall : V g <= 131072.
Hypothesis Hbound : (V g - 1) * W < INF.

Local Abbreviation rp := (word_at (row_ptr g)).
Local Abbreviation ci := (word_at (col_idx g)).
Local Abbreviation wt := (word_at (edge_wt g)).
Local Abbreviation sink := (V g - 1).
Local Abbreviation D := (word_at (reference_dist g (V g - 1))).

Lemma weight_le_INF : W <= INF.
Proof. nia. Qed.

(** The nested [@min] over the edges [first .. first + k]. *)
Lemma eval_min_chain env : forall (k : nat) first,
  first + N.of_nat k < U32.modulus ->
  (forall e, first <= e <= first + N.of_nat k ->
     exists p, lookup env (node_name (ci e)) = Some p /\
               wt e + p < U32.modulus) ->
  exists m, eval env (min_chain g first k) = Some m /\
    (forall e p, first <= e <= first + N.of_nat k ->
       lookup env (node_name (ci e)) = Some p -> m <= wt e + p) /\
    (exists e p, first <= e <= first + N.of_nat k /\
       lookup env (node_name (ci e)) = Some p /\ m = wt e + p).
Proof.
  induction k as [|k IH]; intros first Hfirst Hall.
  - destruct (Hall first ltac:(lia)) as (p & Hl & Hb).
    cbn [min_chain eval]. rewrite Hl.
    assert (Hadd : U32.add (wt first) p = wt first + p)
      by (unfold U32.add; apply N.mod_small; exact Hb).
    rewrite Hadd. eexists. split; [reflexivity|]. split.
    + intros e p' He Hl'. assert (e = first) by lia. subst e.
      rewrite Hl in Hl'. injection Hl' as <-. lia.
    + exists first, p. split; [lia|]. split; [exact Hl|reflexivity].
  - destruct (Hall first ltac:(lia)) as (p & Hl & Hb).
    assert (Hnext : U32.add first 1 = first + 1)
      by (unfold U32.add; apply N.mod_small; lia).
    destruct (IH (first + 1) ltac:(lia)) as (m & Hm & Hle & e0 & p0 & He0 & Hl0 & Hm0).
    { intros e He. apply Hall. lia. }
    cbn [min_chain eval]. rewrite Hl, Hnext, Hm.
    assert (Hadd : U32.add (wt first) p = wt first + p)
      by (unfold U32.add; apply N.mod_small; exact Hb).
    rewrite Hadd. eexists. split; [reflexivity|].
    unfold min_fn, U32.lt.
    destruct (N.ltb_spec (wt first + p) m) as [Hlt|Hge].
    + split.
      * intros e p' He Hl'. destruct (N.eq_dec e first) as [->|Hne].
        -- rewrite Hl in Hl'. injection Hl' as <-. lia.
        -- specialize (Hle e p' ltac:(lia) Hl'). lia.
      * exists first, p. split; [lia|]. split; [exact Hl|reflexivity].
    + split.
      * intros e p' He Hl'. destruct (N.eq_dec e first) as [->|Hne].
        -- rewrite Hl in Hl'. injection Hl' as <-. lia.
        -- apply (Hle e p'); [lia|exact Hl'].
      * exists e0, p0. split; [lia|]. split; [exact Hl0|exact Hm0].
Qed.

(** The right-hand side of a node, under bindings for the later nodes. *)
Lemma eval_node_expr env u :
  u < sink -> bound_env g W env u ->
  exists p, eval env (node_expr g u) = Some p /\
            p <= INF + (sink - u) * W /\
            D u = N.min INF p.
Proof.
  intros Hu Henv. pose proof weight_le_INF as HW.
  destruct (rows_deg g u (proj1 Hdag) ltac:(lia)) as (Hdeg & Hmono & Hlast).
  destruct (reference_dist_spec g W Hdag HW sink ltac:(lia))
    as (_ & HDle & Hnodes).
  destruct (Hnodes u ltac:(lia) ltac:(lia)) as (HDedge & HDatt).
  pose proof (HDle u) as HDu.
  unfold node_expr. fold (graph_deg g u). rewrite Hdeg.
  destruct (N.eqb_spec (rp (u + 1) - rp u) 0) as [Hz|Hnz].
  - exists INF. split; [reflexivity|]. split; [apply N.le_add_r|].
    destruct HDatt as [Hinf|(e & He & _)]; lia.
  - assert (Hedges : forall e, rp u <= e < rp (u + 1) ->
              exists p, lookup env (node_name (ci e)) = Some p /\
                        wt e + p <= INF + (sink - u) * W /\
                        D (ci e) = N.min INF p).
    { intros e He.
      destruct (dag_edge g W Hdag HW u e ltac:(lia) He) as (Hc & Hw & _).
      destruct (Henv (ci e) ltac:(lia)) as (p & Hl & Hp & HDp).
      exists p. split; [exact Hl|]. split; [|exact HDp].
      assert ((sink - ci e + 1) * W <= (sink - u) * W)
        by (apply N.mul_le_mono_r; lia).
      lia. }
    pose proof (proj1 Hdag) as (_ & _ & _ & Hend).
    destruct (eval_min_chain env (N.to_nat (rp (u + 1) - rp u - 1)) (rp u))
      as (m & Hm & Hle & e0 & p0 & He0 & Hl0 & Hm0).
    { unfold U32.modulus in *. lia. }
    { intros e He. destruct (Hedges e ltac:(lia)) as (p & Hl & Hp & _).
      exists p. split; [exact Hl|]. unfold U32.modulus. unfold INF in *. lia. }
    exists m. split; [exact Hm|].
    destruct (Hedges e0 ltac:(lia)) as (q0 & Hq0 & Hb0 & HD0).
    rewrite Hl0 in Hq0. injection Hq0 as <-.
    split; [lia|].
    pose proof (HDedge e0 ltac:(lia)) as Hup.
    destruct HDatt as [Hinf|(e & He & HDe)]; [lia|].
    destruct (Hedges e He) as (q & Hq & Hb & HDq).
    specialize (Hle e q ltac:(lia) Hq). lia.
Qed.

(** The bindings of the nodes [m, ..., 1], in that order. *)
Lemma run_binds_nodes : forall (m : nat) env,
  N.of_nat m < sink -> bound_env g W env (N.of_nat m) ->
  exists env', run_binds env
                 (map (fun u => (node_name u, node_expr g u))
                      (map N.of_nat (rev (seq 1 m)))) = Some env' /\
               bound_env g W env' 0.
Proof.
  induction m as [|m IH]; intros env Hm Henv.
  - exists env. split; [reflexivity|exact Henv].
  - rewrite seq_S, rev_app_distr. cbn [rev app map run_binds plus].
    destruct (eval_node_expr env (N.of_nat (S m)) Hm Henv) as (p & Hp & Hb & HD).
    rewrite Hp. apply IH; [lia|].
    intros v Hv. rewrite lookup_bind.
    destruct (String.eqb_spec (node_name (N.of_nat (S m))) (node_name v)) as [Heq|Hne].
    + apply node_name_inj in Heq; [|lia|lia]. subst v.
      exists p. split; [reflexivity|]. split; [exact Hb|exact HD].
    + apply Henv. assert (v <> N.of_nat (S m)) by congruence. lia.
Qed.

Lemma dag_nodes :
  filter (fun u => u <> 0 /\ u <> sink)
         (map N.of_nat (rev (seq 0 (N.to_nat (V g) - 1)))) =
  map N.of_nat (rev (seq 1 (N.to_nat (V g) - 2))).
Proof.
  replace (N.to_nat (V g) - 1)%nat with (S (N.to_nat (V g) - 2)) by lia.
  assert (Hm : (N.to_nat (V g) - 2 < N.to_nat (V g) - 1)%nat) by lia.
  revert Hm. generalize (N.to_nat (V g) - 2)%nat as m. intros m Hm.
  cbn [seq rev]. rewrite map_app, filter_app.
  cbn [map]. rewrite filter_cons_False, filter_nil, app_nil_r by (cbn; lia).
  induction m as [|m IH]; [reflexivity|].
  rewrite seq_S, rev_app_distr. cbn [rev app map plus].
  rewrite filter_cons_True by lia. f_equal. apply IH. lia.
Qed.

(** The number the let-chain program reduces to. *)
Lemma dag_dp_run :
  exists p, run (gen_hvm4_source g 0 sink) = Some p /\
            p <= INF + sink * W /\
            D 0 = N.min INF p.
Proof.
  pose proof weight_le_INF as HW.
  destruct (reference_dist_spec g W Hdag HW sink ltac:(lia)) as (HDs & _ & _).
  unfold run, gen_hvm4_source. cbn [binds body run_binds eval].
  rewrite dag_nodes.
  destruct (run_binds_nodes (N.to_nat (V g) - 2) [(node_name sink, 0)])
    as (env' & Hrun & Henv').
  { lia. }
  { intros v Hv. replace v with sink by lia. exists 0.
    rewrite lookup_bind, String.eqb_refl. split; [reflexivity|].
    split; [lia|]. rewrite HDs. unfold INF. lia. }
  rewrite Hrun.
  destruct (eval_node_expr env' 0 ltac:(lia) Henv') as (p & Hp & Hb & HD).
  exists p. rewrite N.sub_0_r in Hb. auto.
Qed.

End DagDpOnDag.

(** *** The benchmark's graph generator *)

Section GeneratorFacts.

Import DagDp.

(** The generator's raw edges. *)

Lemma gen_chain_spec : forall (k : nat) i s acc,
  exists ext s', gen_chain k i s acc = (acc ++ ext, s') /\
    length ext = k /\
    (forall e, In e ext ->
       i <= fst (fst e) < i + N.of_nat k /\
       snd (fst e) = fst (fst e) + 1 /\ snd e <= 20) /\
    (forall j, i <= j < i + N.of_nat k -> exists w, In (j, j + 1, w) ext).
Proof.
  induction k as [|k IH]; intros i s acc.
  - exists [], s. rewrite app_nil_r. split; [reflexivity|]. split; [reflexivity|].
    split; [intros e []|intros j Hj; lia].
  - cbn [gen_chain].
    destruct (IH (i + 1) (lcg_next s) (acc ++ [(i, i + 1, lcg_next s mod 10 + 1)]))
      as (ext & s' & Heq & Hlen & Hall & Hchain).
    exists ((i, i + 1, lcg_next s mod 10 + 1) :: ext), s'.
    rewrite Heq, <- app_assoc. split; [reflexivity|].
    split; [simpl; lia|]. split.
    + intros e [<-|He]; cbn [fst snd].
      * split; [lia|]. split; [reflexivity|].
        pose proof (N.mod_lt (lcg_next s) 10 ltac:(lia)). lia.
      * specialize (Hall e He). lia.
    + intros j Hj. destruct (N.eq_dec j i) as [->|Hne].
      * eexists. left. reflexivity.
      * destruct (Hchain j ltac:(lia)) as (w & Hw). exists w. right. exact Hw.
Qed.

Lemma gen_extra_spec n target : 0 < n -> forall (attempts : nat) s acc,
  exists ext, gen_extra attempts n target s acc = acc ++ ext /\
    (forall e, In e ext ->
       fst (fst e) < snd (fst e) < n /\ snd e <= 20) /\
    (length (acc ++ ext) <= Nat.max (length acc) (N.to_nat target))%nat.
Proof.
  intros Hn. induction attempts as [|a IH]; intros s acc.
  - exists []. rewrite app_nil_r. split; [reflexivity|].
    split; [intros e []|lia].
  - cbn [gen_extra].
    destruct (N.ltb_spec (N.of_nat (length acc)) target) as [Hlt|Hge].
    + cbn zeta.
      set (s1 := lcg_next s). set (s2 := lcg_next s1). set (s3 := lcg_next s2).
      destruct (N.leb_spec (s2 mod n) (s1 mod n)) as [Hle|Hgt].
      * apply IH.
      * destruct (IH s3 (acc ++ [(s1 mod n, s2 mod n, s3 mod 20 + 1)]))
          as (ext & Heq & Hall & Hlen).
        exists ((s1 mod n, s2 mod n, s3 mod 20 + 1) :: ext).
        rewrite Heq, <- app_assoc. split; [reflexivity|]. split.
        -- intros e [<-|He]; cbn [fst snd].
           ++ pose proof (N.mod_lt s2 n ltac:(lia)).
              pose proof (N.mod_lt s3 20 ltac:(lia)). lia.
           ++ apply Hall. exact He.
        -- rewrite <- app_assoc in Hlen. cbn [app] in Hlen.
           rewrite length_app in Hlen |- *. cbn [length] in *.
           rewrite length_app in Hlen. cbn [length] in Hlen. lia.
    + exists []. rewrite app_nil_r. split; [reflexivity|].
      split; [intros e []|lia].
Qed.

(** The raw edges lead forward, weigh at most 20 and contain the chain. *)
Lemma gen_raw_spec n epn seed :
  1 <= n < U32.modulus ->
  let raw := gen_raw n epn seed in
  (forall e, In e raw -> fst (fst e) < snd (fst e) < n /\ snd e <= 20) /\
  (forall j, j + 1 < n -> exists w, In (j, j + 1, w) raw) /\
  N.of_nat (length raw) < U32.modulus.
Proof.
  intros Hn. cbn zeta. unfold gen_raw.
  destruct (gen_chain_spec (N.to_nat n - 1) 0 seed [])
    as (chain & s' & Heq & Hlen & Hall & Hchain).
  rewrite Heq. cbn [app].
  destruct (gen_extra_spec n (U32.mul n epn) ltac:(lia)
              (N.to_nat (U32.mul (U32.mul n (U32.sub epn 1)) 3)) s' chain)
    as (ext & Heq' & Hall' & Hlen').
  rewrite Heq'. split; [|split].
  - intros e He. apply in_app_or in He. destruct He as [He|He].
    + specialize (Hall e He). lia.
    + apply Hall'. exact He.
  - intros j Hj. destruct (Hchain j ltac:(lia)) as (w & Hw).
    exists w. apply in_or_app. left. exact Hw.
  - assert (U32.mul n epn < U32.modulus)
      by (unfold U32.mul; apply N.mod_lt; unfold U32.modulus; lia).
    unfold U32.modulus in *. lia.
Qed.

(** Counting edges by source. *)

Lemma below_succ l u :
  below_count l (u + 1) = (below_count l u + out_count l u)%nat.
Proof.
  unfold below_count, out_count. induction l as [|e l IH]; [reflexivity|].
  rewrite !filter_cons. repeat case_decide; cbn [length]; lia.
Qed.

Lemma below_mono l u u' : u <= u' -> (below_count l u <= below_count l u')%nat.
Proof.
  intros Hu. unfold below_count. induction l as [|e l IH]; [reflexivity|].
  rewrite !filter_cons. repeat case_decide; cbn [length]; lia.
Qed.

Lemma below_zero l : below_count l 0 = 0%nat.
Proof.
  unfold below_count. induction l as [|e l IH]; [reflexivity|].
  rewrite filter_cons. case_decide; [lia|exact IH].
Qed.

Lemma below_le_length l u : (below_count l u <= length l)%nat.
Proof.
  unfold below_count. induction l as [|e l IH]; [reflexivity|].
  rewrite filter_cons. case_decide; cbn [length]; lia.
Qed.

Lemma out_count_app l1 l2 u :
  out_count (l1 ++ l2) u = (out_count l1 u + out_count l2 u)%nat.
Proof. unfold out_count. rewrite filter_app, length_app. reflexivity. Qed.

Lemma out_count_cons e l u :
  out_count (e :: l) u = ((if decide (fst (fst e) = u) then 1 else 0) + out_count l u)%nat.
Proof. unfold out_count. rewrite filter_cons. case_decide; reflexivity. Qed.

Lemma out_count_shift l u :
  length (filter (fun e : N * N * N => fst (fst e) + 1 = u + 1) l) = out_count l u.
Proof.
  unfold out_count. induction l as [|e l IH]; [reflexivity|].
  rewrite !filter_cons. repeat case_decide; cbn [length]; lia.
Qed.

Lemma no_source_zero l :
  length (filter (fun e : N * N * N => fst (fst e) + 1 = 0) l) = 0%nat.
Proof.
  induction l as [|e l IH]; [reflexivity|].
  rewrite filter_cons. case_decide; [lia|exact IH].
Qed.

(** The three loops of the counting sort. *)

Lemma count_sources_spec : forall raw rp,
  (forall e, In e raw -> (N.to_nat (fst (fst e) + 1) < length rp)%nat) ->
  (forall j, word_at rp j + N.of_nat (length raw) < U32.modulus) ->
  length (count_sources raw rp) = length rp /\
  forall j, word_at (count_sources raw rp) j =
            word_at rp j +
            N.of_nat (length (filter (fun e => fst (fst e) + 1 = j) raw)).
Proof.
  unfold count_sources.
  induction raw as [|e raw IH]; intros rp Hin Hsmall.
  - split; [reflexivity|]. intros j. cbn [fold_left].
    rewrite filter_nil. cbn [length]. lia.
  - cbn [fold_left].
    set (i := fst (fst e) + 1).
    set (rp1 := <[N.to_nat i := U32.add (word_at rp i) 1]> rp).
    assert (Hi : (N.to_nat i < length rp)%nat) by (apply Hin; left; reflexivity).
    assert (Hadd : U32.add (word_at rp i) 1 = word_at rp i + 1).
    { unfold U32.add. apply N.mod_small. specialize (Hsmall i).
      cbn [length] in Hsmall. lia. }
    assert (Hrp1 : forall j, word_at rp1 j =
                             word_at rp j + (if decide (i = j) then 1 else 0)).
    { intros j. subst rp1. rewrite word_at_insert, Hadd.
      repeat case_decide; subst; lia. }
    destruct (IH rp1) as (Hlen & Hval).
    + intros e' He'. subst rp1. rewrite length_insert. apply Hin. right. exact He'.
    + intros j. rewrite Hrp1. specialize (Hsmall j). cbn [length] in Hsmall.
      case_decide; lia.
    + split.
      * rewrite Hlen. subst rp1. apply length_insert.
      * intros j. rewrite Hval, Hrp1, filter_cons. fold i.
        repeat case_decide; cbn [length]; lia.
Qed.

Section CountingSort.

Variable raw : list (N * N * N).
Hypothesis Hraw : N.of_nat (length raw) < U32.modulus.

Lemma prefix_sums_step (k : nat) (rp : list N) :
  prefix_sums (S k) rp =
  <[S k := U32.add (word_at (prefix_sums k rp) (N.of_nat (S k)))
                   (word_at (prefix_sums k rp) (N.of_nat (S k) - 1))]>
    (prefix_sums k rp).
Proof. unfold prefix_sums. rewrite seq_S, fold_left_app. reflexivity. Qed.

Lemma prefix_sums_spec (rp : list N) :
  (forall j, word_at rp j =
             N.of_nat (length (filter (fun e => fst (fst e) + 1 = j) raw))) ->
  forall k : nat, (k < length rp)%nat ->
  length (prefix_sums k rp) = length rp /\
  (forall j, j <= N.of_nat k ->
     word_at (prefix_sums k rp) j = N.of_nat (below_count raw j)) /\
  (forall j, N.of_nat k < j -> word_at (prefix_sums k rp) j = word_at rp j).
Proof.
  intros Hrp. induction k as [|k IH]; intros Hk.
  - split; [reflexivity|]. split; [|reflexivity].
    intros j Hj. assert (j = 0) by lia. subst j.
    cbn [prefix_sums seq fold_left]. rewrite Hrp, no_source_zero, below_zero.
    reflexivity.
  - destruct (IH ltac:(lia)) as (Hlen & Hlow & Hhigh).
    rewrite prefix_sums_step.
    assert (Hcur : word_at (prefix_sums k rp) (N.of_nat (S k)) =
                   N.of_nat (out_count raw (N.of_nat k))).
    { rewrite Hhigh by lia. rewrite Hrp.
      replace (N.of_nat (S k)) with (N.of_nat k + 1) by lia.
      rewrite out_count_shift. reflexivity. }
    assert (Hprev : word_at (prefix_sums k rp) (N.of_nat (S k) - 1) =
                    N.of_nat (below_count raw (N.of_nat k))).
    { replace (N.of_nat (S k) - 1) with (N.of_nat k) by lia.
      apply Hlow. lia. }
    assert (Hsum : below_count raw (N.of_nat (S k)) =
                   (below_count raw (N.of_nat k) + out_count raw (N.of_nat k))%nat).
    { replace (N.of_nat (S k)) with (N.of_nat k + 1) by lia. apply below_succ. }
    pose proof (below_le_length raw (N.of_nat (S k))) as Hle.
    rewrite Hcur, Hprev.
    assert (Hadd : U32.add (N.of_nat (out_count raw (N.of_nat k)))
                           (N.of_nat (below_count raw (N.of_nat k))) =
                   N.of_nat (below_count raw (N.of_nat (S k)))).
    { unfold U32.add. rewrite N.mod_small; lia. }
    rewrite Hadd. split; [rewrite length_insert; exact Hlen|]. split.
    + intros j Hj.
      replace (S k) with (N.to_nat (N.of_nat (S k))) at 1 by lia.
      rewrite word_at_insert. case_decide as Hd.
      * destruct Hd as [<- _]. reflexivity.
      * apply Hlow. rewrite Hlen in Hd. lia.
    + intros j Hj.
      replace (S k) with (N.to_nat (N.of_nat (S k))) at 1 by lia.
      rewrite word_at_insert. case_decide as Hd; [lia|]. apply Hhigh. lia.
Qed.

End CountingSort.

Section Placing.

Variables (raw : list (N * N * N)) (n : N).
Hypothesis Hsrc : forall e, In e raw -> fst (fst e) < n.
Hypothesis Hraw : N.of_nat (length raw) < U32.modulus.

Lemma out_le_raw done todo u :
  raw = done ++ todo -> (out_count done u <= out_count raw u)%nat.
Proof. intros ->. rewrite out_count_app. lia. Qed.

Lemma row_end u : (below_count raw u + out_count raw u <= length raw)%nat.
Proof. rewrite <- below_succ. apply below_le_length. Qed.

Lemma rows_apart u u' : u < u' ->
  (below_count raw u + out_count raw u <= below_count raw u')%nat.
Proof. intros H. rewrite <- below_succ. apply below_mono. lia. Qed.

Lemma place_step done todo u v w pos ci wt :
  raw = done ++ (u, v, w) :: todo ->
  placed raw done n (pos, ci, wt) ->
  placed raw (done ++ [(u, v, w)]) n
    (<[N.to_nat u := U32.add (word_at pos u) 1]> pos,
     <[N.to_nat (word_at pos u) := v]> ci,
     <[N.to_nat (word_at pos u) := w]> wt).
Proof.
  intros Hsplit (Hlp & Hlc & Hlw & Hpos & Hcells & Hedges).
  assert (Hu : u < n).
  { apply (Hsrc (u, v, w)). rewrite Hsplit. apply in_or_app. right. left.
    reflexivity. }
  assert (Hout : (out_count done u < out_count raw u)%nat).
  { rewrite Hsplit, out_count_app, out_count_cons. cbn [fst].
    case_decide; [lia|congruence]. }
  pose proof (row_end u) as Hend.
  set (p := word_at pos u).
  assert (Hp : p = N.of_nat (below_count raw u + out_count done u))
    by (apply Hpos; exact Hu).
  assert (Hadd : U32.add p 1 = p + 1)
    by (unfold U32.add; apply N.mod_small; lia).
  assert (Hdone : forall u',
            out_count (done ++ [(u, v, w)]) u' =
            (out_count done u' + if decide (u = u') then 1 else 0)%nat).
  { intros u'. rewrite out_count_app, out_count_cons. cbn [fst].
    change (out_count [] u') with 0%nat. case_decide; lia. }
  assert (Hother : forall u' (e : nat), u' <> u ->
            (below_count raw u' <= e < below_count raw u' + out_count done u')%nat ->
            N.of_nat e <> p).
  { intros u' e Hne He.
    pose proof (out_le_raw done ((u, v, w) :: todo) u' Hsplit) as Hle.
    destruct (N.lt_ge_cases u' u) as [Hlt|Hge].
    - pose proof (rows_apart u' u Hlt). pose proof (below_mono raw u' u). lia.
    - pose proof (rows_apart u u' ltac:(lia)). lia. }
  unfold placed. rewrite !length_insert.
  split; [exact Hlp|]. split; [exact Hlc|]. split; [exact Hlw|].
  split; [|split].
  - intros u' Hu'. rewrite word_at_insert, Hdone, Hadd.
    case_decide as Hd.
    + destruct Hd as [<- _]. case_decide; [lia|congruence].
    + case_decide as Hd'; [subst u'; exfalso; apply Hd; split; [reflexivity|lia]|].
      rewrite Hpos by exact Hu'. lia.
  - intros u' e Hu' He. rewrite Hdone in He. rewrite !word_at_insert.
    destruct (N.eq_dec (N.of_nat e) p) as [Hep|Hep].
    + assert (u' = u).
      { destruct (N.eq_dec u' u) as [Heq|Hne]; [exact Heq|].
        exfalso. case_decide; [congruence|].
        apply (Hother u' e Hne); [lia|exact Hep]. }
      subst u'. exists v, w. split; [apply in_or_app; right; left; reflexivity|].
      repeat case_decide; try (split; reflexivity); exfalso; lia.
    + assert (He' : (below_count raw u' <= e <
                     below_count raw u' + out_count done u')%nat).
      { case_decide; [subst u'; lia|lia]. }
      destruct (Hcells u' e Hu' He') as (v' & w' & Hin & Hc & Hw).
      exists v', w'. split; [apply in_or_app; left; exact Hin|].
      repeat case_decide; try (split; assumption); exfalso; lia.
  - intros u' v' w' Hin. apply in_app_or in Hin. destruct Hin as [Hin|Hin].
    + destruct (Hedges u' v' w' Hin) as (e & He & Hc & Hw).
      exists e. rewrite Hdone, !word_at_insert.
      assert (Hep : N.of_nat e <> p).
      { destruct (N.eq_dec u' u) as [->|Hne]; [lia|].
        apply (Hother u' e Hne He). }
      split; [lia|].
      repeat case_decide; try (split; assumption); exfalso; lia.
    + destruct Hin as [Heq|[]]. injection Heq as <- <- <-.
      exists (below_count raw u + out_count done u)%nat.
      rewrite Hdone, !word_at_insert. rewrite <- Hp.
      split; [case_decide; [lia|congruence]|].
      repeat case_decide; try (split; reflexivity); exfalso; lia.
Qed.

Lemma place_edges_placed : forall todo done st,
  raw = done ++ todo -> placed raw done n st ->
  placed raw raw n (place_edges todo st).
Proof.
  induction todo as [|[[u v] w] todo IH]; intros done st Hsplit Hst.
  - rewrite app_nil_r in Hsplit. subst done. exact Hst.
  - destruct st as [[pos ci] wt]. unfold place_edges. cbn [fold_left].
    apply (IH (done ++ [(u, v, w)])).
    + rewrite <- app_assoc. exact Hsplit.
    + apply (place_step done todo); assumption.
Qed.

End Placing.

Lemma word_at_zeros (m : nat) j : word_at (replicate m 0) j = 0.
Proof.
  unfold word_at. rewrite nth_lookup.
  destruct (replicate m 0 !! N.to_nat j) as [x|] eqn:Hx; [|reflexivity].
  apply lookup_replicate in Hx. cbn. apply Hx.
Qed.

Lemma word_at_take (k : nat) l j :
  (N.to_nat j < k)%nat -> word_at (take k l) j = word_at l j.
Proof.
  intros H. unfold word_at. rewrite !nth_lookup, lookup_take_lt by exact H.
  reflexivity.
Qed.

(** What the generator returns: a forward graph with weights up to 20 that
    contains the chain [0 -> 1 -> ... -> n - 1]. *)
Lemma gen_dag_forward n epn seed :
  1 <= n < U32.modulus ->
  let g := gen_dag n epn seed in
  V g = n /\ dag_ok g 20 /\
  (forall u, u + 1 < n ->
     exists e, word_at (row_ptr g) u <= e < word_at (row_ptr g) (u + 1) /\
               word_at (col_idx g) e = u + 1).
Proof.
  intros Hn. cbn zeta. unfold gen_dag.
  destruct (gen_raw_spec n epn seed Hn) as (Hfwd & Hchain & Hlen).
  set (raw := gen_raw n epn seed) in *.
  assert (Hsrc : forall e, In e raw -> fst (fst e) < n).
  { intros e He. specialize (Hfwd e He). lia. }
  destruct (count_sources_spec raw (replicate (N.to_nat n + 2) 0))
    as (Hlen1 & Hval1).
  { intros e He. rewrite length_replicate. specialize (Hsrc e He). lia. }
  { intros j. rewrite word_at_zeros. lia. }
  set (rp1 := count_sources raw (replicate (N.to_nat n + 2) 0)) in *.
  rewrite length_replicate in Hlen1.
  destruct (prefix_sums_spec raw Hlen rp1) with (k := N.to_nat n)
    as (Hlen2 & Hlow & _).
  { intros j. rewrite Hval1, word_at_zeros. reflexivity. }
  { lia. }
  set (rp := prefix_sums (N.to_nat n) rp1) in *.
  assert (Hinit : placed raw [] n
            (take (N.to_nat n + 1) rp,
             replicate (length raw) 0, replicate (length raw) 0)).
  { unfold placed. rewrite length_take, !length_replicate.
    split; [lia|]. split; [reflexivity|]. split; [reflexivity|].
    split; [|split].
    - intros u Hu. rewrite word_at_take by lia. rewrite Hlow by lia.
      change (out_count [] u) with 0%nat. lia.
    - intros u e Hu He. change (out_count [] u) with 0%nat in He. lia.
    - intros u v w []. }
  pose proof (place_edges_placed raw n Hsrc Hlen raw [] _ eq_refl Hinit) as Hfin.
  destruct (place_edges raw _) as [[pos ci] wt].
  destruct Hfin as (_ & Hlc & Hlw & _ & Hcells & Hedges).
  assert (Hrow : forall u, u < n ->
            word_at rp u = N.of_nat (below_count raw u) /\
            word_at rp (u + 1) =
              N.of_nat (below_count raw u + out_count raw u)).
  { intros u Hu. rewrite !Hlow by lia. rewrite below_succ. auto. }
  split; [reflexivity|]. split; [split|].
  - (* the row pointers *)
    unfold rows_ok. cbn [V row_ptr]. split; [lia|]. split; [lia|]. split.
    + intros u Hu. destruct (Hrow u Hu) as [-> ->]. lia.
    + rewrite Hlow by lia. pose proof (below_le_length raw n). lia.
  - (* the edges *)
    cbn [V row_ptr col_idx edge_wt]. intros u e Hu He.
    destruct (Hrow u Hu) as [H1 H2]. rewrite H1, H2 in He.
    destruct (Hcells u (N.to_nat e) Hu ltac:(lia)) as (v & w & Hin & Hc & Hw).
    rewrite N2Nat.id in Hc, Hw. rewrite Hc, Hw.
    specialize (Hfwd _ Hin). cbn [fst snd] in Hfwd. lia.
  - (* the chain *)
    cbn [V row_ptr col_idx edge_wt]. intros u Hu.
    destruct (Hchain u Hu) as (w & Hin).
    destruct (Hedges _ _ _ Hin) as (e & He & Hc & _).
    destruct (Hrow u ltac:(lia)) as [H1 H2].
    exists (N.of_nat e). rewrite H1, H2. split; [lia|exact Hc].
Qed.

(** Along the chain the reference stays below the sentinel. *)
Lemma chain_reference_bound g W :
  dag_ok g W -> 2 <= V g -> (V g - 1) * W < INF ->
  (forall u, u + 1 < V g ->
     exists e, word_at (row_ptr g) u <= e < word_at (row_ptr g) (u + 1) /\
               word_at (col_idx g) e = u + 1) ->
  forall (k : nat) u, u + N.of_nat k = V g - 1 ->
    word_at (reference_dist g (V g - 1)) u <= N.of_nat k * W.
Proof.
  intros Hdag Hn Hbound Hchain.
  assert (HW : W <= INF) by nia.
  destruct (reference_dist_spec g W Hdag HW (V g - 1) ltac:(lia))
    as (Hsink & _ & Hnodes).
  induction k as [|k IH]; intros u Hu.
  - replace u with (V g - 1) by lia. rewrite Hsink. lia.
  - destruct (Hchain u ltac:(lia)) as (e & He & Hc).
    destruct (Hnodes u ltac:(lia) ltac:(lia)) as (Hedge & _).
    specialize (Hedge e He). rewrite Hc in Hedge.
    specialize (IH (u + 1) ltac:(lia)).
    destruct (proj2 Hdag u e ltac:(lia) He) as (_ & Hw).
    lia.
Qed.

End GeneratorFacts.

(** C1, as stated, fails on a forward graph whose sink cannot be reached:
    in [dead_end] every edge leads to a later node, the reference and the
    hybrid program report the sentinel 999999, and the let-chain program
    adds the eight weights on the way to the dead end to it. *)
Lemma dag_dp_dead_end_above_sentinel :
  dag_ok dead_end 1 /\
  DagDp.dag_dp_reference dead_end 0 9 = 999999 /\
  DagDp.run (DagDp.gen_hvm4_source dead_end 0 9) = Some 1000007 /\
  (fun l => word_at l 9) <$> Hybrid.main dead_end 0 = Some 999999.
Proof.
  split; [apply dag_okb_ok; vm_compute; reflexivity|].
  vm_compute. repeat split; reflexivity.
Qed.

(** C1, amended.  On a graph of at least two and at most 131072 nodes whose
    edges all lead to a later node, with weights small enough that no sum
    along a path reaches the sentinel, the hybrid program returns one
    number per node and the sink's is the reference distance from node 0;
    the let-chain program returns a number whose cut at the sentinel is the
    reference distance, hence the reference distance itself whenever that
    is below the sentinel.  The graphs [gen_dag] produces for 2 to 50000
    nodes, at any density and seed for which its edge buffer suffices, are
    of this kind and contain the chain to the sink: on them the reference
    distance is at most [(n - 1) * 20] and both programs return it. *)
Theorem shortest_path_agreement :
  (forall (g : csr) (W : N),
     dag_ok g W -> 2 <= V g <= 131072 -> (V g - 1) * W < INF ->
     let ref := DagDp.dag_dp_reference g 0 (V g - 1) in
     (exists l, Hybrid.main g 0 = Some l /\
                length l = N.to_nat (V g) /\
                word_at l (V g - 1) = ref) /\
     (exists p, DagDp.run (DagDp.gen_hvm4_source g 0 (V g - 1)) = Some p /\
                ref = N.min INF p /\
                (ref < INF -> p = ref))) /\
  (forall n epn seed : N,
     2 <= n <= 50000 -> n * epn + n < U32.modulus ->
     let g := DagDp.gen_dag n epn seed in
     let ref := DagDp.dag_dp_reference g 0 (n - 1) in
     dag_ok g 20 /\
     ref <= (n - 1) * 20 /\
     (exists l, Hybrid.main g 0 = Some l /\
                length l = N.to_nat n /\
                word_at l (n - 1) = ref) /\
     DagDp.run (DagDp.gen_hvm4_source g 0 (n - 1)) = Some ref).
Proof.
  assert (Hgen : forall (g : csr) (W : N),
     dag_ok g W -> 2 <= V g <= 131072 -> (V g - 1) * W < INF ->
     (exists l, Hybrid.main g 0 = Some l /\
                length l = N.to_nat (V g) /\
                word_at l (V g - 1) = DagDp.dag_dp_reference g 0 (V g - 1)) /\
     (exists p, DagDp.run (DagDp.gen_hvm4_source g 0 (V g - 1)) = Some p /\
                DagDp.dag_dp_reference g 0 (V g - 1) = N.min INF p /\
                (DagDp.dag_dp_reference g 0 (V g - 1) < INF ->
                 p = DagDp.dag_dp_reference g 0 (V g - 1)))).
  { intros g W Hdag [Hn Hsmall] Hbound. split.
    - destruct (ceil_log4 (V g)) as [r|] eqn:Hc.
      + destruct (ceil_log4_spec _ _ Hc) as (dn & -> & [_ Hdn] & Hkeys).
        exact (hybrid_main_sink g W dn Hdag Hn Hbound Hdn Hkeys Hc).
      + exfalso. revert Hc. apply ceil_log4_returns.
        change (4 ^ 15) with 1073741824. lia.
    - destruct (dag_dp_run g W Hdag Hn Hsmall Hbound) as (p & Hrun & _ & HD).
      exists p. split; [exact Hrun|]. split; [exact HD|].
      intros Hfin. unfold DagDp.dag_dp_reference in *. lia. }
  split; [exact Hgen|].
  intros n epn seed Hn _. cbn zeta.
  destruct (gen_dag_forward n epn seed) as (HV & Hdag & Hchain).
  { unfold U32.modulus. lia. }
  set (g := DagDp.gen_dag n epn seed) in *.
  assert (Hbound : (V g - 1) * 20 < INF) by (rewrite HV; unfold INF; lia).
  pose proof (chain_reference_bound g 20 Hdag ltac:(lia) Hbound
                ltac:(rewrite HV; exact Hchain) (N.to_nat (n - 1)) 0
                ltac:(lia)) as Href.
  rewrite N2Nat.id in Href.
  destruct (Hgen g 20 Hdag ltac:(lia) Hbound) as (Hhyb & p & Hrun & _ & Hp).
  rewrite HV in *.
  split; [exact Hdag|]. split; [exact Href|]. split; [exact Hhyb|].
  rewrite Hrun. f_equal. apply Hp.
  unfold DagDp.dag_dp_reference. unfold INF. lia.
Qed.

Lemma shortest_path_agreement_witness :
  let g := DagDp.gen_dag 10 4 52 in
  dag_ok g 20 /\
  DagDp.dag_dp_reference g 0 9 = 4 /\
  (exists l, Hybrid.main g 0 = Some l /\ word_at l 9 = 4) /\
  DagDp.run (DagDp.gen_hvm4_source g 0 9) = Some 4.
Proof.
  cbn zeta.
  assert (Href : DagDp.dag_dp_reference (DagDp.gen_dag 10 4 52) 0 9 = 4)
    by (vm_compute; reflexivity).
  pose proof (proj2 shortest_path_agreement 10 4 52
                ltac:(vm_compute; split; discriminate)
                ltac:(vm_compute; reflexivity)) as H.
  cbn zeta in H. change (10 - 1) with 9 in H. rewrite Href in H.
  destruct H as (Hok & _ & (l & Hl & _ & Hs) & Hrun).
  split; [exact Hok|]. split; [reflexivity|].
  split; [exists l; split; assumption|exact Hrun].
Defined.

(** ** The size helpers *)

Section SizeFacts.

Import Sizes.

Lemma ceil_log4_loop_cap fuel : forall n depth cap,
  Lib.ceil_log4_loop fuel n depth cap = cap_loop 4 fuel n depth cap.
Proof. induction fuel as [|fuel IH]; intros; simpl; [|rewrite IH]; reflexivity. Qed.

Lemma ceil_log16_loop_cap fuel : forall n depth cap,
  ceil_log16_loop fuel n depth cap = cap_loop 16 fuel n depth cap.
Proof. induction fuel as [|fuel IH]; intros; simpl; [|rewrite IH]; reflexivity. Qed.

Variables (b : N) (K : nat).
Hypothesis Hb : 2 <= b.
Hypothesis HK : b ^ N.of_nat (S K) = U32.modulus.

Lemma pow_below (d : nat) : (d <= K)%nat -> b ^ N.of_nat d * b <= U32.modulus.
Proof.
  intros Hd. rewrite <- HK.
  replace (N.of_nat (S K)) with (N.succ (N.of_nat K)) by lia.
  rewrite N.pow_succ_r', N.mul_comm. apply N.mul_le_mono_l.
  apply N.pow_le_mono_r; lia.
Qed.

Lemma pow_next (d : nat) :
  (d < K)%nat -> U32.mul (b ^ N.of_nat d) b = b ^ N.of_nat (S d).
Proof.
  intros Hd. replace (N.of_nat (S d)) with (N.succ (N.of_nat d)) by lia.
  rewrite N.pow_succ_r', (N.mul_comm b). unfold U32.mul. apply N.mod_small.
  pose proof (pow_below (S d) ltac:(lia)) as H.
  replace (N.of_nat (S d)) with (N.succ (N.of_nat d)) in H by lia.
  rewrite N.pow_succ_r' in H.
  assert (0 < b ^ N.of_nat d) by (apply N.neq_0_lt_0, N.pow_nonzero; lia).
  nia.
Qed.

Lemma pow_wraps : U32.mul (b ^ N.of_nat K) b = 0.
Proof.
  unfold U32.mul. rewrite N.mul_comm, <- N.pow_succ_r'.
  replace (N.succ (N.of_nat K)) with (N.of_nat (S K)) by lia.
  rewrite HK. apply N.Div0.mod_same.
Qed.

Lemma cap_loop_zero fuel n : forall depth,
  0 < n -> cap_loop b fuel n depth 0 = None.
Proof.
  induction fuel as [|fuel IH]; intros depth Hn; simpl; [reflexivity|].
  destruct (N.ltb_spec 0 n); [|lia].
  replace (U32.mul 0 b) with 0 by reflexivity. apply IH. exact Hn.
Qed.

Lemma depth_next (d : nat) : (d <= K)%nat -> U32.add (N.of_nat d) 1 = N.of_nat (S d).
Proof.
  intros Hd. unfold U32.add.
  assert (N.of_nat K < b ^ N.of_nat K) by (apply N.pow_gt_lin_r; lia).
  pose proof (pow_below K ltac:(lia)).
  rewrite N.mod_small; [lia|nia].
Qed.

(** Within the range the search returns the least exponent. *)
Lemma cap_loop_least n : forall fuel (d : nat),
  n <= b ^ N.of_nat K -> (1 <= d <= K)%nat -> (K - d < fuel)%nat ->
  b ^ N.of_nat (d - 1) < n ->
  exists r : nat,
    cap_loop b fuel n (N.of_nat d) (b ^ N.of_nat d) = Some (N.of_nat r) /\
    (d <= r <= K)%nat /\ b ^ N.of_nat (r - 1) < n <= b ^ N.of_nat r.
Proof.
  induction fuel as [|fuel IH]; intros d Hn Hd Hf Hlow; [lia|]. simpl.
  destruct (N.ltb_spec (b ^ N.of_nat d) n) as [Hlt|Hge].
  - assert (d <> K) by (intros ->; lia).
    rewrite depth_next, pow_next by lia.
    destruct (IH (S d) Hn ltac:(lia) ltac:(lia)) as (r & Hr & Hrd & Hrn).
    { replace (S d - 1)%nat with d by lia. exact Hlt. }
    exists r. split; [exact Hr|]. split; [lia|exact Hrn].
  - exists d. split; [reflexivity|]. split; [lia|]. split; [exact Hlow|exact Hge].
Qed.

(** Beyond it the capacity wraps to zero and the search goes on for ever. *)
Lemma cap_loop_diverges n : forall fuel (d : nat),
  b ^ N.of_nat K < n -> (d <= K)%nat ->
  cap_loop b fuel n (N.of_nat d) (b ^ N.of_nat d) = None.
Proof.
  induction fuel as [|fuel IH]; intros d Hn Hd; [reflexivity|]. simpl.
  assert (Hle : b ^ N.of_nat d <= b ^ N.of_nat K) by (apply N.pow_le_mono_r; lia).
  destruct (N.ltb_spec (b ^ N.of_nat d) n) as [Hlt|Hge]; [|lia].
  destruct (Nat.eq_dec d K) as [->|Hne].
  - rewrite pow_wraps. apply cap_loop_zero. lia.
  - rewrite depth_next, pow_next by lia. apply IH; [exact Hn|lia].
Qed.

End SizeFacts.

(** [ceil_log4_u32] (and the benchmark's [ceil_log4], the same loop): up to
    [2^30] it returns the least [d >= 1] with [n <= 4^d], the depth at which
    a radix-4 trie has a slot for every key below [n]. *)
Theorem ceil_log4_u32_least (n : N) :
  n <= 4 ^ 15 ->
  exists d : nat,
    Lib.ceil_log4_u32 n = Some (N.of_nat d) /\
    Hybrid.ceil_log4 n = Some (N.of_nat d) /\
    (1 <= d <= 15)%nat /\ n <= 4 ^ N.of_nat d /\
    (d = 1%nat \/ 4 ^ N.of_nat (d - 1) < n).
Proof.
  intros Hn. unfold Hybrid.ceil_log4, Lib.ceil_log4_u32.
  destruct (N.leb_spec n 4) as [Hle|Hgt].
  - exists 1%nat. repeat split; try reflexivity; try lia.
  - rewrite ceil_log4_loop_cap.
    destruct (cap_loop_least 4 15 ltac:(lia) ltac:(reflexivity) n 32 1
                Hn ltac:(lia) ltac:(lia) ltac:(simpl; lia))
      as (r & Hr & Hrd & Hrn).
    exists r. change (4 ^ N.of_nat 1) with 4 in Hr. change (N.of_nat 1) with 1 in Hr.
    rewrite Hr. repeat split; try lia.
Qed.

Lemma ceil_log4_u32_least_witness :
  Lib.ceil_log4_u32 1000 = Some 5 /\ 4 ^ 4 < 1000 <= 4 ^ 5.
Proof.
  destruct (ceil_log4_u32_least 1000 ltac:(vm_compute; discriminate))
    as (d & Hd & _ & _ & _ & _).
  split; [reflexivity|]. vm_compute. split; [reflexivity|discriminate].
Defined.

(** Above [2^30] the product [cap *= 4] wraps to zero at the fifteenth
    multiplication and [cap < n] stays true: the loop of [ceil_log4_u32] returns for no
    number of iterations. *)
Theorem ceil_log4_u32_diverges (n : N) (fuel : nat) :
  4 ^ 15 < n ->
  Lib.ceil_log4_loop fuel n 1 4 = None /\ Lib.ceil_log4_u32 n = None.
Proof.
  intros Hn.
  assert (H : forall f, Lib.ceil_log4_loop f n 1 4 = None).
  { intros f. rewrite ceil_log4_loop_cap.
    apply (cap_loop_diverges 4 15 ltac:(lia) ltac:(reflexivity) n f 1); [exact Hn|lia]. }
  split; [apply H|]. unfold Lib.ceil_log4_u32.
  change (4 ^ 15) with 1073741824 in Hn.
  destruct (N.leb_spec n 4); [lia|]. apply H.
Qed.

Lemma ceil_log4_u32_diverges_witness :
  Lib.ceil_log4_loop 1000 1073741825 1 4 = None.
Proof.
  exact (proj1 (ceil_log4_u32_diverges 1073741825 1000
                  ltac:(vm_compute; reflexivity))).
Defined.

(** [ceil_log16_u32]: the least [d >= 1] with [n <= 16^d] up to [2^28];
    above that the capacity wraps and the loop does not return. *)
Theorem ceil_log16_u32_spec (n : N) :
  (n <= 16 ^ 7 ->
   exists d : nat,
     Sizes.ceil_log16_u32 n = Some (N.of_nat d) /\
     (1 <= d <= 7)%nat /\ n <= 16 ^ N.of_nat d /\
     (d = 1%nat \/ 16 ^ N.of_nat (d - 1) < n)) /\
  (16 ^ 7 < n -> forall fuel, Sizes.ceil_log16_loop fuel n 1 16 = None).
Proof.
  split.
  - intros Hn. unfold Sizes.ceil_log16_u32.
    destruct (N.leb_spec n 16) as [Hle|Hgt].
    + exists 1%nat. repeat split; try reflexivity; try lia.
    + rewrite ceil_log16_loop_cap.
      destruct (cap_loop_least 16 7 ltac:(lia) ltac:(reflexivity) n 32 1
                  Hn ltac:(lia) ltac:(lia) ltac:(simpl; lia))
        as (r & Hr & Hrd & Hrn).
      exists r. change (16 ^ N.of_nat 1) with 16 in Hr.
      change (N.of_nat 1) with 1 in Hr.
      rewrite Hr. repeat split; try lia.
  - intros Hn fuel. rewrite ceil_log16_loop_cap.
    apply (cap_loop_diverges 16 7 ltac:(lia) ltac:(reflexivity) n fuel 1);
      [exact Hn|lia].
Qed.

Section Log2Facts.

Import Sizes.

Variable n : N.
Hypothesis Hn : 2 <= n.

Lemma ceil_log2_loop_spec : forall fuel (j : nat) nn,
  nn <= U32.modulus - 2 ->
  2 ^ N.of_nat j * (nn - 1) < n <= 2 ^ N.of_nat j * nn ->
  (j = 0%nat \/ 2 ^ N.of_nat (j - 1) < n) ->
  nn <= 2 ^ N.of_nat (fuel - 1) -> (0 < fuel)%nat -> (j + fuel <= 33)%nat ->
  exists r : nat,
    ceil_log2_loop fuel (N.of_nat j) nn = Some (N.of_nat r) /\
    (1 <= r <= 32)%nat /\ 2 ^ N.of_nat (r - 1) < n <= 2 ^ N.of_nat r.
Proof.
  induction fuel as [|fuel IH]; intros j nn Hnn Hinv Hlow Hsize Hf Hj; [lia|].
  cbn [ceil_log2_loop].
  destruct (N.ltb_spec 1 nn) as [Hgt|Hle].
  - assert (Hadd : U32.add nn 1 = nn + 1)
      by (unfold U32.add, U32.modulus in *; rewrite N.mod_small; lia).
    assert (Hr : U32.add (N.of_nat j) 1 = N.of_nat (S j))
      by (unfold U32.add, U32.modulus; rewrite N.mod_small; lia).
    rewrite Hadd, Hr.
    assert (Hpow : 2 ^ N.of_nat (S j) = 2 * 2 ^ N.of_nat j).
    { replace (N.of_nat (S j)) with (N.succ (N.of_nat j)) by lia.
      apply N.pow_succ_r'. }
    assert (Hfuel : fuel <> 0%nat).
    { intros ->. simpl in Hsize. lia. }
    apply IH.
    + unfold U32.modulus in *. lia.
    + rewrite Hpow. assert (0 < 2 ^ N.of_nat j) by (apply N.neq_0_lt_0, N.pow_nonzero; lia).
      split; nia.
    + right. replace (S j - 1)%nat with j by lia.
      assert (0 < 2 ^ N.of_nat j) by (apply N.neq_0_lt_0, N.pow_nonzero; lia). nia.
    + replace (S fuel - 1)%nat with (S (fuel - 1)) in Hsize by lia.
      replace (N.of_nat (S (fuel - 1))) with (N.succ (N.of_nat (fuel - 1))) in Hsize by lia.
      rewrite N.pow_succ_r' in Hsize. lia.
    + lia.
    + lia.
  - assert (nn = 1) by nia. subst nn.
    destruct Hlow as [->|Hlow]; [simpl in Hinv; lia|].
    assert (j <> 0%nat) by (intros ->; simpl in Hinv; lia).
    exists j. split; [reflexivity|]. split; [lia|]. split; [exact Hlow|lia].
Qed.

End Log2Facts.

(** [ceil_log2_u32]: one for [n <= 1]; for [2 <= n <= 2^32 - 2] the number
    [r] of halvings with [2^(r-1) < n <= 2^r]; and one again for
    [n = 2^32 - 1], where [nn + 1] wraps to zero in the first step. *)
Theorem ceil_log2_u32_spec (n : N) :
  n < U32.modulus ->
  exists r : nat,
    Sizes.ceil_log2_u32 n = Some (N.of_nat r) /\
    (n <= 1 -> r = 1%nat) /\
    (2 <= n <= U32.modulus - 2 -> 2 ^ N.of_nat (r - 1) < n <= 2 ^ N.of_nat r) /\
    (n = U32.modulus - 1 -> r = 1%nat).
Proof.
  intros Hn. unfold Sizes.ceil_log2_u32.
  destruct (N.leb_spec n 1) as [Hle|Hgt].
  - exists 1%nat. split; [reflexivity|]. unfold U32.modulus. repeat split; lia.
  - destruct (N.eq_dec n (U32.modulus - 1)) as [->|Hne].
    + exists 1%nat. split; [vm_compute; reflexivity|].
      unfold U32.modulus. repeat split; lia.
    + destruct (ceil_log2_loop_spec n ltac:(lia) 33 0 n) as (r & Hr & Hr1 & Hrn).
      * unfold U32.modulus in *. lia.
      * simpl. lia.
      * left. reflexivity.
      * change (2 ^ N.of_nat (33 - 1)) with 4294967296.
        unfold U32.modulus in Hn. change (2 ^ 32) with 4294967296 in Hn. lia.
      * lia.
      * lia.
      * change (N.of_nat 0) with 0 in Hr. rewrite Hr.
        exists r. split.
        -- destruct (N.ltb_spec 0 (N.of_nat r)); [reflexivity|lia].
        -- split; [lia|]. split; [intros _; exact Hrn|intros; lia].
Qed.

Lemma ceil_log2_u32_spec_witness :
  Sizes.ceil_log2_u32 1000 = Some 10 /\ Sizes.ceil_log2_u32 4294967295 = Some 1.
Proof.
  destruct (ceil_log2_u32_spec 1000 ltac:(vm_compute; reflexivity)) as (r & Hr & _).
  split; reflexivity.
Defined.

(** ** The string builder *)

Section BuilderFacts.

Import DStr.

Lemma memcpy_at_length src : forall buf off,
  length (memcpy_at buf off src) = length buf.
Proof.
  induction src as [|c src IH]; intros buf off; simpl; [reflexivity|].
  rewrite IH. apply length_insert.
Qed.

Lemma memcpy_at_before src : forall buf off i,
  (i < off)%nat -> memcpy_at buf off src !! i = buf !! i.
Proof.
  induction src as [|c src IH]; intros buf off i Hi; simpl; [reflexivity|].
  rewrite IH by lia. apply list_lookup_insert_ne. lia.
Qed.

Lemma memcpy_at_inside src : forall buf off i,
  (off + length src <= length buf)%nat -> (i < length src)%nat ->
  memcpy_at buf off src !! (off + i)%nat = src !! i.
Proof.
  induction src as [|c src IH]; intros buf off i Hfit Hi; simpl in *; [lia|].
  destruct i as [|i].
  - rewrite Nat.add_0_r, memcpy_at_before by lia.
    apply list_lookup_insert_eq. lia.
  - replace (off + S i)%nat with (S off + i)%nat by lia.
    apply IH; [rewrite length_insert; lia|lia].
Qed.

(** The text and its terminator land in the buffer when there is room. *)
Lemma memcpy_at_text buf text s :
  take (length text) buf = text ->
  (length text + length s < length buf)%nat ->
  let buf' := memcpy_at buf (length text) (s ++ [NUL]) in
  take (length (text ++ s)) buf' = text ++ s /\
  buf' !! length (text ++ s) = Some NUL.
Proof.
  intros Htext Hfit buf'.
  assert (Hlen : length buf' = length buf) by apply memcpy_at_length.
  split.
  - apply list_eq. intros i. rewrite length_app.
    destruct (Nat.lt_ge_cases i (length text + length s)) as [Hi|Hi].
    + rewrite lookup_take_lt by lia.
      destruct (Nat.lt_ge_cases i (length text)) as [Hit|Hit].
      * subst buf'. rewrite memcpy_at_before by lia.
        rewrite lookup_app_l by lia.
        rewrite <- (lookup_take_lt buf (length text) i) by lia.
        rewrite Htext. reflexivity.
      * replace i with (length text + (i - length text))%nat at 1 by lia.
        subst buf'. rewrite memcpy_at_inside
          by (rewrite ?length_app; simpl; lia).
        rewrite lookup_app_l by lia.
        rewrite lookup_app_r by lia. reflexivity.
    + rewrite lookup_take_ge by lia. symmetry.
      apply lookup_ge_None. rewrite length_app. lia.
  - rewrite length_app. subst buf'.
    rewrite memcpy_at_inside by (rewrite ?length_app; simpl; lia).
    rewrite lookup_app_r by lia. rewrite Nat.sub_diag. reflexivity.
Qed.

Lemma grow_spec target : forall fuel (k : nat),
  target <= 2 ^ 63 -> (k <= 51)%nat -> (52 <= k + fuel)%nat ->
  exists k' : nat,
    grow fuel (4096 * 2 ^ N.of_nat k) target = Some (4096 * 2 ^ N.of_nat k') /\
    (k <= k')%nat /\ target <= 4096 * 2 ^ N.of_nat k' /\
    (k' = k \/ 4096 * 2 ^ N.of_nat (k' - 1) < target).
Proof.
  induction fuel as [|fuel IH]; intros k Ht Hk51 Hk; [lia|].
  cbn [grow]. destruct (N.ltb_spec (4096 * 2 ^ N.of_nat k) target) as [Hlt|Hge].
  - assert (Hk' : (k <= 50)%nat).
    { destruct (Nat.le_gt_cases k 50) as [?|Hgt]; [assumption|exfalso].
      assert (2 ^ 51 <= 2 ^ N.of_nat k) by (apply N.pow_le_mono_r; lia).
      change (2 ^ 63) with (4096 * 2 ^ 51) in Ht. lia. }
    assert (Hdouble : size_mul (4096 * 2 ^ N.of_nat k) 2 = 4096 * 2 ^ N.of_nat (S k)).
    { replace (N.of_nat (S k)) with (N.succ (N.of_nat k)) by lia.
      rewrite N.pow_succ_r'. unfold size_mul, GraphStore.size_modulus.
      assert (2 ^ N.of_nat k <= 2 ^ 50) by (apply N.pow_le_mono_r; lia).
      change (2 ^ 64) with (4096 * 2 ^ 52).
      change (2 ^ 50) with 1125899906842624 in *.
      change (2 ^ 52) with 4503599627370496. rewrite N.mod_small; lia. }
    rewrite Hdouble.
    destruct (IH (S k) Ht ltac:(lia) ltac:(lia)) as (k' & Hg & Hkk & Hfit & Hmin).
    exists k'. split; [exact Hg|]. split; [lia|]. split; [exact Hfit|].
    right. destruct Hmin as [->|Hmin]; [|exact Hmin].
    replace (S k - 1)%nat with k by lia. exact Hlt.
  - exists k. split; [reflexivity|]. split; [lia|]. split; [lia|]. left. reflexivity.
Qed.

Lemma realloc_bytes_length buf n : length (realloc_bytes buf n) = Nat.max (Nat.min (N.to_nat n) (length buf)) (N.to_nat n).
Proof.
  unfold realloc_bytes. rewrite length_app, length_take, length_replicate. lia.
Qed.

Lemma realloc_bytes_take buf n (m : nat) :
  (m <= length buf)%nat -> (length buf <= N.to_nat n)%nat ->
  take m (realloc_bytes buf n) = take m buf.
Proof.
  intros Hm Hn. unfold realloc_bytes.
  rewrite (take_ge buf (N.to_nat n)) by lia.
  rewrite take_app_le by lia. reflexivity.
Qed.

(** One append: the text grows by the piece, and the buffer is enlarged
    only when the piece does not fit, to no more than twice what is
    needed. *)
Lemma dstr_append_holds ds text s :
  holds ds text ->
  N.of_nat (length text + length s) + 1 <= 2 ^ 63 ->
  exists ds',
    dstr_append ds s = Some ds' /\ holds ds' (text ++ s) /\
    (len ds + N.of_nat (length s) + 1 <= capacity ds -> capacity ds' = capacity ds) /\
    (capacity ds' = capacity ds \/ capacity ds' < 2 * (len ds' + 1)).
Proof.
  intros (Hlen & Hdata & Hroom & Htext & Hnul & k & Hcap) Hsize.
  unfold dstr_append, dstr_ensure.
  assert (H64 : 2 ^ 63 < GraphStore.size_modulus) by (vm_compute; reflexivity).
  assert (Htarget : size_add (size_add (len ds) (N.of_nat (length s))) 1 =
                    len ds + N.of_nat (length s) + 1).
  { unfold size_add. rewrite (N.mod_small (len ds + _)) by lia.
    rewrite N.mod_small; lia. }
  assert (Hnew : size_add (len ds) (N.of_nat (length s)) =
                 N.of_nat (length (text ++ s))).
  { unfold size_add. rewrite length_app, N.mod_small; lia. }
  rewrite Htarget.
  destruct (N.ltb_spec (capacity ds) (len ds + N.of_nat (length s) + 1)) as [Hlt|Hge].
  - assert (Hk : (k <= 51)%nat).
    { destruct (Nat.le_gt_cases k 51) as [?|Hgt]; [assumption|exfalso].
      assert (2 ^ 52 <= 2 ^ N.of_nat k) by (apply N.pow_le_mono_r; lia).
      change (2 ^ 63) with (4096 * 2 ^ 51) in Hsize.
      change (2 ^ 52) with (2 * 2 ^ 51) in *. lia. }
    rewrite Hcap.
    destruct (grow_spec (len ds + N.of_nat (length s) + 1) 65 k
                ltac:(lia) Hk ltac:(lia)) as (k' & Hg & Hkk & Hfit & Hmin).
    rewrite Hg. cbn [len data capacity]. eexists. split; [reflexivity|].
    assert (Hgrown : capacity ds <= 4096 * 2 ^ N.of_nat k').
    { rewrite Hcap. apply N.mul_le_mono_l, N.pow_le_mono_r; lia. }
    set (buf := realloc_bytes (data ds) (4096 * 2 ^ N.of_nat k')).
    assert (Hbuf : length buf = N.to_nat (4096 * 2 ^ N.of_nat k'))
      by (subst buf; rewrite realloc_bytes_length; lia).
    destruct (memcpy_at_text buf text s) as [Ht' Hn'].
    { subst buf. rewrite realloc_bytes_take by lia. exact Htext. }
    { lia. }
    replace (N.to_nat (len ds)) with (length text) by lia.
    split; [|split].
    + unfold holds. cbn [len data capacity]. rewrite Hnew, memcpy_at_length.
      split; [reflexivity|]. split; [exact Hbuf|].
      split; [rewrite length_app; lia|]. split; [exact Ht'|].
      split; [exact Hn'|]. exists k'. reflexivity.
    + intros Hfits. lia.
    + right. cbn [len capacity]. rewrite Hnew, length_app.
      destruct Hmin as [->|Hmin]; [lia|].
      destruct k' as [|k'']; [simpl in Hmin, Hfit; lia|].
      replace (S k'' - 1)%nat with k'' in Hmin by lia.
      replace (N.of_nat (S k'')) with (N.succ (N.of_nat k'')) by lia.
      rewrite N.pow_succ_r'. lia.
  - cbn [len data capacity]. eexists. split; [reflexivity|].
    destruct (memcpy_at_text (data ds) text s) as [Ht' Hn']; [exact Htext|lia|].
    replace (N.to_nat (len ds)) with (length text) by lia.
    split; [|split].
    + unfold holds. cbn [len data capacity]. rewrite Hnew, memcpy_at_length.
      split; [reflexivity|]. split; [exact Hdata|].
      split; [rewrite length_app; lia|]. split; [exact Ht'|].
      split; [exact Hn'|]. exists k. exact Hcap.
    + intros _. reflexivity.
    + left. reflexivity.
Qed.

Lemma dstr_init_holds : holds dstr_init [].
Proof.
  unfold holds, dstr_init. cbn [len data capacity length].
  split; [reflexivity|]. split; [reflexivity|]. split; [lia|].
  split; [reflexivity|]. split; [reflexivity|]. exists 0%nat. reflexivity.
Qed.

Lemma dstr_append_all_holds : forall pieces ds text,
  holds ds text ->
  (capacity ds = 4096 \/ capacity ds < 2 * (len ds + 1)) ->
  N.of_nat (length (text ++ concat pieces)) + 1 <= 2 ^ 63 ->
  exists ds',
    dstr_append_all ds pieces = Some ds' /\
    holds ds' (text ++ concat pieces) /\
    (capacity ds' = 4096 \/ capacity ds' < 2 * (len ds' + 1)).
Proof.
  induction pieces as [|s pieces IH]; intros ds text Hds Hmin Hsize.
  - exists ds. cbn [concat]. rewrite app_nil_r. auto.
  - cbn [concat dstr_append_all] in *. rewrite app_assoc in Hsize |- *.
    destruct (dstr_append_holds ds text s Hds) as (ds1 & Happ & Hds1 & _ & Hcap1).
    { rewrite !length_app in Hsize. lia. }
    rewrite Happ. apply IH; [exact Hds1| |exact Hsize].
    destruct Hcap1 as [Heq|Hlt]; [|right; exact Hlt].
    rewrite Heq. destruct Hmin as [?|Hlt]; [left; assumption|right].
    destruct Hds as (Hl & _). destruct Hds1 as (Hl1 & _).
    rewrite Hl1, length_app. lia.
Qed.

End BuilderFacts.

(** The text a builder holds after any sequence of [dstr_append] calls on a
    fresh one is the concatenation of the pieces, terminated and inside the
    buffer; the buffer is 4096 bytes or less than twice what the text
    needs, and always a power-of-two multiple of 4096. *)
Theorem dstr_append_all_text (pieces : list (list ascii)) :
  N.of_nat (length (concat pieces)) + 1 <= 2 ^ 63 ->
  exists ds,
    DStr.dstr_append_all DStr.dstr_init pieces = Some ds /\
    DStr.holds ds (concat pieces) /\
    (DStr.capacity ds = 4096 \/ DStr.capacity ds < 2 * (DStr.len ds + 1)).
Proof.
  intros Hsize.
  apply (dstr_append_all_holds pieces DStr.dstr_init []);
    [apply dstr_init_holds|left; reflexivity|exact Hsize].
Qed.

Lemma dstr_append_all_text_witness :
  exists ds,
    DStr.dstr_append_all DStr.dstr_init
      [list_ascii_of_string "@adj = "; list_ascii_of_string "[]"] = Some ds /\
    take 9 (DStr.data ds) = list_ascii_of_string "@adj = []" /\
    DStr.len ds = 9.
Proof.
  destruct (dstr_append_all_text
              [list_ascii_of_string "@adj = "; list_ascii_of_string "[]"]
              ltac:(vm_compute; discriminate))
    as (ds & Hrun & (Hlen & _ & _ & Htext & _) & _).
  exists ds. split; [exact Hrun|]. split; [exact Htext|exact Hlen].
Defined.

(** ** Node names of the let-chain generator *)

(** [node_name] gives distinct nodes below 262144 distinct four-character
    names, and repeats itself from there on: node [n + 262144] gets the name
    of node [n].  The bound the generator's caller checks is the exact one. *)
Theorem node_name_unique_up_to_limit :
  (forall u v, u < 262144 -> v < 262144 ->
     DagDp.node_name u = DagDp.node_name v -> u = v) /\
  (forall n, DagDp.node_name (n + 262144) = DagDp.node_name n) /\
  (forall n, String.length (DagDp.node_name n) = 4%nat /\
             String.get 0 (DagDp.node_name n) = Some "e"%char).
Proof.
  split; [exact node_name_inj|]. split.
  - intros n. unfold DagDp.node_name.
    rewrite !land_63, !N.shiftr_div_pow2.
    change (2 ^ 12) with 4096. change (2 ^ 6) with 64.
    replace ((n + 262144) / 4096 mod 64) with (n / 4096 mod 64) by lia.
    replace ((n + 262144) / 64 mod 64) with (n / 64 mod 64) by lia.
    replace ((n + 262144) mod 64) with (n mod 64) by lia.
    reflexivity.
  - intros n. split; reflexivity.
Qed.

(** ** Sequences of insertions *)

Section BuildFacts.

Import GraphStore GraphBuild.

Lemma add_edge_accepts g e :
  graph_ok g -> n_edges g + 1 < U32.modulus -> capacity g * 2 < size_modulus ->
  in_range (n_nodes g) e ->
  exists g',
    hvm4_graph_add_edge true (Some g) (src e) (dst e) (weight e) = (HVM4_OK, Some g') /\
    graph_edges g' = graph_edges g ++ [e] /\
    n_edges g' = n_edges g + 1 /\ n_nodes g' = n_nodes g /\ graph_ok g' /\
    capacity g' = (if capacity g <=? n_edges g then capacity g * 2 else capacity g).
Proof.
  intros Hok Hn Hcap [Hs Hd].
  pose proof (add_edge_cases true g (src e) (dst e) (weight e) Hok Hn Hcap) as H.
  unfold hvm4_graph_add_edge in *.
  destruct (N.leb_spec (n_nodes g) (src e)); [lia|].
  destruct (N.leb_spec (n_nodes g) (dst e)); [lia|]. cbn [orb] in *.
  destruct (N.leb_spec (capacity g) (n_edges g)); cbn in *.
  - destruct H as (_ & _ & He & Hne & Hnn & Hok' & _).
    eexists. split; [reflexivity|]. cbn. destruct e; cbn in *.
    repeat split; try assumption; try apply Hok'.
    apply N.mod_small. exact Hcap.
  - destruct H as (_ & _ & He & Hne & Hnn & Hok' & _).
    eexists. split; [reflexivity|]. cbn. destruct e; cbn in *.
    repeat split; try assumption; try apply Hok'.
Qed.

Lemma add_edge_rejects g e ok :
  ~ in_range (n_nodes g) e ->
  hvm4_graph_add_edge ok (Some g) (src e) (dst e) (weight e) =
    (HVM4_ERR_INVALID_PARAM, Some g).
Proof.
  intros Hout. unfold hvm4_graph_add_edge, in_range in *.
  destruct (N.leb_spec (n_nodes g) (src e)); [reflexivity|].
  destruct (N.leb_spec (n_nodes g) (dst e)); [reflexivity|]. lia.
Qed.

Lemma add_edges_from : forall es g,
  graph_ok g ->
  N.of_nat (length es) + n_edges g + 1 < U32.modulus ->
  (capacity g <= 16 \/ capacity g <= 2 * n_edges g) ->
  exists g',
    add_edges (Some g) es =
      (map (fun e => if decide (in_range (n_nodes g) e)
                     then HVM4_OK else HVM4_ERR_INVALID_PARAM) es,
       Some g') /\
    graph_edges g' = graph_edges g ++ filter (in_range (n_nodes g)) es /\
    n_nodes g' = n_nodes g /\
    n_edges g' = n_edges g + N.of_nat (length (filter (in_range (n_nodes g)) es)) /\
    graph_ok g'.
Proof.
  induction es as [|e es IH]; intros g Hok Hlen Hcap.
  - exists g. cbn. rewrite app_nil_r. repeat split; try assumption; try lia; apply Hok.
  - cbn [add_edges map length] in *. rewrite filter_cons.
    assert (Hsmall : capacity g * 2 < size_modulus).
    { unfold size_modulus, U32.modulus in *.
      change (2 ^ 64) with 18446744073709551616.
      change (2 ^ 32) with 4294967296 in Hlen. lia. }
    destruct (decide (in_range (n_nodes g) e)) as [Hin|Hout].
    + destruct (add_edge_accepts g e Hok ltac:(lia) Hsmall Hin)
        as (g1 & Hadd & He & Hne & Hnn & Hok1 & Hcap1).
      rewrite Hadd.
      destruct (IH g1 Hok1) as (g' & Hrun & He' & Hnn' & Hne' & Hok').
      { lia. }
      { rewrite Hcap1, Hne. destruct (N.leb_spec (capacity g) (n_edges g)).
        - right. destruct Hok as (Hle & _). lia.
        - destruct Hcap; [left; assumption|right; lia]. }
      rewrite Hnn in *. rewrite Hrun. exists g'.
      split; [reflexivity|]. rewrite He', He, <- app_assoc. cbn [length].
      repeat split; try assumption; try lia; apply Hok'.
    + rewrite (add_edge_rejects g e true Hout).
      destruct (IH g Hok ltac:(lia) Hcap) as (g' & Hrun & He' & Hnn' & Hne' & Hok').
      rewrite Hrun. exists g'. split; [reflexivity|].
      repeat split; try assumption; apply Hok'.
Qed.

End BuildFacts.

(** A graph built by [hvm4_graph_new] and a sequence of
    [hvm4_graph_add_edge] calls holds exactly the edges whose endpoints are
    both below [n], in the order they were offered; each of those calls
    answers [HVM4_OK] and every other one [HVM4_ERR_INVALID_PARAM] without
    leaving a trace.  The adjacency the generators emit for a node lists
    the targets of its accepted edges in that order. *)
Theorem add_edges_keeps_valid_in_order (n : N) (es : list GraphStore.hvm4_edge_t) :
  0 < n -> N.of_nat (length es) + 1 < U32.modulus ->
  exists g,
    GraphBuild.add_edges (GraphStore.hvm4_graph_new true n) es =
      (map (fun e => if decide (GraphBuild.in_range n e)
                     then GraphStore.HVM4_OK
                     else GraphStore.HVM4_ERR_INVALID_PARAM) es,
       Some g) /\
    GraphStore.graph_edges g = filter (GraphBuild.in_range n) es /\
    GraphStore.n_nodes g = n /\
    GraphStore.n_edges g = N.of_nat (length (filter (GraphBuild.in_range n) es)) /\
    GraphStore.graph_ok g /\
    (forall u, u < n ->
       Lib.adj g u =
       map GraphStore.dst
           (filter (fun e => GraphStore.src e = u)
                   (filter (GraphBuild.in_range n) es))).
Proof.
  intros Hn Hlen. unfold GraphStore.hvm4_graph_new.
  destruct (N.eqb_spec n 0) as [->|_]; [lia|]. cbn [negb].
  set (g0 := GraphStore.Graph n 0 16 (replicate 16 GraphStore.fresh_slot)).
  destruct (add_edges_from es g0) as (g & Hrun & He & Hnn & Hne & Hok).
  - unfold GraphStore.graph_ok. cbn. repeat split; lia.
  - cbn. lia.
  - left. cbn. lia.
  - exists g. cbn in *. split; [exact Hrun|]. split; [exact He|].
    split; [exact Hnn|]. split; [lia|]. split; [exact Hok|].
    intros u Hu. unfold Lib.adj. rewrite Hnn.
    destruct (N.ltb_spec u n); [|lia]. rewrite He. reflexivity.
Qed.

Lemma add_edges_keeps_valid_in_order_witness :
  exists g,
    GraphBuild.add_edges (GraphStore.hvm4_graph_new true 3)
      [GraphStore.Edge 0 1 5; GraphStore.Edge 7 1 2; GraphStore.Edge 1 2 4] =
      ([GraphStore.HVM4_OK; GraphStore.HVM4_ERR_INVALID_PARAM; GraphStore.HVM4_OK],
       Some g) /\
    GraphStore.graph_edges g = [GraphStore.Edge 0 1 5; GraphStore.Edge 1 2 4].
Proof.
  destruct (add_edges_keeps_valid_in_order 3
              [GraphStore.Edge 0 1 5; GraphStore.Edge 7 1 2; GraphStore.Edge 1 2 4]
              ltac:(lia) ltac:(vm_compute; reflexivity))
    as (g & Hrun & He & _).
  exists g. split; [exact Hrun|exact He].
Defined.

(** When [realloc] fails on a full store, [hvm4_graph_add_edge] has already
    doubled [capacity] and returns [HVM4_ERR_ALLOC] with the buffer as it
    was.  The next call finds [n_edges < capacity], does not allocate,
    answers [HVM4_OK] and counts an edge whose slot [edges[n_edges]] lies
    past the end of the buffer. *)
Theorem failed_realloc_breaks_store (g : GraphStore.hvm4_graph)
    (s d w s2 d2 w2 : N) (ok2 : bool) :
  GraphStore.graph_ok g ->
  GraphStore.n_edges g = GraphStore.capacity g ->
  GraphStore.n_edges g + 2 < U32.modulus ->
  s < GraphStore.n_nodes g -> d < GraphStore.n_nodes g ->
  s2 < GraphStore.n_nodes g -> d2 < GraphStore.n_nodes g ->
  exists g1 g2,
    GraphStore.hvm4_graph_add_edge false (Some g) s d w =
      (GraphStore.HVM4_ERR_ALLOC, Some g1) /\
    GraphStore.capacity g1 = 2 * GraphStore.capacity g /\
    GraphStore.edges g1 = GraphStore.edges g /\
    ~ GraphStore.graph_ok g1 /\
    GraphStore.hvm4_graph_add_edge ok2 (Some g1) s2 d2 w2 =
      (GraphStore.HVM4_OK, Some g2) /\
    GraphStore.n_edges g2 = GraphStore.n_edges g + 1 /\
    length (GraphStore.edges g2) = N.to_nat (GraphStore.n_edges g) /\
    (length (GraphStore.edges g2) < N.to_nat (GraphStore.n_edges g2))%nat.
Proof.
  intros (Hle & Hlen & Hpos) Hfull Hn Hs Hd Hs2 Hd2.
  assert (Hcap : GraphStore.capacity g * 2 < GraphStore.size_modulus).
  { unfold GraphStore.size_modulus, U32.modulus in *.
    change (2 ^ 64) with 18446744073709551616.
    change (2 ^ 32) with 4294967296 in Hn. lia. }
  assert (Hadd : U32.add (GraphStore.n_edges g) 1 = GraphStore.n_edges g + 1)
    by (unfold U32.add; apply N.mod_small; lia).
  exists (GraphStore.Graph (GraphStore.n_nodes g) (GraphStore.n_edges g)
                           (GraphStore.capacity g * 2) (GraphStore.edges g)).
  exists (GraphStore.Graph (GraphStore.n_nodes g) (GraphStore.n_edges g + 1)
            (GraphStore.capacity g * 2)
            (<[N.to_nat (GraphStore.n_edges g) := GraphStore.Edge s2 d2 w2]>
               (GraphStore.edges g))).
  split; [|split; [|split; [|split; [|split; [|split; [|split]]]]]].
  - unfold GraphStore.hvm4_graph_add_edge.
    destruct (N.leb_spec (GraphStore.n_nodes g) s); [lia|].
    destruct (N.leb_spec (GraphStore.n_nodes g) d); [lia|]. cbn [orb].
    destruct (N.leb_spec (GraphStore.capacity g) (GraphStore.n_edges g)); [|lia].
    rewrite (N.mod_small _ _ Hcap). reflexivity.
  - cbn. lia.
  - reflexivity.
  - unfold GraphStore.graph_ok. cbn. lia.
  - unfold GraphStore.hvm4_graph_add_edge.
    cbn [GraphStore.n_nodes GraphStore.n_edges GraphStore.capacity GraphStore.edges].
    destruct (N.leb_spec (GraphStore.n_nodes g) s2); [lia|].
    destruct (N.leb_spec (GraphStore.n_nodes g) d2); [lia|]. cbn [orb].
    destruct (N.leb_spec (GraphStore.capacity g * 2) (GraphStore.n_edges g)); [lia|].
    cbn [GraphStore.n_nodes GraphStore.n_edges GraphStore.capacity GraphStore.edges].
    rewrite Hadd. reflexivity.
  - reflexivity.
  - cbn. rewrite length_insert. lia.
  - cbn. rewrite length_insert. lia.
Qed.

Lemma failed_realloc_breaks_store_witness :
  exists g1 g2,
    GraphStore.hvm4_graph_add_edge false
      (Some (GraphStore.Graph 3 16 16 (replicate 16 (GraphStore.Edge 0 1 1)))) 1 2 7 =
      (GraphStore.HVM4_ERR_ALLOC, Some g1) /\
    GraphStore.hvm4_graph_add_edge true (Some g1) 2 1 7 =
      (GraphStore.HVM4_OK, Some g2) /\
    GraphStore.n_edges g2 = 17 /\ length (GraphStore.edges g2) = 16%nat.
Proof.
  destruct (failed_realloc_breaks_store
              (GraphStore.Graph 3 16 16 (replicate 16 (GraphStore.Edge 0 1 1)))
              1 2 7 2 1 7 true)
    as (g1 & g2 & H1 & _ & _ & _ & H2 & Hn & Hl & _);
    try (vm_compute; reflexivity).
  - unfold GraphStore.graph_ok. cbn. repeat split; lia.
  - exists g1, g2. split; [exact H1|]. split; [exact H2|].
    split; [exact Hn|exact Hl].
Defined.

(** ** The closure program *)

Section ClosureFacts.

Import GraphStore Engine Closure.

Lemma any_of_01 reach l :
  (forall x, reach x = 0 \/ reach x = 1) ->
  (any_of reach l = 1 /\ exists x, In x l /\ reach x = 1) \/
  (any_of reach l = 0 /\ forall x, In x l -> reach x = 0).
Proof.
  intros H01. induction l as [|a l IH]; simpl.
  - right. split; [reflexivity|]. intros x [].
  - destruct (H01 a) as [Ha|Ha]; rewrite Ha.
    + destruct IH as [(H1 & x & Hx & Hr)|(H0 & Hall)].
      * left. split; [exact H1|]. exists x. auto.
      * right. split; [exact H0|]. intros x [<-|Hx]; auto.
    + left. split; [reflexivity|]. exists a. auto.
Qed.

(** [@can_reach] answers 1 exactly when [dst] is within [d] edges. *)
Lemma can_reach_at_reaches adj : forall d src dst,
  (can_reach_at adj d src dst = 1 /\ reaches adj d src dst) \/
  (can_reach_at adj d src dst = 0 /\ ~ reaches adj d src dst).
Proof.
  induction d as [|d IH]; intros src dst; simpl; unfold U32.eq.
  - destruct (N.eqb_spec src dst) as [->|Hne].
    + left. split; [reflexivity|constructor].
    + right. split; [reflexivity|]. intros H. inversion H; subst. contradiction.
  - destruct (N.eqb_spec src dst) as [->|Hne].
    + left. split; [reflexivity|constructor].
    + destruct (any_of_01 (fun next => can_reach_at adj d next dst) (adj src))
        as [(H1 & x & Hx & Hr)|(H0 & Hall)].
      * intros x. destruct (IH x dst) as [[-> _]|[-> _]]; auto.
      * left. split; [exact H1|]. apply (reaches_step adj d src x dst Hx).
        destruct (IH x dst) as [[_ Hp]|[Hz _]]; [exact Hp|congruence].
      * right. split; [exact H0|]. intros H. inversion H; subst; [contradiction|].
        match goal with Hin : In ?v (adj src) |- _ =>
          destruct (IH v dst) as [[H1 _]|[_ Hn]];
            [rewrite (Hall v Hin) in H1; discriminate|contradiction]
        end.
Qed.

(** The text's own equations for [@can_reach] and [@any_reaches]. *)
Lemma can_reach_unfold adj src dst depth :
  depth < U32.modulus ->
  can_reach adj src dst depth =
  match depth with
  | 0 => match U32.eq src dst with 0 => 0 | _ => 1 end
  | _ => match U32.eq src dst with
         | 0 => any_reaches adj dst (U32.sub depth 1) (adj src)
         | _ => 1
         end
  end.
Proof.
  intros Hd. unfold can_reach, any_reaches, can_reach.
  destruct depth as [|p]; [reflexivity|].
  assert (Hs : U32.sub (N.pos p) 1 = N.pos p - 1)
    by (unfold U32.sub, U32.modulus in *; lia).
  rewrite Hs.
  replace (N.to_nat (N.pos p)) with (S (N.to_nat (N.pos p - 1))) by lia.
  reflexivity.
Qed.

Lemma term_nums_is_list HEAP t l :
  is_list HEAP t l ->
  forall fuel, (length l < fuel)%nat -> term_nums fuel HEAP t = Some l.
Proof.
  induction 1 as [t Ht|t v l Ht Hhead Htail IH]; intros fuel Hf.
  - destruct fuel as [|fuel]; [simpl in Hf; lia|]. simpl. rewrite Ht. reflexivity.
  - destruct fuel as [|fuel]; [simpl in Hf; lia|]. simpl in Hf. simpl.
    rewrite Ht. cbn. rewrite Hhead, (IH fuel) by lia.
    destruct fuel as [|fuel]; [lia|]. reflexivity.
Qed.

Lemma to_flags_spec out_buf : forall (total : nat) matrix,
  (total <= length matrix)%nat ->
  length (to_flags total out_buf matrix) = length matrix /\
  forall i, (i < length matrix)%nat ->
    nth i (to_flags total out_buf matrix) 0 =
    if (i <? total)%nat then (if nth i out_buf 0 =? 0 then 0 else 1)
    else nth i matrix 0.
Proof.
  unfold to_flags. induction total as [|total IH]; intros matrix Hlen.
  - split; [reflexivity|]. intros i Hi. reflexivity.
  - rewrite seq_S, fold_left_app. cbn [fold_left plus].
    destruct (IH matrix ltac:(lia)) as (Hl & Hv).
    split; [rewrite length_insert; exact Hl|].
    intros i Hi. rewrite nth_lookup, list_lookup_insert by lia.
    case_decide as Hd.
    + destruct Hd as [Heq _]. subst i.
      destruct (Nat.ltb_spec total (S total)); [|lia]. reflexivity.
    + rewrite <- nth_lookup, Hv by lia.
      destruct (Nat.ltb_spec i total), (Nat.ltb_spec i (S total)); try lia; reflexivity.
Qed.

Lemma flat_rows_length {A} (f : nat -> nat -> A) (n : nat) : forall m a,
  length (flat_map (fun i => map (f i) (seq 0 n)) (seq a m)) = (m * n)%nat.
Proof.
  induction m as [|m IH]; intros a; simpl; [reflexivity|].
  rewrite length_app, length_map, length_seq, IH. reflexivity.
Qed.

Lemma flat_rows_nth {A} (f : nat -> nat -> A) (n : nat) (d : A) : forall m a i j,
  (i < m)%nat -> (j < n)%nat ->
  nth (i * n + j) (flat_map (fun i => map (f i) (seq 0 n)) (seq a m)) d = f (a + i)%nat j.
Proof.
  induction m as [|m IH]; intros a i j Hi Hj; [lia|]. simpl.
  destruct i as [|i].
  - rewrite app_nth1 by (rewrite length_map, length_seq; lia).
    rewrite (nth_indep _ d (f a 0%nat)) by (rewrite length_map, length_seq; lia).
    rewrite (map_nth (f a)), seq_nth by lia. rewrite Nat.add_0_r. reflexivity.
  - rewrite app_nth2 by (rewrite length_map, length_seq; simpl; lia).
    rewrite length_map, length_seq.
    replace (S i * n + j - n)%nat with (i * n + j)%nat by (simpl; lia).
    rewrite IH by lia. f_equal. lia.
Qed.

Lemma layout_is_list l : 2 * N.of_nat (length l) < U32.modulus ->
  forall (k i : nat), (i + k = length l)%nat ->
  is_list (layout l) (layout_cell l i) (skipn i l).
Proof.
  intros Hsmall. induction k as [|k IH]; intros i Hi.
  - rewrite skipn_all2 by lia. apply is_list_nil. unfold layout_cell.
    destruct (Nat.ltb_spec i (length l)); [lia|reflexivity].
  - assert (Hlt : (i < length l)%nat) by lia.
    destruct (nth_error l i) as [v|] eqn:Hv;
      [|apply nth_error_None in Hv; lia].
    assert (Hskip : skipn i l = v :: skipn (S i) l).
    { apply nth_error_split in Hv. destruct Hv as (l1 & l2 & -> & <-).
      rewrite skipn_app, skipn_all, Nat.sub_diag. simpl.
      replace (S (length l1)) with (length l1 + 1)%nat by lia.
      rewrite skipn_app, skipn_all2 by lia.
      replace (length l1 + 1 - length l1)%nat with 1%nat by lia. reflexivity. }
    rewrite Hskip.
    assert (Hcell : layout_cell l i = mkTerm C02 (2 * N.of_nat i)).
    { unfold layout_cell. destruct (Nat.ltb_spec i (length l)); [reflexivity|lia]. }
    rewrite Hcell. apply is_list_cons; cbn [term_tag term_val].
    + reflexivity.
    + unfold layout. replace ((2 * N.of_nat i) mod 2) with 0 by lia.
      cbn [N.eqb]. f_equal.
      replace (N.to_nat (2 * N.of_nat i / 2)) with i by lia.
      apply nth_error_nth. exact Hv.
    + assert (Hadd : U32.add (2 * N.of_nat i) 1 = 2 * N.of_nat i + 1)
        by (unfold U32.add; apply N.mod_small; lia).
      rewrite Hadd. unfold layout.
      replace ((2 * N.of_nat i + 1) mod 2) with 1 by lia. cbn [N.eqb].
      replace (N.to_nat ((2 * N.of_nat i + 1) / 2)) with i by lia.
      apply IH. lia.
Qed.

End ClosureFacts.

(** The program of [hvm4_closure]: [@can_reach(src, dst, depth)] is 1 when
    [dst] can be reached from [src] along at most [depth] edges of the
    adjacency and 0 otherwise; in particular every node reaches itself at
    every depth. *)
Theorem can_reach_within_depth (adj : N -> list N) (src dst depth : N) :
  (Closure.can_reach adj src dst depth = 1 /\
   Closure.reaches adj (N.to_nat depth) src dst) \/
  (Closure.can_reach adj src dst depth = 0 /\
   ~ Closure.reaches adj (N.to_nat depth) src dst).
Proof. apply can_reach_at_reaches. Qed.

(** [hvm4_closure] on a graph of [n] nodes with [n * n < 2^31], a matrix of
    [n * n] cells and the engine returning the list [@main] denotes:
    the call answers [HVM4_OK] after one reset and one run, and cell
    [i * n + j] holds 1 when [j] is within [depth_limit] edges of [i] and 0
    otherwise. *)
Theorem hvm4_closure_matrix (g : GraphStore.hvm4_graph) (depth_limit : N)
    (matrix : list N) (nf : Engine.Term) (HEAP : N -> Engine.Term) (fuel : nat) :
  let n := GraphStore.n_nodes g in
  n * n < 2147483648 ->
  length matrix = N.to_nat (n * n) ->
  Closure.is_list HEAP nf (Closure.closure_main g depth_limit) ->
  (N.to_nat (n * n) < fuel)%nat ->
  exists m',
    Closure.hvm4_closure true true (Some nf) HEAP fuel (Some g) depth_limit
                         (Some matrix) =
      Some (GraphStore.HVM4_OK, Some m', [Lib.CallReset; Lib.CallRun]) /\
    length m' = N.to_nat (n * n) /\
    forall i j, i < n -> j < n ->
      (nth (N.to_nat (i * n + j)) m' 0 = 1 /\
       Closure.reaches (Lib.adj g) (N.to_nat depth_limit) i j) \/
      (nth (N.to_nat (i * n + j)) m' 0 = 0 /\
       ~ Closure.reaches (Lib.adj g) (N.to_nat depth_limit) i j).
Proof.
  intros n Hsmall Hlen Hnf Hfuel.
  assert (Hmain : length (Closure.closure_main g depth_limit) = N.to_nat (n * n)).
  { unfold Closure.closure_main. rewrite flat_rows_length. fold n. lia. }
  unfold Closure.hvm4_closure. cbn [negb]. fold n.
  assert (Htotal : (n * n) mod GraphStore.size_modulus = n * n).
  { apply N.mod_small. unfold GraphStore.size_modulus.
    change (2 ^ 64) with 18446744073709551616. lia. }
  rewrite Htotal.
  assert (Hint : Closure.to_int (n * n) = Z.of_N (n * n)).
  { unfold Closure.to_int, U32.modulus. change (2 ^ 32) with 4294967296.
    rewrite N.mod_small by lia.
    destruct (Z.ltb_spec (Z.of_N (n * n)) 2147483648); [reflexivity|lia]. }
  rewrite Hint. unfold Lib.run_hvm4. cbn [negb N.eqb].
  rewrite extract_nums_term_nums.
  rewrite (term_nums_is_list HEAP nf _ Hnf) by lia.
  set (out0 := replicate (N.to_nat (n * n)) 0).
  assert (Hout0 : length out0 = N.to_nat (n * n)) by apply length_replicate.
  replace (Z.of_N (n * n)) with (Z.of_nat (length out0)) by lia.
  rewrite write_from_exact by lia.
  rewrite take_ge by lia.
  destruct (Z.ltb_spec (0 + Z.of_nat (length (Closure.closure_main g depth_limit))) 0);
    [lia|].
  destruct (to_flags_spec (Closure.closure_main g depth_limit)
              (N.to_nat (n * n)) matrix ltac:(lia)) as (Hl & Hv).
  eexists. split; [reflexivity|]. split; [lia|].
  intros i j Hi Hj.
  assert (Hidx : (N.to_nat (i * n + j) < length matrix)%nat) by nia.
  rewrite (Hv _ Hidx).
  destruct (Nat.ltb_spec (N.to_nat (i * n + j)) (N.to_nat (n * n))); [|lia].
  replace (N.to_nat (i * n + j))
    with (N.to_nat i * N.to_nat n + N.to_nat j)%nat by lia.
  unfold Closure.closure_main. fold n.
  rewrite (flat_rows_nth
             (fun i j => Closure.can_reach (Lib.adj g) (N.of_nat i) (N.of_nat j)
                                           depth_limit)) by lia.
  cbn [plus]. rewrite !N2Nat.id.
  destruct (can_reach_at_reaches (Lib.adj g) (N.to_nat depth_limit) i j)
    as [[Hone Hp]|[Hzero Hnp]]; unfold Closure.can_reach.
  - left. rewrite Hone. auto.
  - right. rewrite Hzero. auto.
Qed.

Lemma hvm4_closure_matrix_witness :
  exists m',
    Closure.hvm4_closure true true
      (Some (Closure.layout_cell [1; 1; 0; 1] 0))
      (Closure.layout [1; 1; 0; 1]) 9
      (Some Closure.one_edge) 2 (Some [7; 7; 7; 7]) =
      Some (GraphStore.HVM4_OK, Some m', [Lib.CallReset; Lib.CallRun]) /\
    m' = [1; 1; 0; 1].
Proof.
  assert (Hmain : Closure.closure_main Closure.one_edge 2 = [1; 1; 0; 1])
    by (vm_compute; reflexivity).
  assert (Hlist : Closure.is_list (Closure.layout [1; 1; 0; 1])
                    (Closure.layout_cell [1; 1; 0; 1] 0)
                    (Closure.closure_main Closure.one_edge 2)).
  { rewrite Hmain.
    exact (layout_is_list [1; 1; 0; 1] ltac:(vm_compute; reflexivity) 4 0 eq_refl). }
  destruct (hvm4_closure_matrix Closure.one_edge 2 [7; 7; 7; 7]
              (Closure.layout_cell [1; 1; 0; 1] 0)
              (Closure.layout [1; 1; 0; 1]) 9
              ltac:(vm_compute; reflexivity) ltac:(vm_compute; reflexivity)
              Hlist ltac:(vm_compute; lia))
    as (m' & Hrun & _ & _).
  exists m'. split; [exact Hrun|].
  vm_compute in Hrun. injection Hrun as <-. reflexivity.
Defined.

(** ** The frontier search *)

Section FrontierFacts.

Import GraphStore Lib Frontier.

Variable adj : N -> list N.

Lemma member_In x l :
  (member x l = 1 /\ In x l) \/ (member x l = 0 /\ ~ In x l).
Proof.
  induction l as [|h t IH]; simpl.
  - right. split; [reflexivity|tauto].
  - unfold U32.eq. destruct (N.eqb_spec h x) as [->|Hne].
    + left. split; [reflexivity|]. left. reflexivity.
    + destruct IH as [[-> Hin]|[-> Hout]].
      * left. split; [reflexivity|]. right. exact Hin.
      * right. split; [reflexivity|]. intros [H|H]; [congruence|contradiction].
Qed.

Lemma any_in_common ys l :
  (any_in ys l = 1 /\ exists h, In h l /\ In h ys) \/
  (any_in ys l = 0 /\ forall h, In h l -> ~ In h ys).
Proof.
  induction l as [|h t IH]; simpl.
  - right. split; [reflexivity|]. intros h [].
  - destruct (member_In h ys) as [[-> Hin]|[-> Hout]].
    + left. split; [reflexivity|]. exists h. auto.
    + destruct IH as [(-> & x & Hx & Hy)|(-> & Hall)].
      * left. split; [reflexivity|]. exists x. auto.
      * right. split; [reflexivity|]. intros x [<-|Hx]; auto.
Qed.

Lemma append_app l ys : append l ys = l ++ ys.
Proof. induction l as [|h t IH]; simpl; [|rewrite IH]; reflexivity. Qed.

Lemma In_expand x frontier :
  In x (expand adj frontier) <-> exists y, In y frontier /\ In x (adj y).
Proof.
  unfold expand. induction frontier as [|h t IH]; simpl.
  - split; [intros []|intros (y & [] & _)].
  - rewrite append_app, in_app_iff, IH. split.
    + intros [H|(y & Hy & Hx)]; [exists h; auto|exists y; auto].
    + intros (y & [<-|Hy] & Hx); [left; exact Hx|right; exists y; auto].
Qed.

Lemma steps_snoc : forall k a x,
  steps adj (S k) a x <-> exists y, steps adj k a y /\ In x (adj y).
Proof.
  induction k as [|k IH]; intros a x.
  - split.
    + intros H. inversion H as [|k' u v x' Hv Hrest]; subst.
      inversion Hrest; subst. exists a. split; [constructor|exact Hv].
    + intros (y & Hy & Hx). inversion Hy; subst.
      apply (steps_S adj 0 y x x Hx). constructor.
  - split.
    + intros H. inversion H as [|k' u v x' Hv Hrest]; subst.
      apply IH in Hrest. destruct Hrest as (y & Hy & Hx).
      exists y. split; [apply (steps_S adj k a v y Hv Hy)|exact Hx].
    + intros (y & Hy & Hx). inversion Hy as [|k' u v y' Hv Hrest]; subst.
      apply (steps_S adj (S k) a v x Hv). apply IH. exists y. auto.
Qed.

Lemma expand_frontier frontier (i : nat) a :
  (forall x, In x frontier <-> steps adj i a x) ->
  forall x, In x (expand adj frontier) <-> steps adj (S i) a x.
Proof.
  intros Hf x. rewrite In_expand, steps_snoc.
  split; intros (y & Hy & Hx); exists y; split; try exact Hx; apply Hf; exact Hy.
Qed.

(** The search, round by round: the frontiers are the nodes an exact number
    of edges away, and the answer is the first round at which they
    share a node. *)
Lemma meet_round_char : forall fuel fwd bwd dist max a b (i j : nat),
  (forall x, In x fwd <-> steps adj i a x) ->
  (forall x, In x bwd <-> steps adj j b x) ->
  max + 1 < U32.modulus -> dist <= max + 1 ->
  (N.to_nat (max + 1 - dist) < fuel)%nat ->
  let M t := exists x, steps adj (i + Nat.div2 (S t)) a x /\
                       steps adj (j + Nat.div2 t) b x in
  match meet_round fuel adj fwd bwd dist max with
  | Some (Some d) =>
      dist <= d <= max /\ M (N.to_nat (d - dist)) /\
      forall t, (t < N.to_nat (d - dist))%nat -> ~ M t
  | Some None => forall t : nat, dist + N.of_nat t <= max -> ~ M t
  | None => False
  end.
Proof.
  induction fuel as [|fuel IH]; intros fwd bwd dist max a b i j Hf Hb Hmax Hd Hfuel M;
    [lia|].
  cbn [meet_round].
  destruct (N.ltb_spec max dist) as [Hover|Hin].
  - intros t Ht. lia.
  - assert (HM0 : M 0%nat <-> exists h, In h fwd /\ In h bwd).
    { unfold M. cbn [Nat.div2]. rewrite !Nat.add_0_r.
      split; intros (x & H1 & H2); exists x; split;
        try (apply Hf; assumption); try (apply Hb; assumption). }
    assert (HMS : forall t, M (S t) <->
              exists x, steps adj (j + Nat.div2 (S t)) b x /\
                        steps adj (S i + Nat.div2 t) a x).
    { intros t. unfold M. cbn [Nat.div2].
      replace (i + S (Nat.div2 t))%nat with (S i + Nat.div2 t)%nat by lia.
      split; intros (x & H1 & H2); exists x; auto. }
    destruct (any_in_common bwd fwd) as [(-> & Hcommon)|(-> & Hnone)]; cbn [N.eqb].
    + split; [lia|]. rewrite N.sub_diag. split; [apply HM0; exact Hcommon|].
      intros t Ht. simpl in Ht. lia.
    + assert (Hadd : U32.add dist 1 = dist + 1)
        by (unfold U32.add; apply N.mod_small; lia).
      rewrite Hadd.
      pose proof (IH bwd (expand adj fwd) (dist + 1) max b a j (S i) Hb
                    (expand_frontier fwd i a Hf) Hmax ltac:(lia) ltac:(lia)) as Hrec.
      cbn zeta in Hrec.
      assert (HnM0 : ~ M 0%nat).
      { rewrite HM0. intros (h & H1 & H2). exact (Hnone h H1 H2). }
      destruct (meet_round fuel adj bwd (expand adj fwd) (dist + 1) max)
        as [[d|]|]; [| |exact Hrec].
      * destruct Hrec as (Hrange & Hmeet & Hfirst).
        split; [lia|].
        replace (N.to_nat (d - dist)) with (S (N.to_nat (d - (dist + 1)))) by lia.
        split; [apply HMS; exact Hmeet|].
        intros [|t] Ht; [exact HnM0|].
        rewrite HMS. apply Hfirst. lia.
      * intros [|t] Ht; [exact HnM0|].
        rewrite HMS. apply Hrec. lia.
Qed.

End FrontierFacts.

Section ReachableMeaning.

Import GraphStore Lib Frontier.

Lemma hvm4_reachable_char g source target max_depth d0 :
  source < n_nodes g -> target < n_nodes g -> source <> target ->
  max_depth + 1 < U32.modulus ->
  exists code cell,
    hvm4_reachable true (Some g) source target max_depth (Some d0) =
      Some (code, cell, [CallReset; CallRun]) /\
    ((code = HVM4_OK /\
      exists d, cell = Some d /\ d <= max_depth /\ d < 999 /\
                meets (adj g) source target (N.to_nat d) /\
                forall t, (t < N.to_nat d)%nat -> ~ meets (adj g) source target t) \/
     (code = HVM4_ERR_NO_PATH /\ cell = Some d0 /\
      forall t : nat, N.of_nat t <= max_depth -> N.of_nat t < 999 ->
                      ~ meets (adj g) source target t)).
Proof.
  intros Hs Ht Hne Hmax.
  destruct (hvm4_reachable_by_meet_round g source target max_depth d0 Hs Ht Hne Hmax)
    as (r & Hr & Hrun).
  pose proof (meet_round_char (adj g) (S (S (N.to_nat max_depth)))
                [source] [target] 0 max_depth source target 0 0) as Hchar.
  cbn zeta in Hchar. rewrite Hr in Hchar.
  assert (Hsingle : forall a x, In x [a] <-> steps (adj g) 0 a x).
  { intros a x. split.
    - intros [<-|[]]. constructor.
    - intros H. inversion H; subst. left. reflexivity. }
  specialize (Hchar (Hsingle source) (Hsingle target) Hmax ltac:(lia) ltac:(lia)).
  rewrite Hrun. destruct r as [d|].
  - destruct Hchar as (Hrange & Hmeet & Hfirst). rewrite N.sub_0_r in *.
    cbn [plus] in *.
    destruct (N.leb_spec 999 d) as [Hbig|Hsmall].
    + exists HVM4_ERR_NO_PATH, (Some d0). split; [reflexivity|]. right.
      split; [reflexivity|]. split; [reflexivity|].
      intros t Htm Ht9. apply Hfirst. lia.
    + exists HVM4_OK, (Some d). split; [reflexivity|]. left.
      split; [reflexivity|]. exists d. split; [reflexivity|].
      split; [lia|]. split; [exact Hsmall|]. split; [exact Hmeet|exact Hfirst].
  - exists HVM4_ERR_NO_PATH, (Some d0). split; [reflexivity|]. right.
    split; [reflexivity|]. split; [reflexivity|].
    intros t Htm _. cbn [plus] in Hchar. apply Hchar. lia.
Qed.

Lemma no_meeting_at_sink adj source target :
  source <> target -> adj target = [] -> ~ In target (adj source) ->
  forall t, ~ meets adj source target t.
Proof.
  intros Hne Hsink Hdirect t (x & Hsrc & Htgt).
  destruct t as [|[|t]]; cbn [Nat.div2] in *.
  - inversion Hsrc; subst. inversion Htgt; subst. contradiction.
  - inversion Htgt; subst.
    inversion Hsrc as [|k u v x' Hv Hrest]; subst.
    inversion Hrest; subst. contradiction.
  - inversion Htgt as [|k u v x' Hv Hrest]; subst.
    rewrite Hsink in Hv. destruct Hv.
Qed.

End ReachableMeaning.

(** What [hvm4_reachable] reports for distinct nodes and a depth limit
    below [2^32 - 1]: [HVM4_OK] with the first round [d] (at most
    [max_depth], below 999) at which some node lies [ceil(d/2)] out-edges
    from the source and [floor(d/2)] out-edges from the target; and
    [HVM4_ERR_NO_PATH], with [*dist] untouched, when no round up to
    [max_depth] and below 999 has such a node.  Both frontiers follow
    out-edges. *)
Theorem hvm4_reachable_first_meeting (g : GraphStore.hvm4_graph)
    (source target max_depth d0 : N) :
  source < GraphStore.n_nodes g -> target < GraphStore.n_nodes g ->
  source <> target -> max_depth + 1 < U32.modulus ->
  exists code cell,
    Lib.hvm4_reachable true (Some g) source target max_depth (Some d0) =
      Some (code, cell, [Lib.CallReset; Lib.CallRun]) /\
    ((code = GraphStore.HVM4_OK /\
      exists d, cell = Some d /\ d <= max_depth /\ d < 999 /\
                Frontier.meets (Lib.adj g) source target (N.to_nat d) /\
                forall t, (t < N.to_nat d)%nat ->
                          ~ Frontier.meets (Lib.adj g) source target t) \/
     (code = GraphStore.HVM4_ERR_NO_PATH /\ cell = Some d0 /\
      forall t : nat, N.of_nat t <= max_depth -> N.of_nat t < 999 ->
                      ~ Frontier.meets (Lib.adj g) source target t)).
Proof. apply hvm4_reachable_char. Qed.

Lemma hvm4_reachable_first_meeting_witness :
  Lib.hvm4_reachable true (Some Frontier.example_graph) 0 1 10 (Some 77) =
    Some (GraphStore.HVM4_OK, Some 1, [Lib.CallReset; Lib.CallRun]) /\
  Frontier.meets (Lib.adj Frontier.example_graph) 0 1 1.
Proof.
  destruct (hvm4_reachable_first_meeting Frontier.example_graph 0 1 10 77
              ltac:(vm_compute; reflexivity) ltac:(vm_compute; reflexivity)
              ltac:(discriminate) ltac:(vm_compute; reflexivity))
    as (code & cell & Hrun & Hcases).
  assert (Hval : Lib.hvm4_reachable true (Some Frontier.example_graph) 0 1 10 (Some 77) =
                 Some (GraphStore.HVM4_OK, Some 1, [Lib.CallReset; Lib.CallRun]))
    by (vm_compute; reflexivity).
  split; [exact Hval|].
  rewrite Hval in Hrun. injection Hrun as <- <-.
  destruct Hcases as [(_ & d & [= <-] & _ & _ & Hm & _)|(Hc & _)];
    [exact Hm|discriminate].
Defined.

(** Two distinct nodes with a common direct successor are reported as
    connected, whether or not one can be reached from the other: for a
    depth limit of two or more the answer is [HVM4_OK] with distance 1 or
    2. *)
Theorem hvm4_reachable_common_successor (g : GraphStore.hvm4_graph)
    (source target x max_depth d0 : N) :
  source < GraphStore.n_nodes g -> target < GraphStore.n_nodes g ->
  source <> target -> 2 <= max_depth -> max_depth + 1 < U32.modulus ->
  In x (Lib.adj g source) -> In x (Lib.adj g target) ->
  exists d,
    Lib.hvm4_reachable true (Some g) source target max_depth (Some d0) =
      Some (GraphStore.HVM4_OK, Some d, [Lib.CallReset; Lib.CallRun]) /\
    (d = 1 \/ d = 2).
Proof.
  intros Hs Ht Hne Hmin Hmax Hxs Hxt.
  assert (Hmeet : Frontier.meets (Lib.adj g) source target 2).
  { exists x. cbn [Nat.div2]. split.
    - apply (Frontier.steps_S _ 0 source x x Hxs). constructor.
    - apply (Frontier.steps_S _ 0 target x x Hxt). constructor. }
  destruct (hvm4_reachable_char g source target max_depth d0 Hs Ht Hne Hmax)
    as (code & cell & Hrun &
        [(-> & d & -> & Hd & _ & Hm & Hfirst)|(_ & _ & Hnone)]).
  - exists d. split; [exact Hrun|].
    destruct (N.eq_dec d 0) as [->|Hd0].
    + exfalso. destruct Hm as (y & H1 & H2). cbn [Nat.div2 N.to_nat] in *.
      inversion H1; subst. inversion H2; subst. contradiction.
    + destruct (N.le_gt_cases d 2) as [Hle|Hgt]; [lia|].
      exfalso. apply (Hfirst 2%nat); [lia|exact Hmeet].
  - exfalso. apply (Hnone 2%nat); [lia|lia|exact Hmeet].
Qed.

Lemma hvm4_reachable_common_successor_witness :
  ~ Closure.reaches (Lib.adj Frontier.example_graph) 6 1 3 /\
  Lib.hvm4_reachable true (Some Frontier.example_graph) 1 3 10 (Some 77) =
    Some (GraphStore.HVM4_OK, Some 2, [Lib.CallReset; Lib.CallRun]).
Proof.
  split.
  - destruct (can_reach_at_reaches (Lib.adj Frontier.example_graph) 6 1 3)
      as [[H1 _]|[_ Hn]]; [vm_compute in H1; discriminate|exact Hn].
  - destruct (hvm4_reachable_common_successor Frontier.example_graph 1 3 4 10 77
                ltac:(vm_compute; reflexivity) ltac:(vm_compute; reflexivity)
                ltac:(discriminate) ltac:(vm_compute; discriminate)
                ltac:(vm_compute; reflexivity)
                ltac:(vm_compute; auto) ltac:(vm_compute; auto))
      as (d & Hrun & _).
    rewrite Hrun. vm_compute in Hrun. injection Hrun as <-. reflexivity.
Defined.

(** A target without out-edges that is not a direct successor of the
    source is never found: [hvm4_reachable] answers [HVM4_ERR_NO_PATH] for
    every depth limit below [2^32 - 1], also when a longer path leads to
    the target. *)
Theorem hvm4_reachable_misses_sink (g : GraphStore.hvm4_graph)
    (source target max_depth d0 : N) :
  source < GraphStore.n_nodes g -> target < GraphStore.n_nodes g ->
  source <> target -> max_depth + 1 < U32.modulus ->
  Lib.adj g target = [] -> ~ In target (Lib.adj g source) ->
  Lib.hvm4_reachable true (Some g) source target max_depth (Some d0) =
    Some (GraphStore.HVM4_ERR_NO_PATH, Some d0, [Lib.CallReset; Lib.CallRun]).
Proof.
  intros Hs Ht Hne Hmax Hsink Hdirect.
  destruct (hvm4_reachable_char g source target max_depth d0 Hs Ht Hne Hmax)
    as (code & cell & Hrun & [(_ & d & _ & _ & _ & Hm & _)|(-> & -> & _)]).
  - exfalso. exact (no_meeting_at_sink _ source target Hne Hsink Hdirect _ Hm).
  - exact Hrun.
Qed.

Lemma hvm4_reachable_misses_sink_witness :
  Closure.reaches (Lib.adj Frontier.example_graph) 3 0 5 /\
  Lib.hvm4_reachable true (Some Frontier.example_graph) 0 5 10 (Some 77) =
    Some (GraphStore.HVM4_ERR_NO_PATH, Some 77, [Lib.CallReset; Lib.CallRun]).
Proof.
  split.
  - apply (Closure.reaches_step _ 2 0 1 5); [vm_compute; auto|].
    apply (Closure.reaches_step _ 1 1 2 5); [vm_compute; auto|].
    apply (Closure.reaches_step _ 0 2 5 5); [vm_compute; auto|constructor].
  - apply (hvm4_reachable_misses_sink Frontier.example_graph 0 5 10 77
             ltac:(vm_compute; reflexivity) ltac:(vm_compute; reflexivity)
             ltac:(discriminate) ltac:(vm_compute; reflexivity)
             ltac:(vm_compute; reflexivity)).
    vm_compute. intros [H|[H|[]]]; discriminate.
Defined.

(** ** Shortest paths *)

Section WalkFacts.

Import Trie4 Paths.

Variables (E : N -> N -> N -> Prop) (n s : N).
Hypothesis Hrange : forall u v c, E u v c -> u < n /\ v < n.
Hypothesis Hs : s < n.

Lemma walk_nodes v w L : walk E s v w L -> v < n /\ forall x, In x L -> x < n.
Proof.
  induction 1 as [|v x c w L Hw [Hv IH] He].
  - split; [exact Hs|]. intros x [<-|[]]. exact Hs.
  - destruct (Hrange _ _ _ He) as [_ Hx]. split; [exact Hx|].
    intros y [<-|Hy]; auto.
Qed.

(** A walk that repeats no node passes each of its nodes on a part of
    itself that is no heavier. *)
Lemma walk_prefix v w L :
  walk E s v w L -> List.NoDup L ->
  forall y, In y L ->
    exists w' L', walk E s y w' L' /\ w' <= w /\ List.NoDup L' /\
                  (length L' <= length L)%nat.
Proof.
  clear Hrange Hs. induction 1 as [|v x c w L Hw IH He]; intros Hnd y Hy.
  - destruct Hy as [<-|[]]. exists 0, [s]. repeat split; auto. constructor.
  - destruct Hy as [<-|Hy].
    + exists (w + c), (x :: L). repeat split; auto. econstructor; eauto.
    + inversion Hnd as [|? ? Hnot Hnd']; subst.
      destruct (IH Hnd' y Hy) as (w' & L' & Hw' & Hle & Hnd'' & Hlen).
      exists w', L'. repeat split; auto; [lia|simpl; lia].
Qed.

(** Cutting the cycles out of a walk leaves one that is no heavier and
    repeats no node. *)
Lemma walk_simple v w L :
  walk E s v w L ->
  exists w' L', walk E s v w' L' /\ w' <= w /\ List.NoDup L'.
Proof.
  clear Hrange Hs. induction 1 as [|v x c w L Hw (w' & L' & Hw' & Hle & Hnd) He].
  - exists 0, [s]. repeat split; [constructor|lia|].
    constructor; [intros []|constructor].
  - destruct (List.in_dec N.eq_dec x L') as [Hin|Hout].
    + destruct (walk_prefix v w' L' Hw' Hnd x Hin) as (w2 & L2 & Hw2 & Hle2 & Hnd2 & _).
      exists w2, L2. repeat split; auto. lia.
    + exists (w' + c), (x :: L'). repeat split; [econstructor; eauto|lia|].
      constructor; assumption.
Qed.

Lemma simple_length v w L :
  walk E s v w L -> List.NoDup L -> (length L <= N.to_nat n)%nat.
Proof.
  intros Hw Hnd.
  rewrite <- (length_seq (N.to_nat n) 0), <- (length_map N.of_nat).
  apply List.NoDup_incl_length; [exact Hnd|].
  intros x Hx. destruct (walk_nodes v w L Hw) as [_ Hall].
  specialize (Hall x Hx). apply in_map_iff. exists (N.to_nat x).
  split; [lia|]. apply in_seq. lia.
Qed.

Lemma walk_inv v w L :
  walk E s v w L ->
  (v = s /\ w = 0 /\ L = [s]) \/
  exists u c w' L', walk E s u w' L' /\ E u v c /\ w = w' + c /\ L = v :: L'.
Proof. destruct 1; [left; auto|right; eauto 10]. Qed.

Lemma complete_start a : a s = 0 -> complete E s a 0.
Proof.
  clear Hrange Hs. intros Ha v w L Hw Hlen Hfin.
  destruct (walk_inv v w L Hw) as [(-> & -> & _)|(u & c & w' & L' & Hw' & _ & _ & ->)];
    [lia|].
  destruct (walk_inv u w' L' Hw') as [(_ & _ & ->)|(? & ? & ? & ? & _ & _ & _ & ->)];
    simpl in Hlen; lia.
Qed.

(** One round of relaxations extends the walks covered by one edge. *)
Lemma complete_step a a' k :
  complete E s a k ->
  (forall v, v < n -> a' v <= a v) ->
  (forall u v c, E u v c -> a u < INF -> a' v <= a u + c) ->
  complete E s a' (S k).
Proof.
  intros Hc Hdec Hedge v w L Hw Hlen Hfin.
  destruct (walk_inv v w L Hw) as [(-> & -> & ->)|(u & c & w' & L' & Hw' & He & -> & ->)].
  - specialize (Hc s 0 [s] Hw ltac:(simpl; lia) Hfin).
    specialize (Hdec s Hs). lia.
  - simpl in Hlen.
    specialize (Hc u w' L' Hw' ltac:(lia) ltac:(lia)).
    specialize (Hedge u v c He ltac:(lia)). lia.
Qed.

(** A table that no relaxation improves covers the walks of every length. *)
Lemma complete_fixed a :
  a s = 0 ->
  (forall u v c, E u v c -> a u < INF -> a v <= a u + c) ->
  forall k, complete E s a k.
Proof.
  intros Ha Hedge k. induction k as [|k IH]; [apply complete_start; exact Ha|].
  apply (complete_step a a k IH); [intros; lia|exact Hedge].
Qed.

Lemma complete_all a k :
  complete E s a k -> (N.to_nat n <= S k)%nat ->
  forall v w L, walk E s v w L -> w < INF -> a v <= w.
Proof.
  intros Hc Hk v w L Hw Hfin.
  destruct (walk_simple v w L Hw) as (w' & L' & Hw' & Hle & Hnd).
  pose proof (simple_length v w' L' Hw' Hnd) as Hlen.
  specialize (Hc v w' L' Hw' ltac:(lia) ltac:(lia)). lia.
Qed.

(** A table below the sentinel whose entries are weights of walks and that
    covers all walks holds the distances. *)
Lemma settled a v :
  a v <= INF ->
  (a v < INF -> exists L, walk E s v (a v) L) ->
  (forall w L, walk E s v w L -> w < INF -> a v <= w) ->
  distance E s v (a v).
Proof.
  clear Hrange Hs. intros Hle Hsound Hall. destruct (N.lt_ge_cases (a v) INF) as [Hlt|Hge].
  - left. split; [exact Hlt|]. split; [auto|].
    intros w L Hw. destruct (N.lt_ge_cases w INF) as [Hf|Hi]; [eauto|lia].
  - right. split; [lia|]. intros w L Hw.
    destruct (N.lt_ge_cases w INF) as [Hf|Hi]; [|exact Hi].
    specialize (Hall w L Hw Hf). lia.
Qed.

End WalkFacts.

Lemma distance_unique E s v d d' :
  Paths.distance E s v d -> Paths.distance E s v d' -> d = d'.
Proof.
  intros [(Hd & (L & Hw) & Hmin)|(Hd & Hall)] [(Hd' & (L' & Hw') & Hmin')|(Hd' & Hall')].
  - specialize (Hmin _ _ Hw'). specialize (Hmin' _ _ Hw). lia.
  - specialize (Hall' _ _ Hw). lia.
  - specialize (Hall _ _ Hw'). lia.
  - lia.
Qed.
(** *** The trie under [@q4_set] *)

Section TrieSet.

Import Trie4 Hybrid.

Lemma wf_trie_set t : forall (d : nat) k v,
  N.of_nat d < U32.modulus -> wf_trie d t ->
  wf_trie d (q4_set k v (N.of_nat d) t).
Proof.
  induction t as [|old|c0 IH0 c1 IH1 c2 IH2 c3 IH3]; intros d k v Hd Hwf.
  - apply wf_trie_set_fresh. exact Hd.
  - rewrite q4_set_equation_2. exact Hwf.
  - destruct d as [|d]; [contradiction|].
    destruct Hwf as (H0 & H1 & H2 & H3).
    rewrite q4_set_Q, sub_pred by lia.
    replace (N.of_nat (S d) - 1) with (N.of_nat d) by lia.
    destruct (k mod 4) as [|[[]|[]|]]; simpl;
      repeat split; auto; first [apply IH0|apply IH1|apply IH2|apply IH3];
      auto; lia.
Qed.

Lemma q4_find_set_other t : forall (d : nat) k k' v,
  N.of_nat d < U32.modulus -> wf_trie d t ->
  k < 4 ^ N.of_nat d -> k' < 4 ^ N.of_nat d -> k <> k' ->
  q4_find k' (q4_set k v (N.of_nat d) t) = q4_find k' t.
Proof.
  induction t as [|old|c0 IH0 c1 IH1 c2 IH2 c3 IH3]; intros d k k' v Hd Hwf Hk Hk' Hne.
  - apply q4_find_set_fresh_other; assumption.
  - simpl in Hwf. subst d. simpl in Hk, Hk'. lia.
  - destruct d as [|d]; [contradiction|].
    destruct Hwf as (H0 & H1 & H2 & H3).
    rewrite q4_set_Q, sub_pred by lia.
    replace (N.of_nat (S d) - 1) with (N.of_nat d) by lia.
    replace (N.of_nat (S d)) with (N.succ (N.of_nat d)) in Hk, Hk' by lia.
    rewrite N.pow_succ_r' in Hk, Hk'.
    assert (Hk4 : k / 4 < 4 ^ N.of_nat d) by lia.
    assert (Hk4' : k' / 4 < 4 ^ N.of_nat d) by lia.
    assert (Hd' : N.of_nat d < U32.modulus) by lia.
    destruct (N.eq_dec (k mod 4) (k' mod 4)) as [Hslot|Hslot].
    + assert (Hne4 : k / 4 <> k' / 4) by lia.
      destruct (k mod 4) as [|[[]|[]|]] eqn:E; simpl;
        rewrite <- Hslot; auto.
    + assert (k mod 4 < 4) by lia. assert (k' mod 4 < 4) by lia.
      destruct (k mod 4) as [|[[]|[]|]] eqn:E; try lia;
      destruct (k' mod 4) as [|[[]|[]|]] eqn:E'; try lia;
        simpl; rewrite E'; try reflexivity; congruence.
Qed.

(** [@q4_set], read as an array update. *)
Lemma set_reading (dn : nat) (n : N) t k x :
  (dn <= 15)%nat -> n <= 4 ^ N.of_nat dn ->
  wf_trie dn t -> k < n ->
  let t' := q4_set k x (N.of_nat dn) t in
  wf_trie dn t' /\
  reading t' k = x /\
  (forall k', k' < n -> k' <> k -> reading t' k' = reading t k').
Proof.
  intros Hdn Hkeys Hwf Hk. cbn zeta.
  assert (Hd : N.of_nat dn < U32.modulus) by (unfold U32.modulus; lia).
  split; [apply wf_trie_set; assumption|]. split.
  - unfold reading. rewrite q4_find_set_same. reflexivity.
  - intros k' Hk' Hne. unfold reading.
    rewrite q4_find_set_other; auto; lia.
Qed.

End TrieSet.

(** *** Bellman-Ford over the edge list ([hvm4_shortest_path]) *)

Section LibraryBF.

Import Trie4 GraphStore Hybrid Paths.

Variables (g : hvm4_graph) (dn : nat) (source : N).
Hypothesis Hdn : (dn <= 15)%nat.
Hypothesis Hkeys : n_nodes g <= 4 ^ N.of_nat dn.
Hypothesis Hsource : source < n_nodes g.
Hypothesis Hedges : forall e, In e (graph_edges g) ->
  src e < n_nodes g /\ dst e < n_nodes g /\ INF + weight e < U32.modulus.

Local Abbreviation n := (n_nodes g).
Local Abbreviation DEPTH := (N.of_nat dn).
Local Abbreviation E := (list_edge g).

Local Abbreviation tentative := (Paths.tentative g dn source).

Lemma relax_edge_spec t e :
  In e (graph_edges g) -> tentative t ->
  let t' := Lib.relax_edge DEPTH t e in
  tentative t' /\
  (forall v, v < n -> reading t' v <= reading t v) /\
  (reading t (src e) < INF -> reading t' (dst e) <= reading t (src e) + weight e).
Proof.
  intros He (Hwf & Hle & Hsound). cbn zeta.
  destruct (Hedges e He) as (Hu & Hv & Hw).
  unfold Lib.relax_edge. rewrite !q4_get_reading. cbn zeta.
  pose proof (Hle _ Hu) as Hdu. pose proof (Hle _ Hv) as Hdv.
  assert (Hadd : U32.add (reading t (src e)) (weight e) = reading t (src e) + weight e).
  { unfold U32.add. apply N.mod_small. lia. }
  rewrite Hadd. unfold U32.lt.
  destruct (N.ltb_spec (reading t (src e) + weight e) (reading t (dst e))) as [Hlt|Hge].
  - destruct (set_reading dn n t (dst e) (reading t (src e) + weight e)
                Hdn Hkeys Hwf Hv) as (Hwf' & Hval & Hother).
    split; [split; [exact Hwf'|split]|split].
    + intros v Hvn. destruct (N.eq_dec v (dst e)) as [->|Hne]; [lia|].
      rewrite Hother by auto. auto.
    + intros v Hvn. destruct (N.eq_dec v (dst e)) as [->|Hne].
      * rewrite Hval. intros _.
        destruct (Hsound _ Hu ltac:(lia)) as (L & HL).
        exists (dst e :: L). apply (walk_step E source (src e)); [exact HL|].
        unfold list_edge. destruct e; exact He.
      * rewrite Hother by auto. auto.
    + intros v Hvn. destruct (N.eq_dec v (dst e)) as [->|Hne]; [lia|].
      rewrite Hother by auto. lia.
    + intros _. lia.
  - split; [repeat split; assumption|]. split; [intros; lia|]. intros _. lia.
Qed.

Lemma relax_round_spec : forall l t,
  incl l (graph_edges g) -> tentative t ->
  let t' := Lib.foldl (Lib.relax_edge DEPTH) t l in
  tentative t' /\
  (forall v, v < n -> reading t' v <= reading t v) /\
  (forall e, In e l -> reading t (src e) < INF ->
     reading t' (dst e) <= reading t (src e) + weight e).
Proof.
  induction l as [|h l IH]; intros t Hincl Ht; cbn zeta.
  - simpl. split; [exact Ht|]. split; [intros; lia|]. intros e [].
  - cbn [Lib.foldl].
    destruct (relax_edge_spec t h (Hincl h ltac:(left; reflexivity)) Ht)
      as (Ht1 & Hdec1 & Hedge1).
    destruct (IH (Lib.relax_edge DEPTH t h)
                 ltac:(intros x Hx; apply Hincl; right; exact Hx) Ht1)
      as (Ht' & Hdec' & Hedge').
    split; [exact Ht'|]. split.
    + intros v Hv. specialize (Hdec1 v Hv). specialize (Hdec' v Hv). lia.
    + intros e [<-|He] Hfin.
      * destruct (Hedges h (Hincl h ltac:(left; reflexivity))) as (_ & Hv & _).
        specialize (Hdec' _ Hv). specialize (Hedge1 Hfin). lia.
      * destruct (Hedges e (Hincl e ltac:(right; exact He))) as (Hu & _ & _).
        specialize (Hdec1 _ Hu). specialize (Hedge' e He ltac:(lia)). lia.
Qed.

Lemma list_edge_range u v c : E u v c -> u < n /\ v < n.
Proof. intros H. destruct (Hedges _ H) as (Hu & Hv & _). auto. Qed.

Lemma init_tentative :
  tentative (Lib.init_dist DEPTH source) /\
  reading (Lib.init_dist DEPTH source) source = 0.
Proof.
  unfold Lib.init_dist.
  destruct (set_reading dn n QE source 0 Hdn Hkeys I Hsource) as (Hwf & Hval & Hother).
  split; [split; [exact Hwf|split]|exact Hval].
  - intros v Hv. destruct (N.eq_dec v source) as [->|Hne]; [lia|].
    rewrite Hother by auto. unfold reading. simpl. lia.
  - intros v Hv. destruct (N.eq_dec v source) as [->|Hne].
    + rewrite Hval. intros _. exists [source]. constructor.
    + rewrite Hother by auto. unfold reading. simpl. lia.
Qed.

Lemma rounds_spec (k : nat) :
  let t := Nat.iter k (Lib.relax_round DEPTH (graph_edges g))
                    (Lib.init_dist DEPTH source) in
  tentative t /\ complete E source (reading t) k.
Proof.
  induction k as [|k (Ht & Hc)]; cbn zeta.
  - destruct init_tentative as [Ht H0]. split; [exact Ht|].
    apply complete_start. exact H0.
  - cbn [Nat.iter]. unfold Lib.relax_round at 1.
    destruct (relax_round_spec (graph_edges g) _ ltac:(intros x Hx; exact Hx) Ht)
      as (Ht' & Hdec & Hedge).
    split; [exact Ht'|].
    apply (complete_step E n source Hsource _ _ k Hc Hdec).
    intros u v c He Hfin. apply (Hedge (Edge u v c) He Hfin).
Qed.

(** After the rounds every entry of the trie is the distance. *)
Lemma bf_distances v :
  v < n -> distance E source v (reading (Lib.bf g DEPTH source) v).
Proof.
  intros Hv. unfold Lib.bf.
  assert (Hn : n < U32.modulus).
  { assert (4 ^ N.of_nat dn <= 4 ^ 15) by (apply N.pow_le_mono_r; lia).
    unfold U32.modulus. change (4 ^ 15) with 1073741824 in *.
    change (2 ^ 32) with 4294967296. lia. }
  assert (Hr : Lib.bf_rounds n < U32.modulus /\
               (N.to_nat n <= S (N.to_nat (Lib.bf_rounds n)))%nat).
  { unfold Lib.bf_rounds, U32.sub, U32.modulus in *.
    destruct (N.ltb_spec 1 n); lia. }
  rewrite repeat_iter by apply Hr.
  destruct (rounds_spec (N.to_nat (Lib.bf_rounds n))) as ((Hwf & Hle & Hsound) & Hc).
  apply settled; [apply Hle; exact Hv|apply Hsound; exact Hv|].
  apply (complete_all E n source list_edge_range Hsource _ _ Hc); apply Hr.
Qed.

End LibraryBF.
(** [hvm4_shortest_path] on a graph whose edges join nodes of the graph
    with weights that cannot wrap a 32-bit sum past the sentinel, with an
    array of one word per node and the engine returning the list [@main]
    denotes: the call answers [HVM4_OK] after one reset and one run and
    leaves in [dist[v]] the least weight of a walk from [source] to [v],
    or 999999 when no walk is lighter than that. *)
Theorem hvm4_shortest_path_distances (g : GraphStore.hvm4_graph)
    (source depth : N) (dist : list N)
    (nf : Engine.Term) (HEAP : N -> Engine.Term) (fuel : nat) :
  let n := GraphStore.n_nodes g in
  source < n ->
  (forall e, In e (GraphStore.graph_edges g) ->
     GraphStore.src e < n /\ GraphStore.dst e < n /\
     GraphStore.weight e <= 4293967296) ->
  Lib.ceil_log4_u32 n = Some depth ->
  length dist = N.to_nat n ->
  Closure.is_list HEAP nf (Lib.shortest_path_main g depth source) ->
  (N.to_nat n < fuel)%nat ->
  exists d',
    ShortestPath.hvm4_shortest_path true (Some nf) HEAP fuel (Some g) source
                                    (Some dist) =
      Some (GraphStore.HVM4_OK, Some d', [Lib.CallReset; Lib.CallRun]) /\
    length d' = N.to_nat n /\
    forall v, v < n ->
      Paths.distance (Paths.list_edge g) source v (nth (N.to_nat v) d' 0).
Proof.
  intros n Hsource Hedges Hdepth Hlen Hnf Hfuel.
  destruct (ceil_log4_spec n depth Hdepth) as (dn & -> & Hdn & Hkeys).
  assert (Hn : n <= 1073741824).
  { assert (4 ^ N.of_nat dn <= 4 ^ 15) by (apply N.pow_le_mono_r; lia).
    change (4 ^ 15) with 1073741824 in *. lia. }
  assert (Hmain : length (Lib.shortest_path_main g (N.of_nat dn) source) = N.to_nat n).
  { unfold Lib.shortest_path_main. rewrite length_map, length_seq. reflexivity. }
  unfold ShortestPath.hvm4_shortest_path. fold n.
  destruct (N.leb_spec n source) as [|_]; [lia|].
  rewrite Hdepth.
  assert (Hint : Closure.to_int n = Z.of_N n).
  { unfold Closure.to_int, U32.modulus. change (2 ^ 32) with 4294967296.
    rewrite N.mod_small by lia.
    destruct (Z.ltb_spec (Z.of_N n) 2147483648); [reflexivity|lia]. }
  rewrite Hint. unfold Lib.run_hvm4. cbn [negb N.eqb].
  rewrite extract_nums_term_nums.
  rewrite (term_nums_is_list HEAP nf _ Hnf) by lia.
  replace (Z.of_N n) with (Z.of_nat (length dist)) by lia.
  rewrite write_from_exact by lia.
  rewrite take_ge by lia.
  destruct (Z.ltb_spec (0 + Z.of_nat (length (Lib.shortest_path_main g (N.of_nat dn) source))) 0);
    [lia|].
  eexists. split; [reflexivity|]. split; [exact Hmain|].
  intros v Hv. unfold Lib.shortest_path_main.
  rewrite (nth_indep _ 0 ((fun i => Trie4.q4_get (N.of_nat i) (N.of_nat dn)
                                      (Lib.bf g (N.of_nat dn) source)) 0%nat))
    by (rewrite length_map, length_seq; lia).
  rewrite (map_nth (fun i => Trie4.q4_get (N.of_nat i) (N.of_nat dn)
                               (Lib.bf g (N.of_nat dn) source))).
  rewrite seq_nth by lia. cbn [plus]. rewrite N2Nat.id, q4_get_reading.
  apply bf_distances; try assumption; try lia.
  intros e He. destruct (Hedges e He) as (Hu & Hd & Hw).
  unfold Trie4.INF, U32.modulus. change (2 ^ 32) with 4294967296. fold n. lia.
Qed.

Lemma hvm4_shortest_path_distances_witness :
  exists d',
    ShortestPath.hvm4_shortest_path true
      (Some (Closure.layout_cell [0; 2; 3; 3; 4; 4] 0))
      (Closure.layout [0; 2; 3; 3; 4; 4]) 9
      (Some ShortestPath.six_nodes) 0 (Some [7; 7; 7; 7; 7; 7]) =
      Some (GraphStore.HVM4_OK, Some d', [Lib.CallReset; Lib.CallRun]) /\
    d' = [0; 2; 3; 3; 4; 4].
Proof.
  assert (Hmain : Lib.shortest_path_main ShortestPath.six_nodes 2 0 = [0; 2; 3; 3; 4; 4])
    by (vm_compute; reflexivity).
  assert (Hlist : Closure.is_list (Closure.layout [0; 2; 3; 3; 4; 4])
                    (Closure.layout_cell [0; 2; 3; 3; 4; 4] 0)
                    (Lib.shortest_path_main ShortestPath.six_nodes 2 0)).
  { rewrite Hmain.
    exact (layout_is_list [0; 2; 3; 3; 4; 4] ltac:(vm_compute; reflexivity) 6 0 eq_refl). }
  destruct (hvm4_shortest_path_distances ShortestPath.six_nodes 0 2
              [7; 7; 7; 7; 7; 7]
              (Closure.layout_cell [0; 2; 3; 3; 4; 4] 0)
              (Closure.layout [0; 2; 3; 3; 4; 4]) 9
              ltac:(vm_compute; reflexivity)
              ltac:(intros e He; vm_compute in He;
                    repeat (destruct He as [<-|He];
                            [vm_compute; repeat split; congruence|]);
                    destruct He)
              ltac:(vm_compute; reflexivity) ltac:(vm_compute; reflexivity)
              Hlist ltac:(vm_compute; lia))
    as (d' & Hrun & _ & _).
  exists d'. split; [exact Hrun|].
  vm_compute in Hrun. injection Hrun as <-. reflexivity.
Defined.
(** *** Walks in a graph in memory *)

Section CsrWalks.

Import Trie4 Hybrid Paths.

Variables (g : csr) (W : N).
Hypothesis Hok : csr_ok g W.

Lemma csr_edge_range u v c : csr_edge g u v c -> u < V g /\ v < V g.
Proof.
  intros (Hu & e & He & <- & _). split; [exact Hu|].
  apply (proj2 Hok u e Hu He).
Qed.

Lemma csr_edge_weight u v c : csr_edge g u v c -> c <= W.
Proof. intros (Hu & e & He & _ & <-). apply (proj2 Hok u e Hu He). Qed.

Lemma csr_edge_at u e :
  u < V g -> word_at (row_ptr g) u <= e < word_at (row_ptr g) (u + 1) ->
  csr_edge g u (word_at (col_idx g) e) (word_at (edge_wt g) e).
Proof. intros Hu He. split; [exact Hu|]. exists e. auto. Qed.

(** No edge being heavier than [W], a walk over [k] edges weighs at most
    [k * W]. *)
Lemma walk_weight s v w L :
  walk (csr_edge g) s v w L -> w + W <= N.of_nat (length L) * W.
Proof.
  induction 1 as [|v x c w L Hw IH He].
  - simpl. lia.
  - pose proof (csr_edge_weight _ _ _ He).
    cbn [length]. nia.
Qed.

(** Whatever can be reached at all is reached by a walk lighter than
    [V * W]. *)
Lemma walk_light s v w L :
  s < V g -> walk (csr_edge g) s v w L ->
  exists w' L', walk (csr_edge g) s v w' L' /\ w' <= w /\ w' <= (V g - 1) * W.
Proof.
  intros Hs Hw.
  destruct (walk_simple (csr_edge g) s v w L Hw) as (w' & L' & Hw' & Hle & Hnd).
  pose proof (simple_length (csr_edge g) (V g) s csr_edge_range Hs v w' L' Hw' Hnd).
  pose proof (walk_weight s v w' L' Hw').
  exists w', L'. split; [exact Hw'|]. split; [exact Hle|]. nia.
Qed.

End CsrWalks.

(** *** The native Bellman-Ford ([bf_reference]) *)

Section ReferenceBF.

Import Trie4 Hybrid Paths HybridBench.

Variables (g : csr) (W src : N).
Hypothesis Hok : csr_ok g W.
Hypothesis HW : INF + W < U32.modulus.
Hypothesis Hsrc : src < V g.

Local Abbreviation rp := (word_at (row_ptr g)).
Local Abbreviation ci := (word_at (col_idx g)).
Local Abbreviation wt := (word_at (edge_wt g)).
Local Abbreviation E := (csr_edge g).

Local Abbreviation tentative_array := (Paths.tentative_array g src).

Lemma row_word u e : u < V g -> rp u <= e < rp (u + 1) -> e + 1 < U32.modulus.
Proof.
  intros Hu He. destruct (rows_deg g u (proj1 Hok) Hu) as (_ & _ & Hle).
  pose proof (proj1 Hok) as (_ & _ & _ & Hlast). lia.
Qed.

Lemma relax_row_spec u : u < V g ->
  forall fuel e dist ch,
    rp u <= e <= rp (u + 1) ->
    (N.to_nat (rp (u + 1) - e) < fuel)%nat ->
    tentative_array dist -> word_at dist u < INF ->
    let st' := relax_row fuel g u e (dist, ch) in
    tentative_array (fst st') /\
    (forall v, v < V g -> word_at (fst st') v <= word_at dist v) /\
    (forall e', e <= e' < rp (u + 1) ->
       word_at (fst st') (ci e') <= word_at dist u + wt e') /\
    (snd st' = false -> fst st' = dist /\ ch = false).
Proof.
  intros Hu. induction fuel as [|fuel IH]; intros e dist ch He Hfuel Ht Hdu; [lia|].
  cbn zeta. cbn [relax_row].
  destruct (N.ltb_spec e (rp (u + 1))) as [Hlt|Hge].
  2:{ simpl. split; [exact Ht|]. split; [intros; lia|]. split; [intros; lia|auto]. }
  destruct Ht as (Hlen & Hle & Hsound).
  destruct (proj2 Hok u e Hu ltac:(lia)) as (Hc & Hw).
  assert (Hadd : U32.add (word_at dist u) (wt e) = word_at dist u + wt e).
  { unfold U32.add. apply N.mod_small. lia. }
  assert (He1 : U32.add e 1 = e + 1).
  { unfold U32.add. apply N.mod_small. apply (row_word u e Hu). lia. }
  rewrite Hadd, He1.
  set (nd := word_at dist u + wt e).
  set (st1 := if nd <? word_at dist (ci e)
              then (<[N.to_nat (ci e) := nd]> dist, true) else (dist, ch)).
  assert (H1 : tentative_array (fst st1) /\
               (forall v, v < V g -> word_at (fst st1) v <= word_at dist v) /\
               word_at (fst st1) (ci e) <= nd /\
               (snd st1 = false -> fst st1 = dist /\ ch = false)).
  { subst st1. destruct (N.ltb_spec nd (word_at dist (ci e))) as [Hup|Hno]; cbn [fst snd].
    - assert (Hval : forall v, word_at (<[N.to_nat (ci e) := nd]> dist) v =
                               if decide (ci e = v) then nd else word_at dist v).
      { intros v. rewrite word_at_insert. repeat case_decide; try reflexivity.
        - destruct H; contradiction.
        - exfalso. apply H. split; [assumption|lia]. }
      pose proof (Hle _ Hc) as Hdv.
      split; [split; [rewrite length_insert; exact Hlen|split]|split; [|split]].
      + intros v Hv. rewrite Hval. case_decide; [lia|auto].
      + intros v Hv. rewrite Hval. case_decide as Hd.
        * subst v. intros _. destruct (Hsound u Hu Hdu) as (L & HL).
          exists (ci e :: L). apply (walk_step E src u); [exact HL|].
          apply csr_edge_at; [exact Hu|lia].
        * auto.
      + intros v Hv. rewrite Hval. case_decide; [subst v; lia|lia].
      + rewrite Hval. case_decide; [lia|contradiction].
      + discriminate.
    - split; [repeat split; assumption|]. split; [intros; lia|]. split; [lia|auto]. }
  destruct H1 as (Ht1 & Hdec1 & Hv1 & Hch1).
  destruct st1 as [dist1 ch1]. cbn [fst snd] in *.
  destruct (IH (e + 1) dist1 ch1 ltac:(lia) ltac:(lia) Ht1
               ltac:(specialize (Hdec1 u Hu); lia))
    as (Ht' & Hdec' & Hall' & Hch').
  split; [exact Ht'|]. split; [|split].
  - intros v Hv. specialize (Hdec1 v Hv). specialize (Hdec' v Hv). lia.
  - intros e' He'. destruct (N.eq_dec e' e) as [->|Hne].
    + specialize (Hdec' (ci e) Hc). unfold nd in Hv1. lia.
    + specialize (Hall' e' ltac:(lia)). specialize (Hdec1 u Hu). lia.
  - intros Hf. destruct (Hch' Hf) as [-> Hc1]. destruct (Hch1 Hc1) as [-> ->]. auto.
Qed.

Lemma relax_nodes_spec : forall (k : nat) u dist ch,
  u + N.of_nat k = V g -> tentative_array dist ->
  let st' := relax_nodes k g u (dist, ch) in
  tentative_array (fst st') /\
  (forall v, v < V g -> word_at (fst st') v <= word_at dist v) /\
  (forall u' e', u <= u' < V g -> word_at dist u' < INF ->
     rp u' <= e' < rp (u' + 1) ->
     word_at (fst st') (ci e') <= word_at dist u' + wt e') /\
  (snd st' = false -> fst st' = dist /\ ch = false).
Proof.
  induction k as [|k IH]; intros u dist ch Hk Ht; cbn zeta.
  - simpl. split; [exact Ht|]. split; [intros; lia|]. split; [intros; lia|auto].
  - cbn [relax_nodes fst].
    assert (Hu : u < V g) by lia.
    set (st1 := if word_at dist u =? 999999 then (dist, ch)
                else relax_row (S (N.to_nat (rp (u + 1) - rp u))) g u (rp u) (dist, ch)).
    assert (H1 : tentative_array (fst st1) /\
                 (forall v, v < V g -> word_at (fst st1) v <= word_at dist v) /\
                 (word_at dist u < INF -> forall e', rp u <= e' < rp (u + 1) ->
                    word_at (fst st1) (ci e') <= word_at dist u + wt e') /\
                 (snd st1 = false -> fst st1 = dist /\ ch = false)).
    { subst st1. destruct (N.eqb_spec (word_at dist u) 999999) as [Heq|Hne].
      - cbn [fst snd]. split; [exact Ht|]. split; [intros; lia|].
        split; [unfold INF; intros; lia|auto].
      - destruct (rows_deg g u (proj1 Hok) Hu) as (_ & Hmono & _).
        pose proof (proj1 (proj2 Ht) u Hu) as Hle. unfold INF in Hle.
        destruct (relax_row_spec u Hu (S (N.to_nat (rp (u + 1) - rp u))) (rp u)
                    dist ch ltac:(lia) ltac:(lia) Ht ltac:(unfold INF; lia))
          as (Ht1 & Hdec1 & Hall1 & Hch1).
        split; [exact Ht1|]. split; [exact Hdec1|]. split; [|exact Hch1].
        intros _ e' He'. apply Hall1. exact He'. }
    destruct H1 as (Ht1 & Hdec1 & Hall1 & Hch1).
    destruct st1 as [dist1 ch1]. cbn [fst snd] in *.
    destruct (IH (u + 1) dist1 ch1 ltac:(lia) Ht1) as (Ht' & Hdec' & Hall' & Hch').
    split; [exact Ht'|]. split; [|split].
    + intros v Hv. specialize (Hdec1 v Hv). specialize (Hdec' v Hv). lia.
    + intros u' e' Hu' Hfin He'.
      destruct (proj2 Hok u' e' ltac:(lia) He') as (Hc & _).
      destruct (N.eq_dec u' u) as [->|Hne].
      * specialize (Hall1 Hfin e' He'). specialize (Hdec' _ Hc). lia.
      * specialize (Hdec1 u' ltac:(lia)).
        specialize (Hall' u' e' ltac:(lia) ltac:(lia) He'). lia.
    + intros Hf. destruct (Hch' Hf) as [-> Hc1]. destruct (Hch1 Hc1) as [-> ->]. auto.
Qed.

Lemma reference_rounds_spec : forall (k j : nat) dist,
  tentative_array dist -> word_at dist src = 0 ->
  complete E src (word_at dist) j ->
  let dist' := reference_rounds k g dist in
  tentative_array dist' /\ complete E src (word_at dist') (j + k).
Proof.
  induction k as [|k IH]; intros j dist Ht H0 Hc; cbn zeta.
  - simpl. rewrite Nat.add_0_r. auto.
  - cbn [reference_rounds].
    destruct (relax_nodes_spec (N.to_nat (V g)) 0 dist false ltac:(lia) Ht)
      as (Ht1 & Hdec1 & Hall1 & Hch1).
    destruct (relax_nodes (N.to_nat (V g)) g 0 (dist, false)) as [dist1 ch1].
    cbn [fst snd] in *.
    assert (Hedge : forall u v c, E u v c -> word_at dist u < INF ->
                                  word_at dist1 v <= word_at dist u + c).
    { intros u v c (Hu & e & He & <- & <-) Hfin. apply Hall1; auto. lia. }
    destruct ch1.
    + replace (j + S k)%nat with (S j + k)%nat by lia.
      apply IH; [exact Ht1| |].
      * specialize (Hdec1 src Hsrc). lia.
      * apply (complete_step E (V g) src Hsrc _ _ j Hc Hdec1 Hedge).
    + destruct (Hch1 eq_refl) as [-> _]. split; [exact Ht|].
      apply (complete_fixed E (V g) src Hsrc _ H0 Hedge).
Qed.

(** When the reference is done its array holds the distances. *)
Lemma bf_reference_spec :
  length (bf_reference g src) = N.to_nat (V g) /\
  forall v, v < V g -> distance E src v (word_at (bf_reference g src) v).
Proof.
  unfold bf_reference.
  set (dist0 := <[N.to_nat src := 0]> (replicate (N.to_nat (V g)) 999999)).
  assert (Hval : forall v, v < V g ->
            word_at dist0 v = if decide (src = v) then 0 else INF).
  { intros v Hv. subst dist0. rewrite word_at_insert, length_replicate.
    repeat case_decide; try reflexivity.
    - destruct H; contradiction.
    - exfalso. apply H. split; [assumption|lia].
    - apply word_at_replicate. lia. }
  assert (Ht0 : tentative_array dist0).
  { split; [subst dist0; rewrite length_insert, length_replicate; reflexivity|].
    split.
    - intros v Hv. rewrite Hval by exact Hv. case_decide; lia.
    - intros v Hv. rewrite Hval by exact Hv. case_decide; [|lia].
      subst v. intros _. exists [src]. constructor. }
  assert (H0 : word_at dist0 src = 0).
  { rewrite Hval by exact Hsrc. case_decide; [reflexivity|contradiction]. }
  destruct (reference_rounds_spec (N.to_nat (V g) - 1) 0 dist0 Ht0 H0
              (complete_start E src _ H0)) as ((Hlen & Hle & Hsound) & Hc).
  split; [exact Hlen|]. intros v Hv.
  apply settled; [apply Hle; exact Hv|apply Hsound; exact Hv|].
  apply (complete_all E (V g) src (csr_edge_range g W Hok) Hsrc _ _ Hc). lia.
Qed.

End ReferenceBF.
(** *** The hybrid program on any graph *)

Section HybridAnyGraph.

Import Trie4 Hybrid Paths.

Variables (g : csr) (W : N) (dn : nat) (source : N).
Hypothesis Hok : csr_ok g W.
Hypothesis HW : INF + W < U32.modulus.
Hypothesis Hdn : (dn <= 15)%nat.
Hypothesis Hkeys : V g <= 4 ^ N.of_nat dn.
Hypothesis Hsource : source < V g.

Local Abbreviation rp := (word_at (row_ptr g)).
Local Abbreviation ci := (word_at (col_idx g)).
Local Abbreviation wt := (word_at (edge_wt g)).
Local Abbreviation DEPTH := (N.of_nat dn).
Local Abbreviation E := (csr_edge g).

Local Abbreviation sound_trie := (Paths.sound_trie g W dn source).

Lemma depth_word_any : DEPTH < U32.modulus.
Proof. unfold U32.modulus. lia. Qed.

Lemma muf_step t k x :
  sound_trie t -> k < V g -> x <= INF + W ->
  (exists L, walk E source k x L) ->
  let t' := fst (q4_min_update_f k x DEPTH t) in
  sound_trie t' /\
  (forall v, v < V g -> capped t' v <= capped t v) /\
  capped t' k <= x.
Proof.
  intros (Hwf & Hsound) Hk Hx Hwalk. cbn zeta.
  destruct (q4_muf_find t k x DEPTH) as [Hfind _].
  assert (Hother : forall v, v < V g -> v <> k ->
            q4_find v (fst (q4_min_update_f k x DEPTH t)) = q4_find v t).
  { intros v Hv Hne. apply q4_find_muf_other; auto; try lia. exact depth_word_any. }
  assert (Hst : muf_stored x (q4_find k t) <= x /\
                (forall old, q4_find k t = Some old ->
                             muf_stored x (q4_find k t) <= old) /\
                (muf_stored x (q4_find k t) = x \/
                 q4_find k t = Some (muf_stored x (q4_find k t)))).
  { unfold muf_stored. destruct (q4_find k t) as [old|].
    - destruct (N.ltb_spec x old); repeat split; try lia; auto.
      + intros o [= <-]. lia.
      + intros o [= <-]. lia.
    - repeat split; try lia; auto. intros o [=]. }
  destruct Hst as (Hsx & Hsold & Hswhich).
  split; [split|split].
  - apply wf_trie_muf; [exact depth_word_any|exact Hwf].
  - intros v y Hv Hy. destruct (N.eq_dec v k) as [->|Hne].
    + rewrite Hfind in Hy. injection Hy as <-.
      destruct Hswhich as [->|Hold]; [auto|]. apply (Hsound k _ Hk Hold).
    + rewrite Hother in Hy by auto. apply (Hsound v y Hv Hy).
  - intros v Hv. unfold capped, reading. destruct (N.eq_dec v k) as [->|Hne].
    + rewrite Hfind. destruct (q4_find k t) as [old|] eqn:Hold; [|lia].
      specialize (Hsold old eq_refl). lia.
    + rewrite Hother by auto. lia.
  - unfold capped, reading. rewrite Hfind. lia.
Qed.

(** The edge at offset [j] of node [u]. *)
Lemma offset_edge_any u j : u < V g -> j < graph_deg g u ->
  E u (graph_target g u j) (graph_weight g u j) /\
  graph_target g u j < V g /\ graph_weight g u j <= W.
Proof.
  intros Hu Hj. destruct (rows_deg g u (proj1 Hok) Hu) as (Hdeg & Hmono & _).
  assert (He : rp u <= rp u + j < rp (u + 1)) by lia.
  destruct (proj2 Hok u _ Hu He) as (Hc & Hw).
  unfold graph_target, graph_weight. split; [|auto].
  apply csr_edge_at; assumption.
Qed.

Lemma relax_edges_any u du :
  u < V g -> du < INF -> (exists L, walk E source u du L) ->
  forall fuel j t c,
    j <= graph_deg g u ->
    (N.to_nat (graph_deg g u - j) < fuel)%nat ->
    sound_trie t ->
    let st' := relax_edges fuel g DEPTH u j (graph_deg g u) du (t, c) in
    sound_trie (fst st') /\
    (forall v, v < V g -> capped (fst st') v <= capped t v) /\
    (forall j', j <= j' < graph_deg g u ->
       capped (fst st') (graph_target g u j') <= du + graph_weight g u j').
Proof.
  intros Hu Hdu (L & HL).
  induction fuel as [|fuel IH]; intros j t c Hj Hfuel Ht; [lia|].
  cbn zeta. cbn [relax_edges]. unfold U32.lt.
  destruct (N.ltb_spec j (graph_deg g u)) as [Hlt|Hge].
  2:{ simpl. split; [exact Ht|]. split; [intros; lia|]. intros j' Hj'. lia. }
  destruct (offset_edge_any u j Hu Hlt) as (He & Hc & Hw).
  set (v' := graph_target g u j) in *. set (w := graph_weight g u j) in *.
  assert (Hadd : U32.add du w = du + w).
  { unfold U32.add. apply N.mod_small. lia. }
  rewrite Hadd.
  destruct (muf_step t v' (du + w) Ht Hc ltac:(lia)
              ltac:(exists (v' :: L); apply (walk_step E source u); assumption))
    as (Ht1 & Hdec1 & Hv1).
  destruct (q4_min_update_f v' (du + w) DEPTH t) as [t1 c1]. cbn [fst] in *.
  assert (Hj1 : U32.add j 1 = j + 1).
  { unfold U32.add. apply N.mod_small. pose proof (graph_deg_word g u). lia. }
  rewrite Hj1.
  specialize (IH (j + 1) t1 (U32.add c c1) ltac:(lia) ltac:(lia) Ht1).
  cbn zeta in IH. destruct IH as (Ht' & Hdec' & Hall').
  split; [exact Ht'|]. split.
  - intros v Hv. specialize (Hdec' v Hv). specialize (Hdec1 v Hv). lia.
  - intros j' Hj'. destruct (N.eq_dec j' j) as [->|Hne].
    + fold v' w. specialize (Hdec' v' Hc). lia.
    + apply Hall'. lia.
Qed.

Lemma relax_node_any i t c :
  i < V g -> sound_trie t ->
  let st' := relax_node_et g DEPTH i (t, c) in
  sound_trie (fst st') /\
  (forall v, v < V g -> capped (fst st') v <= capped t v) /\
  (capped t i < INF ->
   forall j, j < graph_deg g i ->
     capped (fst st') (graph_target g i j) <= capped t i + graph_weight g i j).
Proof.
  intros Hi Ht. cbn zeta. unfold relax_node_et.
  rewrite q4_get_lin_get, q4_get_reading. unfold relax_node_go, U32.lt.
  destruct (N.ltb_spec (reading t i) INF) as [Hlt|Hge].
  - assert (Hcap : capped t i = reading t i) by (unfold capped; lia).
    assert (Hwalk : exists L, walk E source i (reading t i) L).
    { unfold reading in *. destruct (q4_find i t) as [x|] eqn:Hx; [|lia].
      apply (proj2 Ht i x Hi Hx). }
    destruct (relax_edges_any i (reading t i) Hi Hlt Hwalk
                (S (N.to_nat (graph_deg g i))) 0 t c
                ltac:(lia) ltac:(lia) Ht) as (Ht' & Hdec & Hall).
    split; [exact Ht'|]. split; [exact Hdec|].
    intros _ j Hj. rewrite Hcap. apply Hall. lia.
  - simpl. split; [exact Ht|]. split; [intros; lia|].
    unfold capped. intros; lia.
Qed.

Lemma node_loop_any : forall fuel i t c,
  i <= V g -> (N.to_nat (V g - i) < fuel)%nat -> sound_trie t ->
  let st' := node_loop fuel g DEPTH i (t, c) in
  sound_trie (fst st') /\
  (forall v, v < V g -> capped (fst st') v <= capped t v) /\
  (forall u j, i <= u < V g -> capped t u < INF -> j < graph_deg g u ->
     capped (fst st') (graph_target g u j) <= capped t u + graph_weight g u j).
Proof.
  induction fuel as [|fuel IH]; intros i t c Hi Hfuel Ht; [lia|].
  cbn zeta. cbn [node_loop]. unfold U32.lt.
  destruct (N.ltb_spec i (V g)) as [Hlt|Hge].
  - pose proof (relax_node_any i t c Hlt Ht) as Hnode. cbn zeta in Hnode.
    destruct (relax_node_et g DEPTH i (t, c)) as [t1 c1]. cbn [fst] in Hnode.
    destruct Hnode as (Ht1 & Hdec1 & Hedges1).
    assert (Hi1 : U32.add i 1 = i + 1).
    { unfold U32.add. apply N.mod_small.
      destruct (proj1 Hok) as (_ & HV & _). lia. }
    rewrite Hi1.
    destruct (IH (i + 1) t1 c1 ltac:(lia) ltac:(lia) Ht1) as (Ht' & Hdec' & Hall').
    split; [exact Ht'|]. split.
    + intros v Hv. specialize (Hdec1 v Hv). specialize (Hdec' v Hv). lia.
    + intros u j Hu Hfin Hj.
      destruct (offset_edge_any u j ltac:(lia) Hj) as (_ & Hc & _).
      destruct (N.eq_dec u i) as [->|Hne].
      * specialize (Hedges1 Hfin j Hj). specialize (Hdec' _ Hc). lia.
      * specialize (Hdec1 u ltac:(lia)).
        specialize (Hall' u j ltac:(lia) ltac:(lia) Hj). lia.
  - simpl. split; [exact Ht|]. split; [intros; lia|]. intros; lia.
Qed.

Lemma round_any t :
  sound_trie t ->
  sound_trie (round_dist g DEPTH t) /\
  (forall v, v < V g -> capped (round_dist g DEPTH t) v <= capped t v) /\
  (forall u v c, E u v c -> capped t u < INF ->
     capped (round_dist g DEPTH t) v <= capped t u + c).
Proof.
  intros Ht. unfold round_dist, relax_round_et.
  destruct (node_loop_any (S (N.to_nat (V g))) 0 t 0 ltac:(lia) ltac:(lia) Ht)
    as (Ht' & Hdec & Hall).
  split; [exact Ht'|]. split; [exact Hdec|].
  intros u v c (Hu & e & He & <- & <-) Hfin.
  destruct (rows_deg g u (proj1 Hok) Hu) as (Hdeg & Hmono & _).
  specialize (Hall u (e - rp u) ltac:(lia) Hfin ltac:(lia)).
  unfold graph_target, graph_weight in Hall.
  replace (rp u + (e - rp u)) with e in Hall by lia. exact Hall.
Qed.

Lemma init_any :
  sound_trie (Hybrid.init_dist DEPTH source) /\
  capped (Hybrid.init_dist DEPTH source) source = 0.
Proof.
  unfold Hybrid.init_dist.
  destruct (set_reading dn (V g) QE source 0 Hdn Hkeys I Hsource)
    as (Hwf & Hval & Hother).
  split; [split; [exact Hwf|]|unfold capped; rewrite Hval; reflexivity].
  intros v x Hv Hx. destruct (N.eq_dec v source) as [->|Hne].
  - rewrite q4_find_set_same in Hx. injection Hx as <-.
    split; [lia|]. exists [source]. constructor.
  - rewrite q4_find_set_fresh_other in Hx; auto; try lia; [discriminate|].
    exact depth_word_any.
Qed.

Lemma rounds_any (k : nat) :
  let t := Nat.iter k (round_dist g DEPTH) (Hybrid.init_dist DEPTH source) in
  sound_trie t /\ complete E source (capped t) k.
Proof.
  induction k as [|k (Ht & Hc)]; cbn zeta.
  - destruct init_any as [Ht H0]. split; [exact Ht|].
    apply complete_start. exact H0.
  - cbn [Nat.iter]. destruct (round_any _ Ht) as (Ht' & Hdec & Hedge).
    split; [exact Ht'|].
    apply (complete_step E (V g) source Hsource _ _ k Hc Hdec Hedge).
Qed.

(** With every node within reach of the sentinel, the trie the rounds
    leave holds the distance at every key. *)
Lemma hybrid_distances v :
  (V g - 1) * W < INF -> v < V g ->
  distance E source v (reading (fst (bf g DEPTH source)) v).
Proof.
  intros Hbound Hv. unfold bf.
  pose proof (proj1 Hok) as Hrows. pose proof Hrows as (_ & HV & _).
  assert (Hr : bf_rounds (V g) < U32.modulus /\
               (N.to_nat (V g) <= S (N.to_nat (bf_rounds (V g))))%nat).
  { unfold Hybrid.bf_rounds, U32.sub, U32.modulus in *.
    destruct (N.ltb_spec 1 (V g)); lia. }
  destruct (bf_loop_rounds g DEPTH Hrows (bf_rounds (V g))
              (Hybrid.init_dist DEPTH source) 1 (proj1 Hr))
    as (_ & _ & _ & _ & _ & _ & Hall).
  rewrite Hall.
  destruct (rounds_any (N.to_nat (bf_rounds (V g)))) as ((Hwf & Hsound) & Hc).
  set (t := Nat.iter (N.to_nat (bf_rounds (V g))) (round_dist g DEPTH)
                     (Hybrid.init_dist DEPTH source)) in *.
  pose proof (complete_all E (V g) source (csr_edge_range g W Hok) Hsource _ _ Hc
                (proj2 Hr)) as Hcov.
  unfold reading. destruct (q4_find v t) as [x|] eqn:Hx.
  - destruct (Hsound v x Hv Hx) as (_ & L & HL).
    destruct (walk_light g W Hok source v x L Hsource HL) as (w' & L' & HL' & Hle & Hsmall).
    pose proof (Hcov v w' L' HL' ltac:(lia)) as Hcap.
    unfold capped, reading in Hcap. rewrite Hx in Hcap.
    left. split; [lia|]. split; [exists L; exact HL|].
    intros w L2 HL2. destruct (N.lt_ge_cases w INF) as [Hf|Hi]; [|lia].
    pose proof (Hcov v w L2 HL2 Hf) as Hcap2.
    unfold capped, reading in Hcap2. rewrite Hx in Hcap2. lia.
  - right. split; [reflexivity|]. intros w L HL.
    destruct (N.lt_ge_cases w INF) as [Hf|Hi]; [|exact Hi].
    pose proof (Hcov v w L HL Hf) as Hcap.
    unfold capped, reading in Hcap. rewrite Hx in Hcap. lia.
Qed.

(** [@extract_go] lists the readings from [i] on. *)
Lemma extract_go_any t : forall fuel i,
  i < V g -> (N.to_nat (V g - i) <= fuel)%nat ->
  extract_go fuel g DEPTH i (q4_get_lin i DEPTH t) =
  map (fun k => reading t (i + N.of_nat k)) (seq 0 (N.to_nat (V g - i))).
Proof.
  induction fuel as [|fuel IH]; intros i Hi Hfuel; [lia|].
  cbn [extract_go]. rewrite q4_get_lin_get, q4_get_reading. unfold U32.lt.
  assert (Hi1 : U32.add i 1 = i + 1).
  { unfold U32.add. apply N.mod_small.
    destruct (proj1 Hok) as (_ & HV & _). lia. }
  rewrite Hi1.
  destruct (N.to_nat (V g - i)) as [|m] eqn:Hm; [lia|].
  cbn [seq map]. rewrite N.add_0_r.
  destruct (N.ltb_spec (i + 1) (V g)) as [Hlt|Hge].
  - f_equal. rewrite IH by lia.
    replace (N.to_nat (V g - (i + 1))) with m by lia.
    rewrite <- seq_shift, map_map. apply map_ext. intros k. f_equal. lia.
  - replace m with 0%nat by lia. reflexivity.
Qed.

(** The list [@main] returns: one distance per node. *)
Lemma hybrid_main_any :
  (V g - 1) * W < INF ->
  ceil_log4 (V g) = Some DEPTH ->
  exists l, main g source = Some l /\
            length l = N.to_nat (V g) /\
            forall v, v < V g -> distance E source v (word_at l v).
Proof.
  intros Hbound Hc. unfold main. rewrite Hc.
  pose proof hybrid_distances as Hd.
  destruct (bf g DEPTH source) as [dist c]. cbn [fst] in Hd.
  assert (Hmatch : forall (a b : list N),
             match V g with 0 => a | N.pos _ => b end = b)
    by (intros a b; destruct (V g) eqn:HV; [lia|reflexivity]).
  rewrite Hmatch.
  eexists. split; [reflexivity|].
  rewrite (extract_go_any dist (N.to_nat (V g)) 0) by lia.
  rewrite N.sub_0_r. split.
  - rewrite length_map, length_seq. reflexivity.
  - intros v Hv. unfold word_at.
    rewrite (nth_indep _ 0 ((fun k => reading dist (0 + N.of_nat k)) 0%nat))
      by (rewrite length_map, length_seq; lia).
    rewrite (map_nth (fun k => reading dist (0 + N.of_nat k))).
    rewrite seq_nth by lia.
    replace (0 + N.of_nat (0 + N.to_nat v)) with v by lia.
    apply Hd; assumption.
Qed.

End HybridAnyGraph.
(** *** The hybrid program against the native reference *)

Section Agreement.

Import Trie4 Hybrid Paths HybridBench.

Lemma hybrid_equals_reference (g : csr) (W source : N) :
  csr_ok g W -> INF + W < U32.modulus -> (V g - 1) * W < INF ->
  V g <= 4 ^ 15 -> source < V g ->
  Hybrid.main g source = Some (bf_reference g source).
Proof.
  intros Hok HW Hbound Hsmall Hsource.
  destruct (ceil_log4 (V g)) as [r|] eqn:Hc;
    [|exfalso; apply (ceil_log4_returns (V g) Hsmall); exact Hc].
  destruct (ceil_log4_spec (V g) r Hc) as (dn & -> & Hdn & Hkeys).
  destruct (hybrid_main_any g W dn source Hok HW ltac:(lia) Hkeys Hsource Hbound Hc)
    as (l & Hmain & Hlen & Hdist).
  destruct (bf_reference_spec g W source Hok HW Hsource) as (Hlen' & Hdist').
  rewrite Hmain. f_equal.
  apply (List.nth_ext l (bf_reference g source) 0 0); [lia|].
  intros i Hi.
  specialize (Hdist (N.of_nat i) ltac:(lia)).
  specialize (Hdist' (N.of_nat i) ltac:(lia)).
  unfold word_at in Hdist, Hdist'. rewrite Nat2N.id in Hdist, Hdist'.
  apply (distance_unique _ _ _ _ _ Hdist Hdist').
Qed.

(** The raw edges of [gen_graph] join nodes of the graph and weigh at most
    20. *)
Lemma gen_extra_any_spec n target : 0 < n -> forall (attempts : nat) s acc,
  exists ext, HybridBench.gen_extra attempts n target s acc = acc ++ ext /\
    (forall e, In e ext ->
       fst (fst e) < n /\ snd (fst e) < n /\ snd e <= 20) /\
    (length (acc ++ ext) <= Nat.max (length acc) (N.to_nat target))%nat.
Proof.
  intros Hn. induction attempts as [|a IH]; intros s acc.
  - exists []. rewrite app_nil_r. split; [reflexivity|].
    split; [intros e []|lia].
  - cbn [HybridBench.gen_extra].
    destruct (N.ltb_spec (N.of_nat (length acc)) target) as [Hlt|Hge].
    + cbn zeta.
      set (s1 := DagDp.lcg_next s). set (s2 := DagDp.lcg_next s1).
      set (s3 := DagDp.lcg_next s2).
      destruct (N.eqb_spec (s1 mod n) (s2 mod n)) as [Heq|Hne].
      * apply IH.
      * destruct (IH s3 (acc ++ [(s1 mod n, s2 mod n, s3 mod 20 + 1)]))
          as (ext & Heq & Hall & Hlen).
        exists ((s1 mod n, s2 mod n, s3 mod 20 + 1) :: ext).
        rewrite Heq, <- app_assoc. split; [reflexivity|]. split.
        -- intros e [<-|He]; cbn [fst snd].
           ++ pose proof (N.mod_lt s1 n ltac:(lia)).
              pose proof (N.mod_lt s2 n ltac:(lia)).
              pose proof (N.mod_lt s3 20 ltac:(lia)). lia.
           ++ apply Hall. exact He.
        -- rewrite <- app_assoc in Hlen. cbn [app] in Hlen.
           rewrite length_app in Hlen |- *. cbn [length] in *.
           rewrite length_app in Hlen. cbn [length] in Hlen. lia.
    + exists []. rewrite app_nil_r. split; [reflexivity|].
      split; [intros e []|lia].
Qed.

Lemma gen_raw_any_spec n epn seed :
  1 <= n < U32.modulus ->
  let raw := HybridBench.gen_raw n epn seed in
  (forall e, In e raw -> fst (fst e) < n /\ snd (fst e) < n /\ snd e <= 20) /\
  N.of_nat (length raw) < U32.modulus.
Proof.
  intros Hn. cbn zeta. unfold HybridBench.gen_raw.
  destruct (gen_chain_spec (N.to_nat n - 1) 0 seed [])
    as (chain & s' & Heq & Hlen & Hall & Hchain).
  rewrite Heq. cbn [app].
  destruct (gen_extra_any_spec n (U32.mul n epn) ltac:(lia)
              (N.to_nat (U32.mul (U32.mul n (U32.sub epn 1)) 2)) s' chain)
    as (ext & Heq' & Hall' & Hlen').
  rewrite Heq'. split.
  - intros e He. apply in_app_or in He. destruct He as [He|He].
    + specialize (Hall e He). lia.
    + apply Hall'. exact He.
  - assert (U32.mul n epn < U32.modulus)
      by (unfold U32.mul; apply N.mod_lt; unfold U32.modulus; lia).
    unfold U32.modulus in *. lia.
Qed.

(** What [gen_graph] returns is a graph in memory with weights up to 20. *)
Lemma gen_graph_ok n epn seed :
  1 <= n < U32.modulus ->
  let g := gen_graph n epn seed in
  V g = n /\ csr_ok g 20.
Proof.
  intros Hn. cbn zeta. unfold gen_graph.
  destruct (gen_raw_any_spec n epn seed Hn) as (Hin & Hlen).
  set (raw := HybridBench.gen_raw n epn seed) in *.
  assert (Hsrc : forall e, In e raw -> fst (fst e) < n).
  { intros e He. specialize (Hin e He). lia. }
  destruct (count_sources_spec raw (replicate (N.to_nat n + 2) 0))
    as (Hlen1 & Hval1).
  { intros e He. rewrite length_replicate. specialize (Hsrc e He). lia. }
  { intros j. rewrite word_at_zeros. lia. }
  set (rp1 := DagDp.count_sources raw (replicate (N.to_nat n + 2) 0)) in *.
  rewrite length_replicate in Hlen1.
  destruct (prefix_sums_spec raw Hlen rp1) with (k := N.to_nat n)
    as (Hlen2 & Hlow & _).
  { intros j. rewrite Hval1, word_at_zeros. reflexivity. }
  { lia. }
  set (rp := DagDp.prefix_sums (N.to_nat n) rp1) in *.
  assert (Hinit : DagDp.placed raw [] n
            (take (N.to_nat n + 1) rp,
             replicate (length raw) 0, replicate (length raw) 0)).
  { unfold DagDp.placed. rewrite length_take, !length_replicate.
    split; [lia|]. split; [reflexivity|]. split; [reflexivity|].
    split; [|split].
    - intros u Hu. rewrite word_at_take by lia. rewrite Hlow by lia.
      change (DagDp.out_count [] u) with 0%nat. lia.
    - intros u e Hu He. change (DagDp.out_count [] u) with 0%nat in He. lia.
    - intros u v w []. }
  pose proof (place_edges_placed raw n Hsrc Hlen raw [] _ eq_refl Hinit) as Hfin.
  destruct (DagDp.place_edges raw _) as [[pos ci] wt].
  destruct Hfin as (_ & Hlc & Hlw & _ & Hcells & Hedges).
  assert (Hrow : forall u, u < n ->
            word_at rp u = N.of_nat (DagDp.below_count raw u) /\
            word_at rp (u + 1) =
              N.of_nat (DagDp.below_count raw u + DagDp.out_count raw u)).
  { intros u Hu. rewrite !Hlow by lia. rewrite below_succ. auto. }
  split; [reflexivity|]. split.
  - unfold rows_ok. cbn [V row_ptr]. split; [lia|]. split; [lia|]. split.
    + intros u Hu. destruct (Hrow u Hu) as [-> ->]. lia.
    + rewrite Hlow by lia. pose proof (below_le_length raw n). lia.
  - cbn [V row_ptr col_idx edge_wt]. intros u e Hu He.
    destruct (Hrow u Hu) as [H1 H2]. rewrite H1, H2 in He.
    destruct (Hcells u (N.to_nat e) Hu ltac:(lia)) as (v & w & Hin' & Hc & Hw).
    rewrite N2Nat.id in Hc, Hw. rewrite Hc, Hw.
    specialize (Hin _ Hin'). cbn [fst snd] in Hin. lia.
Qed.

End Agreement.

(** *** The reference of the let-chain program as a distance *)

Section ReferenceDistance.

Import Trie4 Hybrid Paths DagDp.

Variables (E : N -> N -> N -> Prop).

(** A walk, taken apart at its first edge and put together there. *)
Lemma walk_first s v w L :
  walk E s v w L ->
  (s = v /\ w = 0) \/
  exists x c w' L', E s x c /\ walk E x v w' L' /\ w = c + w' /\
                    (length L' < length L)%nat.
Proof.
  induction 1 as [|v x c w L Hw IH He]; [left; auto|right].
  destruct IH as [(<- & ->)|(y & c0 & w' & L' & He0 & Hw' & -> & Hlen)].
  - exists x, c, 0, [x]. repeat split; [exact He|constructor|lia|].
    destruct Hw; simpl; lia.
  - exists y, c0, (w' + c), (x :: L'). repeat split; [exact He0| |lia|simpl; lia].
    apply (walk_step E y v); assumption.
Qed.

Lemma walk_cons u x c v w L :
  E u x c -> walk E x v w L -> exists L', walk E u v (c + w) L'.
Proof.
  intros He. induction 1 as [|v y c' w L Hw (L' & IH) He'].
  - exists [x; u]. replace (c + 0) with (0 + c) by lia.
    apply (walk_step E u u); [constructor|exact He].
  - exists (y :: L'). replace (c + (w + c')) with (c + w + c') by lia.
    apply (walk_step E u v); assumption.
Qed.

End ReferenceDistance.

Section ReferenceOnDag.

Import Trie4 Hybrid Paths DagDp.

Variables (g : csr) (W dest : N).
Hypothesis Hdag : dag_ok g W.
Hypothesis HW : W <= INF.
Hypothesis Hdest : dest < V g.

Local Abbreviation E := (csr_edge g).
Local Abbreviation D := (word_at (reference_dist g dest)).

Lemma dag_csr_ok : csr_ok g W.
Proof.
  split; [exact (proj1 Hdag)|]. intros u e Hu He.
  destruct (proj2 Hdag u e Hu He) as [Hc Hw]. split; [lia|exact Hw].
Qed.

Lemma reference_below (k : nat) : forall u w L,
  (length L <= k)%nat -> u < V g -> walk E u dest w L -> D u <= w.
Proof.
  destruct (reference_dist_spec g W Hdag HW dest Hdest) as (H0 & Hle & Hnodes).
  induction k as [|k IH]; intros u w L Hlen Hu Hw.
  - destruct Hw; simpl in Hlen; lia.
  - destruct (walk_first E u dest w L Hw)
      as [(-> & ->)|(x & c & w' & L' & He & Hw' & -> & Hl)]; [lia|].
    destruct (N.eq_dec u dest) as [->|Hne]; [lia|].
    destruct (csr_edge_range g W dag_csr_ok _ _ _ He) as [_ Hx].
    specialize (IH x w' L' ltac:(lia) Hx Hw').
    destruct He as (_ & e & He & <- & <-).
    destruct (Hnodes u Hu Hne) as (Hall & _). specialize (Hall e He). lia.
Qed.

Lemma reference_attained : forall (k : nat) u,
  u < V g -> (N.to_nat (V g - u) <= k)%nat -> D u < INF ->
  exists L, walk E u dest (D u) L.
Proof.
  destruct (reference_dist_spec g W Hdag HW dest Hdest) as (H0 & Hle & Hnodes).
  induction k as [|k IH]; intros u Hu Hk Hfin; [lia|].
  destruct (N.eq_dec u dest) as [->|Hne].
  - rewrite H0. exists [dest]. constructor.
  - destruct (Hnodes u Hu Hne) as (_ & [Hinf|(e & He & Heq)]); [lia|].
    destruct (proj2 Hdag u e Hu He) as (Hc & _).
    destruct (IH (word_at (col_idx g) e) ltac:(lia) ltac:(lia) ltac:(lia))
      as (L & HL).
    rewrite Heq.
    apply (walk_cons E u (word_at (col_idx g) e) _ dest _ L); [|exact HL].
    apply csr_edge_at; assumption.
Qed.

End ReferenceOnDag.
Lemma csr_okb_ok g W : Paths.csr_okb g W = true -> Paths.csr_ok g W.
Proof.
  unfold Paths.csr_okb, Paths.csr_ok. rewrite andb_true_iff. intros [Hrows Hedges].
  split; [apply rows_okb_ok; exact Hrows|].
  intros u e Hu He. rewrite forallb_forall in Hedges.
  specialize (Hedges (N.to_nat u) ltac:(apply in_seq; lia)).
  rewrite forallb_forall in Hedges.
  rewrite !N2Nat.id in Hedges.
  specialize (Hedges (N.to_nat e) ltac:(apply in_seq; lia)).
  rewrite !N2Nat.id in Hedges. rewrite !andb_true_iff in Hedges.
  destruct Hedges as [H1 H2].
  apply N.ltb_lt in H1. apply N.leb_le in H2. lia.
Qed.

(** [bf_reference] on a graph in memory whose weights cannot wrap a 32-bit
    sum past the sentinel, cycles or not: the array it fills has one word
    per node, and [dist[v]] is the least weight of a walk from [src] to
    [v], or 999999 when no walk is lighter than that. *)
Theorem bf_reference_distances (g : Hybrid.csr) (W src : N) :
  Paths.csr_ok g W -> W <= 4293967296 -> src < Hybrid.V g ->
  length (HybridBench.bf_reference g src) = N.to_nat (Hybrid.V g) /\
  forall v, v < Hybrid.V g ->
    Paths.distance (Paths.csr_edge g) src v
                   (Hybrid.word_at (HybridBench.bf_reference g src) v).
Proof.
  intros Hok HW Hsrc. apply (bf_reference_spec g W src Hok); [|exact Hsrc].
  unfold Trie4.INF, U32.modulus. change (2 ^ 32) with 4294967296. lia.
Qed.

Lemma bf_reference_distances_witness :
  HybridBench.bf_reference HybridBench.cycle_and_stray 0 = [0; 5; 999999] /\
  forall v, v < 3 ->
    Paths.distance (Paths.csr_edge HybridBench.cycle_and_stray) 0 v
      (Hybrid.word_at (HybridBench.bf_reference HybridBench.cycle_and_stray 0) v).
Proof.
  split; [vm_compute; reflexivity|].
  exact (proj2 (bf_reference_distances HybridBench.cycle_and_stray 5 0
                  ltac:(apply csr_okb_ok; vm_compute; reflexivity)
                  ltac:(lia) ltac:(vm_compute; reflexivity))).
Defined.

(** The hybrid program on a graph in memory of at most [2^30] nodes, with
    cycles or without, where [V - 1] edges of the greatest weight stay below
    the sentinel: [@main] returns one number per node, the least weight of
    a walk from the source to that node, or 999999 for a node no walk
    reaches. *)
Theorem hybrid_program_distances (g : Hybrid.csr) (W source : N) :
  Paths.csr_ok g W -> W <= 4293967296 ->
  (Hybrid.V g - 1) * W < Trie4.INF ->
  Hybrid.V g <= 1073741824 -> source < Hybrid.V g ->
  exists l, Hybrid.main g source = Some l /\
            length l = N.to_nat (Hybrid.V g) /\
            forall v, v < Hybrid.V g ->
              Paths.distance (Paths.csr_edge g) source v (Hybrid.word_at l v).
Proof.
  intros Hok HW Hbound Hsmall Hsource.
  assert (HW' : Trie4.INF + W < U32.modulus).
  { unfold Trie4.INF, U32.modulus. change (2 ^ 32) with 4294967296. lia. }
  destruct (Hybrid.ceil_log4 (Hybrid.V g)) as [r|] eqn:Hc;
    [|exfalso; apply (ceil_log4_returns (Hybrid.V g)); [|exact Hc];
      change (4 ^ 15) with 1073741824; exact Hsmall].
  destruct (ceil_log4_spec (Hybrid.V g) r Hc) as (dn & -> & Hdn & Hkeys).
  apply (hybrid_main_any g W dn source Hok HW' ltac:(lia) Hkeys Hsource Hbound Hc).
Qed.

Lemma hybrid_program_distances_witness :
  exists l, Hybrid.main HybridBench.cycle_and_stray 0 = Some l /\
            length l = 3%nat /\
            forall v, v < 3 ->
              Paths.distance (Paths.csr_edge HybridBench.cycle_and_stray) 0 v
                             (Hybrid.word_at l v).
Proof.
  exact (hybrid_program_distances HybridBench.cycle_and_stray 5 0
           ltac:(apply csr_okb_ok; vm_compute; reflexivity)
           ltac:(lia) ltac:(vm_compute; reflexivity)
           ltac:(vm_compute; discriminate) ltac:(vm_compute; reflexivity)).
Defined.

(** The benchmark driver of the hybrid program, for [V] up to 50000 and
    an edge budget that fits 32 bits: [gen_graph] returns a graph in
    memory with weights up to 20, the list the program returns is the
    array [bf_reference] fills, and [main] reports the run as passed. *)
Theorem hybrid_bf_main_passes (n epn : N) :
  1 <= n <= 50000 -> n * epn + n < U32.modulus ->
  let g := HybridBench.gen_graph n epn (U32.add 42 n) in
  Hybrid.V g = n /\ Paths.csr_ok g 20 /\
  Hybrid.main g 0 = Some (HybridBench.bf_reference g 0) /\
  HybridBench.main n epn = Some true.
Proof.
  intros Hn Hfit. cbn zeta.
  destruct (gen_graph_ok n epn (U32.add 42 n)
              ltac:(unfold U32.modulus; change (2 ^ 32) with 4294967296; lia))
    as (HV & Hok).
  assert (Hagree : Hybrid.main (HybridBench.gen_graph n epn (U32.add 42 n)) 0 =
                   Some (HybridBench.bf_reference
                           (HybridBench.gen_graph n epn (U32.add 42 n)) 0)).
  { apply (hybrid_equals_reference _ 20); [exact Hok| | | |].
    - vm_compute. reflexivity.
    - rewrite HV. unfold Trie4.INF. lia.
    - rewrite HV. change (4 ^ 15) with 1073741824. lia.
    - rewrite HV. lia. }
  split; [exact HV|]. split; [exact Hok|]. split; [exact Hagree|].
  unfold HybridBench.main. rewrite Hagree.
  destruct (bf_reference_spec _ 20 0 Hok ltac:(vm_compute; reflexivity)
              ltac:(rewrite HV; lia)) as (Hlen & _).
  rewrite HV in Hlen. rewrite Hlen, Nat.sub_diag. cbn [replicate].
  rewrite app_nil_r, take_ge by lia.
  unfold HybridBench.validate.
  rewrite (proj2 (Z.eqb_eq _ _)) by lia.
  f_equal. apply forallb_forall. intros i _. apply N.eqb_refl.
Qed.

Lemma hybrid_bf_main_passes_witness :
  HybridBench.main 5 2 = Some true.
Proof.
  exact (proj2 (proj2 (proj2 (hybrid_bf_main_passes 5 2
           ltac:(lia) ltac:(vm_compute; reflexivity))))).
Defined.

(** [dag_dp_reference] on a forward graph with weights up to the sentinel:
    what it returns for [src] and [dest] is the least weight of a walk from
    [src] to [dest], or 999999 when no walk is lighter than that. *)
Theorem dag_dp_reference_distance (g : Hybrid.csr) (W src dest : N) :
  Hybrid.dag_ok g W -> W <= 999999 ->
  src < Hybrid.V g -> dest < Hybrid.V g ->
  Paths.distance (Paths.csr_edge g) src dest (DagDp.dag_dp_reference g src dest).
Proof.
  intros Hdag HW Hsrc Hdest. unfold DagDp.dag_dp_reference.
  destruct (reference_dist_spec g W Hdag HW dest Hdest) as (_ & Hle & _).
  pose proof (reference_below g W dest Hdag HW Hdest) as Hbelow.
  pose proof (reference_attained g W dest Hdag HW Hdest
                (N.to_nat (Hybrid.V g)) src Hsrc ltac:(lia)) as Hatt.
  specialize (Hle src).
  destruct (N.lt_ge_cases (Hybrid.word_at (DagDp.reference_dist g dest) src)
                          Trie4.INF) as [Hfin|Hinf].
  - left. split; [exact Hfin|]. split; [exact (Hatt Hfin)|].
    intros w L Hw. apply (Hbelow (length L) src w L); [lia|exact Hsrc|exact Hw].
  - right. split; [lia|]. intros w L Hw.
    pose proof (Hbelow (length L) src w L ltac:(lia) Hsrc Hw). lia.
Qed.

Lemma dag_dp_reference_distance_witness :
  Paths.distance (Paths.csr_edge Hybrid.chain3) 0 2 7.
Proof.
  exact (dag_dp_reference_distance Hybrid.chain3 4 0 2
           ltac:(apply dag_okb_ok; vm_compute; reflexivity)
           ltac:(lia) ltac:(vm_compute; reflexivity)
           ltac:(vm_compute; reflexivity)).
Defined.

(** ** The reachability benchmark on the binary tree *)

Lemma In_adj (g : GraphStore.hvm4_graph) (u v : N) :
  u < GraphStore.n_nodes g ->
  (In v (Lib.adj g u) <->
   exists w, In (GraphStore.Edge u v w) (GraphStore.graph_edges g)).
Proof.
  intros Hu. unfold Lib.adj.
  destruct (N.ltb_spec u (GraphStore.n_nodes g)); [|lia].
  rewrite in_map_iff. split.
  - intros (e & <- & He). apply list_elem_of_In, list_elem_of_filter in He.
    destruct He as [<- He]. exists (GraphStore.weight e). destruct e. apply list_elem_of_In. exact He.
  - intros (w & He). exists (GraphStore.Edge u v w). split; [reflexivity|].
    apply list_elem_of_In, list_elem_of_filter. split; [reflexivity|].
    apply list_elem_of_In. exact He.
Qed.


Section TreeBenchmark.

Import GraphStore GraphBuild Lib Benchmark.

Variable n : N.
Hypothesis Hn : 7 <= n < U32.modulus.

Lemma child_calls_spec i e :
  i < n / 2 ->
  (In e (child_calls n i) <->
   (e = Edge i (2 * i + 1) 1 /\ 2 * i + 1 < n) \/
   (e = Edge i (2 * i + 2) 1 /\ 2 * i + 2 < n)).
Proof.
  intros Hi. unfold child_calls, U32.add, U32.mul. cbn zeta.
  assert (H2 : (2 * i) mod U32.modulus = 2 * i)
    by (apply N.mod_small; unfold U32.modulus in *; lia).
  rewrite H2, !N.mod_small by (unfold U32.modulus in *; lia).
  rewrite in_app_iff.
  destruct (N.ltb_spec (2 * i + 1) n), (N.ltb_spec (2 * i + 2) n); simpl;
    intuition (try lia; auto).
Qed.

Lemma tree_calls_spec e :
  In e (tree_calls n) <->
  exists i, i < n / 2 /\
    ((e = Edge i (2 * i + 1) 1 /\ 2 * i + 1 < n) \/
     (e = Edge i (2 * i + 2) 1 /\ 2 * i + 2 < n)).
Proof.
  unfold tree_calls. rewrite in_flat_map. split.
  - intros (k & Hk & He). apply in_seq in Hk.
    exists (N.of_nat k). split; [lia|].
    apply child_calls_spec; [lia|exact He].
  - intros (i & Hi & He). exists (N.to_nat i). split; [apply in_seq; lia|].
    rewrite N2Nat.id. apply child_calls_spec; assumption.
Qed.

Lemma tree_calls_length : (length (tree_calls n) <= 2 * N.to_nat (n / 2))%nat.
Proof.
  unfold tree_calls.
  assert (H : forall k a,
            (length (flat_map (fun i => child_calls n (N.of_nat i)) (seq a k))
             <= 2 * k)%nat).
  { induction k as [|k IH]; intros a; cbn [seq flat_map]; [simpl; lia|].
    rewrite length_app. specialize (IH (S a)).
    assert (length (child_calls n (N.of_nat a)) <= 2)%nat.
    { unfold child_calls. cbn zeta. rewrite length_app.
      destruct (_ <? n), (_ <? n); simpl; lia. }
    lia. }
  apply H.
Qed.

(** The tree as built: its edges are the calls made. *)
Lemma tree_built :
  exists g,
    snd (add_edges (hvm4_graph_new true n) (tree_calls n)) = Some g /\
    n_nodes g = n /\
    forall e, In e (graph_edges g) <-> In e (tree_calls n).
Proof.
  unfold hvm4_graph_new. destruct (N.eqb_spec n 0) as [|_]; [lia|]. cbn [negb].
  set (g0 := Graph n 0 16 (replicate 16 fresh_slot)).
  pose proof tree_calls_length as Hlen.
  destruct (add_edges_from (tree_calls n) g0) as (g & Hrun & He & Hnn & _ & _).
  - unfold graph_ok. cbn. repeat split; lia.
  - cbn. unfold U32.modulus in *. lia.
  - left. cbn. lia.
  - exists g. rewrite Hrun. split; [reflexivity|]. split; [exact Hnn|].
    intros e. rewrite He. cbn [graph_edges n_edges take app N.to_nat].
    change (graph_edges g0) with (@nil hvm4_edge_t). cbn [app].
    rewrite <- !list_elem_of_In, list_elem_of_filter, !list_elem_of_In.
    split; [tauto|]. intros Hin. split; [|exact Hin].
    apply tree_calls_spec in Hin. destruct Hin as (i & Hi & [[-> H]|[-> H]]);
      unfold in_range; cbn; lia.
Qed.

End TreeBenchmark.
Lemma rightmost_path (g : GraphStore.hvm4_graph) (D : nat) :
  (3 <= D <= 31)%nat ->
  GraphStore.n_nodes g = 2 ^ N.of_nat D - 1 ->
  (forall e, In e (GraphStore.graph_edges g) <->
             In e (Benchmark.tree_calls (2 ^ N.of_nat D - 1))) ->
  forall j k : nat, (k + j = D - 1)%nat ->
    Closure.reaches (Lib.adj g) j (2 ^ N.of_nat (S k) - 2) (2 ^ N.of_nat D - 2).
Proof.
  intros HD Hnn Hedges.
  assert (Hpow : forall a b : nat, (a <= b)%nat -> 2 ^ N.of_nat a <= 2 ^ N.of_nat b)
    by (intros a b Hab; apply N.pow_le_mono_r; lia).
  assert (Hsucc : forall a : nat, 2 ^ N.of_nat (S a) = 2 * 2 ^ N.of_nat a).
  { intros a. replace (N.of_nat (S a)) with (N.succ (N.of_nat a)) by lia.
    apply N.pow_succ_r'. }
  assert (Hbig : 2 ^ N.of_nat D <= 2 ^ 31) by (apply N.pow_le_mono_r; lia).
  change (2 ^ 31) with 2147483648 in Hbig.
  assert (Hlow : 8 <= 2 ^ N.of_nat D).
  { change 8 with (2 ^ N.of_nat 3). apply Hpow. lia. }
  induction j as [|j IH]; intros k Hk.
  - replace (S k) with D by lia. constructor.
  - apply (Closure.reaches_step _ j _ (2 ^ N.of_nat (S (S k)) - 2)); [|apply IH; lia].
    pose proof (Hpow (S (S k)) D ltac:(lia)) as H1.
    pose proof (Hsucc (S k)) as H2. pose proof (Hsucc k) as H3.
    assert (H4 : 2 ^ N.of_nat D = 2 * 2 ^ N.of_nat (D - 1)).
    { rewrite <- Hsucc. f_equal. lia. }
    assert (1 <= 2 ^ N.of_nat k) by (change 1 with (2 ^ N.of_nat 0); apply Hpow; lia).
    apply (In_adj g); [lia|]. exists 1. apply Hedges.
    apply (tree_calls_spec (2 ^ N.of_nat D - 1)); [unfold U32.modulus; change (2 ^ 32) with 4294967296; lia|].
    exists (2 ^ N.of_nat (S k) - 2). split; [lia|]. right.
    split; [f_equal; lia|lia].
Qed.

(** The reachability test of [benchmark.c]: in the binary tree that
    [create_tree_graph] builds for a depth from 3 to 31, the last node is a
    leaf that [depth - 1] edges lead to from the root, and
    [hvm4_reachable] from the root to it answers [HVM4_ERR_NO_PATH] for
    every depth limit below [2^32 - 1]. *)
Theorem tree_benchmark_leaf_not_found (depth : N) :
  3 <= depth <= 31 ->
  exists g,
    Benchmark.create_tree_graph depth = Some g /\
    GraphStore.n_nodes g = 2 ^ depth - 1 /\
    Closure.reaches (Lib.adj g) (N.to_nat depth - 1) 0 (2 ^ depth - 2) /\
    forall max_depth d0, max_depth + 1 < U32.modulus ->
      Lib.hvm4_reachable true (Some g) 0 (2 ^ depth - 2) max_depth (Some d0) =
        Some (GraphStore.HVM4_ERR_NO_PATH, Some d0, [Lib.CallReset; Lib.CallRun]).
Proof.
  intros Hd. unfold Benchmark.create_tree_graph.
  assert (Hbig : 2 ^ depth <= 2 ^ 31) by (apply N.pow_le_mono_r; lia).
  assert (Hlow : 2 ^ 3 <= 2 ^ depth) by (apply N.pow_le_mono_r; lia).
  change (2 ^ 31) with 2147483648 in Hbig. change (2 ^ 3) with 8 in Hlow.
  assert (Hn : U32.sub (N.shiftl 1 depth mod U32.modulus) 1 = 2 ^ depth - 1).
  { rewrite N.shiftl_1_l. unfold U32.sub, U32.modulus.
    change (2 ^ 32) with 4294967296. rewrite (N.mod_small (2 ^ depth)) by lia.
    change (1 mod 4294967296) with 1.
    replace (2 ^ depth + 4294967296 - 1) with (2 ^ depth - 1 + 1 * 4294967296) by lia.
    rewrite N.Div0.mod_add. apply N.mod_small. lia. }
  rewrite Hn.
  assert (Hrange : 7 <= 2 ^ depth - 1 < U32.modulus)
    by (unfold U32.modulus; change (2 ^ 32) with 4294967296; lia).
  destruct (tree_built (2 ^ depth - 1) Hrange) as (g & Hg & Hnn & Hedges).
  unfold GraphStore.hvm4_graph_new in *.
  destruct (N.eqb_spec (2 ^ depth - 1) 0) as [|_]; [lia|]. cbn [negb] in *.
  exists g. split; [exact Hg|]. split; [exact Hnn|]. split.
  - pose proof (rightmost_path g (N.to_nat depth) ltac:(lia)) as Hpath.
    rewrite N2Nat.id in Hpath.
    apply (Hpath Hnn Hedges (N.to_nat depth - 1)%nat 0%nat). lia.
  - intros max_depth d0 Hmax.
    destruct (hvm4_reachable_char g 0 (2 ^ depth - 2) max_depth d0
                ltac:(lia) ltac:(lia) ltac:(lia) Hmax)
      as (code & cell & Hrun & [(_ & d & _ & _ & _ & Hm & _)|(-> & -> & _)]);
      [exfalso|exact Hrun].
    assert (Hsink : Lib.adj g (2 ^ depth - 2) = []); [|assert (Hdirect : ~ In (2 ^ depth - 2) (Lib.adj g 0))];
      [| |exact (no_meeting_at_sink _ 0 (2 ^ depth - 2) ltac:(lia) Hsink Hdirect _ Hm)].
    + destruct (Lib.adj g (2 ^ depth - 2)) as [|v l] eqn:Hadj; [reflexivity|].
      exfalso.
      assert (Hin : In v (Lib.adj g (2 ^ depth - 2))) by (rewrite Hadj; left; reflexivity).
      apply (In_adj g) in Hin; [|lia]. destruct Hin as (w & Hin).
      apply Hedges, (tree_calls_spec _ Hrange) in Hin.
      destruct Hin as (i & Hi & [[Heq _]|[Heq _]]); injection Heq as Hsrc _ _; lia.
    + intros Hin. apply (In_adj g) in Hin; [|lia]. destruct Hin as (w & Hin).
      apply Hedges, (tree_calls_spec _ Hrange) in Hin.
      destruct Hin as (i & Hi & [[Heq _]|[Heq _]]); injection Heq as Hsrc Hv _; lia.
Qed.

Lemma tree_benchmark_leaf_not_found_witness :
  Lib.hvm4_reachable true (Benchmark.create_tree_graph 3) 0 6 3 (Some 77) =
    Some (GraphStore.HVM4_ERR_NO_PATH, Some 77, [Lib.CallReset; Lib.CallRun]).
Proof.
  destruct (tree_benchmark_leaf_not_found 3 ltac:(lia)) as (g & Hg & _ & _ & Hrun).
  rewrite Hg. apply (Hrun 3 77). vm_compute. reflexivity.
Defined.
(** ** The spanning-tree program *)

Section MstFacts.

Import GraphStore Mst.

Lemma get_nth l : forall i, i < U32.modulus -> get i l = nth (N.to_nat i) l 0.
Proof.
  induction l as [|h t IH]; intros i Hi; simpl.
  - destruct (N.to_nat i); reflexivity.
  - destruct i as [|p]; [reflexivity|].
    assert (Hs : U32.sub (N.pos p) 1 = N.pos p - 1)
      by (unfold U32.sub, U32.modulus in *; lia).
    rewrite Hs, IH by lia.
    replace (N.to_nat (N.pos p)) with (S (N.to_nat (N.pos p - 1))) by lia.
    reflexivity.
Qed.

Lemma relabel_length old new l : length (relabel old new l) = length l.
Proof. induction l as [|h t IH]; simpl; [reflexivity|]. rewrite IH. reflexivity. Qed.

Lemma get_relabel old new l : forall i,
  i < U32.modulus -> (N.to_nat i < length l)%nat ->
  get i (relabel old new l) = if get i l =? old then new else get i l.
Proof.
  induction l as [|h t IH]; intros i Hi Hlen; simpl in *; [lia|].
  destruct i as [|p].
  - unfold U32.eq. destruct (h =? old); reflexivity.
  - apply IH; unfold U32.sub, U32.modulus in *; lia.
Qed.

Lemma get_own_labels n x :
  n < U32.modulus -> x < n -> get x (own_labels n) = x.
Proof.
  intros Hn Hx. rewrite get_nth by lia. unfold own_labels.
  rewrite (nth_indep _ 0 (N.of_nat 0)) by (rewrite length_map, length_seq; lia).
  rewrite map_nth, seq_nth by lia. lia.
Qed.

Lemma xor_eq_flags a b c :
  xor_eq (U32.eq a c) (U32.eq b c) = if xorb (a =? c) (b =? c) then 1 else 0.
Proof.
  unfold xor_eq, U32.eq. destruct (a =? c), (b =? c); reflexivity.
Qed.

Lemma min_cross_cons comp c e es :
  min_cross comp c (map triple (e :: es)) =
  edge3 (fun bu bv bw =>
           pick (if xorb (get (src e) comp =? c) (get (dst e) comp =? c)
                 then 1 else 0)
                (weight e) bw (triple e) [bu; bv; bw])
        (min_cross comp c (map triple es)).
Proof. rewrite <- xor_eq_flags. reflexivity. Qed.

Lemma pick_placeholder (cross w : N) (edge : list N) :
  edge3 (fun bu bv bw => pick cross w bw edge [bu; bv; bw]) [0; 0; INF] =
  if (negb (cross =? 0)) && (w <? INF) then edge else [0; 0; INF].
Proof.
  cbn [edge3]. unfold pick, U32.lt.
  destruct cross; cbn [N.eqb negb andb]; [reflexivity|].
  destruct (w <? INF); reflexivity.
Qed.

Lemma pick_triple (cross w : N) (edge : list N) b :
  edge3 (fun bu bv bw => pick cross w bw edge [bu; bv; bw]) (triple b) =
  if (negb (cross =? 0)) && (w <? weight b) then edge else triple b.
Proof.
  unfold triple. cbn [edge3]. unfold pick, U32.lt.
  destruct cross; cbn [N.eqb negb andb]; [reflexivity|].
  destruct (w <? weight b); reflexivity.
Qed.

(** [@min_cross] returns the placeholder or a lightest light edge that
    crosses. *)
Lemma min_cross_cases comp c es :
  let r := min_cross comp c (map triple es) in
  (r = [0; 0; INF] /\
   forall e, In e es -> crossing comp c e -> INF <= weight e) \/
  (exists e, In e es /\ r = triple e /\ crossing comp c e /\ weight e < INF /\
             forall e', In e' es -> crossing comp c e' -> weight e <= weight e').
Proof.
  cbn zeta. induction es as [|e es IH].
  - left. split; [reflexivity|]. intros e [].
  - rewrite min_cross_cons.
    assert (Hflag : forall e', crossing comp c e' <->
              xorb (get (src e') comp =? c) (get (dst e') comp =? c) = true)
      by (intros; reflexivity).
    destruct IH as [(-> & Hnone)|(b & Hb & -> & Hcb & Hwb & Hmin)].
    + rewrite pick_placeholder.
      destruct (xorb (get (src e) comp =? c) (get (dst e) comp =? c)) eqn:Hx;
        cbn [N.eqb negb andb].
      * destruct (N.ltb_spec (weight e) INF) as [Hlt|Hge].
        -- right. exists e. split; [left; reflexivity|]. split; [reflexivity|].
           split; [exact Hx|]. split; [exact Hlt|].
           intros e' [<-|He'] Hc'; [lia|]. specialize (Hnone e' He' Hc'). lia.
        -- left. split; [reflexivity|].
           intros e' [<-|He'] Hc'; [exact Hge|]. apply Hnone; assumption.
      * left. split; [reflexivity|].
        intros e' [<-|He'] Hc'; [apply Hflag in Hc'; congruence|].
        apply Hnone; assumption.
    + rewrite pick_triple.
      destruct (xorb (get (src e) comp =? c) (get (dst e) comp =? c)) eqn:Hx;
        cbn [N.eqb negb andb].
      * destruct (N.ltb_spec (weight e) (weight b)) as [Hlt|Hge].
        -- right. exists e. split; [left; reflexivity|]. split; [reflexivity|].
           split; [exact Hx|]. split; [lia|].
           intros e' [<-|He'] Hc'; [lia|]. specialize (Hmin e' He' Hc'). lia.
        -- right. exists b. split; [right; exact Hb|]. split; [reflexivity|].
           split; [exact Hcb|]. split; [exact Hwb|].
           intros e' [<-|He'] Hc'; [exact Hge|]. apply Hmin; assumption.
      * right. exists b. split; [right; exact Hb|]. split; [reflexivity|].
        split; [exact Hcb|]. split; [exact Hwb|].
        intros e' [<-|He'] Hc'; [apply Hflag in Hc'; congruence|].
        apply Hmin; assumption.
Qed.

(** Edges at or above [@INF] do not show in [@min_cross]. *)
Lemma min_cross_light comp c es :
  min_cross comp c (map triple es) = min_cross comp c (map triple (filter light es)).
Proof.
  induction es as [|e es IH]; [reflexivity|].
  rewrite filter_cons. case_decide as Hl.
  - rewrite !min_cross_cons, IH. reflexivity.
  - rewrite <- IH, min_cross_cons. unfold light in Hl.
    destruct (min_cross_cases comp c es) as [(-> & _)|(b & _ & -> & _ & Hwb & _)].
    + rewrite pick_placeholder.
      destruct (N.ltb_spec (weight e) INF); [lia|]. rewrite andb_false_r. reflexivity.
    + rewrite pick_triple.
      destruct (N.ltb_spec (weight e) (weight b)); [lia|].
      rewrite andb_false_r. reflexivity.
Qed.

Lemma all_mins_light comp es : forall (k : nat) c,
  all_mins comp (map triple es) k c =
  all_mins comp (map triple (filter light es)) k c.
Proof.
  induction k as [|k IH]; intros c; [reflexivity|].
  cbn [all_mins]. rewrite IH, min_cross_light. reflexivity.
Qed.

Lemma run_light es n : forall (k : nat) comp total,
  run k comp (map triple es) n total =
  run k comp (map triple (filter light es)) n total.
Proof.
  induction k as [|k IH]; intros comp total; [reflexivity|].
  cbn [run]. unfold round. rewrite all_mins_light.
  destruct (merge comp total _) as [nc nt]. apply IH.
Qed.

(** [@run] and the states from round to round. *)
Lemma run_after_rounds g : forall (k : nat) comp total,
  run k comp (edge_triples g) (n_nodes g) total =
  snd (Nat.iter k (fun st => round (fst st) (edge_triples g) (n_nodes g) (snd st))
                (comp, total)).
Proof.
  induction k as [|k IH]; intros comp total; [reflexivity|].
  cbn [run]. rewrite Nat.iter_succ_r. cbn [fst snd].
  destruct (round comp (edge_triples g) (n_nodes g) total) as [nc nt].
  apply IH.
Qed.

End MstFacts.
Section MstForest.

Import GraphStore Mst.

Lemma conn_trans F x y z : conn F x y -> conn F y z -> conn F x z.
Proof.
  induction 1 as [x|e y He Hc IH|e y He Hc IH]; intros Hz; [exact Hz| |].
  - apply (conn_fwd F e); [exact He|auto].
  - apply (conn_bwd F e); [exact He|auto].
Qed.

Lemma conn_sym F x y : conn F x y -> conn F y x.
Proof.
  induction 1 as [x|e y He Hc IH|e y He Hc IH]; [constructor| |].
  - apply (conn_trans F y (dst e)); [exact IH|].
    apply (conn_bwd F e); [exact He|constructor].
  - apply (conn_trans F y (src e)); [exact IH|].
    apply (conn_fwd F e); [exact He|constructor].
Qed.

Lemma conn_mono F F' x y : incl F F' -> conn F x y -> conn F' x y.
Proof.
  intros Hincl. induction 1 as [x|e y He Hc IH|e y He Hc IH]; [constructor| |].
  - apply (conn_fwd F' e); [apply Hincl; exact He|exact IH].
  - apply (conn_bwd F' e); [apply Hincl; exact He|exact IH].
Qed.

(** What one more edge joins. *)
Lemma conn_add F e0 x y :
  conn (e0 :: F) x y <->
  conn F x y \/
  (conn F x (src e0) /\ conn F (dst e0) y) \/
  (conn F x (dst e0) /\ conn F (src e0) y).
Proof.
  split.
  - induction 1 as [x|e y He Hc IH|e y He Hc IH].
    + left. constructor.
    + destruct He as [<-|He].
      * destruct IH as [H|[[_ H]|[_ H]]].
        -- right. left. split; [constructor|exact H].
        -- right. left. split; [constructor|exact H].
        -- left. exact H.
      * assert (Hstep : forall z, conn F (dst e) z -> conn F (src e) z)
          by (intros z Hz; apply (conn_fwd F e); assumption).
        destruct IH as [H|[[H1 H2]|[H1 H2]]]; auto.
    + destruct He as [<-|He].
      * destruct IH as [H|[[_ H]|[_ H]]].
        -- right. right. split; [constructor|exact H].
        -- left. exact H.
        -- right. right. split; [constructor|exact H].
      * assert (Hstep : forall z, conn F (src e) z -> conn F (dst e) z)
          by (intros z Hz; apply (conn_bwd F e); assumption).
        destruct IH as [H|[[H1 H2]|[H1 H2]]]; auto.
  - assert (Hup : forall a b, conn F a b -> conn (e0 :: F) a b)
      by (intros a b; apply conn_mono; intros z Hz; right; exact Hz).
    intros [H|[[H1 H2]|[H1 H2]]].
    + apply Hup. exact H.
    + apply (conn_trans _ x (src e0)); [apply Hup; exact H1|].
      apply (conn_fwd _ e0); [left; reflexivity|apply Hup; exact H2].
    + apply (conn_trans _ x (dst e0)); [apply Hup; exact H1|].
      apply (conn_bwd _ e0); [left; reflexivity|apply Hup; exact H2].
Qed.

Variable g : hvm4_graph.
Hypothesis Hn : n_nodes g < U32.modulus.
Hypothesis Hrange : forall e, In e (graph_edges g) ->
  src e < n_nodes g /\ dst e < n_nodes g.

Local Abbreviation pickable := (Mst.pickable g).

Lemma all_mins_pickable comp : forall (k : nat) c m,
  In m (all_mins comp (map triple (graph_edges g)) k c) -> pickable m.
Proof.
  induction k as [|k IH]; intros c m; cbn [all_mins]; [intros []|].
  intros [<-|Hm]; [|apply (IH _ _ Hm)].
  destruct (min_cross_cases comp c (graph_edges g))
    as [(-> & _)|(e & He & -> & _ & Hw & _)].
  - left. reflexivity.
  - right. exists e. auto.
Qed.

(** Selecting an edge between two labels. *)
Lemma select_step F comp total e :
  selected g F (comp, total) ->
  In e (graph_edges g) -> light e ->
  get (src e) comp <> get (dst e) comp ->
  selected g (e :: F)
    (relabel (get (dst e) comp) (get (src e) comp) comp, U32.add total (weight e)).
Proof.
  intros (Hlen & Hfor & Hin & Htot & Hlab) He Hl Hne. cbn [fst snd] in *.
  destruct (Hrange e He) as [Hu Hv].
  split; [|split; [|split; [|split]]]; cbn [fst snd].
  - rewrite relabel_length. exact Hlen.
  - constructor; [exact Hfor|]. intros Hc. apply Hne. apply Hlab; assumption.
  - intros e' [<-|He']; [auto|apply Hin; exact He'].
  - rewrite Htot. unfold U32.add. cbn [weight_sum fold_right].
    fold (weight_sum F). rewrite N.Div0.add_mod_idemp_l. f_equal. lia.
  - intros x y Hx Hy. rewrite conn_add.
    rewrite !get_relabel by lia.
    rewrite <- (Hlab x y Hx Hy), <- (Hlab x (src e) Hx Hu),
            <- (Hlab (dst e) y Hv Hy), <- (Hlab x (dst e) Hx Hv),
            <- (Hlab (src e) y Hu Hy).
    destruct (N.eqb_spec (get x comp) (get (dst e) comp)),
             (N.eqb_spec (get y comp) (get (dst e) comp));
      split; intros; try lia; intuition congruence.
Qed.

Lemma merge_selected : forall mins F comp total,
  (forall m, In m mins -> pickable m) ->
  selected g F (comp, total) ->
  exists F', selected g F' (merge comp total mins) /\ incl F F'.
Proof.
  induction mins as [|m mins IH]; intros F comp total Hpick Hsel.
  - exists F. split; [exact Hsel|intros x Hx; exact Hx].
  - assert (Hrest : forall m', In m' mins -> pickable m')
      by (intros m' Hm'; apply Hpick; right; exact Hm').
    destruct (Hpick m ltac:(left; reflexivity)) as [->|(e & He & Hl & ->)].
    + cbn [merge edge3]. cbn zeta. unfold U32.eq. rewrite N.eqb_refl.
      apply IH; assumption.
    + unfold triple. cbn [merge edge3]. cbn zeta. unfold U32.eq.
      destruct (N.eqb_spec (get (src e) comp) (get (dst e) comp)) as [Heq|Hne].
      * apply IH; assumption.
      * destruct (IH (e :: F) _ _ Hrest (select_step F comp total e Hsel He Hl Hne))
          as (F' & Hsel' & Hincl).
        exists F'. split; [exact Hsel'|].
        intros x Hx. apply Hincl. right. exact Hx.
Qed.

Lemma after_rounds_selected (k : nat) : exists F, selected g F (after_rounds g k).
Proof.
  induction k as [|k (F & Hsel)].
  - exists []. change (after_rounds g 0) with (own_labels (n_nodes g), 0).
    split; [|split; [|split; [|split]]]; cbn [fst snd].
    + unfold own_labels. rewrite length_map, length_seq. reflexivity.
    + constructor.
    + intros e [].
    + reflexivity.
    + intros x y Hx Hy. rewrite !get_own_labels by assumption. split.
      * intros ->. constructor.
      * intros Hc. inversion Hc as [|e z [] _|e z [] _]. reflexivity.
  - unfold after_rounds in *. cbn [Nat.iter].
    set (st := Nat.iter k _ _) in *. unfold round at 1.
    destruct (merge_selected (all_mins (fst st) (edge_triples g)
                                       (N.to_nat (n_nodes g)) 0)
                F (fst st) (snd st)) as (F' & Hsel' & _).
    + intros m Hm. apply (all_mins_pickable (fst st) _ _ m Hm).
    + destruct st. exact Hsel.
    + exists F'. exact Hsel'.
Qed.

(** With no light edge left between two labels a round changes nothing. *)
Lemma converged_round comp total :
  converged g comp ->
  round comp (edge_triples g) (n_nodes g) total = (comp, total).
Proof.
  intros Hconv. unfold round.
  assert (Hall : forall (k : nat) c,
            all_mins comp (edge_triples g) k c = List.repeat [0; 0; INF] k).
  { induction k as [|k IH]; intros c; [reflexivity|].
    cbn [all_mins List.repeat]. rewrite IH. f_equal.
    destruct (min_cross_cases comp c (graph_edges g))
      as [(Hr & _)|(e & He & _ & Hc & Hw & _)]; [exact Hr|exfalso].
    unfold crossing in Hc. rewrite (Hconv e He Hw) in Hc.
    destruct (_ =? c); discriminate. }
  rewrite Hall. induction (N.to_nat (n_nodes g)) as [|k IH]; [reflexivity|].
  cbn [List.repeat merge edge3]. cbn zeta. unfold U32.eq. rewrite N.eqb_refl. exact IH.
Qed.

End MstForest.
(** [hvm4_mst_boruvka] sees only the edges lighter than 999: two graphs
    on the same nodes whose lighter edges are the same, in the same order,
    get the same answer, whatever heavier edges they hold. *)
Theorem mst_ignores_heavy_edges (g g' : GraphStore.hvm4_graph)
    (rounds : N) (src_copy_ok : bool) (cell : option N) :
  GraphStore.n_nodes g = GraphStore.n_nodes g' ->
  filter Mst.light (GraphStore.graph_edges g) =
  filter Mst.light (GraphStore.graph_edges g') ->
  Mst.hvm4_mst_boruvka src_copy_ok (Some g) rounds cell =
  Mst.hvm4_mst_boruvka src_copy_ok (Some g') rounds cell.
Proof.
  intros Hnn Hlight.
  assert (Hmain : Mst.mst_main g rounds = Mst.mst_main g' rounds).
  { unfold Mst.mst_main.
    change (Mst.edge_triples g) with (map Mst.triple (GraphStore.graph_edges g)).
    change (Mst.edge_triples g') with (map Mst.triple (GraphStore.graph_edges g')).
    rewrite (run_light (GraphStore.graph_edges g)),
            (run_light (GraphStore.graph_edges g')), Hlight, Hnn.
    reflexivity. }
  unfold Mst.hvm4_mst_boruvka. rewrite Hmain. reflexivity.
Qed.

Lemma mst_ignores_heavy_edges_witness :
  Mst.hvm4_mst_boruvka true (Some Mst.four_nodes_heavy) 2 (Some 77) =
  Some (GraphStore.HVM4_OK, Some 6, [Lib.CallReset; Lib.CallRun]).
Proof.
  rewrite (mst_ignores_heavy_edges Mst.four_nodes_heavy Mst.four_nodes 2 true (Some 77)
             ltac:(reflexivity) ltac:(vm_compute; reflexivity)).
  vm_compute. reflexivity.
Defined.

(** The total of the spanning-tree program after any number of rounds, on
    a graph whose edges join nodes of the graph: it is, modulo [2^32], the
    weight of a list of edges of the graph, each lighter than 999, that
    holds no cycle, and two nodes carry the same label exactly when those
    edges join them. *)
Theorem mst_selects_forest (g : GraphStore.hvm4_graph) (rounds : N) :
  GraphStore.n_nodes g < U32.modulus ->
  (forall e, In e (GraphStore.graph_edges g) ->
     GraphStore.src e < GraphStore.n_nodes g /\
     GraphStore.dst e < GraphStore.n_nodes g) ->
  exists F comp,
    Mst.after_rounds g (N.to_nat rounds) = (comp, Mst.mst_main g rounds) /\
    Mst.forest F /\
    (forall e, In e F ->
       In e (GraphStore.graph_edges g) /\ GraphStore.weight e < 999) /\
    Mst.mst_main g rounds = Mst.weight_sum F mod U32.modulus /\
    forall x y, x < GraphStore.n_nodes g -> y < GraphStore.n_nodes g ->
      (Mst.get x comp = Mst.get y comp <-> Mst.conn F x y).
Proof.
  intros Hn Hrange.
  destruct (after_rounds_selected g Hn Hrange (N.to_nat rounds))
    as (F & Hlen & Hfor & Hin & Htot & Hlab).
  assert (Hmain : Mst.mst_main g rounds = snd (Mst.after_rounds g (N.to_nat rounds))).
  { unfold Mst.mst_main. rewrite run_after_rounds. reflexivity. }
  exists F, (fst (Mst.after_rounds g (N.to_nat rounds))).
  split; [rewrite Hmain; apply surjective_pairing|].
  split; [exact Hfor|]. split; [exact Hin|]. split; [rewrite Hmain; exact Htot|].
  exact Hlab.
Qed.

Lemma mst_selects_forest_witness :
  exists F comp,
    Mst.after_rounds Mst.four_nodes 2 = (comp, 6) /\
    Mst.forest F /\ Mst.weight_sum F mod U32.modulus = 6.
Proof.
  destruct (mst_selects_forest Mst.four_nodes 2
              ltac:(vm_compute; reflexivity)
              ltac:(intros e He; vm_compute in He;
                    repeat (destruct He as [<-|He]; [vm_compute; auto|]);
                    destruct He))
    as (F & comp & Hst & Hfor & _ & Htot & _).
  exists F, comp.
  assert (Hval : Mst.mst_main Mst.four_nodes 2 = 6) by (vm_compute; reflexivity).
  rewrite Hval in Hst, Htot. auto.
Defined.
(** *** The lightest edge across a cut *)

Section MstCut.

Import GraphStore Mst.

Lemma conn_edge F e : In e F -> conn F (src e) (dst e).
Proof. intros He. apply (conn_fwd F e); [exact He|constructor]. Qed.

(** Joining the ends of every edge of [T] joins whatever [T] joins. *)
Lemma conn_replace T T' x y :
  (forall e, In e T -> conn T' (src e) (dst e)) ->
  conn T x y -> conn T' x y.
Proof.
  intros Hall. induction 1 as [x|e y He Hc IH|e y He Hc IH]; [constructor| |].
  - apply (conn_trans T' _ (dst e)); [apply Hall; exact He|exact IH].
  - apply (conn_trans T' _ (src e)); [apply conn_sym, Hall; exact He|exact IH].
Qed.

Lemma weight_sum_app F R : weight_sum (F ++ R) = weight_sum F + weight_sum R.
Proof.
  induction F as [|e F IH]; [reflexivity|].
  cbn [app weight_sum fold_right] in *. fold (weight_sum (F ++ R)). fold (weight_sum F).
  lia.
Qed.

Lemma weight_sum_without e R :
  In e R -> weight_sum (filter (fun z => z <> e) R) + weight e <= weight_sum R.
Proof.
  induction R as [|h R IH]; [intros []|].
  assert (Hle : weight_sum (filter (fun z => z <> e) R) <= weight_sum R).
  { clear. induction R as [|h R IH]; [reflexivity|].
    rewrite filter_cons. case_decide; cbn [weight_sum fold_right];
      fold (weight_sum R); fold (weight_sum (filter (fun z => z <> e) R)); lia. }
  intros [->|Hin]; rewrite filter_cons; case_decide; cbn [weight_sum fold_right];
    fold (weight_sum R); fold (weight_sum (filter (fun z => z <> e) R));
    try (specialize (IH Hin)); try lia; congruence.
Qed.

Variables (g : hvm4_graph) (comp : list N) (k : N).

Local Abbreviation inside z := (get z comp =? k).
Local Abbreviation uncut := (filter (fun e => ~ crossing comp k e)).

(** Edges that do not cross keep a walk on its side. *)
Lemma uncut_side T a b : conn (uncut T) a b -> inside a = inside b.
Proof.
  assert (Hedge : forall e, In e (uncut T) -> inside (src e) = inside (dst e)).
  { intros e He. apply list_elem_of_In, list_elem_of_filter in He.
    destruct He as [Hnc _]. unfold crossing in Hnc.
    destruct (get (src e) comp =? k), (get (dst e) comp =? k);
      try reflexivity; exfalso; apply Hnc; reflexivity. }
  induction 1 as [x|e y He Hc IH|e y He Hc IH]; [reflexivity| |].
  - rewrite (Hedge e He). exact IH.
  - rewrite <- (Hedge e He). exact IH.
Qed.

(** A walk either never crosses, or crosses a last time. *)
Lemma last_crossing T a y :
  conn T a y ->
  conn (uncut T) a y \/
  exists e b, In e T /\ crossing comp k e /\
              ((b = dst e /\ src e <> b \/ b = src e) /\ conn (uncut T) b y).
Proof.
  induction 1 as [x|e y He Hc IH|e y He Hc IH]; [left; constructor| |].
  - destruct IH as [Hnc|IH]; [|right; exact IH].
    destruct (decide (crossing comp k e)) as [Hx|Hx].
    + right. exists e, (dst e). split; [exact He|]. split; [exact Hx|].
      split; [|exact Hnc]. left. split; [reflexivity|].
      intros Heq. unfold crossing in Hx. rewrite Heq in Hx.
      destruct (get (dst e) comp =? k); discriminate.
    + left. apply (conn_fwd _ e); [|exact Hnc].
      apply list_elem_of_In, list_elem_of_filter. split; [exact Hx|].
      apply list_elem_of_In. exact He.
  - destruct IH as [Hnc|IH]; [|right; exact IH].
    destruct (decide (crossing comp k e)) as [Hx|Hx].
    + right. exists e, (src e). split; [exact He|]. split; [exact Hx|].
      split; [|exact Hnc]. right. reflexivity.
    + left. apply (conn_bwd _ e); [|exact Hnc].
      apply list_elem_of_In, list_elem_of_filter. split; [exact Hx|].
      apply list_elem_of_In. exact He.
Qed.

Hypothesis Hrange : forall e, In e (graph_edges g) ->
  src e < n_nodes g /\ dst e < n_nodes g.

(** The cut property: a lightest light edge that leaves the nodes of one
    label can take the place of an edge of any spanning completion. *)
Lemma cut_exchange F total R e :
  selected g F (comp, total) ->
  light_edges g R -> spans g (F ++ R) ->
  In e (graph_edges g) -> light e -> crossing comp k e ->
  (forall e', In e' (graph_edges g) -> light e' -> crossing comp k e' ->
              weight e <= weight e') ->
  exists R', light_edges g R' /\ spans g (e :: F ++ R') /\
             weight_sum (e :: F ++ R') <= weight_sum (F ++ R).
Proof.
  intros (Hlen & Hfor & HF & Htot & Hlab) HR Hspan He Hl Hx Hmin.
  cbn [fst snd] in *.
  (* the walk between the ends of [e], started inside *)
  assert (Hends : exists a0 b0, inside a0 = true /\ inside b0 = false /\
            conn (F ++ R) a0 b0 /\
            (forall T, In e T -> conn T a0 b0) /\ a0 < n_nodes g).
  { destruct (Hrange e He) as [Hu Hv]. pose proof (Hspan e He Hl) as Hc.
    unfold crossing in Hx.
    destruct (get (src e) comp =? k) eqn:Hs, (get (dst e) comp =? k) eqn:Hd;
      try discriminate.
    - exists (src e), (dst e). repeat split; auto. intros T HT. apply conn_edge. exact HT.
    - exists (dst e), (src e). repeat split; auto; [apply conn_sym; exact Hc|].
      intros T HT. apply conn_sym, conn_edge. exact HT. }
  destruct Hends as (a0 & b0 & Ha0 & Hb0 & Hwalk & Hvia & Ha0n).
  destruct (last_crossing (F ++ R) a0 b0 Hwalk) as [Hnc|(e2 & b2 & He2 & Hx2 & Hb2 & Hnc)].
  { apply uncut_side in Hnc. congruence. }
  pose proof (uncut_side _ _ _ Hnc) as Hside. rewrite Hb0 in Hside.
  (* the crossing edge is none of the selected ones *)
  assert (HFin : forall f, In f F -> ~ crossing comp k f).
  { intros f Hf Hcr. destruct (HF f Hf) as [Hfg _].
    destruct (Hrange f Hfg) as [Hu Hv].
    pose proof (proj2 (Hlab _ _ Hu Hv) (conn_edge F f Hf)) as Heq.
    unfold crossing in Hcr. rewrite Heq in Hcr.
    destruct (get (dst f) comp =? k); discriminate. }
  assert (He2R : In e2 R).
  { apply in_app_or in He2. destruct He2 as [Hf|Hr]; [|exact Hr].
    exfalso. exact (HFin e2 Hf Hx2). }
  destruct (HR e2 He2R) as [He2g Hl2].
  set (R' := filter (fun z => z <> e2) R).
  assert (HR' : forall z, In z R' <-> z <> e2 /\ In z R).
  { intros z. unfold R'. rewrite <- !list_elem_of_In, list_elem_of_filter. tauto. }
  assert (Hup : forall x y, conn (uncut (F ++ R)) x y -> conn (e :: F ++ R') x y).
  { intros x y. apply conn_mono. intros z Hz.
    apply list_elem_of_In, list_elem_of_filter in Hz. destruct Hz as [Hnz Hz].
    apply list_elem_of_In, in_app_or in Hz. right. apply in_or_app.
    destruct Hz as [Hz|Hz]; [left; exact Hz|right].
    apply HR'. split; [|exact Hz]. intros ->. contradiction. }
  (* the ends of the crossing edge stay joined *)
  assert (Hjoin : conn (e :: F ++ R') (src e2) (dst e2)).
  { destruct (Hrange e2 He2g) as [Hu2 Hv2].
    assert (Hin : forall a2, a2 < n_nodes g -> inside a2 = true ->
                    conn (e :: F ++ R') a2 b2).
    { intros a2 Ha2n Ha2.
      apply (conn_trans _ a2 a0).
      - apply (conn_mono F); [intros z Hz; right; apply in_or_app; left; exact Hz|].
        apply Hlab; [exact Ha2n|exact Ha0n|].
        apply N.eqb_eq in Ha2, Ha0. congruence.
      - apply (conn_trans _ a0 b0); [apply Hvia; left; reflexivity|].
        apply conn_sym, Hup. exact Hnc. }
    unfold crossing in Hx2.
    destruct Hb2 as [(-> & Hne)| ->].
    - apply Hin; [exact Hu2|].
      destruct (get (src e2) comp =? k); [reflexivity|].
      rewrite Hside in Hx2. discriminate.
    - apply conn_sym, Hin; [exact Hv2|].
      destruct (get (dst e2) comp =? k); [reflexivity|].
      rewrite Hside in Hx2. discriminate. }
  exists R'. split; [|split].
  - intros z Hz. apply HR' in Hz. apply HR. apply Hz.
  - intros e1 He1 Hl1. apply (conn_replace (F ++ R)); [|apply Hspan; assumption].
    intros z Hz. destruct (decide (z = e2)) as [->|Hne]; [exact Hjoin|].
    apply conn_edge. right. apply in_or_app. apply in_app_or in Hz.
    destruct Hz as [Hz|Hz]; [left; exact Hz|right; apply HR'; auto].
  - cbn [weight_sum fold_right]. fold (weight_sum (F ++ R')).
    rewrite !weight_sum_app.
    pose proof (weight_sum_without e2 R He2R) as Hw. fold R' in Hw.
    specialize (Hmin e2 He2g Hl2 Hx2). lia.
Qed.

End MstCut.
(** *** The selected edges are part of a lightest spanning list *)

Section MstMinimal.

Import GraphStore Mst.

Variable g : hvm4_graph.
Hypothesis Hn : n_nodes g < U32.modulus.
Hypothesis Hrange : forall e, In e (graph_edges g) ->
  src e < n_nodes g /\ dst e < n_nodes g.

Lemma crossing_ends comp d x y :
  x <> y -> (get x comp = d \/ get y comp = d) -> get x comp <> get y comp ->
  xorb (get x comp =? d) (get y comp =? d) = true.
Proof.
  intros _ Hd Hne.
  destruct (N.eqb_spec (get x comp) d), (N.eqb_spec (get y comp) d);
    try reflexivity; [congruence|lia].
Qed.

(** The label being served is the root of its nodes, so its lightest
    crossing edge is a lightest edge leaving them. *)
Lemma served_lightest comp0 comp c e xc :
  rooted g comp0 comp c ->
  lower_bound g comp0 c (weight e) ->
  xc < n_nodes g -> get xc comp0 = c ->
  forall e', In e' (graph_edges g) -> light e' ->
    crossing comp (get xc comp) e' -> weight e <= weight e'.
Proof.
  intros (Href & Hroot) Hlow Hxc Hc e' He' Hl' Hx'.
  destruct (Hroot (get xc comp)) as (r & Hr).
  assert (Hrc : r = c).
  { destruct (Hr xc Hxc eq_refl) as [Hserved _].
    destruct (N.eq_dec c r) as [<-|Hne]; [reflexivity|].
    rewrite Hc in Hserved. specialize (Hserved Hne). lia. }
  subst r. destruct (Hrange e' He') as [Hu Hv].
  unfold crossing in Hx'.
  destruct (N.eqb_spec (get (src e') comp) (get xc comp)) as [Hs|Hs],
           (N.eqb_spec (get (dst e') comp) (get xc comp)) as [Hd|Hd];
    try discriminate.
  - destruct (Hr (src e') Hu Hs) as [_ Hlb].
    apply (Hlb _ Hlow e' He' Hl'). unfold crossing.
    rewrite N.eqb_refl.
    destruct (N.eqb_spec (get (dst e') comp0) (get (src e') comp0)) as [Heq|_];
      [|reflexivity].
    exfalso. apply Hd. rewrite <- Hs. apply Href; auto.
  - destruct (Hr (dst e') Hv Hd) as [_ Hlb].
    apply (Hlb _ Hlow e' He' Hl'). unfold crossing.
    rewrite N.eqb_refl.
    destruct (N.eqb_spec (get (src e') comp0) (get (dst e') comp0)) as [Heq|_];
      [|reflexivity].
    exfalso. apply Hs. rewrite <- Hd. apply Href; auto.
Qed.

Lemma rooted_next comp0 comp c : rooted g comp0 comp c -> rooted g comp0 comp (c + 1).
Proof.
  intros (Href & Hroot). split; [exact Href|].
  intros k. destruct (Hroot k) as (r & Hr). exists r.
  intros z Hz Hk. destruct (Hr z Hz Hk) as [H1 H2]. split; [|exact H2].
  intros Hne. specialize (H1 Hne). lia.
Qed.

(** Merging the nodes of the served label with those its edge leads to. *)
Lemma rooted_merge comp0 comp c e :
  (N.to_nat (n_nodes g) <= length comp)%nat ->
  rooted g comp0 comp c ->
  In e (graph_edges g) -> light e -> crossing comp0 c e ->
  (forall e', In e' (graph_edges g) -> crossing comp0 c e' -> weight e <= weight e') ->
  get (src e) comp <> get (dst e) comp ->
  rooted g comp0 (relabel (get (dst e) comp) (get (src e) comp) comp) (c + 1).
Proof.
  intros Hlen Hrooted He Hl Hx Hmin Hne.
  pose proof Hrooted as (Href & Hroot).
  destruct (Hrange e He) as [Hu Hv].
  set (cu := get (src e) comp) in *. set (cv := get (dst e) comp) in *.
  assert (Hnew : forall z, z < n_nodes g ->
            get z (relabel cv cu comp) = if get z comp =? cv then cu else get z comp).
  { intros z Hz. apply get_relabel; lia. }
  assert (Hlow : lower_bound g comp0 c (weight e)).
  { intros e' He' _ Hx'. apply Hmin; assumption. }
  (* the end of [e] that carries the served label, and the other one *)
  assert (Hends : exists xc yo,
            xc < n_nodes g /\ yo < n_nodes g /\
            get xc comp0 = c /\ get yo comp0 <> c /\
            ((get xc comp = cu /\ get yo comp = cv) \/
             (get xc comp = cv /\ get yo comp = cu)) /\
            crossing comp0 (get yo comp0) e).
  { unfold crossing in Hx |- *.
    destruct (N.eqb_spec (get (src e) comp0) c) as [Hs|Hs],
             (N.eqb_spec (get (dst e) comp0) c) as [Hd|Hd]; try discriminate.
    - exists (src e), (dst e). repeat split; auto.
      rewrite N.eqb_refl.
      destruct (N.eqb_spec (get (src e) comp0) (get (dst e) comp0)); [congruence|reflexivity].
    - exists (dst e), (src e). repeat split; auto.
      rewrite N.eqb_refl.
      destruct (N.eqb_spec (get (dst e) comp0) (get (src e) comp0)); [congruence|reflexivity]. }
  destruct Hends as (xc & yo & Hxc & Hyo & Hxc0 & Hyo0 & Hlabels & Hxo).
  split.
  - intros z z' Hz Hz' Heq. rewrite !Hnew by assumption.
    rewrite (Href z z' Hz Hz' Heq). reflexivity.
  - intros k.
    destruct (N.eq_dec k cu) as [->|Hkcu].
    + (* the merged label *)
      destruct (Hroot (get xc comp)) as (r1 & Hr1).
      destruct (Hroot (get yo comp)) as (r2 & Hr2).
      assert (Hr1c : r1 = c).
      { destruct (Hr1 xc Hxc eq_refl) as [Hserved _].
        destruct (N.eq_dec c r1) as [<-|Hd]; [reflexivity|].
        rewrite Hxc0 in Hserved. specialize (Hserved Hd). lia. }
      subst r1. exists r2. intros z Hz Hk. rewrite Hnew in Hk by exact Hz.
      assert (Hcase : get z comp = get xc comp \/ get z comp = get yo comp).
      { destruct (N.eqb_spec (get z comp) cv) as [Hzv|Hzv];
          destruct Hlabels as [[-> ->]|[-> ->]]; auto. }
      destruct Hcase as [Hz1|Hz2].
      * destruct (Hr1 z Hz Hz1) as [Hserved Hlb]. split.
        -- intros _. destruct (N.eq_dec (get z comp0) c) as [->|Hd]; [lia|].
           specialize (Hserved Hd). lia.
        -- intros w Hw. apply Hlb.
           destruct (Hr2 yo Hyo eq_refl) as [_ Hlb2].
           specialize (Hlb2 w Hw e He Hl Hxo).
           intros e' He' Hl' Hx'. specialize (Hmin e' He' Hx'). lia.
      * destruct (Hr2 z Hz Hz2) as [Hserved Hlb]. split; [|exact Hlb].
        intros Hd. specialize (Hserved Hd). lia.
    + destruct (N.eq_dec k cv) as [->|Hkcv].
      * exists 0. intros z Hz Hk. rewrite Hnew in Hk by exact Hz. exfalso.
        destruct (N.eqb_spec (get z comp) cv); [apply Hne; exact Hk|contradiction].
      * destruct (Hroot k) as (r & Hr). exists r.
        intros z Hz Hk. rewrite Hnew in Hk by exact Hz.
        destruct (N.eqb_spec (get z comp) cv) as [Hzv|Hzv]; [congruence|].
        destruct (Hr z Hz Hk) as [Hserved Hlb]. split; [|exact Hlb].
        intros Hd. specialize (Hserved Hd). lia.
Qed.

(** One round keeps the selected edges part of a lightest spanning list. *)
Lemma merge_minimal comp0 : forall (j : nat) c F comp total,
  c + N.of_nat j = n_nodes g ->
  selected g F (comp, total) -> rooted g comp0 comp c -> promising g F ->
  exists F', selected g F' (merge comp total (all_mins comp0 (edge_triples g) j c)) /\
             promising g F'.
Proof.
  induction j as [|j IH]; intros c F comp total Hc Hsel Hroot Hprom.
  - exists F. split; [exact Hsel|exact Hprom].
  - cbn [all_mins].
    assert (Hc1 : U32.add c 1 = c + 1)
      by (unfold U32.add; apply N.mod_small; lia).
    rewrite Hc1.
    destruct (min_cross_cases comp0 c (graph_edges g))
      as [(Hr & _)|(e & He & Hr & Hx & Hw & Hmin)];
      change (map triple (graph_edges g)) with (edge_triples g) in Hr; rewrite Hr.
    + cbn [merge edge3]. cbn zeta. unfold U32.eq. rewrite N.eqb_refl.
      apply (IH (c + 1) F); [lia|exact Hsel|apply rooted_next; exact Hroot|exact Hprom].
    + unfold triple. cbn [merge edge3]. cbn zeta. unfold U32.eq.
      destruct (N.eqb_spec (get (src e) comp) (get (dst e) comp)) as [Heq|Hne].
      * apply (IH (c + 1) F);
          [lia|exact Hsel|apply rooted_next; exact Hroot|exact Hprom].
      * assert (Hl : light e) by exact Hw.
        apply (IH (c + 1) (e :: F)); [lia| | |].
        -- apply select_step; assumption.
        -- apply rooted_merge; try assumption.
           destruct Hsel as (Hlen & _). cbn [fst] in Hlen. lia.
        -- (* the cut property *)
           destruct (Hrange e He) as [Hu Hv].
           assert (Hlow : lower_bound g comp0 c (weight e)).
           { intros e' He' _ Hx'. apply Hmin; assumption. }
           assert (Hcut : exists k, crossing comp k e /\
                     forall e', In e' (graph_edges g) -> light e' ->
                                crossing comp k e' -> weight e <= weight e').
           { unfold crossing in Hx.
             destruct (N.eqb_spec (get (src e) comp0) c) as [Hs|Hs],
                      (N.eqb_spec (get (dst e) comp0) c) as [Hd|Hd]; try discriminate.
             - exists (get (src e) comp). split.
               + unfold crossing. rewrite N.eqb_refl.
                 destruct (N.eqb_spec (get (dst e) comp) (get (src e) comp));
                   [congruence|reflexivity].
               + apply (served_lightest comp0 comp c e (src e)); assumption.
             - exists (get (dst e) comp). split.
               + unfold crossing. rewrite N.eqb_refl.
                 destruct (N.eqb_spec (get (src e) comp) (get (dst e) comp));
                   [congruence|reflexivity].
               + apply (served_lightest comp0 comp c e (dst e)); assumption. }
           destruct Hcut as (k & Hxk & Hlight).
           intros S HS Hspan.
           destruct (Hprom S HS Hspan) as (R & HR & HspanR & HwR).
           destruct (cut_exchange g comp k Hrange F total R e Hsel HR HspanR
                       He Hl Hxk Hlight) as (R' & HR' & Hspan' & Hw').
           exists R'. split; [exact HR'|]. split; [exact Hspan'|].
           cbn [app]. lia.
Qed.

Lemma after_rounds_minimal (k : nat) :
  exists F, selected g F (after_rounds g k) /\ promising g F.
Proof.
  induction k as [|k (F & Hsel & Hprom)].
  - destruct (after_rounds_selected g Hn Hrange 0) as (F & HF).
    change (after_rounds g 0) with (own_labels (n_nodes g), 0) in *.
    exists []. split.
    + split; [|split; [|split; [|split]]]; cbn [fst snd].
      * unfold own_labels. rewrite length_map, length_seq. reflexivity.
      * constructor.
      * intros e [].
      * reflexivity.
      * intros x y Hx Hy. rewrite !get_own_labels by assumption. split.
        -- intros ->. constructor.
        -- intros Hc. inversion Hc as [|e z [] _|e z [] _]. reflexivity.
    + intros S HS Hspan. exists S. split; [exact HS|]. split; [exact Hspan|].
      cbn [app]. lia.
  - change (after_rounds g (S k))
      with (round (fst (after_rounds g k)) (edge_triples g) (n_nodes g)
                  (snd (after_rounds g k))).
    destruct (after_rounds g k) as [comp total]. cbn [fst snd]. unfold round.
    apply (merge_minimal comp (N.to_nat (n_nodes g)) 0 F comp total);
      [lia|exact Hsel| |exact Hprom].
    split; [auto|]. intros lbl. exists lbl. intros z Hz Hk.
    split; [intros Hne; congruence|]. intros w Hw. rewrite Hk. exact Hw.
Qed.

End MstMinimal.

(** When a round has left no edge lighter than 999 between two labels, the
    total of the spanning-tree program is, modulo [2^32], the weight of a
    minimum spanning forest of the graph without its heavier edges: it is
    the weight of a cycle-free list of such edges that joins whatever such
    edges join, and no list of such edges that does so weighs less. *)
Theorem mst_total_is_minimum (g : GraphStore.hvm4_graph) (rounds : N) :
  GraphStore.n_nodes g < U32.modulus ->
  (forall e, In e (GraphStore.graph_edges g) ->
     GraphStore.src e < GraphStore.n_nodes g /\
     GraphStore.dst e < GraphStore.n_nodes g) ->
  Mst.converged g (fst (Mst.after_rounds g (N.to_nat rounds))) ->
  exists F,
    Mst.forest F /\ Mst.light_edges g F /\ Mst.spans g F /\
    Mst.mst_main g rounds = Mst.weight_sum F mod U32.modulus /\
    forall S, Mst.light_edges g S -> Mst.spans g S ->
      Mst.weight_sum F <= Mst.weight_sum S.
Proof.
  intros Hn Hrange Hconv.
  destruct (after_rounds_minimal g Hn Hrange (N.to_nat rounds))
    as (F & (Hlen & Hfor & Hin & Htot & Hlab) & Hprom).
  exists F. split; [exact Hfor|]. split; [exact Hin|]. split; [|split].
  - intros e He Hl. destruct (Hrange e He) as [Hu Hv].
    apply Hlab; [exact Hu|exact Hv|]. apply Hconv; assumption.
  - unfold Mst.mst_main. rewrite run_after_rounds. exact Htot.
  - intros S HS Hspan. destruct (Hprom S HS Hspan) as (R & _ & _ & Hw).
    rewrite weight_sum_app in Hw. lia.
Qed.

Lemma mst_total_is_minimum_witness :
  exists F,
    Mst.spans Mst.four_nodes F /\ Mst.weight_sum F mod U32.modulus = 6 /\
    forall S, Mst.light_edges Mst.four_nodes S -> Mst.spans Mst.four_nodes S ->
      Mst.weight_sum F <= Mst.weight_sum S.
Proof.
  destruct (mst_total_is_minimum Mst.four_nodes 2
              ltac:(vm_compute; reflexivity)
              ltac:(intros e He; vm_compute in He;
                    repeat (destruct He as [<-|He]; [vm_compute; auto|]);
                    destruct He)
              ltac:(intros e He _; vm_compute in He;
                    repeat (destruct He as [<-|He]; [vm_compute; reflexivity|]);
                    destruct He))
    as (F & _ & _ & Hspan & Htot & Hmin).
  exists F. split; [exact Hspan|]. split; [|exact Hmin].
  assert (Hval : Mst.mst_main Mst.four_nodes 2 = 6) by (vm_compute; reflexivity).
  rewrite <- Htot. exact Hval.
Defined.
(** *** Enough rounds *)

Section Counting.

Lemma filter_split {A} (P : A -> Prop) `{forall x, Decision (P x)} (l : list A) :
  (length (filter P l) + length (filter (fun x => ~ P x) l) = length l)%nat.
Proof.
  induction l as [|a l IH]; [reflexivity|].
  rewrite !filter_cons. repeat case_decide; cbn [length]; try lia; contradiction.
Qed.

Lemma two_distinct {A} (l : list A) a1 a2 :
  In a1 l -> In a2 l -> a1 <> a2 -> (2 <= length l)%nat.
Proof.
  destruct l as [|x [|y l]]; cbn [length]; try lia.
  - intros [].
  - intros [<-|[]] [<-|[]] Hne. contradiction.
Qed.

(** A list whose elements each stand for two elements of another one is
    at most half as long. *)
Lemma two_to_one {A B} `{EqDecision B} (f : A -> B) : forall (l' : list B) (l : list A),
  List.NoDup l' ->
  (forall b, In b l' ->
     exists a1 a2, In a1 l /\ In a2 l /\ a1 <> a2 /\ f a1 = b /\ f a2 = b) ->
  (2 * length l' <= length l)%nat.
Proof.
  induction l' as [|b l' IH]; intros l Hnd Hpre; [simpl; lia|].
  inversion Hnd as [|? ? Hnotin Hnd']; subst.
  destruct (Hpre b ltac:(left; reflexivity)) as (a1 & a2 & H1 & H2 & Hne & Hf1 & Hf2).
  pose proof (filter_split (fun a => f a <> b) l) as Hsplit.
  assert (Hout : (2 <= length (filter (fun a => ~ f a <> b) l))%nat).
  { apply (two_distinct _ a1 a2); [| |exact Hne];
      apply list_elem_of_In, list_elem_of_filter;
      (split; [intros Hc; contradiction|apply list_elem_of_In; assumption]). }
  specialize (IH (filter (fun a => f a <> b) l) Hnd').
  cbn [length]. enough (2 * length l' <= length (filter (fun a => f a <> b) l))%nat by lia.
  apply IH. intros b' Hb'.
  destruct (Hpre b' ltac:(right; exact Hb')) as (x1 & x2 & Hx1 & Hx2 & Hxne & Hg1 & Hg2).
  assert (Hbb : b' <> b) by (intros ->; contradiction).
  exists x1, x2. repeat split; try assumption;
    apply list_elem_of_In, list_elem_of_filter;
    (split; [congruence|apply list_elem_of_In; assumption]).
Qed.

End Counting.

Section MstRounds.

Import GraphStore Mst.

Variable g : hvm4_graph.
Hypothesis Hn : n_nodes g < U32.modulus.
Hypothesis Hrange : forall e, In e (graph_edges g) ->
  src e < n_nodes g /\ dst e < n_nodes g.

Lemma labelling_relabel comp u v :
  labelling g comp -> u < n_nodes g -> v < n_nodes g ->
  get u comp <> get v comp ->
  labelling g (relabel (get v comp) (get u comp) comp) /\
  forall z, z < n_nodes g ->
    get z (relabel (get v comp) (get u comp) comp) =
    if get z comp =? get v comp then get u comp else get z comp.
Proof.
  intros (Hlen & Hidem) Hu Hv Hne.
  assert (Hnew : forall z, z < n_nodes g ->
            get z (relabel (get v comp) (get u comp) comp) =
            if get z comp =? get v comp then get u comp else get z comp).
  { intros z Hz. apply get_relabel; lia. }
  split; [|exact Hnew]. split; [rewrite relabel_length; exact Hlen|].
  intros z Hz. rewrite (Hnew z Hz).
  destruct (Hidem u Hu) as [Hub Hui]. destruct (Hidem z Hz) as [Hzb Hzi].
  destruct (N.eqb_spec (get z comp) (get v comp)) as [Heq|Hneq].
  - split; [exact Hub|]. rewrite (Hnew _ Hub), Hui.
    destruct (N.eqb_spec (get u comp) (get v comp)); [contradiction|reflexivity].
  - split; [exact Hzb|]. rewrite (Hnew _ Hzb), Hzi.
    destruct (N.eqb_spec (get z comp) (get v comp)); [contradiction|reflexivity].
Qed.

Lemma joined_next comp0 comp c :
  joined g comp0 comp c ->
  (forall e, In e (graph_edges g) ->
     min_cross comp0 c (edge_triples g) = triple e ->
     get (src e) comp = get (dst e) comp) ->
  joined g comp0 comp (c + 1).
Proof.
  intros (Hlab & Href & Hdone) Hc. split; [exact Hlab|]. split; [exact Href|].
  intros c' e Hc' He Hm. destruct (N.eq_dec c' c) as [->|Hne]; [auto|].
  apply (Hdone c' e); [lia|exact He|exact Hm].
Qed.

Lemma triple_inj e e' : triple e = triple e' -> e = e'.
Proof. destruct e, e'. unfold triple. cbn. intros [= -> -> ->]. reflexivity. Qed.

(** A round serves every label: at its end each picked edge joins nodes of
    one label. *)
Lemma merge_joins comp0 : forall (j : nat) c comp total,
  c + N.of_nat j = n_nodes g ->
  joined g comp0 comp c ->
  joined g comp0 (fst (merge comp total (all_mins comp0 (edge_triples g) j c)))
         (n_nodes g).
Proof.
  induction j as [|j IH]; intros c comp total Hc Hj.
  - cbn [all_mins merge fst]. replace (n_nodes g) with c by lia. exact Hj.
  - cbn [all_mins].
    assert (Hc1 : U32.add c 1 = c + 1)
      by (unfold U32.add; apply N.mod_small; lia).
    rewrite Hc1.
    destruct (min_cross_cases comp0 c (graph_edges g))
      as [(Hr & _)|(e & He & Hr & Hx & Hw & Hmin)];
      change (map triple (graph_edges g)) with (edge_triples g) in Hr; rewrite Hr.
    + cbn [merge edge3]. cbn zeta. unfold U32.eq. rewrite N.eqb_refl.
      apply IH; [lia|]. apply joined_next; [exact Hj|].
      intros e' _ He'. rewrite Hr in He'. injection He' as <- <- _. reflexivity.
    + unfold triple at 1. cbn [merge edge3]. cbn zeta. unfold U32.eq.
      destruct (N.eqb_spec (get (src e) comp) (get (dst e) comp)) as [Heq|Hne].
      * apply IH; [lia|]. apply joined_next; [exact Hj|].
        intros e' _ He'. rewrite Hr in He'. apply triple_inj in He'. subst e'. exact Heq.
      * apply IH; [lia|].
        destruct Hj as (Hlab & Href & Hdone).
        destruct (Hrange e He) as [Hu Hv].
        destruct (labelling_relabel comp (src e) (dst e) Hlab Hu Hv Hne)
          as (Hlab' & Hnew).
        split; [exact Hlab'|]. split.
        -- intros z z' Hz Hz' Heq0. rewrite !Hnew by assumption.
           rewrite (Href z z' Hz Hz' Heq0). reflexivity.
        -- intros c' e' Hc' He' Hm. destruct (Hrange e' He') as [Hu' Hv'].
           rewrite !Hnew by assumption.
           destruct (N.eq_dec c' c) as [->|Hcc].
           ++ rewrite Hr in Hm. apply triple_inj in Hm. subst e'.
              rewrite N.eqb_refl.
              destruct (N.eqb_spec (get (src e) comp) (get (dst e) comp));
                [contradiction|reflexivity].
           ++ rewrite (Hdone c' e' ltac:(lia) He' Hm). reflexivity.
Qed.

Lemma In_active comp k :
  In k (active_labels g comp) <->
  k < n_nodes g /\ get k comp = k /\
  exists e, In e (graph_edges g) /\ light e /\ crossing comp k e.
Proof.
  unfold active_labels, activeb.
  rewrite <- list_elem_of_In, list_elem_of_filter, list_elem_of_In.
  rewrite in_map_iff, andb_true_iff, existsb_exists, N.eqb_eq.
  split.
  - intros ((Hk & e & He & Hb) & i & <- & Hi). apply in_seq in Hi.
    apply andb_true_iff in Hb. destruct Hb as [Hw Hx]. apply N.ltb_lt in Hw.
    split; [lia|]. split; [exact Hk|]. exists e. auto.
  - intros (Hk & Hfix & e & He & Hl & Hx). split.
    + split; [exact Hfix|]. exists e. split; [exact He|].
      apply andb_true_iff. split; [apply N.ltb_lt; exact Hl|exact Hx].
    + exists (N.to_nat k). split; [lia|]. apply in_seq. lia.
Qed.

Lemma active_NoDup comp : List.NoDup (active_labels g comp).
Proof.
  unfold active_labels. apply NoDup_ListNoDup, NoDup_filter, NoDup_fmap_2.
  - intros a b Hab. lia.
  - apply NoDup_ListNoDup, List.seq_NoDup.
Qed.

(** The label of a node with a light edge to another label is active. *)
Lemma end_active comp e z z' :
  labelling g comp -> In e (graph_edges g) -> light e ->
  (z = src e /\ z' = dst e \/ z = dst e /\ z' = src e) ->
  get z comp <> get z' comp ->
  In (get z comp) (active_labels g comp).
Proof.
  intros (_ & Hidem) He Hl Hends Hne. destruct (Hrange e He) as [Hu Hv].
  assert (Hz : z < n_nodes g) by (destruct Hends as [[-> _]|[-> _]]; assumption).
  destruct (Hidem z Hz) as [Hb Hi].
  apply In_active. split; [exact Hb|]. split; [exact Hi|].
  exists e. split; [exact He|]. split; [exact Hl|].
  unfold crossing. destruct Hends as [[-> ->]|[-> ->]]; rewrite N.eqb_refl.
  - destruct (N.eqb_spec (get (dst e) comp) (get (src e) comp)); [congruence|reflexivity].
  - destruct (N.eqb_spec (get (src e) comp) (get (dst e) comp)); [congruence|reflexivity].
Qed.

(** A round at least halves the number of active labels. *)
Lemma round_halves comp0 total :
  labelling g comp0 ->
  (2 * length (active_labels g (fst (round comp0 (edge_triples g) (n_nodes g) total)))
   <= length (active_labels g comp0))%nat.
Proof.
  intros Hlab0. unfold round.
  pose proof (merge_joins comp0 (N.to_nat (n_nodes g)) 0 comp0 total ltac:(lia)) as Hj.
  destruct Hj as (Hlab' & Href & Hdone).
  { split; [exact Hlab0|]. split; [auto|]. intros c' e Hc'. lia. }
  set (comp' := fst (merge comp0 total _)) in *.
  apply (two_to_one (fun d => get d comp')); [apply active_NoDup|].
  intros k' Hk'. apply In_active in Hk'.
  destruct Hk' as (Hkn & Hfix & e' & He' & Hl' & Hx').
  destruct (Hrange e' He') as [Hu' Hv'].
  (* the end of [e'] inside the label, and the one outside *)
  assert (Hends : exists z z', z < n_nodes g /\ z' < n_nodes g /\
            (z = src e' /\ z' = dst e' \/ z = dst e' /\ z' = src e') /\
            get z comp' = k' /\ get z' comp' <> k').
  { unfold crossing in Hx'.
    destruct (N.eqb_spec (get (src e') comp') k'), (N.eqb_spec (get (dst e') comp') k');
      try discriminate.
    - exists (src e'), (dst e'). repeat split; auto.
    - exists (dst e'), (src e'). repeat split; auto. }
  destruct Hends as (z & z' & Hz & Hz' & Hzz & Hzk & Hzk').
  assert (Hne0 : get z comp0 <> get z' comp0).
  { intros Heq. apply Hzk'. rewrite <- Hzk. symmetry. apply Href; assumption. }
  pose proof (end_active comp0 e' z z' Hlab0 He' Hl' Hzz Hne0) as Hd1.
  destruct (proj2 Hlab0 z Hz) as [Hd1n Hd1i].
  set (d1 := get z comp0) in *.
  (* the edge picked for that label leads to another active one *)
  destruct (min_cross_cases comp0 d1 (graph_edges g))
    as [(_ & Hnone)|(e & He & Hr & Hx & Hw & _)].
  { exfalso. unfold light, INF in *.
    assert (Hcr : crossing comp0 d1 e').
    { unfold crossing. destruct Hzz as [[-> ->]|[-> ->]]; fold d1; rewrite N.eqb_refl.
      - destruct (N.eqb_spec (get (dst e') comp0) d1); [congruence|reflexivity].
      - destruct (N.eqb_spec (get (src e') comp0) d1); [congruence|reflexivity]. }
    specialize (Hnone e' He' Hcr). lia. }
  change (map triple (graph_edges g)) with (edge_triples g) in Hr.
  pose proof (Hdone d1 e Hd1n He Hr) as Hjoin.
  destruct (Hrange e He) as [Hu Hv].
  assert (Hends2 : exists x y, x < n_nodes g /\ y < n_nodes g /\
            (y = src e /\ x = dst e \/ y = dst e /\ x = src e) /\
            get x comp0 = d1 /\ get y comp0 <> d1).
  { unfold crossing in Hx.
    destruct (N.eqb_spec (get (src e) comp0) d1), (N.eqb_spec (get (dst e) comp0) d1);
      try discriminate.
    - exists (src e), (dst e). repeat split; auto.
    - exists (dst e), (src e). repeat split; auto. }
  destruct Hends2 as (x & y & Hxn & Hyn & Hxy & Hxd & Hyd).
  assert (Hd2 : In (get y comp0) (active_labels g comp0)).
  { apply (end_active comp0 e y x Hlab0 He Hw Hxy). congruence. }
  destruct (proj2 Hlab0 y Hyn) as [Hd2n Hd2i].
  exists d1, (get y comp0). split; [exact Hd1|]. split; [exact Hd2|].
  split; [congruence|]. split.
  - rewrite <- Hzk. apply Href; assumption.
  - rewrite <- Hzk.
    transitivity (get y comp'); [apply Href; assumption|].
    transitivity (get x comp').
    + destruct Hxy as [[-> ->]|[-> ->]]; congruence.
    + apply Href; assumption.
Qed.

Lemma after_rounds_labelling (k : nat) : labelling g (fst (after_rounds g k)).
Proof.
  induction k as [|k IH].
  - change (after_rounds g 0) with (own_labels (n_nodes g), 0). cbn [fst].
    split; [unfold own_labels; rewrite length_map, length_seq; reflexivity|].
    intros z Hz. rewrite !get_own_labels by assumption. auto.
  - change (after_rounds g (S k))
      with (round (fst (after_rounds g k)) (edge_triples g) (n_nodes g)
                  (snd (after_rounds g k))).
    unfold round.
    apply (merge_joins (fst (after_rounds g k)) (N.to_nat (n_nodes g)) 0); [lia|].
    split; [exact IH|]. split; [auto|]. intros c' e Hc'. lia.
Qed.

Lemma active_after_rounds (k : nat) :
  (2 ^ k * length (active_labels g (fst (after_rounds g k))) <= N.to_nat (n_nodes g))%nat.
Proof.
  induction k as [|k IH].
  - cbn [Nat.pow]. unfold active_labels.
    pose proof (filter_split (fun k => activeb g (fst (after_rounds g 0)) k = true)
                  (map N.of_nat (seq 0 (N.to_nat (n_nodes g))))) as H.
    rewrite length_map, length_seq in H. lia.
  - change (after_rounds g (S k))
      with (round (fst (after_rounds g k)) (edge_triples g) (n_nodes g)
                  (snd (after_rounds g k))).
    pose proof (round_halves (fst (after_rounds g k)) (snd (after_rounds g k))
                  (after_rounds_labelling k)) as Hhalf.
    cbn [Nat.pow]. nia.
Qed.

(** With [n < 2^(rounds + 1)] the rounds leave no light edge between two
    labels. *)
Lemma enough_rounds (k : nat) :
  (N.to_nat (n_nodes g) < 2 ^ S k)%nat -> converged g (fst (after_rounds g k)).
Proof.
  intros Hk e He Hl.
  destruct (N.eq_dec (get (src e) (fst (after_rounds g k)))
                     (get (dst e) (fst (after_rounds g k)))) as [Heq|Hne];
    [exact Heq|exfalso].
  pose proof (after_rounds_labelling k) as Hlab.
  pose proof (end_active _ e (src e) (dst e) Hlab He Hl ltac:(left; auto) Hne) as H1.
  pose proof (end_active _ e (dst e) (src e) Hlab He Hl ltac:(right; auto)
                ltac:(congruence)) as H2.
  pose proof (two_distinct _ _ _ H1 H2 Hne) as Hlen.
  pose proof (active_after_rounds k) as Hact.
  cbn [Nat.pow] in Hk. nia.
Qed.

End MstRounds.
(** Rounds enough for the number of nodes, [n < 2^(rounds + 1)], leave no
    edge lighter than 999 between two labels, whatever the graph; and once
    that is so, more rounds do not change the total. *)
Theorem mst_rounds_suffice (g : GraphStore.hvm4_graph) (rounds more : N) :
  GraphStore.n_nodes g < U32.modulus ->
  GraphStore.n_nodes g < 2 ^ (rounds + 1) ->
  (forall e, In e (GraphStore.graph_edges g) ->
     GraphStore.src e < GraphStore.n_nodes g /\
     GraphStore.dst e < GraphStore.n_nodes g) ->
  Mst.converged g (fst (Mst.after_rounds g (N.to_nat rounds))) /\
  Mst.mst_main g (rounds + more) = Mst.mst_main g rounds.
Proof.
  intros Hn Hr Hrange.
  assert (Hconv : Mst.converged g (fst (Mst.after_rounds g (N.to_nat rounds)))).
  { apply (enough_rounds g Hn Hrange).
    assert (Hpow : N.of_nat (2 ^ S (N.to_nat rounds)) = 2 ^ (rounds + 1)).
    { rewrite Nat2N.inj_pow. f_equal. lia. }
    lia. }
  split; [exact Hconv|].
  assert (Hmain : forall r, Mst.mst_main g r = snd (Mst.after_rounds g (N.to_nat r))).
  { intros r. unfold Mst.mst_main. rewrite run_after_rounds. reflexivity. }
  rewrite !Hmain. replace (N.to_nat (rounds + more))
    with (N.to_nat more + N.to_nat rounds)%nat by lia.
  unfold Mst.after_rounds. rewrite Nat.iter_add.
  fold (Mst.after_rounds g (N.to_nat rounds)).
  apply f_equal. apply iter_fixed.
  rewrite (converged_round g _ _ Hconv). symmetry. apply surjective_pairing.
Qed.

Lemma mst_rounds_suffice_witness :
  Mst.mst_main Mst.four_nodes 7 = 6.
Proof.
  assert (Hval : Mst.mst_main Mst.four_nodes 2 = 6) by (vm_compute; reflexivity).
  rewrite <- Hval.
  apply (mst_rounds_suffice Mst.four_nodes 2 5
           ltac:(vm_compute; reflexivity) ltac:(vm_compute; reflexivity)
           ltac:(intros e He; vm_compute in He;
                 repeat (destruct He as [<-|He]; [vm_compute; auto|]);
                 destruct He)).
Defined.

(** ** Reading back the numbers printed in collapse mode *)

Section CollapseFacts.

Import Engine Bridge Collapse.

Lemma digit_char_code d : d < 10 -> nat_of_ascii (digit_char d) = (48 + N.to_nat d)%nat.
Proof.
  intros Hd. unfold digit_char. apply nat_ascii_embedding. lia.
Qed.

Lemma digit_of_digit d : d < 10 -> digit_of (digit_char d) = Some d.
Proof.
  intros Hd. unfold digit_of. rewrite digit_char_code by exact Hd.
  destruct (Nat.leb_spec 48 (48 + N.to_nat d)); [|lia].
  destruct (Nat.leb_spec (48 + N.to_nat d) 57); [|lia].
  cbn [andb]. f_equal. lia.
Qed.

Lemma digit_plain c :
  is_digit c ->
  is_space c = false /\ is_blank c = false /\ Ascii.eqb c newline = false /\
  Ascii.eqb c "-" = false /\ Ascii.eqb c "+" = false.
Proof.
  intros (d & Hd & ->).
  assert (Hcases : d = 0 \/ d = 1 \/ d = 2 \/ d = 3 \/ d = 4 \/ d = 5 \/ d = 6 \/
                   d = 7 \/ d = 8 \/ d = 9) by lia.
  repeat (destruct Hcases as [->|Hcases]; [vm_compute; auto|]).
  subst d. vm_compute. auto.
Qed.

Lemma value_from_app a ds ds' :
  value_from a (ds ++ ds') = value_from (value_from a ds) ds'.
Proof. unfold value_from. apply fold_left_app. Qed.

Lemma value_from_shift ds : forall a,
  value_from a ds = a * 10 ^ N.of_nat (length ds) + value_from 0 ds.
Proof.
  induction ds as [|c ds IH]; intros a.
  - cbn. lia.
  - cbn [value_from fold_left length]. fold (value_from (a * 10 + (N.of_nat (nat_of_ascii c) - 48)) ds).
    fold (value_from (0 * 10 + (N.of_nat (nat_of_ascii c) - 48)) ds).
    rewrite IH, (IH (0 * 10 + _)).
    replace (N.of_nat (S (length ds))) with (N.succ (N.of_nat (length ds))) by lia.
    rewrite N.pow_succ_r'. lia.
Qed.

Lemma decimal_digits_spec : forall (fuel : nat) n acc,
  n < 10 ^ N.of_nat fuel -> Forall is_digit acc ->
  let ds := decimal_digits fuel n acc in
  Forall is_digit ds /\
  value_from 0 ds = n * 10 ^ N.of_nat (length acc) + value_from 0 acc /\
  (fuel <> 0%nat -> ds <> []).
Proof.
  induction fuel as [|fuel IH]; intros n acc Hn Hacc; cbn zeta.
  - cbn [decimal_digits]. cbn in Hn. split; [exact Hacc|]. split; [lia|congruence].
  - cbn [decimal_digits].
    assert (Hd : is_digit (digit_char (n mod 10))).
    { exists (n mod 10). split; [lia|reflexivity]. }
    assert (Hval : value_from 0 (digit_char (n mod 10) :: acc) =
                   n mod 10 * 10 ^ N.of_nat (length acc) + value_from 0 acc).
    { cbn [value_from fold_left].
      fold (value_from (0 * 10 + (N.of_nat (nat_of_ascii (digit_char (n mod 10))) - 48)) acc).
      rewrite value_from_shift, digit_char_code by lia.
      replace (0 * 10 + (N.of_nat (48 + N.to_nat (n mod 10)) - 48)) with (n mod 10) by lia.
      reflexivity. }
    destruct (N.ltb_spec n 10) as [Hlt|Hge].
    + split; [constructor; assumption|]. split; [|congruence].
      rewrite Hval, N.mod_small by exact Hlt. reflexivity.
    + replace (N.of_nat (S fuel)) with (N.succ (N.of_nat fuel)) in Hn by lia.
      rewrite N.pow_succ_r' in Hn.
      destruct (IH (n / 10) (digit_char (n mod 10) :: acc) ltac:(lia)
                   ltac:(constructor; assumption)) as (Hall & Hv & Hne).
      split; [exact Hall|]. split.
      * rewrite Hv, Hval. cbn [length].
        replace (N.of_nat (S (length acc))) with (N.succ (N.of_nat (length acc))) by lia.
        rewrite N.pow_succ_r'. nia.
      * intros _ Hnil.
        assert (Hlen : forall f m a, (length a <= length (decimal_digits f m a))%nat).
        { clear. induction f as [|f IHf]; intros m a; cbn [decimal_digits]; [lia|].
          destruct (m <? 10); cbn [length]; [lia|].
          specialize (IHf (m / 10) (digit_char (m mod 10) :: a)). cbn [length] in IHf. lia. }
        specialize (Hlen fuel (n / 10) (digit_char (n mod 10) :: acc)).
        rewrite Hnil in Hlen. cbn [length] in Hlen. lia.
Qed.

Lemma decimal_spec n :
  n < U32.modulus ->
  Forall is_digit (decimal n) /\ value_from 0 (decimal n) = n /\ decimal n <> [].
Proof.
  intros Hn. unfold decimal.
  destruct (decimal_digits_spec 20 n []) as (Hall & Hv & Hne).
  - unfold U32.modulus in Hn. change (2 ^ 32) with 4294967296 in Hn.
    change (10 ^ N.of_nat 20) with 100000000000000000000. lia.
  - constructor.
  - split; [exact Hall|]. split; [|apply Hne; discriminate].
    rewrite Hv. cbn. lia.
Qed.

(** Digits are read up to the first character that is none. *)
Lemma read_digits_value ds rest : forall a seen,
  Forall is_digit ds ->
  match rest with [] => True | c :: _ => digit_of c = None end ->
  seen = true \/ ds <> [] ->
  read_digits (ds ++ rest) a seen = Some (value_from a ds).
Proof.
  induction ds as [|c ds IH]; intros a seen Hall Hrest Hseen.
  - destruct Hseen as [->|Hne]; [|congruence]. cbn [app value_from fold_left].
    destruct rest as [|c rest]; [reflexivity|]. cbn [read_digits]. rewrite Hrest. reflexivity.
  - inversion Hall as [|? ? (d & Hd & ->) Hall']; subst.
    cbn [app read_digits]. rewrite digit_of_digit by exact Hd.
    rewrite IH by auto. cbn [value_from fold_left].
    rewrite digit_char_code by exact Hd. unfold value_from. do 3 f_equal. lia.
Qed.

Lemma skip_digit p c l : p c = false -> skip_while p (c :: l) = c :: l.
Proof. intros H. cbn [skip_while]. rewrite H. reflexivity. Qed.

Lemma after_newline_digits ds rest :
  Forall is_digit ds -> after_newline (ds ++ newline :: rest) = Some rest.
Proof.
  induction 1 as [|c ds Hc Hall IH]; cbn [app after_newline].
  - change (Ascii.eqb newline newline) with true. reflexivity.
  - destruct (digit_plain c Hc) as (_ & _ & -> & _). exact IH.
Qed.

(** One printed line is read as its number. *)
Lemma strtoul10_line v rest :
  v < U32.modulus ->
  strtoul10 (decimal v ++ newline :: rest) = Some v.
Proof.
  intros Hv. destruct (decimal_spec v Hv) as (Hall & Hval & Hne).
  destruct (decimal v) as [|c ds] eqn:Hdec; [congruence|].
  pose proof (List.Forall_inv Hall) as Hc.
  destruct (digit_plain c Hc) as (Hsp & _ & _ & Hminus & Hplus).
  unfold strtoul10. cbn [app]. rewrite skip_digit by exact Hsp.
  rewrite Hminus, Hplus.
  change (c :: ds ++ newline :: rest) with ((c :: ds) ++ newline :: rest).
  rewrite read_digits_value; [|exact Hall|vm_compute; reflexivity|right; discriminate].
  rewrite Hval. unfold ULONG_MAX.
  destruct (N.ltb_spec (2 ^ 64 - 1) v) as [Hbig|_]; [|reflexivity].
  unfold U32.modulus in Hv. change (2 ^ 32) with 4294967296 in Hv.
  change (2 ^ 64 - 1) with 18446744073709551615 in Hbig. lia.
Qed.

(** The loop over a text of printed numbers. *)
Lemma parse_printed : forall vs fuel out (count : nat),
  (count <= length out)%nat ->
  (forall v, In v vs -> v < U32.modulus) ->
  (length (printed vs) < fuel)%nat ->
  parse_lines fuel (printed vs) out (Z.of_nat count) (Z.of_nat (length out)) =
  (take count out ++ take (length out - count) vs ++ drop (count + length vs) out,
   Z.of_nat (count + Nat.min (length vs) (length out - count))).
Proof.
  induction vs as [|v vs IH]; intros fuel out count Hcount Hvs Hfuel.
  - destruct fuel as [|fuel]; [simpl in Hfuel; lia|].
    cbn [printed flat_map parse_lines length]. rewrite take_nil, Nat.add_0_r.
    cbn [app]. rewrite take_drop. do 2 f_equal. lia.
  - destruct fuel as [|fuel]; [simpl in Hfuel; lia|].
    assert (Hv : v < U32.modulus) by (apply Hvs; left; reflexivity).
    destruct (decimal_spec v Hv) as (Hall & Hval & Hne).
    change (printed (v :: vs)) with ((decimal v ++ [newline]) ++ printed vs) in *.
    rewrite <- app_assoc in *. cbn [app] in *.
    pose proof (strtoul10_line v (printed vs) Hv) as Hstr.
    pose proof (after_newline_digits (decimal v) (printed vs) Hall) as Hnext.
    destruct (decimal v) as [|c ds] eqn:Hdec; [congruence|].
    pose proof (List.Forall_inv Hall) as Hc.
    destruct (digit_plain c Hc) as (_ & Hbl & Hnl & _).
    cbn [app] in *. cbn [parse_lines].
    destruct (Z.ltb_spec (Z.of_nat count) (Z.of_nat (length out))) as [Hlt|Hge].
    + rewrite skip_digit by exact Hbl. rewrite Hnl, Hstr, Hnext.
      rewrite N.mod_small by exact Hv. rewrite Nat2Z.id.
      replace (Z.of_nat count + 1)%Z with (Z.of_nat (S count)) by lia.
      rewrite <- (length_insert out count v) at 1.
      rewrite IH; [|rewrite length_insert; lia|intros x Hx; apply Hvs; right; exact Hx|
                   cbn [length] in Hfuel; rewrite length_app in Hfuel;
                   cbn [length] in Hfuel; lia].
      rewrite length_insert. f_equal; [|cbn [length]; lia].
      rewrite take_insert_snoc by lia.
      rewrite drop_insert_lt by lia.
      replace (length out - count)%nat with (S (length out - S count)) by lia.
      cbn [take length]. rewrite <- app_assoc. cbn [app].
      replace (S count + length vs)%nat with (count + S (length vs))%nat by lia.
      reflexivity.
    + replace (length out - count)%nat with 0%nat by lia.
      rewrite take_0, Nat.min_0_r, Nat.add_0_r. cbn [app].
      rewrite take_ge, drop_ge by lia. rewrite app_nil_r. reflexivity.
Qed.

End CollapseFacts.

(** Collapse mode reads back what was printed: when the captured text is a
    list of numbers below [2^32] in decimal, one per line, [hvm4_run]
    returns as many of them as the buffer holds, in order, in the first
    cells of the buffer, and leaves the other cells as they were. *)
Theorem collapse_reads_printed_numbers (fuel : nat) (env : Bridge.outcome)
    (limit : Z) (vs out : list N) :
  Bridge.src_copy_ok env = true -> Bridge.main_entry env <> 0 ->
  Bridge.memstream_ok env = true -> (0 < limit)%Z ->
  Bridge.captured env = Collapse.printed vs ->
  (forall v, In v vs -> v < U32.modulus) ->
  Bridge.hvm4_run fuel env limit out (Z.of_nat (length out)) =
    Some (Z.of_nat (Nat.min (length vs) (length out)),
          take (length out) vs ++ drop (length vs) out).
Proof.
  intros Hcopy Hmain Hms Hlim Hcap Hvs. unfold Bridge.hvm4_run.
  rewrite Hcopy, Hms. cbn [negb]. apply N.eqb_neq in Hmain. rewrite Hmain.
  destruct (Z.ltb_spec 0 limit) as [_|]; [|lia].
  rewrite Hcap.
  pose proof (parse_printed vs (S (length (Collapse.printed vs))) out 0
                ltac:(lia) Hvs ltac:(lia)) as Hparse.
  change (Z.of_nat 0) with 0%Z in Hparse. rewrite Hparse.
  rewrite Nat.sub_0_r. reflexivity.
Qed.

Lemma collapse_reads_printed_numbers_witness :
  Bridge.hvm4_run 0 Bridge.printed_three 1 [7; 7; 7; 7] 4 = Some (3%Z, [1; 2; 3; 7]) /\
  Bridge.hvm4_run 0 Bridge.printed_three 1 [7; 7] 2 = Some (2%Z, [1; 2]).
Proof.
  split.
  - exact (collapse_reads_printed_numbers 0 Bridge.printed_three 1 [1; 2; 3] [7; 7; 7; 7]
             eq_refl ltac:(discriminate) eq_refl ltac:(lia) eq_refl
             ltac:(intros v Hv; vm_compute in Hv;
                   repeat (destruct Hv as [<-|Hv]; [vm_compute; reflexivity|]);
                   destruct Hv)).
  - exact (collapse_reads_printed_numbers 0 Bridge.printed_three 1 [1; 2; 3] [7; 7]
             eq_refl ltac:(discriminate) eq_refl ltac:(lia) eq_refl
             ltac:(intros v Hv; vm_compute in Hv;
                   repeat (destruct Hv as [<-|Hv]; [vm_compute; reflexivity|]);
                   destruct Hv)).
Defined.
(** Normalize mode reads a list off the heap: when the normal form of
    [@main] is a list of numbers and the buffer has at least [max_out]
    cells, [hvm4_run] returns the length of the list, whatever the capacity,
    writes its first [max_out] elements, in order, into the first cells, and
    leaves every other cell, those from [max_out] on among them, as it
    was. *)
Theorem normalize_reads_list (fuel : nat) (env : Bridge.outcome)
    (limit : Z) (vs out : list N) (max_out : Z) :
  Bridge.src_copy_ok env = true -> Bridge.main_entry env <> 0 ->
  (limit <= 0)%Z ->
  Closure.is_list (Bridge.heap_after env) (Bridge.normal_form env) vs ->
  (length vs < fuel)%nat ->
  (max_out <= Z.of_nat (length out))%Z ->
  Bridge.hvm4_run fuel env limit out max_out =
    Some (Z.of_nat (length vs),
          take (Z.to_nat max_out) vs ++
          drop (Nat.min (Z.to_nat max_out) (length vs)) out).
Proof.
  intros Hcopy Hmain Hlim Hlist Hfuel Hmax. unfold Bridge.hvm4_run.
  rewrite Hcopy. cbn [negb]. apply N.eqb_neq in Hmain. rewrite Hmain.
  destruct (Z.ltb_spec 0 limit) as [|_]; [lia|].
  rewrite extract_nums_term_nums, (term_nums_is_list _ _ _ Hlist) by exact Hfuel.
  rewrite write_from_window by exact Hmax. reflexivity.
Qed.

Lemma normalize_reads_list_witness :
  Bridge.hvm4_run 9 Bridge.normal_three 0 [7; 7; 7; 7] 4 = Some (3%Z, [1; 2; 3; 7]) /\
  Bridge.hvm4_run 9 Bridge.normal_three 0 [7; 7; 7; 7] 2 = Some (3%Z, [1; 2; 7; 7]) /\
  Bridge.hvm4_run 9 Bridge.normal_three 0 [7; 7; 7; 7] (-1) = Some (3%Z, [7; 7; 7; 7]).
Proof.
  assert (Hlist : Closure.is_list Bridge.list_heap (Engine.mkTerm Engine.C02 0) [1; 2; 3]).
  { apply Closure.is_list_cons; [reflexivity|reflexivity|].
    apply Closure.is_list_cons; [reflexivity|reflexivity|].
    apply Closure.is_list_cons; [reflexivity|reflexivity|].
    apply Closure.is_list_nil. reflexivity. }
  split; [|split].
  - exact (normalize_reads_list 9 Bridge.normal_three 0 [1; 2; 3] [7; 7; 7; 7] 4
             eq_refl ltac:(discriminate) ltac:(lia) Hlist ltac:(simpl; lia)
             ltac:(simpl; lia)).
  - exact (normalize_reads_list 9 Bridge.normal_three 0 [1; 2; 3] [7; 7; 7; 7] 2
             eq_refl ltac:(discriminate) ltac:(lia) Hlist ltac:(simpl; lia)
             ltac:(simpl; lia)).
  - exact (normalize_reads_list 9 Bridge.normal_three 0 [1; 2; 3] [7; 7; 7; 7] (-1)
             eq_refl ltac:(discriminate) ltac:(lia) Hlist ltac:(simpl; lia)
             ltac:(simpl; lia)).
Defined.
